(** * War Room state store and map level-of-detail: a shallow embedding

    The development follows [war-room.service.ts] (class [WarRoomService])
    and the level-of-detail helper of the map component
    ([getPinLodState]).

    State.  The store's signals become the fields of one record, [Store],
    that every operation takes and returns; the lines written with
    [console.warn] are one more field.  Arrays are lists, read and written
    by index with stdpp's [!!] and [<[i:=x]>]; [find] and [findIndex] are
    stdpp's [list_find].

    Numbers.  A JavaScript [number] is a binary64 value: a rational or one
    of the three non-finite values.  Sums, products, quotients and decimal
    literals are rounded to the nearest binary64 value, halves to the even
    one, and overflow to an infinity ([binary64]).  The sign of zero is not
    modelled: there is one zero, and a zero divisor counts as [+0].

    Text.  Identifiers and labels are [string]s, and [slugify] and the
    upper-casing of a group name know the ASCII letters only.  The input of
    [parseLocationInput] is a list of UTF-16 code units, with the white
    space of ECMAScript.

    Promises.  [parseLocationInput] is a tree that settles or awaits a
    fetch and goes on with whatever the network answers; its messages to
    the development console ([logDebug], [logWarn]) are left out. *)

From Stdlib Require Import QArith Qcanon Qround Ascii String.
From stdpp Require Import base list strings numbers sorting pretty.

Local Open Scope Z_scope.
Local Open Scope string_scope.
Local Open Scope list_scope.

(* ===================================================================== *)
(** ** JavaScript numbers *)
(* ===================================================================== *)

Inductive number : Type :=
  | Fin (q : Qc)
  | NaN
  | PosInf
  | NegInf.

Global Instance number_eq_dec : EqDecision number.
Proof. solve_decision. Defined.

(** [2^e] as a rational. *)
Definition pow2 (e : Z) : Qc :=
  if (e <? 0)%Z then Q2Qc (1 # Z.to_pos (2 ^ (- e))) else Qc_of_Z (2 ^ e).

(** The integer nearest to [num / den], a half going to the even one. *)
Definition nearest_even (num den : Z) : Z :=
  let below := (num / den)%Z in
  match (2 * (num mod den) ?= den)%Z with
  | Lt => below
  | Gt => (below + 1)%Z
  | Eq => if Z.even below then below else (below + 1)%Z
  end.

(** The [e] with [2^e <= a / d < 2^(e+1)], for positive [a] and [d]. *)
Definition log2_ratio (a d : Z) : Z :=
  let e := (Z.log2 a - Z.log2 d)%Z in
  if (e <? 0)%Z
  then (if (d <=? a * 2 ^ (- e))%Z then e else (e - 1)%Z)
  else (if (d * 2 ^ e <=? a)%Z then e else (e - 1)%Z).

(** The binary64 value of a real: the nearest number with 53 significant
    bits and a last place not below [2^-1074], a half going to the even
    significand; an infinity when that number would reach [2^1024]. *)
Definition binary64 (q : Qc) : number :=
  let n := Qnum (this q) in
  let d := Zpos (Qden (this q)) in
  if (n =? 0)%Z then Fin 0%Qc
  else
    let a := Z.abs n in
    let lastPlace := Z.max (log2_ratio a d - 52) (-1074) in
    let significand :=
      if (lastPlace <? 0)%Z then nearest_even (a * 2 ^ (- lastPlace)) d
      else nearest_even a (d * 2 ^ lastPlace) in
    if (2 ^ 1024 <=? significand * 2 ^ lastPlace)%Z
    then (if (n <? 0)%Z then NegInf else PosInf)
    else Fin (Qc_of_Z (Z.sgn n * significand) * pow2 lastPlace)%Qc.

(** An integer literal; the development writes the integers of the code
    with it, all of which binary64 holds exactly. *)
Definition num_of_Z (z : Z) : number := Fin (Qc_of_Z z).

(** A decimal literal [m / 10^e], as in [1.2] = [dec 12 1]. *)
Definition dec (m : Z) (e : nat) : number :=
  binary64 (Qc_of_Z m / Qc_of_Z (10 ^ Z.of_nat e))%Qc.

Definition Qc_sgn (q : Qc) : Z := Z.sgn (Qnum (this q)).

(** [Number.isFinite] *)
Definition isFinite (x : number) : bool :=
  match x with Fin _ => true | _ => false end.

(** Truthiness of a number: [0] and [NaN] are falsy. *)
Definition truthy (x : number) : bool :=
  match x with
  | Fin q => negb (bool_decide (q = 0%Qc))
  | NaN => false
  | PosInf | NegInf => true
  end.

(** [x === y] on numbers: [NaN] equals nothing, itself included. *)
Definition num_eqb (x y : number) : bool :=
  match x, y with
  | Fin a, Fin b => bool_decide (a = b)
  | PosInf, PosInf | NegInf, NegInf => true
  | _, _ => false
  end.

(** [x < y]; every comparison with [NaN] is false. *)
Definition num_ltb (x y : number) : bool :=
  match x, y with
  | NaN, _ | _, NaN => false
  | Fin a, Fin b => bool_decide (a < b)%Qc
  | NegInf, NegInf => false
  | NegInf, _ => true
  | _, PosInf => match x with PosInf => false | _ => true end
  | _, _ => false
  end.

(** [x <= y] *)
Definition num_leb (x y : number) : bool :=
  match x, y with
  | NaN, _ | _, NaN => false
  | Fin a, Fin b => bool_decide (a ≤ b)%Qc
  | NegInf, _ => true
  | _, PosInf => true
  | _, _ => false
  end.

(** [x > y] and [x >= y] are the mirrored comparisons. *)
Definition num_gtb (x y : number) : bool := num_ltb y x.
Definition num_geb (x y : number) : bool := num_leb y x.

Definition sign_inf (s : Z) : number :=
  match s with
  | Z0 => NaN
  | Zpos _ => PosInf
  | Zneg _ => NegInf
  end.

Definition num_sgn (x : number) : option Z :=
  match x with
  | Fin q => Some (Qc_sgn q)
  | PosInf => Some 1
  | NegInf => Some (-1)
  | NaN => None
  end.

(** [x + y] *)
Definition num_add (x y : number) : number :=
  match x, y with
  | NaN, _ | _, NaN => NaN
  | Fin a, Fin b => binary64 (a + b)%Qc
  | PosInf, NegInf | NegInf, PosInf => NaN
  | PosInf, _ | _, PosInf => PosInf
  | NegInf, _ | _, NegInf => NegInf
  end.

(** [x * y]; infinity times zero is [NaN]. *)
Definition num_mul (x y : number) : number :=
  match x, y with
  | NaN, _ | _, NaN => NaN
  | Fin a, Fin b => binary64 (a * b)%Qc
  | _, _ =>
      match num_sgn x, num_sgn y with
      | Some s, Some t => sign_inf (s * t)
      | _, _ => NaN
      end
  end.

(** [x / y]; a finite non-zero number over zero is an infinity of the
    numerator's sign, zero over zero and infinity over infinity are [NaN]. *)
Definition num_div (x y : number) : number :=
  match x, y with
  | NaN, _ | _, NaN => NaN
  | Fin a, Fin b =>
      if bool_decide (b = 0%Qc) then sign_inf (Qc_sgn a) else binary64 (a / b)%Qc
  | Fin _, _ => Fin 0%Qc
  | _, Fin b =>
      match num_sgn x with
      | Some s => sign_inf (s * (if bool_decide (b = 0%Qc) then 1 else Qc_sgn b))
      | None => NaN
      end
  | _, _ => NaN
  end.

(** [Math.round]: the nearest integer, halves towards [+Infinity]. *)
Definition Math_round (x : number) : number :=
  match x with
  | Fin q => binary64 (Qc_of_Z (Qfloor (this (q + Q2Qc (1 # 2))%Qc)))
  | _ => x
  end.

(** [ToNumber] of a possibly missing field: [undefined] becomes [NaN]. *)
Definition toNumber (x : option number) : number := default NaN x.

(** [x || d] on a possibly missing number. *)
Definition num_or (x : option number) (d : number) : number :=
  match x with
  | Some v => if truthy v then v else d
  | None => d
  end.

(* ===================================================================== *)
(** ** Marker level of detail (map component) *)
(* ===================================================================== *)

Definition LOD_LOGO_ONLY_THRESHOLD : number := dec 12 1.
Definition LOD_FULL_DETAIL_THRESHOLD : number := dec 25 1.

Inductive LodClass := lod_low | lod_medium | lod_high.

Record PinLodState := {
  isLogoOnly : bool;
  isCompactLogo : bool;
  isFullDetail : bool;
  lodClass : LodClass;
}.

Definition getPinLodState (zoomFactor : number) (isSelected : bool) : PinLodState :=
  let isLogoOnly0 := num_ltb zoomFactor LOD_LOGO_ONLY_THRESHOLD in
  let isCompactLogo0 :=
    num_geb zoomFactor LOD_LOGO_ONLY_THRESHOLD &&
    num_ltb zoomFactor LOD_FULL_DETAIL_THRESHOLD in
  let isFullDetail0 := num_geb zoomFactor LOD_FULL_DETAIL_THRESHOLD in
  let '(isLogoOnly1, isCompactLogo1, isFullDetail1) :=
    if isSelected then (false, false, true)
    else (isLogoOnly0, isCompactLogo0, isFullDetail0) in
  let lodClass1 :=
    if isFullDetail1 then lod_high
    else if isCompactLogo1 then lod_medium
    else lod_low in
  {| isLogoOnly := isLogoOnly1;
     isCompactLogo := isCompactLogo1;
     isFullDetail := isFullDetail1;
     lodClass := lodClass1 |}.

(* ===================================================================== *)
(** ** Strings as JavaScript uses them *)
(* ===================================================================== *)

(** Truthiness of an optional string: [undefined] and [''] are falsy. *)
Definition truthy_str (x : option string) : bool :=
  match x with
  | Some s => negb (bool_decide (s = ""))
  | None => false
  end.

(** [x || y] where both sides are optional strings. *)
Definition str_or (x y : option string) : option string :=
  if truthy_str x then x else y.

Definition upper_ascii (c : ascii) : ascii :=
  let n := N_of_ascii c in
  if ((97 <=? n) && (n <=? 122))%N then ascii_of_N (n - 32) else c.

Definition lower_ascii (c : ascii) : ascii :=
  let n := N_of_ascii c in
  if ((65 <=? n) && (n <=? 90))%N then ascii_of_N (n + 32) else c.

Fixpoint string_map (f : ascii → ascii) (s : string) : string :=
  match s with
  | EmptyString => EmptyString
  | String c s' => String (f c) (string_map f s')
  end.

(** A [string] as the list of its characters. *)
Abbreviation chars := (list ascii).

(** [toUpperCase] and [toLowerCase], on the ASCII letters. *)
Definition toUpperCase : string → string := string_map upper_ascii.
Definition toLowerCase : string → string := string_map lower_ascii.

(** [x ?? y], and [x || y] where [x] is an object or missing. *)
Definition nullish {A} (x : option A) (y : A) : A := default y x.
Definition nullish_opt {A} (x y : option A) : option A :=
  match x with Some _ => x | None => y end.

(* ===================================================================== *)
(** ** Data model *)
(* ===================================================================== *)

(** The interface declarations of the entities ([war-room.interface.ts])
    are not among the sources.  Each type below is modelled from the spec's
    data model and from the way the service reads and writes it; a field
    that may be absent is an [option], and fields the service never touches
    are left out. *)

(** Modelled from the spec: the three hierarchy levels, which are also the
    three view modes ['parent'], ['subsidiary'] and ['factory']. *)
Inductive MapViewMode := Parent | Subsidiary | Factory.

Global Instance MapViewMode_eq_dec : EqDecision MapViewMode.
Proof. solve_decision. Defined.

(** Modelled from the spec: a latitude and a longitude. *)
Record Coordinates := {
  latitude : number;
  longitude : number;
}.

Global Instance Coordinates_eq_dec : EqDecision Coordinates.
Proof. solve_decision. Defined.

(** Modelled from the spec: the aggregate metrics of a group or subsidiary. *)
Record Metrics := {
  assetCount : number;
  incidentCount : number;
  syncStability : number;
}.

Global Instance Metrics_eq_dec : EqDecision Metrics.
Proof. solve_decision. Defined.

(** Modelled from the spec: a factory, with the ids of its ancestors, its
    coordinates and its asset, incident and sync-stability figures. *)
Record FactoryLocation := {
  factory_id : string;
  factory_parentGroupId : string;
  factory_subsidiaryId : string;
  factory_name : string;
  factory_city : string;
  factory_country : string;
  factory_coordinates : option Coordinates;
  factory_description : string;
  factory_assets : option number;
  factory_incidents : number;
  factory_syncStability : number;
  factory_status : string;
  factory_logo : option string;
}.

Global Instance FactoryLocation_eq_dec : EqDecision FactoryLocation.
Proof. solve_decision. Defined.

(** Modelled from the spec: a hub of a subsidiary. *)
Record Hub := {
  hub_code : string;
  hub_status : string;
}.

Global Instance Hub_eq_dec : EqDecision Hub.
Proof. solve_decision. Defined.

(** Modelled from the spec: a subsidiary, owning its hubs and factories. *)
Record SubsidiaryCompany := {
  subsidiary_id : string;
  subsidiary_parentGroupId : string;
  subsidiary_name : string;
  subsidiary_location : option string;
  subsidiary_description : option string;
  subsidiary_status : string;
  subsidiary_hubs : list Hub;
  subsidiary_factories : list FactoryLocation;
  subsidiary_metrics : Metrics;
  subsidiary_logo : option string;
}.

Global Instance SubsidiaryCompany_eq_dec : EqDecision SubsidiaryCompany.
Proof. solve_decision. Defined.

(** Modelled from the spec: a parent group, owning its subsidiaries. *)
Record ParentGroup := {
  group_id : string;
  group_name : string;
  group_status : string;
  group_subsidiaries : list SubsidiaryCompany;
  group_metrics : Metrics;
  group_description : option string;
  group_logo : option string;
}.

Global Instance ParentGroup_eq_dec : EqDecision ParentGroup.
Proof. solve_decision. Defined.

(** Modelled from the spec: the selection, a level, the id at that level and
    the ids of its ancestors. *)
Record FleetSelection := {
  sel_level : MapViewMode;
  sel_id : string;
  sel_parentGroupId : option string;
  sel_subsidiaryId : option string;
  sel_factoryId : option string;
}.

Global Instance FleetSelection_eq_dec : EqDecision FleetSelection.
Proof. solve_decision. Defined.

(** Modelled from the spec: a timestamp is a [Date] object or a string.  A
    [Date] holds a time value in milliseconds, or [NaN] (here [None]) when
    it is invalid. *)
Inductive Timestamp :=
  | TDate (timeValue : option Z)
  | TString (text : string).

Global Instance Timestamp_eq_dec : EqDecision Timestamp.
Proof. solve_decision. Defined.

(** Modelled from the spec: an entry of the activity log. *)
Record ActivityLog := {
  log_factoryId : string;
  log_subsidiaryId : string;
  log_timestamp : Timestamp;
  log_description : string;
  log_location : string;
}.

Global Instance ActivityLog_eq_dec : EqDecision ActivityLog.
Proof. solve_decision. Defined.

(** Modelled from the spec: a route between two endpoints named by text. *)
Record TransitRoute := {
  route_id : string;
  route_from : string;
  route_to : string;
}.

(** Modelled from the spec: the network metrics, as [getEmptyState] lists
    them. *)
Record NetworkMetrics := {
  dataFlowIntegrity : number;
  fleetSyncRate : number;
  networkLatency : number;
  nodeDensity : number;
  encryptionProtocol : string;
  encryptionStatus : string;
}.

(** Modelled from the spec: the network throughput. *)
Record NetworkThroughput := {
  bars : list number;
  channelStatus : string;
  throughput : string;
}.

(** Modelled from the spec: the heatmap grid. *)
Record GeopoliticalHeatmap := {
  grid : list (list number);
  rows : number;
  cols : number;
}.

(** Modelled from the spec: the status of a satellite. *)
Record SatelliteStatus := {
  satellite_id : string;
  satellite_status : string;
}.

(* ===================================================================== *)
(** ** The store *)
(* ===================================================================== *)

(** One field per private signal of [WarRoomService], and the lines written
    with [console.warn]. *)
Record Store := {
  _parentGroups : list ParentGroup;
  _transitRoutes : list TransitRoute;
  _activityLogs : list ActivityLog;
  _networkMetrics : option NetworkMetrics;
  _networkThroughput : option NetworkThroughput;
  _geopoliticalHeatmap : option GeopoliticalHeatmap;
  _satelliteStatuses : list SatelliteStatus;
  _mapViewMode : MapViewMode;
  _selectedEntity : option FleetSelection;
  _hoveredEntity : option FleetSelection;
  _factoryFilterSubsidiaryId : option string;
  _panToEntity : option (string * Z);
  console : list string;
}.

Definition set_parentGroups (v : list ParentGroup) (st : Store) : Store :=
  {| _parentGroups := v;
     _transitRoutes := _transitRoutes st;
     _activityLogs := _activityLogs st;
     _networkMetrics := _networkMetrics st;
     _networkThroughput := _networkThroughput st;
     _geopoliticalHeatmap := _geopoliticalHeatmap st;
     _satelliteStatuses := _satelliteStatuses st;
     _mapViewMode := _mapViewMode st;
     _selectedEntity := _selectedEntity st;
     _hoveredEntity := _hoveredEntity st;
     _factoryFilterSubsidiaryId := _factoryFilterSubsidiaryId st;
     _panToEntity := _panToEntity st;
     console := console st |}.

Definition set_activityLogs (v : list ActivityLog) (st : Store) : Store :=
  {| _parentGroups := _parentGroups st;
     _transitRoutes := _transitRoutes st;
     _activityLogs := v;
     _networkMetrics := _networkMetrics st;
     _networkThroughput := _networkThroughput st;
     _geopoliticalHeatmap := _geopoliticalHeatmap st;
     _satelliteStatuses := _satelliteStatuses st;
     _mapViewMode := _mapViewMode st;
     _selectedEntity := _selectedEntity st;
     _hoveredEntity := _hoveredEntity st;
     _factoryFilterSubsidiaryId := _factoryFilterSubsidiaryId st;
     _panToEntity := _panToEntity st;
     console := console st |}.

Definition set_mapViewMode (v : MapViewMode) (st : Store) : Store :=
  {| _parentGroups := _parentGroups st;
     _transitRoutes := _transitRoutes st;
     _activityLogs := _activityLogs st;
     _networkMetrics := _networkMetrics st;
     _networkThroughput := _networkThroughput st;
     _geopoliticalHeatmap := _geopoliticalHeatmap st;
     _satelliteStatuses := _satelliteStatuses st;
     _mapViewMode := v;
     _selectedEntity := _selectedEntity st;
     _hoveredEntity := _hoveredEntity st;
     _factoryFilterSubsidiaryId := _factoryFilterSubsidiaryId st;
     _panToEntity := _panToEntity st;
     console := console st |}.

Definition set_selectedEntity (v : option FleetSelection) (st : Store) : Store :=
  {| _parentGroups := _parentGroups st;
     _transitRoutes := _transitRoutes st;
     _activityLogs := _activityLogs st;
     _networkMetrics := _networkMetrics st;
     _networkThroughput := _networkThroughput st;
     _geopoliticalHeatmap := _geopoliticalHeatmap st;
     _satelliteStatuses := _satelliteStatuses st;
     _mapViewMode := _mapViewMode st;
     _selectedEntity := v;
     _hoveredEntity := _hoveredEntity st;
     _factoryFilterSubsidiaryId := _factoryFilterSubsidiaryId st;
     _panToEntity := _panToEntity st;
     console := console st |}.

Definition set_factoryFilterSubsidiaryId (v : option string) (st : Store) : Store :=
  {| _parentGroups := _parentGroups st;
     _transitRoutes := _transitRoutes st;
     _activityLogs := _activityLogs st;
     _networkMetrics := _networkMetrics st;
     _networkThroughput := _networkThroughput st;
     _geopoliticalHeatmap := _geopoliticalHeatmap st;
     _satelliteStatuses := _satelliteStatuses st;
     _mapViewMode := _mapViewMode st;
     _selectedEntity := _selectedEntity st;
     _hoveredEntity := _hoveredEntity st;
     _factoryFilterSubsidiaryId := v;
     _panToEntity := _panToEntity st;
     console := console st |}.

(** [console.warn(line)] *)
Definition console_warn (line : string) (st : Store) : Store :=
  {| _parentGroups := _parentGroups st;
     _transitRoutes := _transitRoutes st;
     _activityLogs := _activityLogs st;
     _networkMetrics := _networkMetrics st;
     _networkThroughput := _networkThroughput st;
     _geopoliticalHeatmap := _geopoliticalHeatmap st;
     _satelliteStatuses := _satelliteStatuses st;
     _mapViewMode := _mapViewMode st;
     _selectedEntity := _selectedEntity st;
     _hoveredEntity := _hoveredEntity st;
     _factoryFilterSubsidiaryId := _factoryFilterSubsidiaryId st;
     _panToEntity := _panToEntity st;
     console := console st ++ [line] |}.

(** [Array.prototype.find] and [findIndex]: the first match, by linear
    scan. *)
Definition find {A} (P : A → Prop) `{∀ x, Decision (P x)} (l : list A) : option A :=
  snd <$> list_find P l.
Definition findIndex {A} (P : A → Prop) `{∀ x, Decision (P x)} (l : list A) : option nat :=
  fst <$> list_find P l.

(** The computed signals [subsidiaries] and [factories]. *)
Definition subsidiaries (st : Store) : list SubsidiaryCompany :=
  flat_map group_subsidiaries (_parentGroups st).
Definition factories (st : Store) : list FactoryLocation :=
  flat_map subsidiary_factories (subsidiaries st).

(* ===================================================================== *)
(** ** Centre of gravity and aggregate metrics *)
(* ===================================================================== *)

Definition isValidCoordinates (coords : option Coordinates) : bool :=
  match coords with
  | None => false
  | Some c =>
      if negb (isFinite (latitude c)) || negb (isFinite (longitude c)) then false
      else if num_eqb (latitude c) (num_of_Z 0) && num_eqb (longitude c) (num_of_Z 0)
      then false
      else true
  end.

(** [factory.coordinates.latitude]; the store reads it only from factories
    that passed [isValidCoordinates], so the missing case is never met. *)
Definition factory_latitude (f : FactoryLocation) : number :=
  from_option latitude NaN (factory_coordinates f).
Definition factory_longitude (f : FactoryLocation) : number :=
  from_option longitude NaN (factory_coordinates f).

Definition computeCenterOfGravity (factories : list FactoryLocation) : Coordinates :=
  let validFactories :=
    filter (λ factory, isValidCoordinates (factory_coordinates factory)) factories in
  if bool_decide (length validFactories = 0%nat) then
    {| latitude := NaN; longitude := NaN |}
  else
    let totalWeight :=
      foldl (λ sum factory, num_add sum (num_or (factory_assets factory) (num_of_Z 1)))
            (num_of_Z 0) validFactories in
    let weightedLat :=
      foldl (λ sum factory,
               num_add sum (num_mul (factory_latitude factory)
                                    (num_or (factory_assets factory) (num_of_Z 1))))
            (num_of_Z 0) validFactories in
    let weightedLng :=
      foldl (λ sum factory,
               num_add sum (num_mul (factory_longitude factory)
                                    (num_or (factory_assets factory) (num_of_Z 1))))
            (num_of_Z 0) validFactories in
    {| latitude := num_div weightedLat totalWeight;
       longitude := num_div weightedLng totalWeight |}.

Definition computeMetricsFromFactories (factories : list FactoryLocation) : Metrics :=
  let assetCount_ :=
    foldl (λ sum factory, num_add sum (toNumber (factory_assets factory)))
          (num_of_Z 0) factories in
  let incidentCount_ :=
    foldl (λ sum factory, num_add sum (factory_incidents factory))
          (num_of_Z 0) factories in
  let totalWeight :=
    foldl (λ sum factory, num_add sum (num_or (factory_assets factory) (num_of_Z 1)))
          (num_of_Z 0) factories in
  let weightedSync :=
    foldl (λ sum factory,
             num_add sum (num_mul (factory_syncStability factory)
                                  (num_or (factory_assets factory) (num_of_Z 1))))
          (num_of_Z 0) factories in
  let syncStability_ :=
    if num_gtb totalWeight (num_of_Z 0)
    then num_div (Math_round (num_mul (num_div weightedSync totalWeight) (num_of_Z 10)))
                 (num_of_Z 10)
    else num_of_Z 0 in
  {| assetCount := assetCount_;
     incidentCount := incidentCount_;
     syncStability := syncStability_ |}.

Definition computeMetricsFromSubsidiaries (subsidiaries : list SubsidiaryCompany) : Metrics :=
  let assetCount_ :=
    foldl (λ sum sub, num_add sum (assetCount (subsidiary_metrics sub)))
          (num_of_Z 0) subsidiaries in
  let incidentCount_ :=
    foldl (λ sum sub, num_add sum (incidentCount (subsidiary_metrics sub)))
          (num_of_Z 0) subsidiaries in
  let totalWeight :=
    foldl (λ sum sub,
             num_add sum (num_or (Some (assetCount (subsidiary_metrics sub))) (num_of_Z 1)))
          (num_of_Z 0) subsidiaries in
  let weightedSync :=
    foldl (λ sum sub,
             num_add sum
               (num_mul (syncStability (subsidiary_metrics sub))
                        (num_or (Some (assetCount (subsidiary_metrics sub))) (num_of_Z 1))))
          (num_of_Z 0) subsidiaries in
  let syncStability_ :=
    if num_gtb totalWeight (num_of_Z 0)
    then num_div (Math_round (num_mul (num_div weightedSync totalWeight) (num_of_Z 10)))
                 (num_of_Z 10)
    else num_of_Z 0 in
  {| assetCount := assetCount_;
     incidentCount := incidentCount_;
     syncStability := syncStability_ |}.

(* ===================================================================== *)
(** ** Selection and view mode *)
(* ===================================================================== *)

(** The value of an optional string when it is truthy. *)
Definition if_truthy (x : option string) : option string :=
  if truthy_str x then x else None.

Definition normalizeSelection (selection : FleetSelection) (st : Store)
  : option FleetSelection :=
  match sel_level selection with
  | Parent =>
      match find (λ group, group_id group = sel_id selection) (_parentGroups st) with
      | None => None
      | Some parent =>
          Some {| sel_level := Parent;
                  sel_id := group_id parent;
                  sel_parentGroupId := Some (group_id parent);
                  sel_subsidiaryId := None;
                  sel_factoryId := None |}
      end
  | Subsidiary =>
      match find (λ sub, subsidiary_id sub = sel_id selection) (subsidiaries st) with
      | None => None
      | Some subsidiary =>
          Some {| sel_level := Subsidiary;
                  sel_id := subsidiary_id subsidiary;
                  sel_parentGroupId := Some (subsidiary_parentGroupId subsidiary);
                  sel_subsidiaryId := Some (subsidiary_id subsidiary);
                  sel_factoryId := None |}
      end
  | Factory =>
      match find (λ fac, factory_id fac = sel_id selection) (factories st) with
      | None => None
      | Some factory =>
          Some {| sel_level := Factory;
                  sel_id := factory_id factory;
                  sel_parentGroupId := Some (factory_parentGroupId factory);
                  sel_subsidiaryId := Some (factory_subsidiaryId factory);
                  sel_factoryId := Some (factory_id factory) |}
      end
  end.

Definition getFirstFactoryForSelection (selection : FleetSelection) (st : Store)
  : option FactoryLocation :=
  match sel_level selection with
  | Subsidiary =>
      subsidiary ← find (λ sub, subsidiary_id sub = sel_id selection) (subsidiaries st);
      subsidiary_factories subsidiary !! 0%nat
  | Parent =>
      parentId ← str_or (sel_parentGroupId selection) (Some (sel_id selection));
      parent ← find (λ group, group_id group = parentId) (_parentGroups st);
      subsidiary ← group_subsidiaries parent !! 0%nat;
      subsidiary_factories subsidiary !! 0%nat
  | Factory => None
  end.

Definition setMapViewMode (viewMode : MapViewMode) (st0 : Store) : Store :=
  let st := set_factoryFilterSubsidiaryId None (set_mapViewMode viewMode st0) in
  match _selectedEntity st with
  | None => st
  | Some selection =>
      if bool_decide (sel_level selection = viewMode) then st
      else
        match viewMode with
        | Parent =>
            match if_truthy (str_or (sel_parentGroupId selection)
                                    (Some (sel_id selection))) with
            | Some parentId =>
                set_selectedEntity
                  (Some {| sel_level := Parent;
                           sel_id := parentId;
                           sel_parentGroupId := Some parentId;
                           sel_subsidiaryId := None;
                           sel_factoryId := None |}) st
            | None => st
            end
        | Subsidiary =>
            match if_truthy
                    (str_or (sel_subsidiaryId selection)
                            (if bool_decide (sel_level selection = Subsidiary)
                             then Some (sel_id selection) else None)) with
            | Some subsidiaryId =>
                let parentId :=
                  str_or (sel_parentGroupId selection)
                         (subsidiary_parentGroupId <$>
                            find (λ sub, subsidiary_id sub = subsidiaryId)
                                 (subsidiaries st)) in
                set_selectedEntity
                  (Some {| sel_level := Subsidiary;
                           sel_id := subsidiaryId;
                           sel_parentGroupId := if_truthy parentId;
                           sel_subsidiaryId := Some subsidiaryId;
                           sel_factoryId := None |}) st
            | None => st
            end
        | Factory =>
            if bool_decide (sel_level selection = Subsidiary) then st
            else
              match if_truthy (sel_factoryId selection) with
              | Some factoryId =>
                  set_selectedEntity
                    (Some {| sel_level := Factory;
                             sel_id := factoryId;
                             sel_parentGroupId := sel_parentGroupId selection;
                             sel_subsidiaryId := sel_subsidiaryId selection;
                             sel_factoryId := Some factoryId |}) st
              | None =>
                  match getFirstFactoryForSelection selection st with
                  | Some fallbackFactory =>
                      set_selectedEntity
                        (Some {| sel_level := Factory;
                                 sel_id := factory_id fallbackFactory;
                                 sel_parentGroupId :=
                                   Some (factory_parentGroupId fallbackFactory);
                                 sel_subsidiaryId :=
                                   Some (factory_subsidiaryId fallbackFactory);
                                 sel_factoryId := Some (factory_id fallbackFactory) |}) st
                  | None => st
                  end
              end
        end
  end.

Definition selectEntity (selection : option FleetSelection) (st : Store) : Store :=
  match selection with
  | None => set_selectedEntity None st
  | Some selection =>
      if bool_decide (sel_level selection = Subsidiary) &&
         negb (bool_decide (_mapViewMode st = Subsidiary))
      then st
      else
        let normalized := normalizeSelection selection st in
        let st := set_selectedEntity normalized st in
        match normalized with
        | Some normalized =>
            let currentViewMode := _mapViewMode st in
            if negb (bool_decide (sel_level normalized = Factory) &&
                     bool_decide (currentViewMode = Subsidiary))
            then set_mapViewMode (sel_level normalized) st
            else st
        | None => st
        end
  end.

(* ===================================================================== *)
(** ** Loading a snapshot *)
(* ===================================================================== *)

(** Modelled from the spec: the snapshot document, with the members
    [applyState] reads.  A member that [applyState] guards with a default
    is an [option]. *)
Record WarRoomState := {
  state_transitRoutes : list TransitRoute;
  state_activityLogs : list ActivityLog;
  state_networkMetrics : option NetworkMetrics;
  state_networkThroughput : option NetworkThroughput;
  state_geopoliticalHeatmap : option GeopoliticalHeatmap;
  state_satelliteStatuses : list SatelliteStatus;
  state_parentGroups : list ParentGroup;
  state_mapViewMode : option MapViewMode;
  state_selectedEntity : option FleetSelection;
  state_selectedCompanyId : option string;
}.

Definition getEmptyState : WarRoomState :=
  {| state_transitRoutes := [];
     state_activityLogs := [];
     state_networkMetrics :=
       Some {| dataFlowIntegrity := num_of_Z 0;
               fleetSyncRate := num_of_Z 0;
               networkLatency := num_of_Z 0;
               nodeDensity := num_of_Z 0;
               encryptionProtocol := "";
               encryptionStatus := "" |};
     state_networkThroughput :=
       Some {| bars := []; channelStatus := ""; throughput := "" |};
     state_geopoliticalHeatmap :=
       Some {| grid := []; rows := num_of_Z 0; cols := num_of_Z 0 |};
     state_satelliteStatuses := [];
     state_parentGroups := [];
     state_mapViewMode := Some Parent;
     state_selectedEntity := None;
     state_selectedCompanyId := None |}.

(** The store as the field initialisers of the class leave it. *)
Definition initial_store : Store :=
  {| _parentGroups := [];
     _transitRoutes := [];
     _activityLogs := [];
     _networkMetrics := None;
     _networkThroughput := None;
     _geopoliticalHeatmap := None;
     _satelliteStatuses := [];
     _mapViewMode := Parent;
     _selectedEntity := None;
     _hoveredEntity := None;
     _factoryFilterSubsidiaryId := None;
     _panToEntity := None;
     console := [] |}.

(** [applyState]: the snapshot is taken as it is; the stored metrics of its
    groups and subsidiaries are not recomputed. *)
Definition applyState (data : WarRoomState) (st0 : Store) : Store :=
  let st :=
    {| _parentGroups := state_parentGroups data;
       _transitRoutes := state_transitRoutes data;
       _activityLogs := state_activityLogs data;
       _networkMetrics :=
         nullish_opt (state_networkMetrics data) (state_networkMetrics getEmptyState);
       _networkThroughput :=
         nullish_opt (state_networkThroughput data)
                     (state_networkThroughput getEmptyState);
       _geopoliticalHeatmap :=
         nullish_opt (state_geopoliticalHeatmap data)
                     (state_geopoliticalHeatmap getEmptyState);
       _satelliteStatuses := state_satelliteStatuses data;
       _mapViewMode := default Parent (state_mapViewMode data);
       _selectedEntity := _selectedEntity st0;
       _hoveredEntity := _hoveredEntity st0;
       _factoryFilterSubsidiaryId := _factoryFilterSubsidiaryId st0;
       _panToEntity := _panToEntity st0;
       console := console st0 |} in
  match state_selectedEntity data with
  | Some selection => set_selectedEntity (normalizeSelection selection st) st
  | None =>
      match if_truthy (state_selectedCompanyId data) with
      | Some selectedCompanyId =>
          match find (λ sub, subsidiary_id sub = selectedCompanyId) (subsidiaries st) with
          | Some legacySubsidiary =>
              set_mapViewMode Subsidiary
                (set_selectedEntity
                   (Some {| sel_level := Subsidiary;
                            sel_id := subsidiary_id legacySubsidiary;
                            sel_parentGroupId :=
                              Some (subsidiary_parentGroupId legacySubsidiary);
                            sel_subsidiaryId := Some (subsidiary_id legacySubsidiary);
                            sel_factoryId := None |}) st)
          | None => st
          end
      | None =>
          match state_parentGroups data with
          | first :: _ =>
              set_selectedEntity
                (Some {| sel_level := Parent;
                         sel_id := group_id first;
                         sel_parentGroupId := Some (group_id first);
                         sel_subsidiaryId := None;
                         sel_factoryId := None |}) st
          | [] => st
          end
      end
  end.

(* ===================================================================== *)
(** ** Map nodes *)
(* ===================================================================== *)

(** Modelled from the spec: a node, the map-renderable projection of one
    group, subsidiary or factory. *)
Record Node := {
  node_id : string;
  node_name : string;
  node_company : string;
  node_companyId : string;
  node_city : string;
  node_description : string;
  node_logo : option string;
  node_country : string;
  node_coordinates : option Coordinates;
  node_type : string;
  node_status : string;
  node_isHub : bool;
  node_hubCode : option string;
  node_level : MapViewMode;
  node_parentGroupId : option string;
  node_subsidiaryId : option string;
  node_factoryId : option string;
}.

(** [a || b] on strings: the empty string is falsy. *)
Definition string_or (a b : string) : string :=
  if bool_decide (a = "") then b else a.

Definition mapOperationalStatus (status : string) : string :=
  if bool_decide (status = "MAINTENANCE") then "OFFLINE"
  else if bool_decide (status = "PAUSED") then "OFFLINE"
  else "ACTIVE".

Definition is_slug_char (c : ascii) : bool :=
  let n := N_of_ascii c in
  ((97 <=? n) && (n <=? 122) || (48 <=? n) && (n <=? 57))%N.

(** Every maximal run of characters outside [a-z0-9] becomes one dash;
    [in_run] tells that the dash of the current run is already written. *)
Fixpoint dash_runs (in_run : bool) (s : list ascii) : list ascii :=
  match s with
  | [] => []
  | c :: s' =>
      if is_slug_char c then c :: dash_runs false s'
      else if in_run then dash_runs true s'
      else "-"%char :: dash_runs true s'
  end.

Fixpoint drop_dashes (s : list ascii) : list ascii :=
  match s with
  | "-"%char :: s' => drop_dashes s'
  | _ => s
  end.

(** [slugify]: lower case, runs of other characters to a dash, no dash at
    either end. *)
Definition slugify (value : string) : string :=
  let dashed := dash_runs false (list_ascii_of_string (toLowerCase value)) in
  string_of_list_ascii (reverse (drop_dashes (reverse (drop_dashes dashed)))).

Definition createParentNode (group : ParentGroup) : Node :=
  let factories := flat_map subsidiary_factories (group_subsidiaries group) in
  let coordinates := computeCenterOfGravity factories in
  {| node_id := group_id group;
     node_name := slugify (group_name group);
     node_company := group_name group;
     node_companyId := group_id group;
     node_city := "Global Operations";
     node_description :=
       if truthy_str (group_description group)
       then default "" (group_description group)
       else group_name group +:+ " command overview.";
     node_logo := group_logo group;
     node_country := "";
     node_coordinates := Some coordinates;
     node_type := "Center";
     node_status := mapOperationalStatus (group_status group);
     node_isHub := true;
     node_hubCode := Some "GRP";
     node_level := Parent;
     node_parentGroupId := Some (group_id group);
     node_subsidiaryId := None;
     node_factoryId := None |}.

Definition createSubsidiaryNode (subsidiary : SubsidiaryCompany) : Node :=
  let coordinates := computeCenterOfGravity (subsidiary_factories subsidiary) in
  let fallbackCity :=
    string_or (from_option factory_city "" (subsidiary_factories subsidiary !! 0%nat))
              (subsidiary_name subsidiary) in
  {| node_id := subsidiary_id subsidiary;
     node_name := slugify (subsidiary_name subsidiary);
     node_company := subsidiary_name subsidiary;
     node_companyId := subsidiary_id subsidiary;
     node_city :=
       if truthy_str (subsidiary_location subsidiary)
       then default "" (subsidiary_location subsidiary)
       else fallbackCity;
     node_description :=
       if truthy_str (subsidiary_description subsidiary)
       then default "" (subsidiary_description subsidiary)
       else subsidiary_name subsidiary +:+ " regional operations.";
     node_logo := subsidiary_logo subsidiary;
     node_country :=
       from_option factory_country "" (subsidiary_factories subsidiary !! 0%nat);
     node_coordinates := Some coordinates;
     node_type := "Hub";
     node_status := mapOperationalStatus (subsidiary_status subsidiary);
     node_isHub := true;
     node_hubCode := hub_code <$> subsidiary_hubs subsidiary !! 0%nat;
     node_level := Subsidiary;
     node_parentGroupId := Some (subsidiary_parentGroupId subsidiary);
     node_subsidiaryId := Some (subsidiary_id subsidiary);
     node_factoryId := None |}.

Definition createFactoryNode (factory : FactoryLocation)
    (subsidiary : option SubsidiaryCompany) : Node :=
  let companyName := string_or (from_option subsidiary_name "" subsidiary) "Factory" in
  let hubCode := subsidiary ≫= λ sub, hub_code <$> subsidiary_hubs sub !! 0%nat in
  {| node_id := factory_id factory;
     node_name := slugify (string_or (factory_city factory) (factory_name factory));
     node_company := companyName;
     node_companyId := factory_id factory;
     node_city := factory_city factory;
     node_description := factory_description factory;
     node_logo := str_or (factory_logo factory) (subsidiary ≫= subsidiary_logo);
     node_country := factory_country factory;
     node_coordinates := factory_coordinates factory;
     node_type := "Facility";
     node_status := factory_status factory;
     node_isHub := true;
     node_hubCode := hubCode;
     node_level := Factory;
     node_parentGroupId := Some (factory_parentGroupId factory);
     node_subsidiaryId := Some (factory_subsidiaryId factory);
     node_factoryId := Some (factory_id factory) |}.

(** The factories a subsidiary filter lets through: those of the subsidiary
    and those tagged with the sentinel id. *)
Definition passes_filter (factoryFilterSubsidiaryId : string) (factory : FactoryLocation)
  : Prop :=
  factory_subsidiaryId factory = factoryFilterSubsidiaryId ∨
  factory_subsidiaryId factory = "fleetzero" ∨
  factory_id factory = "fleetzero".

Definition buildMapNodes (viewMode : MapViewMode) (selection : option FleetSelection)
    (factoryFilterSubsidiaryId : option string) (st : Store) : list Node :=
  let parentGroups := _parentGroups st in
  let factoryNode (factory : FactoryLocation) : Node :=
    createFactoryNode factory
      (find (λ sub, subsidiary_id sub = factory_subsidiaryId factory) (subsidiaries st)) in
  match viewMode with
  | Parent => createParentNode <$> parentGroups
  | Subsidiary =>
      match if_truthy factoryFilterSubsidiaryId with
      | Some filterId => factoryNode <$> filter (passes_filter filterId) (factories st)
      | None => createSubsidiaryNode <$> subsidiaries st
      end
  | Factory =>
      let shown :=
        match if_truthy factoryFilterSubsidiaryId with
        | Some filterId => filter (passes_filter filterId) (factories st)
        | None => factories st
        end in
      factoryNode <$> shown
  end.

(** The computed signal [nodes]. *)
Definition nodes (st : Store) : list Node :=
  buildMapNodes (_mapViewMode st) (_selectedEntity st) (_factoryFilterSubsidiaryId st) st.

Definition setFactoryFilterSubsidiaryId (subsidiaryId : option string) (st : Store)
  : Store :=
  set_factoryFilterSubsidiaryId subsidiaryId st.

(* ===================================================================== *)
(** ** Activity log *)
(* ===================================================================== *)

(** [Array.prototype.sort(compareFn)].  A comparator result is a number;
    [None] stands for [NaN], which [sort] reads as [+0].  The sort is stable
    (ECMAScript 2019), so for a comparator that is a consistent ordering the
    result is the one computed here, by stable insertion from the right:
    an element moves behind a later one only when the comparator is
    positive.  For an inconsistent comparator ECMAScript leaves the order
    to the implementation. *)
Section Array_sort.
Context {A : Type} (compareFn : A → A → option Z).

Definition sorts_after (a b : A) : bool :=
  match compareFn a b with
  | Some v => bool_decide (0 < v)
  | None => false
  end.

Fixpoint sort_insert (x : A) (l : list A) : list A :=
  match l with
  | [] => [x]
  | y :: l' => if sorts_after x y then y :: sort_insert x l' else x :: y :: l'
  end.

Definition Array_sort (l : list A) : list A := foldr sort_insert [] l.
End Array_sort.

Section ActivityLogs.
(** [new Date(text).getTime()]: the time value a date string parses to,
    [None] when it does not parse.  Which strings parse is up to the
    JavaScript engine. *)
Variable Date_parse : string → option Z.

(** [typeof t === 'string' ? new Date(t) : t], then [getTime()]. *)
Definition getTime (t : Timestamp) : option Z :=
  match t with
  | TString text => Date_parse text
  | TDate timeValue => timeValue
  end.

(** The comparator of [addActivityLog]: [dateB.getTime() - dateA.getTime()]. *)
Definition compareLogs (a b : ActivityLog) : option Z :=
  match getTime (log_timestamp b), getTime (log_timestamp a) with
  | Some tb, Some ta => Some (tb - ta)
  | _, _ => None
  end.

Definition addActivityLog (log : ActivityLog) (st : Store) : Store :=
  let currentLogs := _activityLogs st in
  let filteredLogs := filter (λ l, log_factoryId l ≠ log_factoryId log) currentLogs in
  let updatedLogs := log :: filteredLogs in
  let sortedLogs := take 40 (Array_sort compareLogs updatedLogs) in
  set_activityLogs sortedLogs st.
End ActivityLogs.

(* ===================================================================== *)
(** ** Updates and deletions *)
(* ===================================================================== *)

Record SubsidiaryUpdates := {
  upd_sub_name : option string;
  upd_sub_location : option string;
  upd_sub_description : option string;
  upd_sub_status : option string;
}.

Record FactoryUpdates := {
  upd_name : option string;
  upd_city : option string;
  upd_country : option string;
  upd_description : option string;
  upd_coordinates : option Coordinates;
  upd_locationLabel : option string;
  upd_status : option string;
}.

(** [Partial<Hub>] *)
Record HubUpdates := {
  upd_hub_code : option string;
  upd_hub_status : option string;
}.

Definition with_subsidiaries (subs : list SubsidiaryCompany) (m : Metrics)
    (group : ParentGroup) : ParentGroup :=
  {| group_id := group_id group;
     group_name := group_name group;
     group_status := group_status group;
     group_subsidiaries := subs;
     group_metrics := m;
     group_description := group_description group;
     group_logo := group_logo group |}.

Definition with_factories (facs : list FactoryLocation) (m : Metrics)
    (subsidiary : SubsidiaryCompany) : SubsidiaryCompany :=
  {| subsidiary_id := subsidiary_id subsidiary;
     subsidiary_parentGroupId := subsidiary_parentGroupId subsidiary;
     subsidiary_name := subsidiary_name subsidiary;
     subsidiary_location := subsidiary_location subsidiary;
     subsidiary_description := subsidiary_description subsidiary;
     subsidiary_status := subsidiary_status subsidiary;
     subsidiary_hubs := subsidiary_hubs subsidiary;
     subsidiary_factories := facs;
     subsidiary_metrics := m;
     subsidiary_logo := subsidiary_logo subsidiary |}.

Definition with_hubs (hubs : list Hub) (subsidiary : SubsidiaryCompany)
  : SubsidiaryCompany :=
  {| subsidiary_id := subsidiary_id subsidiary;
     subsidiary_parentGroupId := subsidiary_parentGroupId subsidiary;
     subsidiary_name := subsidiary_name subsidiary;
     subsidiary_location := subsidiary_location subsidiary;
     subsidiary_description := subsidiary_description subsidiary;
     subsidiary_status := subsidiary_status subsidiary;
     subsidiary_hubs := hubs;
     subsidiary_factories := subsidiary_factories subsidiary;
     subsidiary_metrics := subsidiary_metrics subsidiary;
     subsidiary_logo := subsidiary_logo subsidiary |}.

Definition with_metrics (m : Metrics) (subsidiary : SubsidiaryCompany)
  : SubsidiaryCompany :=
  with_factories (subsidiary_factories subsidiary) m subsidiary.

(** The callback that [updateSubsidiaryDetails] maps over a group's
    subsidiaries. *)
Definition applySubsidiaryDetails (subsidiaryId : string) (updates : SubsidiaryUpdates)
    (subsidiary : SubsidiaryCompany) : SubsidiaryCompany :=
  if bool_decide (subsidiary_id subsidiary ≠ subsidiaryId) then subsidiary
  else
    {| subsidiary_id := subsidiary_id subsidiary;
       subsidiary_parentGroupId := subsidiary_parentGroupId subsidiary;
       subsidiary_name := nullish (upd_sub_name updates) (subsidiary_name subsidiary);
       subsidiary_location :=
         nullish_opt (upd_sub_location updates) (subsidiary_location subsidiary);
       subsidiary_description :=
         nullish_opt (upd_sub_description updates) (subsidiary_description subsidiary);
       subsidiary_status := nullish (upd_sub_status updates) (subsidiary_status subsidiary);
       subsidiary_hubs := subsidiary_hubs subsidiary;
       subsidiary_factories := subsidiary_factories subsidiary;
       subsidiary_metrics := subsidiary_metrics subsidiary;
       subsidiary_logo := subsidiary_logo subsidiary |}.

(** In the three mapping updates below the flag [groupChanged] of the source
    is set by the inner callback exactly when it meets a subsidiary it
    rewrites, and [updated] when some group changed. *)
Definition updateSubsidiaryDetails (subsidiaryId : string) (updates : SubsidiaryUpdates)
    (st : Store) : Store :=
  let groups := _parentGroups st in
  let updated :=
    bool_decide (Exists (λ group,
      Exists (λ sub, subsidiary_id sub = subsidiaryId) (group_subsidiaries group)) groups) in
  let updatedGroups :=
    (λ group,
       let groupChanged :=
         bool_decide (Exists (λ sub, subsidiary_id sub = subsidiaryId)
                             (group_subsidiaries group)) in
       let updatedSubsidiaries :=
         applySubsidiaryDetails subsidiaryId updates <$> group_subsidiaries group in
       if negb groupChanged then group
       else with_subsidiaries updatedSubsidiaries
              (computeMetricsFromSubsidiaries updatedSubsidiaries) group) <$> groups in
  if updated then set_parentGroups updatedGroups st else st.

Definition applyFactoryUpdates (updates : FactoryUpdates) (existingFactory : FactoryLocation)
  : FactoryLocation :=
  {| factory_id := factory_id existingFactory;
     factory_parentGroupId := factory_parentGroupId existingFactory;
     factory_subsidiaryId := factory_subsidiaryId existingFactory;
     factory_name := nullish (upd_name updates) (factory_name existingFactory);
     factory_city := nullish (upd_city updates) (factory_city existingFactory);
     factory_country := nullish (upd_country updates) (factory_country existingFactory);
     factory_coordinates :=
       nullish_opt (upd_coordinates updates) (factory_coordinates existingFactory);
     factory_description :=
       nullish (upd_description updates) (factory_description existingFactory);
     factory_assets := factory_assets existingFactory;
     factory_incidents := factory_incidents existingFactory;
     factory_syncStability := factory_syncStability existingFactory;
     factory_status := nullish (upd_status updates) (factory_status existingFactory);
     factory_logo := factory_logo existingFactory |}.

(** The callback that [updateFactoryDetails] maps over a group's
    subsidiaries. *)
Definition applyFactoryDetails (factoryId : string) (updates : FactoryUpdates)
    (subsidiary : SubsidiaryCompany) : SubsidiaryCompany :=
  match list_find (λ factory, factory_id factory = factoryId)
                  (subsidiary_factories subsidiary) with
  | None => subsidiary
  | Some (factoryIndex, existingFactory) =>
      let updatedFactory := applyFactoryUpdates updates existingFactory in
      let updatedFactories := <[factoryIndex := updatedFactory]> (subsidiary_factories subsidiary) in
      with_factories updatedFactories (computeMetricsFromFactories updatedFactories) subsidiary
  end.

Definition applyLogDetails (factoryId : string) (updates : FactoryUpdates)
    (log : ActivityLog) : ActivityLog :=
  if bool_decide (log_factoryId log ≠ factoryId) then log
  else
    let nextDescription := nullish (upd_description updates) (log_description log) in
    let nextLocation := nullish (upd_locationLabel updates) (log_location log) in
    if bool_decide (nextDescription = log_description log) &&
       bool_decide (nextLocation = log_location log)
    then log
    else {| log_factoryId := log_factoryId log;
            log_subsidiaryId := log_subsidiaryId log;
            log_timestamp := log_timestamp log;
            log_description := nextDescription;
            log_location := nextLocation |}.

Definition updateFactoryDetails (factoryId : string) (updates : FactoryUpdates)
    (st : Store) : Store :=
  let groups := _parentGroups st in
  let has_factory (sub : SubsidiaryCompany) : Prop :=
    Exists (λ factory, factory_id factory = factoryId) (subsidiary_factories sub) in
  let updated :=
    bool_decide (Exists (λ group, Exists has_factory (group_subsidiaries group)) groups) in
  let updatedGroups :=
    (λ group,
       let groupChanged := bool_decide (Exists has_factory (group_subsidiaries group)) in
       let updatedSubsidiaries :=
         applyFactoryDetails factoryId updates <$> group_subsidiaries group in
       if negb groupChanged then group
       else with_subsidiaries updatedSubsidiaries
              (computeMetricsFromSubsidiaries updatedSubsidiaries) group) <$> groups in
  let st1 := if updated then set_parentGroups updatedGroups st else st in
  if bool_decide (is_Some (upd_description updates)) || truthy_str (upd_locationLabel updates)
  then set_activityLogs (applyLogDetails factoryId updates <$> _activityLogs st1) st1
  else st1.

Definition deleteSubsidiary (subsidiaryId : string) (st : Store) : Store :=
  let groups := _parentGroups st in
  match find (λ subsidiary, subsidiary_id subsidiary = subsidiaryId) (subsidiaries st) with
  | None => st
  | Some removedSubsidiary =>
      let parentGroupId := subsidiary_parentGroupId removedSubsidiary in
      let updatedGroups :=
        (λ group,
           let remainingSubsidiaries :=
             filter (λ subsidiary, subsidiary_id subsidiary ≠ subsidiaryId)
                    (group_subsidiaries group) in
           if bool_decide (length remainingSubsidiaries = length (group_subsidiaries group))
           then group
           else with_subsidiaries remainingSubsidiaries
                  (computeMetricsFromSubsidiaries remainingSubsidiaries) group) <$> groups in
      let st1 := set_parentGroups updatedGroups st in
      let removedFactoryIds := factory_id <$> subsidiary_factories removedSubsidiary in
      let st2 :=
        set_activityLogs
          (filter (λ log, log_subsidiaryId log ≠ subsidiaryId ∧
                          log_factoryId log ∉ removedFactoryIds)
                  (_activityLogs st1)) st1 in
      match _selectedEntity st2 with
      | Some selection =>
          if bool_decide (sel_subsidiaryId selection = Some subsidiaryId) ||
             bool_decide (sel_id selection = subsidiaryId)
          then
            if truthy_str (Some parentGroupId) then
              set_mapViewMode Parent
                (set_selectedEntity
                   (Some {| sel_level := Parent;
                            sel_id := parentGroupId;
                            sel_parentGroupId := Some parentGroupId;
                            sel_subsidiaryId := None;
                            sel_factoryId := None |}) st2)
            else set_selectedEntity None st2
          else st2
      | None => st2
      end
  end.

(** [Array.prototype.map] with a callback that also assigns variables of
    the enclosing function: the variables are threaded through the calls,
    left to right. *)
Fixpoint map_accum {S A B} (f : S → A → S * B) (s : S) (l : list A) : S * list B :=
  match l with
  | [] => (s, [])
  | x :: l' =>
      let '(s1, y) := f s x in
      let '(s2, ys) := map_accum f s1 l' in
      (s2, y :: ys)
  end.

(** The variables [deleteFactory]'s callbacks assign. *)
Record DeleteFactoryVars := {
  var_parentGroupId : option string;
  var_subsidiaryId : option string;
  var_groupChanged : bool;
  var_updated : bool;
}.

Definition deleteFactory_subsidiary (factoryId : string) (group : ParentGroup)
    (vars : DeleteFactoryVars) (subsidiary : SubsidiaryCompany)
  : DeleteFactoryVars * SubsidiaryCompany :=
  let remainingFactories :=
    filter (λ factory, factory_id factory ≠ factoryId) (subsidiary_factories subsidiary) in
  if bool_decide (length remainingFactories = length (subsidiary_factories subsidiary))
  then (vars, subsidiary)
  else
    ({| var_parentGroupId := Some (group_id group);
        var_subsidiaryId := Some (subsidiary_id subsidiary);
        var_groupChanged := true;
        var_updated := var_updated vars |},
     with_factories remainingFactories (computeMetricsFromFactories remainingFactories)
       subsidiary).

Definition deleteFactory_group (factoryId : string) (vars : DeleteFactoryVars)
    (group : ParentGroup) : DeleteFactoryVars * ParentGroup :=
  let '(vars1, updatedSubsidiaries) :=
    map_accum (deleteFactory_subsidiary factoryId group)
      {| var_parentGroupId := var_parentGroupId vars;
         var_subsidiaryId := var_subsidiaryId vars;
         var_groupChanged := false;
         var_updated := var_updated vars |}
      (group_subsidiaries group) in
  if negb (var_groupChanged vars1) then (vars1, group)
  else
    ({| var_parentGroupId := var_parentGroupId vars1;
        var_subsidiaryId := var_subsidiaryId vars1;
        var_groupChanged := var_groupChanged vars1;
        var_updated := true |},
     with_subsidiaries updatedSubsidiaries
       (computeMetricsFromSubsidiaries updatedSubsidiaries) group).

Definition deleteFactory (factoryId : string) (st : Store) : Store :=
  let groups := _parentGroups st in
  let '(vars, updatedGroups) :=
    map_accum (deleteFactory_group factoryId)
      {| var_parentGroupId := None;
         var_subsidiaryId := None;
         var_groupChanged := false;
         var_updated := false |} groups in
  if negb (var_updated vars) then st
  else
    let st1 := set_parentGroups updatedGroups st in
    let st2 :=
      set_activityLogs
        (filter (λ log, log_factoryId log ≠ factoryId) (_activityLogs st1)) st1 in
    match _selectedEntity st2 with
    | Some selection =>
        if bool_decide (sel_factoryId selection = Some factoryId) ||
           bool_decide (sel_id selection = factoryId)
        then
          match if_truthy (var_subsidiaryId vars), if_truthy (var_parentGroupId vars) with
          | Some subsidiaryId, parentGroupId =>
              set_mapViewMode Subsidiary
                (set_selectedEntity
                   (Some {| sel_level := Subsidiary;
                            sel_id := subsidiaryId;
                            sel_parentGroupId := parentGroupId;
                            sel_subsidiaryId := Some subsidiaryId;
                            sel_factoryId := None |}) st2)
          | None, Some parentGroupId =>
              set_mapViewMode Parent
                (set_selectedEntity
                   (Some {| sel_level := Parent;
                            sel_id := parentGroupId;
                            sel_parentGroupId := Some parentGroupId;
                            sel_subsidiaryId := None;
                            sel_factoryId := None |}) st2)
          | None, None => set_selectedEntity None st2
          end
        else st2
    | None => st2
    end.

Definition applyHubUpdates (updates : HubUpdates) (hub : Hub) : Hub :=
  {| hub_code := nullish (upd_hub_code updates) (hub_code hub);
     hub_status := nullish (upd_hub_status updates) (hub_status hub) |}.

Definition updateHubStatus (subsidiaryId hubCode : string) (updates : HubUpdates)
    (st : Store) : Store :=
  let groups := _parentGroups st in
  match list_find (λ group,
          Exists (λ sub, subsidiary_id sub = subsidiaryId) (group_subsidiaries group))
        groups with
  | None => st
  | Some (parentIndex, parent) =>
      match list_find (λ sub, subsidiary_id sub = subsidiaryId)
                      (group_subsidiaries parent) with
      | None => st
      | Some (subsidiaryIndex, subsidiary) =>
          match list_find (λ hub, hub_code hub = hubCode) (subsidiary_hubs subsidiary) with
          | None => st
          | Some (hubIndex, hub) =>
              let updatedHubs :=
                <[hubIndex := applyHubUpdates updates hub]> (subsidiary_hubs subsidiary) in
              let updatedSubsidiary := with_hubs updatedHubs subsidiary in
              let updatedSubsidiaries :=
                <[subsidiaryIndex := updatedSubsidiary]> (group_subsidiaries parent) in
              let updatedParent :=
                with_subsidiaries updatedSubsidiaries
                  (computeMetricsFromSubsidiaries updatedSubsidiaries) parent in
              set_parentGroups (<[parentIndex := updatedParent]> groups) st
          end
      end
  end.

(* ===================================================================== *)
(** ** Adding and replacing subsidiaries and factories *)
(* ===================================================================== *)

(** [addSubsidiary] and [updateSubsidiary] call each other, and so do
    [addFactory] and [updateFactory].  The recursion is on a call budget;
    [None] means the budget ran out.  Two calls always suffice (see
    [addSubsidiary_fuel_total] and its siblings). *)
Fixpoint addSubsidiary_fuel (fuel : nat) (subsidiary : SubsidiaryCompany) (st : Store)
  : option Store :=
  match fuel with
  | O => None
  | S fuel' =>
      let groups := _parentGroups st in
      let normalizedSubsidiary :=
        with_metrics (computeMetricsFromFactories (subsidiary_factories subsidiary))
          subsidiary in
      match list_find (λ group, group_id group = subsidiary_parentGroupId subsidiary)
                      groups with
      | None =>
          let newParent :=
            {| group_id := subsidiary_parentGroupId subsidiary;
               group_name := toUpperCase (subsidiary_parentGroupId subsidiary);
               group_status := "ACTIVE";
               group_subsidiaries := [normalizedSubsidiary];
               group_metrics := computeMetricsFromSubsidiaries [normalizedSubsidiary];
               group_description := None;
               group_logo := None |} in
          Some (set_parentGroups (groups ++ [newParent]) st)
      | Some (parentIndex, parent) =>
          match findIndex (λ sub, subsidiary_id sub = subsidiary_id subsidiary)
                          (group_subsidiaries parent) with
          | Some existingIndex => updateSubsidiary_fuel fuel' normalizedSubsidiary st
          | None =>
              let updatedSubsidiaries := group_subsidiaries parent ++ [normalizedSubsidiary] in
              let updatedParent :=
                with_subsidiaries updatedSubsidiaries
                  (computeMetricsFromSubsidiaries updatedSubsidiaries) parent in
              Some (set_parentGroups (<[parentIndex := updatedParent]> groups) st)
          end
      end
  end
with updateSubsidiary_fuel (fuel : nat) (subsidiary : SubsidiaryCompany) (st : Store)
  : option Store :=
  match fuel with
  | O => None
  | S fuel' =>
      let groups := _parentGroups st in
      match list_find (λ group, group_id group = subsidiary_parentGroupId subsidiary)
                      groups with
      | None =>
          addSubsidiary_fuel fuel' subsidiary
            (console_warn
               ("Parent group " +:+ subsidiary_parentGroupId subsidiary +:+
                " not found. Adding subsidiary instead.") st)
      | Some (parentIndex, parent) =>
          match findIndex (λ sub, subsidiary_id sub = subsidiary_id subsidiary)
                          (group_subsidiaries parent) with
          | None =>
              addSubsidiary_fuel fuel' subsidiary
                (console_warn
                   ("Subsidiary " +:+ subsidiary_id subsidiary +:+
                    " not found. Adding instead.") st)
          | Some subIndex =>
              let updatedSubsidiary :=
                with_metrics (computeMetricsFromFactories (subsidiary_factories subsidiary))
                  subsidiary in
              let updatedSubsidiaries :=
                <[subIndex := updatedSubsidiary]> (group_subsidiaries parent) in
              let updatedParent :=
                with_subsidiaries updatedSubsidiaries
                  (computeMetricsFromSubsidiaries updatedSubsidiaries) parent in
              Some (set_parentGroups (<[parentIndex := updatedParent]> groups) st)
          end
      end
  end.

Fixpoint addFactory_fuel (fuel : nat) (factory : FactoryLocation) (st : Store)
  : option Store :=
  match fuel with
  | O => None
  | S fuel' =>
      let groups := _parentGroups st in
      match list_find (λ group, group_id group = factory_parentGroupId factory) groups with
      | None =>
          Some (console_warn
                  ("Parent group " +:+ factory_parentGroupId factory +:+
                   " not found. Cannot add factory.") st)
      | Some (parentIndex, parent) =>
          match list_find (λ sub, subsidiary_id sub = factory_subsidiaryId factory)
                          (group_subsidiaries parent) with
          | None =>
              Some (console_warn
                      ("Subsidiary " +:+ factory_subsidiaryId factory +:+
                       " not found. Cannot add factory.") st)
          | Some (subIndex, subsidiary) =>
              match find (λ f, factory_id f = factory_id factory)
                         (subsidiary_factories subsidiary) with
              | Some _ =>
                  updateFactory_fuel fuel' factory
                    (console_warn
                       ("Factory " +:+ factory_id factory +:+
                        " already exists. Updating instead.") st)
              | None =>
                  let updatedFactories := subsidiary_factories subsidiary ++ [factory] in
                  let updatedSubsidiary :=
                    with_factories updatedFactories
                      (computeMetricsFromFactories updatedFactories) subsidiary in
                  let updatedSubsidiaries :=
                    <[subIndex := updatedSubsidiary]> (group_subsidiaries parent) in
                  let updatedParent :=
                    with_subsidiaries updatedSubsidiaries
                      (computeMetricsFromSubsidiaries updatedSubsidiaries) parent in
                  Some (set_parentGroups (<[parentIndex := updatedParent]> groups) st)
              end
          end
      end
  end
with updateFactory_fuel (fuel : nat) (factory : FactoryLocation) (st : Store)
  : option Store :=
  match fuel with
  | O => None
  | S fuel' =>
      let groups := _parentGroups st in
      match list_find (λ group, group_id group = factory_parentGroupId factory) groups with
      | None => Some st
      | Some (parentIndex, parent) =>
          match list_find (λ sub, subsidiary_id sub = factory_subsidiaryId factory)
                          (group_subsidiaries parent) with
          | None => Some st
          | Some (subIndex, subsidiary) =>
              match findIndex (λ f, factory_id f = factory_id factory)
                              (subsidiary_factories subsidiary) with
              | None => addFactory_fuel fuel' factory st
              | Some factoryIndex =>
                  let updatedFactories :=
                    <[factoryIndex := factory]> (subsidiary_factories subsidiary) in
                  let updatedSubsidiary :=
                    with_factories updatedFactories
                      (computeMetricsFromFactories updatedFactories) subsidiary in
                  let updatedSubsidiaries :=
                    <[subIndex := updatedSubsidiary]> (group_subsidiaries parent) in
                  let updatedParent :=
                    with_subsidiaries updatedSubsidiaries
                      (computeMetricsFromSubsidiaries updatedSubsidiaries) parent in
                  Some (set_parentGroups (<[parentIndex := updatedParent]> groups) st)
              end
          end
      end
  end.

(** The four operations, with the budget that always suffices. *)
Definition addSubsidiary (subsidiary : SubsidiaryCompany) (st : Store) : Store :=
  default st (addSubsidiary_fuel 2 subsidiary st).
Definition updateSubsidiary (subsidiary : SubsidiaryCompany) (st : Store) : Store :=
  default st (updateSubsidiary_fuel 2 subsidiary st).
Definition addFactory (factory : FactoryLocation) (st : Store) : Store :=
  default st (addFactory_fuel 2 factory st).
Definition updateFactory (factory : FactoryLocation) (st : Store) : Store :=
  default st (updateFactory_fuel 2 factory st).

(* ===================================================================== *)
(** ** Location input *)
(* ===================================================================== *)

(** The input is JavaScript text: a list of UTF-16 code units. *)
Abbreviation text := (list N).

(** The text of a literal of ASCII characters. *)
Definition ascii_text (s : string) : text := N_of_ascii <$> list_ascii_of_string s.

(** The code units the function names: minus sign, point, comma, space. *)
Definition MINUS : N := 45.
Definition POINT : N := 46.
Definition COMMA : N := 44.
Definition SPACE : N := 32.

(** The white space of ECMAScript, which [trim] strips and the pattern's
    [\s] matches: tab, line feed, vertical tab, form feed, carriage return,
    space, no-break space, U+1680, U+2000 to U+200A, the line and the
    paragraph separator, U+202F, U+205F, U+3000 and U+FEFF. *)
Definition is_space (c : N) : bool :=
  ((9 <=? c) && (c <=? 13) || (c =? 32) || (c =? 160) || (c =? 5760) ||
   (8192 <=? c) && (c <=? 8202) || (c =? 8232) || (c =? 8233) || (c =? 8239) ||
   (c =? 8287) || (c =? 12288) || (c =? 65279))%N.

(** The pattern's [\d]: the ten ASCII digits. *)
Definition is_digit (c : N) : bool := ((48 <=? c) && (c <=? 57))%N.

Fixpoint take_while (p : N → bool) (s : text) : text :=
  match s with
  | c :: s' => if p c then c :: take_while p s' else []
  | [] => []
  end.

Fixpoint drop_while (p : N → bool) (s : text) : text :=
  match s with
  | c :: s' => if p c then drop_while p s' else s
  | [] => []
  end.

(** [String.prototype.trim] *)
Definition trim (s : text) : text :=
  reverse (drop_while is_space (reverse (drop_while is_space s))).

(** A text the URI functions accept: every surrogate is half of a pair.
    [encodeURIComponent] throws a [URIError] on any other text. *)
Fixpoint isWellFormed (s : text) : bool :=
  match s with
  | [] => true
  | c :: s' =>
      if ((55296 <=? c) && (c <=? 56319))%N then
        match s' with
        | d :: s'' => ((56320 <=? d) && (d <=? 57343))%N && isWellFormed s''
        | [] => false
        end
      else if ((56320 <=? c) && (c <=? 57343))%N then false
      else isWellFormed s'
  end.

(** A minus sign or a point at the head of [s], if there is one: what was
    taken, and the rest. *)
Definition take_unit (u : N) (s : text) : text * text :=
  match s with
  | c :: r => if (c =? u)%N then ([u], r) else ([], s)
  | [] => ([], s)
  end.

(** One numeral of the pattern, [-?\d+\.?\d*], matched at the head of [s]:
    the matched text and what follows it.  The longest match is the only
    one the rest of the pattern can accept, since the numeral is followed by
    white space, a comma or the end of the text. *)
Definition match_numeral (s : text) : option (text * text) :=
  let '(sign, s1) := take_unit MINUS s in
  let int := take_while is_digit s1 in
  let s2 := drop_while is_digit s1 in
  match int with
  | [] => None
  | _ :: _ =>
      let '(dot, s3) := take_unit POINT s2 in
      let frac := take_while is_digit s3 in
      let s4 := drop_while is_digit s3 in
      Some (sign ++ int ++ dot ++ frac, s4)
  end.

(** [text.match] with the coordinate pattern: a numeral, white space, a comma,
    white space, a numeral, and the end of the text.  The result is the two
    groups. *)
Definition match_coordinates (t : text) : option (text * text) :=
  match match_numeral t with
  | None => None
  | Some (group1, rest1) =>
      match drop_while is_space rest1 with
      | c :: rest2 =>
          if (c =? COMMA)%N then
            match match_numeral (drop_while is_space rest2) with
            | Some (group2, []) => Some (group1, group2)
            | _ => None
            end
          else None
      | [] => None
      end
  end.

Definition digit_value (c : N) : Z := Z.of_N c - 48.

(** The number a run of digits denotes. *)
Definition digits_value (ds : text) : Z :=
  foldl (λ acc c, 10 * acc + digit_value c) 0 ds.

(** The decimal number an unsigned numeral spells: its digits before the
    point, plus its digits after the point over the matching power of
    ten. *)
Definition decimal_magnitude (body : text) : Qc :=
  let int := take_while is_digit body in
  let frac := take_while is_digit (take_unit POINT (drop_while is_digit body)).2 in
  (Qc_of_Z (digits_value int) +
   Qc_of_Z (digits_value frac) / Qc_of_Z (10 ^ Z.of_nat (length frac)))%Qc.

(** [parseFloat] on a text of the shape of the pattern's numerals: an
    optional minus sign, digits, and possibly a point and more digits.  The
    result is the binary64 value of the decimal number, as the engines
    compute it (the standard lets an engine round a literal of more than
    twenty significant digits at the twentieth first). *)
Definition parseFloat (t : text) : number :=
  match t with
  | c :: body =>
      if (c =? MINUS)%N then binary64 (- decimal_magnitude body)%Qc
      else binary64 (decimal_magnitude t)
  | [] => NaN
  end.

(** A candidate of the geocoding service. *)
Record GeocodeResult := {
  geo_latitude : number;
  geo_longitude : number;
  geo_name : text;
  geo_admin1 : option text;
  geo_country : option text;
}.

(** The request [parseLocationInput] sends: a search by name at the
    geocoding endpoint, ten results, English, JSON. *)
Inductive Request :=
  | GeocodeSearch (name : text).

(** What [fetchWithTimeout] and [response.json()] can give: the fetch
    rejects (network error, or abort after five seconds), or there is a
    response, whose body does not parse ([None]) or parses to an object
    with or without a [results] array. *)
Inductive FetchOutcome :=
  | FetchFailed
  | FetchResponse (ok : bool) (status : Z) (body : option (option (list GeocodeResult))).

(** An asynchronous computation: it settles, or it awaits a fetch and goes
    on with its outcome. *)
Inductive Async (A : Type) : Type :=
  | Resolved (value : A)
  | Rejected (message : string)
  | Await (request : Request) (k : FetchOutcome → Async A).
Arguments Resolved {A} value.
Arguments Rejected {A} message.
Arguments Await {A} request k.

(** Running a computation against a network: how it settles, and the
    requests it sent, in order. *)
Fixpoint run {A} (p : Async A) (network : Request → FetchOutcome)
  : (A + string) * list Request :=
  match p with
  | Resolved value => (inl value, [])
  | Rejected message => (inr message, [])
  | Await request k =>
      let '(r, sent) := run (k (network request)) network in
      (r, request :: sent)
  end.

(** [String.prototype.split(sep)] for a separator of one code unit. *)
Fixpoint split (sep : N) (s : text) : list text :=
  match s with
  | [] => [[]]
  | c :: s' =>
      if (c =? sep)%N then [] :: split sep s'
      else match split sep s' with
           | part :: parts => (c :: part) :: parts
           | [] => [[c]]
           end
  end.

(** [Array.prototype.join(sep)] *)
Fixpoint join (sep : text) (parts : list text) : text :=
  match parts with
  | [] => []
  | [part] => part
  | part :: parts' => part ++ sep ++ join sep parts'
  end.

Fixpoint starts_with (needle hay : text) : bool :=
  match needle, hay with
  | [], _ => true
  | c :: needle', d :: hay' => (c =? d)%N && starts_with needle' hay'
  | _ :: _, [] => false
  end.

(** [hay.includes(needle)] *)
Fixpoint includes (hay needle : text) : bool :=
  starts_with needle hay ||
  match hay with
  | [] => false
  | _ :: hay' => includes hay' needle
  end.

Definition RANGE_ERROR : string :=
  "Invalid coordinates. Latitude must be between -90 and 90, longitude between -180 and 180".
Definition NOT_FOUND_ERROR : string := "No geocoding results found for location.".

(** What [fetchGeocodingResult] makes of the outcome of its fetch: a pair
    of coordinates, [null] (here [Some None]), or an exception (here
    [None]). *)
Definition fetchGeocodingResult_outcome (response : FetchOutcome)
  : option (option Coordinates) :=
  match response with
  | FetchFailed => None
  | FetchResponse ok status body =>
      if negb ok then None
      else
        match body with
        | None => None
        | Some None | Some (Some []) => Some None
        | Some (Some (result :: _)) =>
            Some (Some {| latitude := geo_latitude result;
                          longitude := geo_longitude result |})
        end
  end.

Section Location.

(** [String.prototype.toLowerCase] on text: the case conversion of the
  Unicode standard, which the development leaves open. *)
Variable lowerCase : text → text.

(** Does a candidate match the region or country the user typed? *)
Definition matches_context (context : text) (r : GeocodeResult) : bool :=
let matchString :=
  lowerCase (default [] (geo_admin1 r) ++ [SPACE] ++ default [] (geo_country r)) in
existsb (λ term, bool_decide (2 < length term)%nat && includes matchString (trim term))
        (split SPACE context).

(** The second attempt of [parseLocationInput], after its fetch. *)
Definition secondAttempt_outcome (context : text) (response : FetchOutcome)
: Async Coordinates :=
match response with
| FetchResponse true _ (Some (Some (first :: others))) =>
    match List.filter (matches_context context) (first :: others) with
    | m :: _ =>
        Resolved {| latitude := geo_latitude m; longitude := geo_longitude m |}
    | [] =>
        Resolved {| latitude := geo_latitude first; longitude := geo_longitude first |}
    end
| _ => Rejected NOT_FOUND_ERROR
end.

(** The second attempt: a search for the text before the first comma.  A
  text that [encodeURIComponent] refuses ends the attempt before any
  fetch, like every other exception in it. *)
Definition secondAttempt (trimmed : text) : Async Coordinates :=
if bool_decide (COMMA ∈ trimmed) then
  let parts := split COMMA trimmed in
  let simpleCity := trim (default [] (head parts)) in
  let context := lowerCase (join [SPACE] (tail parts)) in
  if isWellFormed simpleCity
  then Await (GeocodeSearch simpleCity) (secondAttempt_outcome context)
  else Rejected NOT_FOUND_ERROR
else Rejected NOT_FOUND_ERROR.

Definition parseLocationInput (input : text) : Async Coordinates :=
let trimmed := trim input in
match match_coordinates trimmed with
| Some (group1, group2) =>
    let latitude_ := parseFloat group1 in
    let longitude_ := parseFloat group2 in
    if num_geb latitude_ (num_of_Z (-90)) && num_leb latitude_ (num_of_Z 90) &&
       num_geb longitude_ (num_of_Z (-180)) && num_leb longitude_ (num_of_Z 180)
    then Resolved {| latitude := latitude_; longitude := longitude_ |}
    else Rejected RANGE_ERROR
| None =>
    if isWellFormed trimmed then
      Await (GeocodeSearch trimmed) (λ response1,
        match fetchGeocodingResult_outcome response1 with
        | Some (Some result) => Resolved result
        | _ => secondAttempt trimmed
        end)
    else secondAttempt trimmed
end.

End Location.

(* ===================================================================== *)
(** ** The remaining signals: readers, plain writers, snapshots *)
(* ===================================================================== *)

Definition set_transitRoutes (v : list TransitRoute) (st : Store) : Store :=
  {| _parentGroups := _parentGroups st;
     _transitRoutes := v;
     _activityLogs := _activityLogs st;
     _networkMetrics := _networkMetrics st;
     _networkThroughput := _networkThroughput st;
     _geopoliticalHeatmap := _geopoliticalHeatmap st;
     _satelliteStatuses := _satelliteStatuses st;
     _mapViewMode := _mapViewMode st;
     _selectedEntity := _selectedEntity st;
     _hoveredEntity := _hoveredEntity st;
     _factoryFilterSubsidiaryId := _factoryFilterSubsidiaryId st;
     _panToEntity := _panToEntity st;
     console := console st |}.

Definition set_networkMetrics (v : option NetworkMetrics) (st : Store) : Store :=
  {| _parentGroups := _parentGroups st;
     _transitRoutes := _transitRoutes st;
     _activityLogs := _activityLogs st;
     _networkMetrics := v;
     _networkThroughput := _networkThroughput st;
     _geopoliticalHeatmap := _geopoliticalHeatmap st;
     _satelliteStatuses := _satelliteStatuses st;
     _mapViewMode := _mapViewMode st;
     _selectedEntity := _selectedEntity st;
     _hoveredEntity := _hoveredEntity st;
     _factoryFilterSubsidiaryId := _factoryFilterSubsidiaryId st;
     _panToEntity := _panToEntity st;
     console := console st |}.

Definition set_networkThroughput (v : option NetworkThroughput) (st : Store) : Store :=
  {| _parentGroups := _parentGroups st;
     _transitRoutes := _transitRoutes st;
     _activityLogs := _activityLogs st;
     _networkMetrics := _networkMetrics st;
     _networkThroughput := v;
     _geopoliticalHeatmap := _geopoliticalHeatmap st;
     _satelliteStatuses := _satelliteStatuses st;
     _mapViewMode := _mapViewMode st;
     _selectedEntity := _selectedEntity st;
     _hoveredEntity := _hoveredEntity st;
     _factoryFilterSubsidiaryId := _factoryFilterSubsidiaryId st;
     _panToEntity := _panToEntity st;
     console := console st |}.

Definition set_hoveredEntity (v : option FleetSelection) (st : Store) : Store :=
  {| _parentGroups := _parentGroups st;
     _transitRoutes := _transitRoutes st;
     _activityLogs := _activityLogs st;
     _networkMetrics := _networkMetrics st;
     _networkThroughput := _networkThroughput st;
     _geopoliticalHeatmap := _geopoliticalHeatmap st;
     _satelliteStatuses := _satelliteStatuses st;
     _mapViewMode := _mapViewMode st;
     _selectedEntity := _selectedEntity st;
     _hoveredEntity := v;
     _factoryFilterSubsidiaryId := _factoryFilterSubsidiaryId st;
     _panToEntity := _panToEntity st;
     console := console st |}.

Definition set_panToEntity (v : option (string * Z)) (st : Store) : Store :=
  {| _parentGroups := _parentGroups st;
     _transitRoutes := _transitRoutes st;
     _activityLogs := _activityLogs st;
     _networkMetrics := _networkMetrics st;
     _networkThroughput := _networkThroughput st;
     _geopoliticalHeatmap := _geopoliticalHeatmap st;
     _satelliteStatuses := _satelliteStatuses st;
     _mapViewMode := _mapViewMode st;
     _selectedEntity := _selectedEntity st;
     _hoveredEntity := _hoveredEntity st;
     _factoryFilterSubsidiaryId := _factoryFilterSubsidiaryId st;
     _panToEntity := v;
     console := console st |}.

(** The computed signal [selectedParentGroup]. *)
Definition selectedParentGroup (st : Store) : option ParentGroup :=
  match _selectedEntity st with
  | None => None
  | Some selection =>
      let parentId :=
        if bool_decide (sel_level selection = Parent) then Some (sel_id selection)
        else sel_parentGroupId selection in
      match if_truthy parentId with
      | None => None
      | Some parentId => find (λ group, group_id group = parentId) (_parentGroups st)
      end
  end.

(** The computed signal [selectedSubsidiary]. *)
Definition selectedSubsidiary (st : Store) : option SubsidiaryCompany :=
  match _selectedEntity st with
  | None => None
  | Some selection =>
      if bool_decide (sel_level selection = Subsidiary) then
        find (λ sub, subsidiary_id sub = sel_id selection) (subsidiaries st)
      else
        match sel_level selection, if_truthy (sel_subsidiaryId selection) with
        | Factory, Some subsidiaryId =>
            find (λ sub, subsidiary_id sub = subsidiaryId) (subsidiaries st)
        | _, _ => None
        end
  end.

Definition getSelectedSubsidiary (st : Store) : option SubsidiaryCompany :=
  selectedSubsidiary st.

Definition getHubStatus (subsidiaryId : string) (st : Store) : list Hub :=
  let subsidiary := find (λ sub, subsidiary_id sub = subsidiaryId) (subsidiaries st) in
  from_option subsidiary_hubs [] subsidiary.

Definition getSubsidiaryData (subsidiaryId : string) (st : Store)
  : option SubsidiaryCompany :=
  find (λ sub, subsidiary_id sub = subsidiaryId) (subsidiaries st).

(** [getNetworkMetrics]: the observable fails with an error, or emits the
    metrics (after a delay, which is not modelled). *)
Definition getNetworkMetrics (st : Store) : string + NetworkMetrics :=
  match _networkMetrics st with
  | None => inl "Network metrics not initialized"
  | Some metrics => inr metrics
  end.

Definition setHoveredEntity (selection : option FleetSelection) (st : Store) : Store :=
  set_hoveredEntity selection st.

(** [requestPanToEntity]; the clock reading [Date.now()] is an argument. *)
Definition requestPanToEntity (Date_now : Z) (entityId : string) (st : Store) : Store :=
  set_panToEntity (Some (entityId, Date_now)) st.

Definition addTransitRoute (route : TransitRoute) (st : Store) : Store :=
  set_transitRoutes (route :: _transitRoutes st) st.

Definition updateFactoryDescription (factoryId description : string) (st : Store)
  : Store :=
  updateFactoryDetails factoryId
    {| upd_name := None; upd_city := None; upd_country := None;
       upd_description := Some description; upd_coordinates := None;
       upd_locationLabel := None; upd_status := None |} st.

(** [Partial<NetworkMetrics>] *)
Record NetworkMetricsUpdates := {
  upd_dataFlowIntegrity : option number;
  upd_fleetSyncRate : option number;
  upd_networkLatency : option number;
  upd_nodeDensity : option number;
  upd_encryptionProtocol : option string;
  upd_encryptionStatus : option string;
}.

Definition updateNetworkMetrics (metrics : NetworkMetricsUpdates) (st : Store) : Store :=
  match _networkMetrics st with
  | Some current =>
      set_networkMetrics
        (Some {| dataFlowIntegrity :=
                   nullish (upd_dataFlowIntegrity metrics) (dataFlowIntegrity current);
                 fleetSyncRate := nullish (upd_fleetSyncRate metrics) (fleetSyncRate current);
                 networkLatency :=
                   nullish (upd_networkLatency metrics) (networkLatency current);
                 nodeDensity := nullish (upd_nodeDensity metrics) (nodeDensity current);
                 encryptionProtocol :=
                   nullish (upd_encryptionProtocol metrics) (encryptionProtocol current);
                 encryptionStatus :=
                   nullish (upd_encryptionStatus metrics) (encryptionStatus current) |}) st
  | None => st
  end.

(** [Partial<NetworkThroughput>] *)
Record NetworkThroughputUpdates := {
  upd_bars : option (list number);
  upd_channelStatus : option string;
  upd_throughput : option string;
}.

Definition updateNetworkThroughput (throughput_ : NetworkThroughputUpdates) (st : Store)
  : Store :=
  match _networkThroughput st with
  | Some current =>
      set_networkThroughput
        (Some {| bars := nullish (upd_bars throughput_) (bars current);
                 channelStatus :=
                   nullish (upd_channelStatus throughput_) (channelStatus current);
                 throughput := nullish (upd_throughput throughput_) (throughput current) |})
        st
  | None => st
  end.

(** [getWarRoomState]: the snapshot of the store.  The snapshot's [nodes]
    member, which [applyState] never reads, is the first component; the
    other members are the second. *)
Definition getWarRoomState (st : Store) : list Node * WarRoomState :=
  let networkMetrics_ := _networkMetrics st in
  let networkThroughput_ := _networkThroughput st in
  let geopoliticalHeatmap_ := _geopoliticalHeatmap st in
  (nodes st,
   {| state_transitRoutes := _transitRoutes st;
      state_activityLogs := _activityLogs st;
      state_networkMetrics :=
        Some (default {| dataFlowIntegrity := num_of_Z 0;
                         fleetSyncRate := num_of_Z 0;
                         networkLatency := num_of_Z 0;
                         nodeDensity := num_of_Z 0;
                         encryptionProtocol := "";
                         encryptionStatus := "" |} networkMetrics_);
      state_networkThroughput :=
        Some (default {| bars := []; channelStatus := ""; throughput := "" |}
                      networkThroughput_);
      state_geopoliticalHeatmap :=
        Some (default {| grid := []; rows := num_of_Z 0; cols := num_of_Z 0 |}
                      geopoliticalHeatmap_);
      state_satelliteStatuses := _satelliteStatuses st;
      state_parentGroups := _parentGroups st;
      state_mapViewMode := Some (_mapViewMode st);
      state_selectedEntity := _selectedEntity st;
      state_selectedCompanyId := None |}).

(* ===================================================================== *)
(** ** Generated identifiers *)
(* ===================================================================== *)

(** The clock reading [Date.now()] is an argument: a whole number of
    milliseconds, which a template literal writes in plain decimal.  The
    slug is made by the three calls that make up [slugify]. *)
Definition generateSubsidiaryId (Date_now : Z) (subsidiaryName : string) : string :=
  let slug := slugify subsidiaryName in
  let timestamp := Date_now in
  slug +:+ "-" +:+ pretty timestamp.

Definition generateFactoryId (Date_now : Z) (factoryName : string) : string :=
  let slug := slugify factoryName in
  let timestamp := Date_now in
  "factory-" +:+ slug +:+ "-" +:+ pretty timestamp.

Definition generateCompanyId (Date_now : Z) (companyName : string) : string :=
  generateSubsidiaryId Date_now companyName.

Definition generateNodeId (Date_now : Z) (companyName : string) : string :=
  generateFactoryId Date_now companyName.

(* ===================================================================== *)
(** ** The nodes the map draws (map component) *)
(* ===================================================================== *)

(** The map component has an [isValidCoordinates] of its own, with the body
    of the store's. *)
Definition getNodesWithValidCoordinates (nodes : list Node) : list Node :=
  filter (λ node, isValidCoordinates (node_coordinates node)) nodes.

(* ===================================================================== *)
(** ** Vocabulary of the properties *)
(* ===================================================================== *)

(** *** Numbers *)

(** The order of numbers as a relation: [NaN] is related to nothing. *)
Definition num_lt (x y : number) : Prop :=
  match x, y with
  | Fin a, Fin b => (a < b)%Qc
  | NegInf, Fin _ | NegInf, PosInf | Fin _, PosInf => True
  | _, _ => False
  end.

Definition num_le (x y : number) : Prop :=
  match x, y with
  | Fin a, Fin b => (a ≤ b)%Qc
  | NegInf, Fin _ | NegInf, PosInf | Fin _, PosInf => True
  | NegInf, NegInf | PosInf, PosInf => True
  | _, _ => False
  end.

Global Instance num_lt_dec (x y : number) : Decision (num_lt x y).
Proof. destruct x, y; simpl; apply _. Defined.

Global Instance num_le_dec (x y : number) : Decision (num_le x y).
Proof. destruct x, y; simpl; apply _. Defined.

(** [lo <= x <= hi] *)
Definition in_range (lo hi : Z) (x : number) : Prop :=
  num_le (num_of_Z lo) x ∧ num_le x (num_of_Z hi).

(** The rational a finite number holds. *)
Definition fin_part (x : number) : Qc :=
  match x with
  | Fin q => q
  | _ => 0%Qc
  end.

(** The sum of a list, added up from the left as the code's loops do. *)
Definition num_sum (l : list number) : number := foldl num_add (num_of_Z 0) l.

Definition Qc_sum (l : list Qc) : Qc := foldr Qcplus 0%Qc l.

(** Binary64 holds the rational: rounding it changes nothing. *)
Definition unrounded (q : Qc) : Prop := binary64 q = Fin q.

(** Every sum of the first so many of the rationals is one binary64
    holds: adding them up from the left rounds nothing. *)
Definition unrounded_sums (qs : list Qc) : Prop :=
  ∀ n : nat, unrounded (Qc_sum (take n qs)).

(** The weighted average of rationals: each pair is a value and its
    weight. *)
Definition Qc_weighted_average (l : list (Qc * Qc)) : Qc :=
  (Qc_sum ((λ vw, fst vw * snd vw) <$> l) / Qc_sum (snd <$> l))%Qc.

(** *** Centre of gravity, in the words of the specification *)

(** Coordinates are left out of the centroid when they are missing,
    non-finite, or exactly (0,0). *)
Definition excluded_coordinates (coords : option Coordinates) : Prop :=
  match coords with
  | None => True
  | Some c =>
      (∀ q, latitude c ≠ Fin q) ∨ (∀ q, longitude c ≠ Fin q) ∨
      (latitude c = Fin 0%Qc ∧ longitude c = Fin 0%Qc)
  end.

Global Instance excluded_coordinates_dec coords : Decision (excluded_coordinates coords).
Proof.
  destruct coords as [[lat lng]|]; simpl; [|left; exact I].
  destruct lat as [a| | |], lng as [b| | |];
    try (left; right; left; intros q; discriminate);
    try (left; left; intros q; discriminate).
  destruct (decide (a = 0%Qc)) as [Ha|Ha], (decide (b = 0%Qc)) as [Hb|Hb].
  - left. right. right. split; congruence.
  - right. intros [H|[H|[_ H]]];
      [exact (H _ eq_refl)|exact (H _ eq_refl)|inversion H; contradiction].
  - right. intros [H|[H|[H _]]];
      [exact (H _ eq_refl)|exact (H _ eq_refl)|inversion H; contradiction].
  - right. intros [H|[H|[H _]]];
      [exact (H _ eq_refl)|exact (H _ eq_refl)|inversion H; contradiction].
Defined.

(** The weight of a factory: its asset count, or 1 when the count is zero or
    missing.  A count that is not a number counts as missing. *)
Definition asset_weight (assets : option number) : number :=
  match assets with
  | None | Some NaN => num_of_Z 1
  | Some (Fin q) => if decide (q = 0%Qc) then num_of_Z 1 else Fin q
  | Some a => a
  end.

Definition centroid_weight (f : FactoryLocation) : number :=
  asset_weight (factory_assets f).

(** The weighted average of [value] over [l]. *)
Definition weighted_average {A} (value weight : A → number) (l : list A) : number :=
  num_div (num_sum ((λ x, num_mul (value x) (weight x)) <$> l))
          (num_sum (weight <$> l)).

Definition INVALID_COORDINATES : Coordinates := {| latitude := NaN; longitude := NaN |}.

Definition centroid (l : list FactoryLocation) : Coordinates :=
  match filter (λ f, ¬ excluded_coordinates (factory_coordinates f)) l with
  | [] => INVALID_COORDINATES
  | remaining =>
      {| latitude := weighted_average factory_latitude centroid_weight remaining;
         longitude := weighted_average factory_longitude centroid_weight remaining |}
  end.

(** *** Aggregate metrics, in the words of the specification *)

(** A percentage rounded to one decimal. *)
Definition round1 (x : number) : number :=
  num_div (Math_round (num_mul x (num_of_Z 10))) (num_of_Z 10).

(** The metrics of a list of children, each with its asset count, incident
    count and sync stability: the two sums, and the sync stability averaged
    with the asset weights and rounded to one decimal, 0 when the weights
    do not add up to a positive number. *)
Definition aggregate {A} (assets : A → option number) (incidents sync : A → number)
    (l : list A) : Metrics :=
  {| assetCount := num_sum ((λ x, toNumber (assets x)) <$> l);
     incidentCount := num_sum (incidents <$> l);
     syncStability :=
       if decide (num_lt (num_of_Z 0) (num_sum ((λ x, asset_weight (assets x)) <$> l)))
       then round1 (weighted_average sync (λ x, asset_weight (assets x)) l)
       else num_of_Z 0 |}.

Definition metrics_of_factories (l : list FactoryLocation) : Metrics :=
  aggregate factory_assets factory_incidents factory_syncStability l.

Definition metrics_of_subsidiaries (l : list SubsidiaryCompany) : Metrics :=
  aggregate (λ s, Some (assetCount (subsidiary_metrics s)))
            (λ s, incidentCount (subsidiary_metrics s))
            (λ s, syncStability (subsidiary_metrics s)) l.

(** The stored metrics of a subsidiary, or of a group, are those recomputed
    from its current children. *)
Definition sub_consistent (s : SubsidiaryCompany) : Prop :=
  subsidiary_metrics s = computeMetricsFromFactories (subsidiary_factories s).

Definition group_consistent (g : ParentGroup) : Prop :=
  group_metrics g = computeMetricsFromSubsidiaries (group_subsidiaries g).

(** [s'] has the stored metrics and the factories of [s]. *)
Definition carried (s' s : SubsidiaryCompany) : Prop :=
  subsidiary_metrics s' = subsidiary_metrics s ∧
  subsidiary_factories s' = subsidiary_factories s.

(** The structural mutations of the hierarchy. *)
Inductive Mutation :=
  | AddSubsidiary (subsidiary : SubsidiaryCompany)
  | UpdateSubsidiary (subsidiary : SubsidiaryCompany)
  | UpdateSubsidiaryDetails (subsidiaryId : string) (updates : SubsidiaryUpdates)
  | DeleteSubsidiary (subsidiaryId : string)
  | AddFactory (factory : FactoryLocation)
  | UpdateFactory (factory : FactoryLocation)
  | UpdateFactoryDetails (factoryId : string) (updates : FactoryUpdates)
  | DeleteFactory (factoryId : string)
  | UpdateHubStatus (subsidiaryId hubCode : string) (updates : HubUpdates).

Definition mutate (m : Mutation) (st : Store) : Store :=
  match m with
  | AddSubsidiary s => addSubsidiary s st
  | UpdateSubsidiary s => updateSubsidiary s st
  | UpdateSubsidiaryDetails i u => updateSubsidiaryDetails i u st
  | DeleteSubsidiary i => deleteSubsidiary i st
  | AddFactory f => addFactory f st
  | UpdateFactory f => updateFactory f st
  | UpdateFactoryDetails i u => updateFactoryDetails i u st
  | DeleteFactory i => deleteFactory i st
  | UpdateHubStatus i c u => updateHubStatus i c u st
  end.

(** The mutations that rewrite a subsidiary without touching its factory
    list: they carry its stored metrics over. *)
Definition keeps_factories (m : Mutation) : bool :=
  match m with
  | UpdateSubsidiaryDetails _ _ | UpdateHubStatus _ _ _ => true
  | _ => false
  end.

(** Every group of [new] is the group of [old] at the same place, or has
    recomputed metrics. *)
Definition fresh_groups (old new : list ParentGroup) : Prop :=
  ∀ i g', new !! i = Some g' → old !! i = Some g' ∨ group_consistent g'.

(** Every subsidiary of [new] is one of [old], or has recomputed metrics,
    or (when [keeps]) has the metrics and factories of one of [old]. *)
Definition fresh_subs (keeps : bool) (old new : list SubsidiaryCompany) : Prop :=
  ∀ s', s' ∈ new →
    s' ∈ old ∨ sub_consistent s' ∨ (keeps = true ∧ ∃ s, s ∈ old ∧ carried s' s).

Definition group_step (keeps : bool) (g g' : ParentGroup) : Prop :=
  (g' = g ∨ group_consistent g') ∧
  fresh_subs keeps (group_subsidiaries g) (group_subsidiaries g').

(** Both freshness properties, between two stores. *)
Definition fresh (keeps : bool) (st st' : Store) : Prop :=
  fresh_groups (_parentGroups st) (_parentGroups st') ∧
  fresh_subs keeps (subsidiaries st) (subsidiaries st').

(** *** Shapes of the hierarchy writes *)

(** A subsidiary with its metrics recomputed from its own factories. *)
Definition normalized (s : SubsidiaryCompany) : SubsidiaryCompany :=
  with_metrics (computeMetricsFromFactories (subsidiary_factories s)) s.

(** The parent group [addSubsidiary] creates for a subsidiary whose parent
    group does not exist. *)
Definition new_parent (s : SubsidiaryCompany) : ParentGroup :=
  {| group_id := subsidiary_parentGroupId s;
     group_name := toUpperCase (subsidiary_parentGroupId s);
     group_status := "ACTIVE";
     group_subsidiaries := [normalized s];
     group_metrics := computeMetricsFromSubsidiaries [normalized s];
     group_description := None;
     group_logo := None |}.

(** The group at [parentIndex] gets the subsidiaries [subs] and the metrics
    recomputed from them. *)
Definition write_subsidiaries (parentIndex : nat) (parent : ParentGroup)
    (subs : list SubsidiaryCompany) (st : Store) : Store :=
  set_parentGroups
    (<[parentIndex := with_subsidiaries subs (computeMetricsFromSubsidiaries subs) parent]>
       (_parentGroups st)) st.

(** The subsidiary at [subIndex] of the group at [parentIndex] gets the
    factories [facs] and the metrics recomputed from them. *)
Definition write_factories (parentIndex : nat) (parent : ParentGroup)
    (subIndex : nat) (subsidiary : SubsidiaryCompany)
    (facs : list FactoryLocation) (st : Store) : Store :=
  write_subsidiaries parentIndex parent
    (<[subIndex := with_factories facs (computeMetricsFromFactories facs) subsidiary]>
       (group_subsidiaries parent)) st.

(** What [deleteFactory] makes of one subsidiary. *)
Definition without_factory (factoryId : string) (subsidiary : SubsidiaryCompany)
  : SubsidiaryCompany :=
  let remainingFactories :=
    filter (λ factory, factory_id factory ≠ factoryId) (subsidiary_factories subsidiary) in
  if bool_decide (length remainingFactories = length (subsidiary_factories subsidiary))
  then subsidiary
  else with_factories remainingFactories (computeMetricsFromFactories remainingFactories)
         subsidiary.

(** *** Selections *)

(** The selection made of a factory and its ancestor ids. *)
Definition selection_of_factory (factory : FactoryLocation) : FleetSelection :=
  {| sel_level := Factory;
     sel_id := factory_id factory;
     sel_parentGroupId := Some (factory_parentGroupId factory);
     sel_subsidiaryId := Some (factory_subsidiaryId factory);
     sel_factoryId := Some (factory_id factory) |}.

(** The selection of a parent group. *)
Definition selection_of_parent (parentGroupId : string) : FleetSelection :=
  {| sel_level := Parent;
     sel_id := parentGroupId;
     sel_parentGroupId := Some parentGroupId;
     sel_subsidiaryId := None;
     sel_factoryId := None |}.

(** The selection refers to the subsidiary [subsidiaryId]. *)
Definition refers_to_subsidiary (subsidiaryId : string) (sel : FleetSelection) : Prop :=
  sel_subsidiaryId sel = Some subsidiaryId ∨ sel_id sel = subsidiaryId.

(** *** Activity log *)

(** The timestamp of a log is a valid date. *)
Definition valid_log (Date_parse : string → option Z) (l : ActivityLog) : Prop :=
  is_Some (getTime Date_parse (log_timestamp l)).

(** [a] is at least as recent as [b]; both timestamps are valid dates. *)
Definition newer_or_same (Date_parse : string → option Z) (a b : ActivityLog) : Prop :=
  ∃ ta tb, getTime Date_parse (log_timestamp a) = Some ta ∧
           getTime Date_parse (log_timestamp b) = Some tb ∧ (tb ≤ ta)%Z.

(** [a] is strictly more recent than [b]. *)
Definition strictly_newer (Date_parse : string → option Z) (a b : ActivityLog) : Prop :=
  ∃ ta tb, getTime Date_parse (log_timestamp a) = Some ta ∧
           getTime Date_parse (log_timestamp b) = Some tb ∧ (tb < ta)%Z.

(** *** The coordinate pattern, declaratively *)

(** A numeral: an optional minus sign, one or more digits, an optional
    point, and any number of digits. *)
Definition is_numeral (t : text) : Prop :=
  ∃ sign int dot frac,
    t = sign ++ int ++ dot ++ frac ∧
    (sign = [] ∨ sign = [MINUS]) ∧
    int ≠ [] ∧ Forall (λ c, is_digit c = true) int ∧
    (dot = [] ∨ dot = [POINT]) ∧
    Forall (λ c, is_digit c = true) frac.

(** [t] is a numeral, white space, a comma, white space and a numeral. *)
Definition matches_coordinate_pattern (t lat lng : text) : Prop :=
  ∃ ws1 ws2,
    t = lat ++ ws1 ++ [COMMA] ++ ws2 ++ lng ∧
    is_numeral lat ∧ is_numeral lng ∧
    Forall (λ c, is_space c = true) ws1 ∧
    Forall (λ c, is_space c = true) ws2.

(** [l] is empty or starts with a character that fails [p]. *)
Definition halts (p : N → bool) (l : text) : Prop :=
  match l with
  | [] => True
  | c :: _ => p c = false
  end.

(** What can follow a numeral: not a digit and not a point. *)
Definition ends_numeral (l : text) : Prop :=
  halts is_digit l ∧ ∀ r, l ≠ POINT :: r.

(** The number a decimal numeral denotes: the integer its digits spell
    without the point, over ten to the number of digits after the point,
    negated after a minus sign. *)
Definition numeral_value (sign int frac : text) : Qc :=
  let magnitude :=
    (Qc_of_Z (digits_value (int ++ frac)) / Qc_of_Z (10 ^ Z.of_nat (length frac)))%Qc in
  match sign with
  | [] => magnitude
  | _ => (- magnitude)%Qc
  end.

(** A network on which every request fails. *)
Definition offline : Request → FetchOutcome := λ _, FetchFailed.

(** *** Slugs and generated identifiers *)

(** No two dashes in a row. *)
Definition single_dashes (s : chars) : Prop :=
  ∀ i, s !! i = Some "-"%char → s !! S i ≠ Some "-"%char.

(** A slug: lower-case letters, digits and dashes only, no dash at either
    end and no two dashes in a row. *)
Definition is_slug (s : chars) : Prop :=
  Forall (λ c, is_slug_char c = true ∨ c = "-"%char) s ∧
  head s ≠ Some "-"%char ∧
  last s ≠ Some "-"%char ∧
  single_dashes s.

(** *** Selections and nodes *)

(** [selectEntity] does not ignore the selection: it is not a subsidiary
    selected outside the subsidiary view. *)
Definition accepted (selection : FleetSelection) (st : Store) : Prop :=
  ¬ (sel_level selection = Subsidiary ∧ _mapViewMode st ≠ Subsidiary).

(** The factory has valid coordinates. *)
Definition placed (factory : FactoryLocation) : Prop :=
  isValidCoordinates (factory_coordinates factory) = true.

(** No factory filter is set: the filter is null or the empty text. *)
Definition no_filter (st : Store) : Prop :=
  _factoryFilterSubsidiaryId st = None ∨ _factoryFilterSubsidiaryId st = Some "".

(** The node list of [st] has a node for the selection [n]. *)
Definition has_node (n : FleetSelection) (st : Store) : Prop :=
  ∃ node, node ∈ nodes st ∧ node_companyId node = sel_id n ∧
          node_level node = sel_level n.

(** *** Deleting a factory *)

(** The subsidiary has a factory with the id [factoryId]. *)
Definition has_factory (factoryId : string) (subsidiary : SubsidiaryCompany) : Prop :=
  Exists (λ factory, factory_id factory = factoryId) (subsidiary_factories subsidiary).

(** The subsidiaries that have a factory with the id [factoryId], each with
    its group, in the order of the hierarchy. *)
Definition owners (factoryId : string) (groups : list ParentGroup)
  : list (ParentGroup * SubsidiaryCompany) :=
  flat_map (λ group, (λ subsidiary, (group, subsidiary)) <$>
                       filter (has_factory factoryId) (group_subsidiaries group)) groups.

(** What [deleteFactory] makes of one group. *)
Definition without_factory_group (factoryId : string) (group : ParentGroup) : ParentGroup :=
  let updatedSubsidiaries := without_factory factoryId <$> group_subsidiaries group in
  if decide (Exists (has_factory factoryId) (group_subsidiaries group))
  then with_subsidiaries updatedSubsidiaries
         (computeMetricsFromSubsidiaries updatedSubsidiaries) group
  else group.

(** The selection refers to the factory [factoryId]. *)
Definition refers_to_factory (factoryId : string) (sel : FleetSelection) : Prop :=
  sel_factoryId sel = Some factoryId ∨ sel_id sel = factoryId.

(** The selection of a subsidiary and, when it has an id, of its group. *)
Definition selection_of_subsidiary (parentGroupId subsidiaryId : string)
  : FleetSelection :=
  {| sel_level := Subsidiary;
     sel_id := subsidiaryId;
     sel_parentGroupId := if decide (parentGroupId = "") then None else Some parentGroupId;
     sel_subsidiaryId := Some subsidiaryId;
     sel_factoryId := None |}.

(** *** Inserting or replacing *)

(** The first element that satisfies [P] is replaced by [y]; without such
    an element, [y] is appended. *)
Definition upsert {A} (P : A → Prop) `{∀ x, Decision (P x)} (y : A) (l : list A)
  : list A :=
  match findIndex P l with
  | Some i => <[i := y]> l
  | None => l ++ [y]
  end.

(** The hierarchy after a subsidiary was inserted or replaced: in the first
    group with the id the subsidiary records as its parent, or in a new group
    of that id at the end. *)
Definition upsert_subsidiary (s : SubsidiaryCompany) (groups : list ParentGroup)
  : list ParentGroup :=
  match list_find (λ group, group_id group = subsidiary_parentGroupId s) groups with
  | None => groups ++ [new_parent s]
  | Some (parentIndex, parent) =>
      let subs :=
        upsert (λ sub, subsidiary_id sub = subsidiary_id s) (normalized s)
               (group_subsidiaries parent) in
      <[parentIndex := with_subsidiaries subs (computeMetricsFromSubsidiaries subs) parent]>
        groups
  end.

(** The hierarchy after a factory was inserted or replaced, in the first
    subsidiary with the recorded id of the first group with the recorded id;
    without such a group or subsidiary nothing is written. *)
Definition upsert_factory (f : FactoryLocation) (groups : list ParentGroup)
  : list ParentGroup :=
  match list_find (λ group, group_id group = factory_parentGroupId f) groups with
  | None => groups
  | Some (parentIndex, parent) =>
      match list_find (λ sub, subsidiary_id sub = factory_subsidiaryId f)
                      (group_subsidiaries parent) with
      | None => groups
      | Some (subIndex, subsidiary) =>
          let facs :=
            upsert (λ x, factory_id x = factory_id f) f
                   (subsidiary_factories subsidiary) in
          let subs :=
            <[subIndex := with_factories facs (computeMetricsFromFactories facs)
                            subsidiary]> (group_subsidiaries parent) in
          <[parentIndex := with_subsidiaries subs (computeMetricsFromSubsidiaries subs)
                             parent]> groups
      end
  end.

(** The store without the lines of its console. *)
Definition silenced (st : Store) : Store :=
  {| _parentGroups := _parentGroups st;
     _transitRoutes := _transitRoutes st;
     _activityLogs := _activityLogs st;
     _networkMetrics := _networkMetrics st;
     _networkThroughput := _networkThroughput st;
     _geopoliticalHeatmap := _geopoliticalHeatmap st;
     _satelliteStatuses := _satelliteStatuses st;
     _mapViewMode := _mapViewMode st;
     _selectedEntity := _selectedEntity st;
     _hoveredEntity := _hoveredEntity st;
     _factoryFilterSubsidiaryId := _factoryFilterSubsidiaryId st;
     _panToEntity := _panToEntity st;
     console := [] |}.

(** *** Edits in place *)

(** Every group and every subsidiary of [st'] has the stored metrics of the
    one at its place in [st]. *)
Definition metrics_kept (st st' : Store) : Prop :=
  group_metrics <$> _parentGroups st' = group_metrics <$> _parentGroups st ∧
  subsidiary_metrics <$> subsidiaries st' = subsidiary_metrics <$> subsidiaries st.

(** The stored metrics of all groups and subsidiaries are those recomputed
    from their children. *)
Definition consistent (st : Store) : Prop :=
  (∀ g, g ∈ _parentGroups st → group_consistent g) ∧
  (∀ s, s ∈ subsidiaries st → sub_consistent s).

(** One group before and after an edit in place: its subsidiaries keep
    their stored metrics, and the group is the same or has recomputed
    metrics. *)
Definition edit_step (g g' : ParentGroup) : Prop :=
  (g' = g ∨ group_metrics g' = computeMetricsFromSubsidiaries (group_subsidiaries g')) ∧
  Forall2 (λ s s', subsidiary_metrics s' = subsidiary_metrics s)
    (group_subsidiaries g) (group_subsidiaries g').

(** *** Levels of detail and percentages *)

(** The levels of detail in their order. *)
Definition lod_rank (c : LodClass) : nat :=
  match c with
  | lod_low => 0
  | lod_medium => 1
  | lod_high => 2
  end.

(** The two stores agree on everything but the hierarchy, and the console
    of the second only adds lines to the console of the first. *)
Definition hierarchy_only (st st' : Store) : Prop :=
  _transitRoutes st' = _transitRoutes st ∧
  _activityLogs st' = _activityLogs st ∧
  _networkMetrics st' = _networkMetrics st ∧
  _networkThroughput st' = _networkThroughput st ∧
  _geopoliticalHeatmap st' = _geopoliticalHeatmap st ∧
  _satelliteStatuses st' = _satelliteStatuses st ∧
  _mapViewMode st' = _mapViewMode st ∧
  _selectedEntity st' = _selectedEntity st ∧
  _hoveredEntity st' = _hoveredEntity st ∧
  _factoryFilterSubsidiaryId st' = _factoryFilterSubsidiaryId st ∧
  _panToEntity st' = _panToEntity st ∧
  console st `prefix_of` console st'.

(** The selection, if there is one, names an entity the hierarchy has. *)
Definition resolvable (st : Store) : Prop :=
  match _selectedEntity st with
  | None => True
  | Some selection => is_Some (normalizeSelection selection st)
  end.

(** The selection, if there is one, is stored as [normalizeSelection]
    returns it. *)
Definition settled (st : Store) : Prop :=
  match _selectedEntity st with
  | None => True
  | Some selection => normalizeSelection selection st = Some selection
  end.

(** Every subsidiary records the id of a group of the store, and every
    factory the id of the subsidiary that holds it. *)
Definition well_formed (st : Store) : Prop :=
  (∀ s, s ∈ subsidiaries st →
        ∃ g, g ∈ _parentGroups st ∧ group_id g = subsidiary_parentGroupId s) ∧
  (∀ s f, s ∈ subsidiaries st → f ∈ subsidiary_factories s →
          factory_subsidiaryId f = subsidiary_id s).

(* ===================================================================== *)
(** ** Sample data *)
(* ===================================================================== *)

Definition origin_factory : FactoryLocation :=
  {| factory_id := "origin"; factory_parentGroupId := "g1"; factory_subsidiaryId := "s1";
     factory_name := "origin"; factory_city := ""; factory_country := "";
     factory_coordinates := Some {| latitude := num_of_Z 0; longitude := num_of_Z 0 |};
     factory_description := ""; factory_assets := Some (num_of_Z 3);
     factory_incidents := num_of_Z 0; factory_syncStability := num_of_Z 100;
     factory_status := "ACTIVE"; factory_logo := None |}.

Definition placed_factory : FactoryLocation :=
  {| factory_id := "placed"; factory_parentGroupId := "g1"; factory_subsidiaryId := "s1";
     factory_name := "placed"; factory_city := ""; factory_country := "";
     factory_coordinates := Some {| latitude := num_of_Z 10; longitude := num_of_Z 20 |};
     factory_description := ""; factory_assets := Some (num_of_Z 5);
     factory_incidents := num_of_Z 0; factory_syncStability := num_of_Z 100;
     factory_status := "ACTIVE"; factory_logo := None |}.

(** A third factory for the sample subsidiary. *)
Definition extra_factory : FactoryLocation :=
  {| factory_id := "f3"; factory_parentGroupId := "g1"; factory_subsidiaryId := "s1";
     factory_name := "f3"; factory_city := ""; factory_country := "";
     factory_coordinates := Some {| latitude := num_of_Z 30; longitude := num_of_Z 40 |};
     factory_description := ""; factory_assets := Some (num_of_Z 2);
     factory_incidents := num_of_Z 1; factory_syncStability := num_of_Z 90;
     factory_status := "ACTIVE"; factory_logo := None |}.

(** A factory that names a subsidiary the sample store does not have. *)
Definition orphan_factory : FactoryLocation :=
  {| factory_id := "f9"; factory_parentGroupId := "g1"; factory_subsidiaryId := "s9";
     factory_name := "f9"; factory_city := ""; factory_country := "";
     factory_coordinates := None;
     factory_description := ""; factory_assets := Some (num_of_Z 1);
     factory_incidents := num_of_Z 0; factory_syncStability := num_of_Z 100;
     factory_status := "ACTIVE"; factory_logo := None |}.

Definition sample_hub : Hub := {| hub_code := "H1"; hub_status := "ONLINE" |}.

Definition hub_offline : HubUpdates :=
  {| upd_hub_code := None; upd_hub_status := Some "OFFLINE" |}.

Definition sample_subsidiary : SubsidiaryCompany :=
  {| subsidiary_id := "s1"; subsidiary_parentGroupId := "g1";
     subsidiary_name := "Sub One"; subsidiary_location := None;
     subsidiary_description := None; subsidiary_status := "ACTIVE";
     subsidiary_hubs := [sample_hub];
     subsidiary_factories := [origin_factory; placed_factory];
     subsidiary_metrics := computeMetricsFromFactories [origin_factory; placed_factory];
     subsidiary_logo := None |}.

(** A subsidiary that names a parent group the sample store does not have. *)
Definition orphan_subsidiary : SubsidiaryCompany :=
  {| subsidiary_id := "s9"; subsidiary_parentGroupId := "g9";
     subsidiary_name := "Sub Nine"; subsidiary_location := None;
     subsidiary_description := None; subsidiary_status := "ACTIVE";
     subsidiary_hubs := []; subsidiary_factories := [];
     subsidiary_metrics := computeMetricsFromFactories [];
     subsidiary_logo := None |}.

(** A subsidiary whose stored metrics do not match its (empty) factory
    list, as a snapshot file may provide them. *)
Definition stale_subsidiary : SubsidiaryCompany :=
  {| subsidiary_id := "s1"; subsidiary_parentGroupId := "g1";
     subsidiary_name := "Sub One"; subsidiary_location := None;
     subsidiary_description := None; subsidiary_status := "ACTIVE";
     subsidiary_hubs := [sample_hub];
     subsidiary_factories := [];
     subsidiary_metrics :=
       {| assetCount := num_of_Z 99; incidentCount := num_of_Z 0;
          syncStability := num_of_Z 100 |};
     subsidiary_logo := None |}.

Definition sample_group : ParentGroup :=
  {| group_id := "g1"; group_name := "Group One"; group_status := "ACTIVE";
     group_subsidiaries := [sample_subsidiary];
     group_metrics := computeMetricsFromSubsidiaries [sample_subsidiary];
     group_description := None; group_logo := None |}.

Definition stale_group : ParentGroup :=
  {| group_id := "g1"; group_name := "Group One"; group_status := "ACTIVE";
     group_subsidiaries := [stale_subsidiary];
     group_metrics := computeMetricsFromSubsidiaries [stale_subsidiary];
     group_description := None; group_logo := None |}.

Definition parent_selection : FleetSelection := selection_of_parent "g1".

Definition subsidiary_selection : FleetSelection :=
  {| sel_level := Subsidiary; sel_id := "s1"; sel_parentGroupId := Some "g1";
     sel_subsidiaryId := Some "s1"; sel_factoryId := None |}.

(** Two logs of different factories with the same timestamp, and a log of a
    factory and a subsidiary outside the sample group. *)
Definition first_log : ActivityLog :=
  {| log_factoryId := "origin"; log_subsidiaryId := "s1";
     log_timestamp := TDate (Some 1000);
     log_description := "inspection"; log_location := "Plant A" |}.

Definition second_log : ActivityLog :=
  {| log_factoryId := "placed"; log_subsidiaryId := "s2";
     log_timestamp := TDate (Some 1000);
     log_description := "delivery"; log_location := "Plant B" |}.

Definition other_log : ActivityLog :=
  {| log_factoryId := "elsewhere"; log_subsidiaryId := "s2";
     log_timestamp := TString "1970-01-01T00:00:00.000Z";
     log_description := "audit"; log_location := "Plant C" |}.

(** A date parser that knows one string; any engine's parser would do. *)
Definition epoch_only (text : string) : option Z :=
  if bool_decide (text = "1970-01-01T00:00:00.000Z") then Some 0 else None.

(** A snapshot with the groups [groups] and nothing else. *)
Definition snapshot_of (groups : list ParentGroup) : WarRoomState :=
  {| state_transitRoutes := [];
     state_activityLogs := [];
     state_networkMetrics := None;
     state_networkThroughput := None;
     state_geopoliticalHeatmap := None;
     state_satelliteStatuses := [];
     state_parentGroups := groups;
     state_mapViewMode := Some Parent;
     state_selectedEntity := None;
     state_selectedCompanyId := None |}.

(** The store after loading the sample group: parent view, the group
    selected. *)
Definition sample_store : Store := applyState (snapshot_of [sample_group]) initial_store.

(** The same store in subsidiary view with the subsidiary selected. *)
Definition subsidiary_view_store : Store :=
  set_selectedEntity (Some subsidiary_selection) (set_mapViewMode Subsidiary sample_store).

(** The subsidiary view with three log entries: two of factories of [s1],
    one of another subsidiary. *)
Definition logged_store : Store :=
  set_activityLogs [first_log; other_log; second_log] subsidiary_view_store.

(** The store after loading a snapshot whose subsidiary has stale metrics. *)
Definition stale_store : Store := applyState (snapshot_of [stale_group]) initial_store.

(** A candidate of the geocoding service, and a network that answers every
    request with it. *)
Definition tokyo : GeocodeResult :=
  {| geo_latitude := dec 356895 4; geo_longitude := dec 1396917 4;
     geo_name := ascii_text "Tokyo"; geo_admin1 := Some (ascii_text "Tokyo");
     geo_country := Some (ascii_text "Japan") |}.

(** A lower-casing that knows the ASCII letters. *)
Definition ascii_lowerCase (t : text) : text :=
  (λ c, if ((65 <=? c) && (c <=? 90))%N then (c + 32)%N else c) <$> t.

Definition tokyo_network : Request → FetchOutcome :=
  λ _, FetchResponse true 200 (Some (Some [tokyo])).

(* ===================================================================== *)
(** * Properties *)
(* ===================================================================== *)

(* ===================================================================== *)
(** ** Numbers *)
(* ===================================================================== *)

Lemma num_ltb_lt (x y : number) : num_ltb x y = true ↔ num_lt x y.
Proof.
  destruct x, y; simpl; try (split; [discriminate|tauto]); try tauto.
  apply bool_decide_eq_true.
Qed.

Lemma num_leb_le (x y : number) : num_leb x y = true ↔ num_le x y.
Proof.
  destruct x, y; simpl; try (split; [discriminate|tauto]); try tauto.
  apply bool_decide_eq_true.
Qed.

Lemma foldl_num_add {A} (g : A → number) (l : list A) (acc : number) :
  foldl (λ sum x, num_add sum (g x)) acc l = foldl num_add acc (g <$> l).
Proof.
  revert acc. induction l as [|x l IH]; intros acc; [reflexivity|].
  rewrite fmap_cons. cbn [foldl]. apply IH.
Qed.

Lemma foldl_num_sum {A} (g : A → number) (l : list A) :
  foldl (λ sum x, num_add sum (g x)) (num_of_Z 0) l = num_sum (g <$> l).
Proof. apply foldl_num_add. Qed.

(** Rounding at work: 0.1 * 3 / 3 is 0.10000000000000002, 50 / 3 is
    16.666666666666668, 0.1 + 0.2 is 0.30000000000000004, 1e308 * 50 is
    [Infinity], and 49.05 * 24 / 24 * 10 rounds to 490. *)
Lemma binary64_samples :
  num_div (num_mul (dec 1 1) (num_of_Z 3)) (num_of_Z 3) =
    Fin (Qc_of_Z 7205759403792795 * pow2 (-56))%Qc ∧
  num_div (num_of_Z 50) (num_of_Z 3) = Fin (Qc_of_Z 4691249611844267 * pow2 (-48))%Qc ∧
  num_add (dec 1 1) (dec 2 1) = Fin (Qc_of_Z 5404319552844596 * pow2 (-54))%Qc ∧
  num_mul (binary64 (Qc_of_Z (10 ^ 308))) (num_of_Z 50) = PosInf ∧
  Math_round (num_mul (num_div (num_mul (dec 4905 2) (num_of_Z 24)) (num_of_Z 24))
                      (num_of_Z 10)) = num_of_Z 490.
Proof.
  repeat split; vm_compute; try reflexivity; apply (f_equal Fin), Qc_is_canon; reflexivity.
Qed.

(** C8.  For every zoom factor [z]: without selection, the marker is
    logo-only exactly when z < 1.2, a compact logo exactly when
    1.2 <= z < 2.5, and in full detail exactly when z >= 2.5; with
    selection, it is in full detail and neither logo-only nor compact,
    whatever [z] is. *)
Theorem getPinLodState_thresholds (z : number) :
  (isLogoOnly (getPinLodState z false) = true ↔ num_lt z (dec 12 1)) ∧
  (isCompactLogo (getPinLodState z false) = true ↔
     num_le (dec 12 1) z ∧ num_lt z (dec 25 1)) ∧
  (isFullDetail (getPinLodState z false) = true ↔ num_le (dec 25 1) z) ∧
  getPinLodState z true =
    {| isLogoOnly := false; isCompactLogo := false; isFullDetail := true;
       lodClass := lod_high |}.
Proof.
  unfold getPinLodState, LOD_LOGO_ONLY_THRESHOLD, LOD_FULL_DETAIL_THRESHOLD, num_geb.
  cbn [isLogoOnly isCompactLogo isFullDetail].
  split; [apply num_ltb_lt|].
  split; [|split; [apply num_leb_le|reflexivity]].
  rewrite andb_true_iff, num_leb_le, num_ltb_lt. reflexivity.
Qed.

(* ===================================================================== *)
(** ** Centre of gravity and aggregate metrics *)
(* ===================================================================== *)

Lemma isValidCoordinates_iff (coords : option Coordinates) :
  isValidCoordinates coords = true ↔ ¬ excluded_coordinates coords.
Proof.
  destruct coords as [[lat lng]|]; simpl; [|split; [discriminate|tauto]].
  destruct lat as [a| | |], lng as [b| | |]; simpl;
    try (split; [discriminate|intros H; exfalso; apply H;
           first [left; intros q; discriminate | right; left; intros q; discriminate]]).
  unfold num_of_Z, num_eqb. rewrite Z2Qc_inj_0.
  destruct (decide (a = 0%Qc)) as [->|Ha], (decide (b = 0%Qc)) as [->|Hb].
  - rewrite bool_decide_eq_true_2 by reflexivity. simpl.
    split; [discriminate|]. intros H. exfalso. apply H. right. right. split; reflexivity.
  - rewrite (bool_decide_eq_false_2 (b = _)) by exact Hb. rewrite andb_false_r.
    split; [|reflexivity]. intros _ [H|[H|[_ H]]];
      [exact (H _ eq_refl)|exact (H _ eq_refl)|inversion H; contradiction].
  - rewrite (bool_decide_eq_false_2 (a = _)) by exact Ha. simpl.
    split; [|reflexivity]. intros _ [H|[H|[H _]]];
      [exact (H _ eq_refl)|exact (H _ eq_refl)|inversion H; contradiction].
  - rewrite (bool_decide_eq_false_2 (a = _)) by exact Ha. simpl.
    split; [|reflexivity]. intros _ [H|[H|[H _]]];
      [exact (H _ eq_refl)|exact (H _ eq_refl)|inversion H; contradiction].
Qed.

Lemma num_or_asset_weight (assets : option number) :
  num_or assets (num_of_Z 1) = asset_weight assets.
Proof.
  unfold num_or, asset_weight. destruct assets as [[q| | |]|]; simpl; try reflexivity.
  destruct (decide (q = 0%Qc)) as [->|Hq].
  - rewrite bool_decide_eq_true_2 by reflexivity. reflexivity.
  - rewrite bool_decide_eq_false_2 by exact Hq. reflexivity.
Qed.

Lemma valid_filter (l : list FactoryLocation) :
  filter (λ f, isValidCoordinates (factory_coordinates f)) l =
  filter (λ f, ¬ excluded_coordinates (factory_coordinates f)) l.
Proof.
  apply list_filter_iff. intros f. rewrite <- isValidCoordinates_iff.
  apply Is_true_true.
Qed.

Lemma foldl_pointwise {A B} (f g : A → B → A) (l : list B) (a : A) :
  (∀ a x, f a x = g a x) → foldl f a l = foldl g a l.
Proof.
  intros Hfg. revert a. induction l as [|x l IH]; intros a; simpl; [reflexivity|].
  rewrite Hfg. apply IH.
Qed.

Lemma computeCenterOfGravity_eq_centroid (l : list FactoryLocation) :
  computeCenterOfGravity l = centroid l.
Proof.
  unfold computeCenterOfGravity, centroid. rewrite valid_filter.
  destruct (filter _ l) as [|f rest] eqn:Hf; [reflexivity|].
  rewrite bool_decide_eq_false_2 by (simpl; lia).
  unfold weighted_average.
  rewrite <- !(foldl_num_sum _ (f :: rest)).
  f_equal; f_equal; apply foldl_pointwise; intros; now rewrite num_or_asset_weight.
Qed.

Lemma Qc_sum_snoc (qs : list Qc) (q : Qc) : Qc_sum (qs ++ [q]) = (Qc_sum qs + q)%Qc.
Proof.
  induction qs as [|x qs IH]; cbn.
  - now rewrite Qcplus_0_l, Qcplus_0_r.
  - change (foldr Qcplus 0%Qc (qs ++ [q])) with (Qc_sum (qs ++ [q])).
    rewrite IH. apply Qcplus_assoc.
Qed.

Lemma num_sum_snoc (l : list number) (x : number) :
  num_sum (l ++ [x]) = num_add (num_sum l) x.
Proof. unfold num_sum. now rewrite foldl_app. Qed.

(** Sums that round nothing are the sums of rationals. *)
Lemma num_sum_Fin (qs : list Qc) :
  unrounded_sums qs → num_sum (Fin <$> qs) = Fin (Qc_sum qs).
Proof.
  induction qs as [|q qs IH] using rev_ind; intros Hsums.
  - cbn. unfold num_of_Z. now rewrite Z2Qc_inj_0.
  - rewrite fmap_app. change (Fin <$> [q]) with [Fin q]. rewrite num_sum_snoc, IH.
    + cbn [num_add]. rewrite <- Qc_sum_snoc.
      specialize (Hsums (length (qs ++ [q]))). now rewrite firstn_all in Hsums.
    + intros n. destruct (decide (n ≤ length qs)%nat) as [Hn|Hn].
      * specialize (Hsums n). now rewrite take_app_le in Hsums by exact Hn.
      * specialize (Hsums (length qs)). rewrite take_app_le in Hsums by lia.
        rewrite firstn_all in Hsums. now rewrite take_ge by lia.
Qed.

Lemma Qc_sum_pos (qs : list Qc) :
  qs ≠ [] → Forall (λ q, 0 < q)%Qc qs → (0 < Qc_sum qs)%Qc.
Proof.
  intros Hne Hall. induction Hall as [|q qs Hq Hall IH]; [contradiction|].
  simpl. destruct qs as [|q' qs'].
  - simpl. now rewrite Qcplus_0_r.
  - assert (0 < Qc_sum (q' :: qs'))%Qc as Hs by (apply IH; discriminate).
    apply Qcplus_pos_pos; assumption.
Qed.

(** For finite values and weights that are positive, when no product and no
    sum is rounded, the weighted average of the code is the binary64 value
    of the weighted average of rationals. *)
Lemma weighted_average_rational {A} (value weight : A → number) (l : list A) :
  let pairs := (λ f, (fin_part (value f), fin_part (weight f))) <$> l in
  l ≠ [] →
  (∀ f, f ∈ l → ∃ v w, value f = Fin v ∧ weight f = Fin w ∧ (0 < w)%Qc) →
  Forall (λ vw : Qc * Qc, unrounded (vw.1 * vw.2)) pairs →
  unrounded_sums ((λ vw : Qc * Qc, (vw.1 * vw.2)%Qc) <$> pairs) →
  unrounded_sums (snd <$> pairs) →
  weighted_average value weight l = binary64 (Qc_weighted_average pairs).
Proof.
  intros pairs Hne Hall Hproducts Hsums Hweights.
  unfold weighted_average, Qc_weighted_average.
  assert ((λ f, num_mul (value f) (weight f)) <$> l =
          Fin <$> ((λ vw : Qc * Qc, (vw.1 * vw.2)%Qc) <$> pairs)) as ->.
  { unfold pairs. rewrite <- !list_fmap_compose. apply Forall_fmap_ext, Forall_forall.
    intros f Hf. destruct (Hall f Hf) as (v & w & Hv & Hw & _). simpl.
    rewrite Hv, Hw. cbn [num_mul fin_part].
    unfold pairs in Hproducts. rewrite Forall_fmap, Forall_forall in Hproducts.
    specialize (Hproducts f Hf). cbn in Hproducts. now rewrite Hv, Hw in Hproducts. }
  assert (weight <$> l = Fin <$> (snd <$> pairs)) as ->.
  { unfold pairs. rewrite <- !list_fmap_compose. apply Forall_fmap_ext, Forall_forall.
    intros f Hf. destruct (Hall f Hf) as (v & w & Hv & Hw & _). simpl.
    rewrite Hw. reflexivity. }
  rewrite !num_sum_Fin by assumption. simpl.
  rewrite bool_decide_eq_false_2; [reflexivity|].
  apply not_eq_sym, Qclt_not_eq, Qc_sum_pos.
  - unfold pairs. destruct l; [contradiction|discriminate].
  - unfold pairs. rewrite <- list_fmap_compose. apply Forall_fmap, Forall_forall.
    intros f Hf. destruct (Hall f Hf) as (v & w & Hv & Hw & Hpos). simpl. now rewrite Hw.
Qed.

Lemma weight_positive (f : FactoryLocation) :
  match factory_assets f with
  | None => True
  | Some a => ∃ q, a = Fin q ∧ (0 ≤ q)%Qc
  end →
  ∃ w, centroid_weight f = Fin w ∧ (0 < w)%Qc.
Proof.
  unfold centroid_weight, asset_weight. destruct (factory_assets f) as [a|].
  - intros (q & -> & Hq). destruct (decide (q = 0%Qc)) as [->|Hne].
    + exists 1%Qc. unfold num_of_Z. rewrite Z2Qc_inj_1. split; [reflexivity|]. reflexivity.
    + exists q. split; [reflexivity|]. apply Qcle_lt_or_eq in Hq as [Hq|Hq]; [exact Hq|].
      congruence.
  - intros _. exists 1%Qc. unfold num_of_Z. rewrite Z2Qc_inj_1. split; reflexivity.
Qed.

Lemma remaining_finite (f : FactoryLocation) :
  ¬ excluded_coordinates (factory_coordinates f) →
  ∃ a b, factory_latitude f = Fin a ∧ factory_longitude f = Fin b.
Proof.
  unfold factory_latitude, factory_longitude.
  destruct (factory_coordinates f) as [[lat lng]|]; simpl; [|tauto].
  intros H. destruct lat as [a| | |], lng as [b| | |];
    try (exfalso; apply H;
         first [left; intros q; discriminate | right; left; intros q; discriminate]).
  eauto.
Qed.

(** C1.  The centre of gravity the store computes is the centroid of the
    specification: factories whose coordinates are missing, non-finite or
    exactly (0,0) are left out; the result is the average of the remaining
    latitudes and longitudes weighted by asset count (1 for a count that is
    zero or missing), the products and the two sums being binary64 numbers
    added up in the order of the list; with nothing remaining it is the
    invalid pair, which is not (0,0).  When the counts are finite and not
    negative and no product and no sum is rounded, the result is the
    binary64 value of the weighted average of rationals.  Factories at
    (0,0) and at (10,20) with 5 assets have their centre at (10,20).  The
    node of a parent group and the node of a subsidiary are placed at the
    centroid of their factories. *)
Theorem computeCenterOfGravity_centroid (factories : list FactoryLocation) :
  let remaining :=
    filter (λ f, ¬ excluded_coordinates (factory_coordinates f)) factories in
  let latitudes :=
    (λ f, (fin_part (factory_latitude f), fin_part (centroid_weight f))) <$> remaining in
  let longitudes :=
    (λ f, (fin_part (factory_longitude f), fin_part (centroid_weight f))) <$> remaining in
  let products (pairs : list (Qc * Qc)) := (λ vw : Qc * Qc, (vw.1 * vw.2)%Qc) <$> pairs in
  computeCenterOfGravity factories = centroid factories ∧
  (remaining = [] → computeCenterOfGravity factories = INVALID_COORDINATES) ∧
  (remaining ≠ [] →
   (∀ f, f ∈ remaining →
      match factory_assets f with
      | None => True
      | Some a => ∃ q, a = Fin q ∧ (0 ≤ q)%Qc
      end) →
   Forall unrounded (products latitudes) → unrounded_sums (products latitudes) →
   Forall unrounded (products longitudes) → unrounded_sums (products longitudes) →
   unrounded_sums (snd <$> latitudes) →
   computeCenterOfGravity factories =
     {| latitude := binary64 (Qc_weighted_average latitudes);
        longitude := binary64 (Qc_weighted_average longitudes) |}) ∧
  isValidCoordinates (Some INVALID_COORDINATES) = false ∧
  INVALID_COORDINATES ≠ {| latitude := num_of_Z 0; longitude := num_of_Z 0 |} ∧
  (∀ f0 f1,
     factory_coordinates f0 =
       Some {| latitude := num_of_Z 0; longitude := num_of_Z 0 |} →
     factory_coordinates f1 =
       Some {| latitude := num_of_Z 10; longitude := num_of_Z 20 |} →
     factory_assets f1 = Some (num_of_Z 5) →
     computeCenterOfGravity [f0; f1] =
       {| latitude := num_of_Z 10; longitude := num_of_Z 20 |}) ∧
  (∀ group,
     node_coordinates (createParentNode group) =
       Some (centroid (flat_map subsidiary_factories (group_subsidiaries group)))) ∧
  (∀ subsidiary,
     node_coordinates (createSubsidiaryNode subsidiary) =
       Some (centroid (subsidiary_factories subsidiary))).
Proof.
  intros remaining latitudes longitudes products.
  split; [apply computeCenterOfGravity_eq_centroid|].
  split; [|split; [|split; [reflexivity|split; [discriminate|split; [|split]]]]];
    [| | |intros group; cbn; now rewrite computeCenterOfGravity_eq_centroid
         |intros subsidiary; cbn; now rewrite computeCenterOfGravity_eq_centroid].
  - intros Hnil. rewrite computeCenterOfGravity_eq_centroid. unfold centroid.
    fold remaining. now rewrite Hnil.
  - intros Hne Hcounts Hlat Hlatsums Hlng Hlngsums Hweights.
    rewrite computeCenterOfGravity_eq_centroid.
    assert (centroid factories =
            {| latitude := weighted_average factory_latitude centroid_weight remaining;
               longitude := weighted_average factory_longitude centroid_weight remaining |})
      as ->.
    { unfold centroid. fold remaining. clear -Hne.
      destruct remaining; [contradiction|reflexivity]. }
    assert (∀ g, g ∈ remaining →
              ∃ a b w, factory_latitude g = Fin a ∧ factory_longitude g = Fin b ∧
                       centroid_weight g = Fin w ∧ (0 < w)%Qc) as Hfinite.
    { intros g Hg. destruct (weight_positive g (Hcounts g Hg)) as (w & Hw & Hpos).
      assert (¬ excluded_coordinates (factory_coordinates g)) as Hin.
      { unfold remaining in Hg. apply list_elem_of_filter in Hg. tauto. }
      destruct (remaining_finite g Hin) as (a & b & Ha & Hb). eauto 10. }
    f_equal.
    + apply weighted_average_rational; try assumption.
      * intros g Hg. destruct (Hfinite g Hg) as (a & b & w & Ha & Hb & Hw & Hpos). eauto.
      * unfold products in Hlat. rewrite Forall_fmap in Hlat. exact Hlat.
    + apply weighted_average_rational; try assumption.
      * intros g Hg. destruct (Hfinite g Hg) as (a & b & w & Ha & Hb & Hw & Hpos). eauto.
      * unfold products in Hlng. rewrite Forall_fmap in Hlng. exact Hlng.
      * unfold longitudes, latitudes in *. rewrite <- list_fmap_compose in *. exact Hweights.
  - intros f0 f1 H0 H1 Ha. unfold computeCenterOfGravity.
    assert (filter (λ factory, isValidCoordinates (factory_coordinates factory)) [f0; f1]
            = [f1]) as ->.
    { rewrite filter_cons_False by (rewrite H0; vm_compute; tauto).
      rewrite filter_cons_True by (rewrite H1; vm_compute; tauto). reflexivity. }
    cbn [length foldl]. rewrite bool_decide_eq_false_2 by discriminate.
    unfold factory_latitude, factory_longitude. rewrite H1, Ha.
    cbn [from_option latitude longitude].
    f_equal; vm_compute; apply (f_equal Fin), Qc_is_canon; reflexivity.
Qed.

Lemma unrounded_sums_singleton (q : Qc) : unrounded q → unrounded_sums [q].
Proof.
  intros Hq [|n].
  - reflexivity.
  - rewrite take_ge by (cbn; lia). cbn. now rewrite Qcplus_0_r.
Qed.

(** C1 at the two sample factories, one at (0,0) and one at (10,20) with 5
    assets. *)
Lemma computeCenterOfGravity_centroid_witness :
  computeCenterOfGravity [origin_factory; placed_factory] =
    {| latitude := num_of_Z 10; longitude := num_of_Z 20 |} ∧
  computeCenterOfGravity [origin_factory; placed_factory] =
    {| latitude := binary64 (Qc_weighted_average [(Qc_of_Z 10, Qc_of_Z 5)]);
       longitude := binary64 (Qc_weighted_average [(Qc_of_Z 20, Qc_of_Z 5)]) |}.
Proof.
  pose proof (computeCenterOfGravity_centroid [origin_factory; placed_factory])
    as (_ & _ & Hrational & _ & _ & Hexample & _).
  split; [apply Hexample; reflexivity|].
  assert (filter (λ f, ¬ excluded_coordinates (factory_coordinates f))
                 [origin_factory; placed_factory] = [placed_factory]) as Hrem
    by (vm_compute; reflexivity).
  rewrite Hrem in Hrational.
  assert (unrounded (Qc_of_Z 10 * Qc_of_Z 5)) as H50
    by (vm_compute; apply (f_equal Fin), Qc_is_canon; reflexivity).
  assert (unrounded (Qc_of_Z 20 * Qc_of_Z 5)) as H100
    by (vm_compute; apply (f_equal Fin), Qc_is_canon; reflexivity).
  assert (unrounded (Qc_of_Z 5)) as H5
    by (vm_compute; apply (f_equal Fin), Qc_is_canon; reflexivity).
  apply Hrational.
  - discriminate.
  - intros f Hf. apply list_elem_of_singleton in Hf as ->.
    exists (Qc_of_Z 5). split; [reflexivity|discriminate].
  - constructor; [exact H50|constructor].
  - apply unrounded_sums_singleton. exact H50.
  - constructor; [exact H100|constructor].
  - apply unrounded_sums_singleton. exact H100.
  - apply unrounded_sums_singleton. exact H5.
Defined.

(** One factory at (0.1, 0.7) with 3 assets: the products and the quotients
    are rounded, and the centre is (0.10000000000000002, 0.6999999999999998). *)
Lemma computeCenterOfGravity_rounds (f : FactoryLocation) :
  factory_coordinates f = Some {| latitude := dec 1 1; longitude := dec 7 1 |} →
  factory_assets f = Some (num_of_Z 3) →
  computeCenterOfGravity [f] =
    {| latitude := Fin (Qc_of_Z 7205759403792795 * pow2 (-56))%Qc;
       longitude := Fin (Qc_of_Z 6305039478318693 * pow2 (-53))%Qc |}.
Proof.
  intros Hcoords Hassets. unfold computeCenterOfGravity.
  rewrite filter_cons_True by (rewrite Hcoords; vm_compute; tauto).
  rewrite filter_nil. cbn [length foldl]. rewrite bool_decide_eq_false_2 by discriminate.
  unfold factory_latitude, factory_longitude. rewrite Hcoords, Hassets.
  cbn [from_option latitude longitude].
  f_equal; vm_compute; apply (f_equal Fin), Qc_is_canon; reflexivity.
Qed.

Lemma gtb_decide {A} (a b : number) (x y : A) :
  (if num_gtb a b then x else y) = (if decide (num_lt b a) then x else y).
Proof.
  unfold num_gtb. destruct (decide (num_lt b a)) as [H|H].
  - apply num_ltb_lt in H. now rewrite H.
  - destruct (num_ltb b a) eqn:Hb; [|reflexivity]. apply num_ltb_lt in Hb. contradiction.
Qed.

(** The metrics the store computes are the aggregate of the specification:
    sums of assets and incidents, and the sync stability averaged with the
    asset weights, rounded to one decimal. *)
Lemma computeMetricsFromFactories_aggregate (l : list FactoryLocation) :
  computeMetricsFromFactories l = metrics_of_factories l.
Proof.
  unfold computeMetricsFromFactories, metrics_of_factories, aggregate, round1,
    weighted_average.
  rewrite gtb_decide.
  rewrite !(foldl_pointwise
              (λ sum factory, num_add sum (num_or (factory_assets factory) (num_of_Z 1)))
              (λ sum factory, num_add sum (asset_weight (factory_assets factory))))
    by (intros; now rewrite num_or_asset_weight).
  rewrite (foldl_pointwise
             (λ sum factory, num_add sum (num_mul (factory_syncStability factory)
                                            (num_or (factory_assets factory) (num_of_Z 1))))
             (λ sum factory, num_add sum (num_mul (factory_syncStability factory)
                                            (asset_weight (factory_assets factory)))))
    by (intros; now rewrite num_or_asset_weight).
  rewrite !foldl_num_sum. reflexivity.
Qed.

Lemma computeMetricsFromSubsidiaries_aggregate (l : list SubsidiaryCompany) :
  computeMetricsFromSubsidiaries l = metrics_of_subsidiaries l.
Proof.
  unfold computeMetricsFromSubsidiaries, metrics_of_subsidiaries, aggregate, round1,
    weighted_average.
  rewrite gtb_decide.
  rewrite !(foldl_pointwise
              (λ sum sub, num_add sum (num_or (Some (assetCount (subsidiary_metrics sub)))
                                              (num_of_Z 1)))
              (λ sum sub, num_add sum (asset_weight
                                         (Some (assetCount (subsidiary_metrics sub))))))
    by (intros; now rewrite num_or_asset_weight).
  rewrite (foldl_pointwise
             (λ sum sub, num_add sum
                (num_mul (syncStability (subsidiary_metrics sub))
                         (num_or (Some (assetCount (subsidiary_metrics sub))) (num_of_Z 1))))
             (λ sum sub, num_add sum
                (num_mul (syncStability (subsidiary_metrics sub))
                         (asset_weight (Some (assetCount (subsidiary_metrics sub)))))))
    by (intros; now rewrite num_or_asset_weight).
  rewrite !foldl_num_sum. reflexivity.
Qed.

(* ===================================================================== *)
(** ** View mode and selection *)
(* ===================================================================== *)

(** C10.  Whatever the target mode and the store, [setMapViewMode] leaves
    the factory filter at null and the mode at its argument, and touches
    neither the hierarchy nor the routes, logs, metrics, throughput,
    heatmap, satellites, hover, pan request or console. *)
Theorem setMapViewMode_frame (viewMode : MapViewMode) (st : Store) :
  let st' := setMapViewMode viewMode st in
  _factoryFilterSubsidiaryId st' = None ∧
  _mapViewMode st' = viewMode ∧
  _transitRoutes st' = _transitRoutes st ∧
  _activityLogs st' = _activityLogs st ∧
  _networkMetrics st' = _networkMetrics st ∧
  _networkThroughput st' = _networkThroughput st ∧
  _geopoliticalHeatmap st' = _geopoliticalHeatmap st ∧
  _satelliteStatuses st' = _satelliteStatuses st ∧
  _parentGroups st' = _parentGroups st ∧
  _hoveredEntity st' = _hoveredEntity st ∧
  _panToEntity st' = _panToEntity st ∧
  console st' = console st.
Proof.
  unfold setMapViewMode. cbn zeta.
  cbn [_selectedEntity set_factoryFilterSubsidiaryId set_mapViewMode].
  destruct (_selectedEntity st) as [selection|]; [|cbn; tauto].
  repeat (case_match; try (cbn; tauto)).
Qed.

Lemma normalizeSelection_level (sel n : FleetSelection) (st : Store) :
  normalizeSelection sel st = Some n → sel_level n = sel_level sel.
Proof.
  unfold normalizeSelection. destruct (sel_level sel); repeat case_match;
    intros [= <-]; reflexivity.
Qed.

(** C9, amended.  For a selection that normalizes to an existing entity:
    a subsidiary-level selection made while the view mode is not
    'subsidiary' is ignored and the store stays as it is; otherwise the
    normalized selection is stored, and the view mode stays 'subsidiary'
    when the selection is a factory and the mode was 'subsidiary', and
    becomes the selection's level in every other case. *)
Theorem selectEntity_viewMode (st : Store) (sel n : FleetSelection) :
  normalizeSelection sel st = Some n →
  (sel_level sel = Subsidiary ∧ _mapViewMode st ≠ Subsidiary →
     selectEntity (Some sel) st = st) ∧
  (¬ (sel_level sel = Subsidiary ∧ _mapViewMode st ≠ Subsidiary) →
     _selectedEntity (selectEntity (Some sel) st) = Some n ∧
     _mapViewMode (selectEntity (Some sel) st) =
       if decide (sel_level n = Factory ∧ _mapViewMode st = Subsidiary)
       then Subsidiary else sel_level n).
Proof.
  intros Hn. unfold selectEntity. split.
  - intros [Hl Hm]. rewrite (bool_decide_eq_true_2 _ Hl).
    rewrite (bool_decide_eq_false_2 _ Hm). reflexivity.
  - intros Hguard.
    assert (bool_decide (sel_level sel = Subsidiary) &&
            negb (bool_decide (_mapViewMode st = Subsidiary)) = false) as ->.
    { apply not_true_iff_false. intros [H1 H2]%andb_prop. apply Hguard.
      apply bool_decide_eq_true in H1. apply negb_true_iff, bool_decide_eq_false in H2.
      tauto. }
    cbn zeta. rewrite Hn. cbn [_mapViewMode set_selectedEntity].
    destruct (decide (sel_level n = Factory ∧ _mapViewMode st = Subsidiary)) as [[H1 H2]|Hno].
    + rewrite (bool_decide_eq_true_2 _ H1), (bool_decide_eq_true_2 _ H2). cbn.
      split; [reflexivity|exact H2].
    + assert (bool_decide (sel_level n = Factory) &&
              bool_decide (_mapViewMode st = Subsidiary) = false) as ->.
      { apply not_true_iff_false. intros [H1 H2]%andb_prop. apply Hno.
        apply bool_decide_eq_true in H1, H2. tauto. }
      cbn. tauto.
Qed.

(** C9 on the sample store: selecting the subsidiary [s1] in parent view is
    ignored, and in subsidiary view keeps the view mode. *)
Lemma selectEntity_viewMode_witness :
  selectEntity (Some subsidiary_selection) sample_store = sample_store ∧
  _mapViewMode (selectEntity (Some subsidiary_selection) subsidiary_view_store) = Subsidiary.
Proof.
  split.
  - apply (selectEntity_viewMode sample_store subsidiary_selection subsidiary_selection);
      [reflexivity|]. split; [reflexivity|discriminate].
  - refine (proj2 (proj2 (selectEntity_viewMode subsidiary_view_store subsidiary_selection
                            subsidiary_selection eq_refl) _)).
    intros [_ H]. apply H. reflexivity.
Defined.

(** C9 as stated fails: in parent view, selecting the existing subsidiary
    [s1] normalizes to a subsidiary-level selection, yet the view mode is
    still 'parent' afterwards. *)
Lemma selectEntity_viewMode_counterexample :
  normalizeSelection subsidiary_selection sample_store = Some subsidiary_selection ∧
  ¬ (sel_level subsidiary_selection = Factory ∧ _mapViewMode sample_store = Subsidiary) ∧
  _mapViewMode (selectEntity (Some subsidiary_selection) sample_store)
    ≠ sel_level subsidiary_selection.
Proof.
  split; [reflexivity|]. split; [intros [H _]; discriminate|]. discriminate.
Qed.

Lemma str_or_Some (x : option string) (d : string) :
  str_or x (Some d) = Some (default d (if_truthy x)).
Proof.
  unfold str_or, if_truthy. destruct x as [s|]; [|reflexivity].
  destruct (truthy_str (Some s)); reflexivity.
Qed.

(** C4, amended.  When the selection carries no factory id,
    [setMapViewMode('factory')] moves a parent-level selection to the first
    factory of the first subsidiary of its parent group (looked up by the
    selection's parent-group id, else its id), at level 'factory' with the
    ancestor ids of that factory; a selection at another level, and a
    parent-level one without such a factory, stay as they are. *)
Theorem setMapViewMode_factory_fallback (st : Store) (sel : FleetSelection) :
  _selectedEntity st = Some sel →
  if_truthy (sel_factoryId sel) = None →
  (sel_level sel = Parent →
     ∀ parent subsidiary factory,
       find (λ group, group_id group =
                        default (sel_id sel) (if_truthy (sel_parentGroupId sel)))
            (_parentGroups st) = Some parent →
       head (group_subsidiaries parent) = Some subsidiary →
       head (subsidiary_factories subsidiary) = Some factory →
       _selectedEntity (setMapViewMode Factory st) = Some (selection_of_factory factory)) ∧
  (sel_level sel = Parent →
     getFirstFactoryForSelection sel st = None →
     _selectedEntity (setMapViewMode Factory st) = Some sel) ∧
  (sel_level sel ≠ Parent →
     _selectedEntity (setMapViewMode Factory st) = Some sel).
Proof.
  intros Hsel Hnofac. unfold setMapViewMode. cbn zeta.
  cbn [_selectedEntity set_factoryFilterSubsidiaryId set_mapViewMode].
  rewrite Hsel.
  assert (∀ st', getFirstFactoryForSelection sel
            (set_factoryFilterSubsidiaryId None (set_mapViewMode Factory st')) =
          getFirstFactoryForSelection sel st') as Hframe by reflexivity.
  split; [|split].
  - intros Hlevel parent subsidiary factory Hparent Hsub Hfac.
    rewrite Hlevel, Hnofac. rewrite !bool_decide_eq_false_2 by discriminate.
    rewrite Hframe. unfold getFirstFactoryForSelection. rewrite Hlevel.
    rewrite str_or_Some. cbn [mbind option_bind]. rewrite Hparent. cbn [mbind option_bind].
    rewrite <- head_lookup, Hsub. cbn [mbind option_bind].
    rewrite <- head_lookup, Hfac. reflexivity.
  - intros Hlevel Hnone. rewrite Hlevel, Hnofac.
    rewrite !bool_decide_eq_false_2 by discriminate. rewrite Hframe, Hnone. exact Hsel.
  - intros Hlevel. destruct (sel_level sel) eqn:Hl; [contradiction| |].
    + rewrite bool_decide_eq_false_2 by discriminate.
      rewrite bool_decide_eq_true_2 by reflexivity. exact Hsel.
    + rewrite bool_decide_eq_true_2 by reflexivity. exact Hsel.
Qed.

(** C4 on the sample store: from the selected parent group to its first
    factory, and no change from the selected subsidiary. *)
Lemma setMapViewMode_factory_fallback_witness :
  _selectedEntity (setMapViewMode Factory sample_store) =
    Some (selection_of_factory origin_factory) ∧
  _selectedEntity (setMapViewMode Factory subsidiary_view_store) =
    Some subsidiary_selection.
Proof.
  split.
  - apply (setMapViewMode_factory_fallback sample_store parent_selection eq_refl eq_refl)
      with (parent := sample_group) (subsidiary := sample_subsidiary); reflexivity.
  - apply (setMapViewMode_factory_fallback subsidiary_view_store subsidiary_selection
             eq_refl eq_refl). discriminate.
Defined.

(** C4 as stated fails: with the subsidiary [s1] selected and no factory id
    in the selection, the first factory of [s1] exists, yet after
    [setMapViewMode('factory')] the selection is still the subsidiary. *)
Lemma setMapViewMode_factory_counterexample :
  _selectedEntity subsidiary_view_store = Some subsidiary_selection ∧
  sel_factoryId subsidiary_selection = None ∧
  head (subsidiary_factories sample_subsidiary) = Some origin_factory ∧
  _selectedEntity (setMapViewMode Factory subsidiary_view_store)
    ≠ Some (selection_of_factory origin_factory).
Proof. repeat split. discriminate. Qed.

(* ===================================================================== *)
(** ** Deleting a subsidiary *)
(* ===================================================================== *)

Lemma elem_of_flat_map {A B} (f : A → list B) (l : list A) (y : B) :
  y ∈ flat_map f l ↔ ∃ x, x ∈ l ∧ y ∈ f x.
Proof.
  rewrite list_elem_of_In, in_flat_map. split; intros (x & Hx & Hy); exists x.
  - now rewrite !list_elem_of_In.
  - now rewrite <- !list_elem_of_In.
Qed.

Lemma elem_of_subsidiaries (st : Store) (s : SubsidiaryCompany) :
  s ∈ subsidiaries st ↔ ∃ g, g ∈ _parentGroups st ∧ s ∈ group_subsidiaries g.
Proof. apply elem_of_flat_map. Qed.

Lemma filter_length_eq {A} (P : A → Prop) `{∀ x, Decision (P x)} (l : list A) :
  length (filter P l) = length l → filter P l = l.
Proof.
  induction l as [|x l IH]; [reflexivity|].
  rewrite filter_cons. destruct (decide (P x)) as [Hx|Hx]; simpl.
  - intros Hlen. f_equal. apply IH. lia.
  - intros Hlen. pose proof (length_filter P l). lia.
Qed.

Lemma find_Some_elem {A} (P : A → Prop) `{∀ x, Decision (P x)} (l : list A) (x : A) :
  find P l = Some x → x ∈ l ∧ P x.
Proof.
  unfold find. destruct (list_find P l) as [[i y]|] eqn:Hf; [|discriminate].
  intros [= <-]. apply list_find_Some in Hf as (Hi & HP & _).
  split; [eapply list_elem_of_lookup_2; exact Hi|exact HP].
Qed.

(** The groups [deleteSubsidiary] writes. *)
Lemma deleteSubsidiary_groups (subsidiaryId : string) (g : ParentGroup) :
  let remaining :=
    filter (λ s, subsidiary_id s ≠ subsidiaryId) (group_subsidiaries g) in
  let g' :=
    if bool_decide (length remaining = length (group_subsidiaries g)) then g
    else with_subsidiaries remaining (computeMetricsFromSubsidiaries remaining) g in
  group_subsidiaries g' = remaining ∧ group_id g' = group_id g.
Proof.
  cbn zeta. case_bool_decide as Hlen; [|split; reflexivity].
  split; [|reflexivity]. symmetry. now apply filter_length_eq.
Qed.

(** C6.  Deleting an existing subsidiary removes it from every group
    (the other subsidiaries and the groups stay, in order), removes exactly
    the log entries whose subsidiary id is the deleted one or whose factory
    id is that of one of its factories, and, when the selection refers to
    the deleted subsidiary, selects its parent group at level 'parent' and
    switches the view mode to 'parent', or clears the selection when the
    subsidiary has no parent-group id.  A selection that does not refer to
    it stays, with the view mode. *)
Theorem deleteSubsidiary_spec (st : Store) (subsidiaryId : string)
    (removed : SubsidiaryCompany) :
  find (λ s, subsidiary_id s = subsidiaryId) (subsidiaries st) = Some removed →
  let st' := deleteSubsidiary subsidiaryId st in
  group_id <$> _parentGroups st' = group_id <$> _parentGroups st ∧
  group_subsidiaries <$> _parentGroups st' =
    (λ g, filter (λ s, subsidiary_id s ≠ subsidiaryId) (group_subsidiaries g))
      <$> _parentGroups st ∧
  (∀ s, s ∈ subsidiaries st' ↔ s ∈ subsidiaries st ∧ subsidiary_id s ≠ subsidiaryId) ∧
  _activityLogs st' =
    filter (λ log, ¬ (log_subsidiaryId log = subsidiaryId ∨
                      log_factoryId log ∈ factory_id <$> subsidiary_factories removed))
           (_activityLogs st) ∧
  (∀ sel, _selectedEntity st = Some sel → refers_to_subsidiary subsidiaryId sel →
     (subsidiary_parentGroupId removed ≠ "" →
        _selectedEntity st' = Some (selection_of_parent (subsidiary_parentGroupId removed)) ∧
        _mapViewMode st' = Parent) ∧
     (subsidiary_parentGroupId removed = "" →
        _selectedEntity st' = None ∧ _mapViewMode st' = _mapViewMode st)) ∧
  (∀ sel, _selectedEntity st = Some sel → ¬ refers_to_subsidiary subsidiaryId sel →
     _selectedEntity st' = Some sel ∧ _mapViewMode st' = _mapViewMode st) ∧
  (_selectedEntity st = None →
     _selectedEntity st' = None ∧ _mapViewMode st' = _mapViewMode st).
Proof.
  intros Hfind st'.
  set (groups' :=
    (λ group,
       let remainingSubsidiaries :=
         filter (λ subsidiary, subsidiary_id subsidiary ≠ subsidiaryId)
                (group_subsidiaries group) in
       if bool_decide (length remainingSubsidiaries = length (group_subsidiaries group))
       then group
       else with_subsidiaries remainingSubsidiaries
              (computeMetricsFromSubsidiaries remainingSubsidiaries) group)
      <$> _parentGroups st).
  set (logs' :=
    filter (λ log, log_subsidiaryId log ≠ subsidiaryId ∧
                   log_factoryId log ∉ factory_id <$> subsidiary_factories removed)
           (_activityLogs st)).
  assert (_parentGroups st' = groups') as Hgroups.
  { unfold st', deleteSubsidiary. rewrite Hfind. cbn zeta.
    cbn [_selectedEntity set_activityLogs set_parentGroups].
    repeat case_match; reflexivity. }
  assert (_activityLogs st' = logs') as Hlogs.
  { unfold st', deleteSubsidiary. rewrite Hfind. cbn zeta.
    cbn [_selectedEntity set_activityLogs set_parentGroups _activityLogs].
    repeat case_match; reflexivity. }
  assert (group_subsidiaries <$> groups' =
          (λ g, filter (λ s, subsidiary_id s ≠ subsidiaryId) (group_subsidiaries g))
            <$> _parentGroups st) as Hsubs.
  { unfold groups'. rewrite <- list_fmap_compose. apply list_fmap_ext.
    intros i g _. apply (deleteSubsidiary_groups subsidiaryId g). }
  rewrite Hgroups, Hlogs.
  split; [|split; [exact Hsubs|split; [|split; [|split; [|split]]]]].
  - unfold groups'. rewrite <- list_fmap_compose. apply list_fmap_ext.
    intros i g _. apply (deleteSubsidiary_groups subsidiaryId g).
  - intros s. unfold subsidiaries. rewrite Hgroups.
    rewrite !elem_of_flat_map. split.
    + intros (g' & Hg' & Hs). unfold groups' in Hg'.
      apply list_elem_of_fmap in Hg' as (g & -> & Hg).
      destruct (deleteSubsidiary_groups subsidiaryId g) as [Heq _]. cbn zeta in Heq.
      rewrite Heq in Hs. apply list_elem_of_filter in Hs as [Hne Hs]. eauto.
    + intros [(g & Hg & Hs) Hne].
      eexists. split; [unfold groups'; apply list_elem_of_fmap; eauto|].
      destruct (deleteSubsidiary_groups subsidiaryId g) as [Heq _]. cbn zeta in Heq.
      rewrite Heq. apply list_elem_of_filter. tauto.
  - unfold logs'. apply list_filter_iff. intros log. tauto.
  - intros sel Hsel Href.
    assert (bool_decide (sel_subsidiaryId sel = Some subsidiaryId) ||
            bool_decide (sel_id sel = subsidiaryId) = true) as Hb.
    { apply orb_true_iff. destruct Href as [H|H]; [left|right];
        now apply bool_decide_eq_true. }
    unfold st', deleteSubsidiary. rewrite Hfind. cbn zeta.
    cbn [_selectedEntity set_activityLogs set_parentGroups]. rewrite Hsel, Hb.
    unfold truthy_str. split.
    + intros Hne. rewrite bool_decide_eq_false_2 by exact Hne. split; reflexivity.
    + intros Heq. rewrite bool_decide_eq_true_2 by exact Heq. split; reflexivity.
  - intros sel Hsel Href.
    assert (bool_decide (sel_subsidiaryId sel = Some subsidiaryId) ||
            bool_decide (sel_id sel = subsidiaryId) = false) as Hb.
    { apply orb_false_iff. split; apply bool_decide_eq_false; intros H; apply Href;
        [now left|now right]. }
    unfold st', deleteSubsidiary. rewrite Hfind. cbn zeta.
    cbn [_selectedEntity set_activityLogs set_parentGroups]. rewrite Hsel, Hb.
    split; [exact Hsel|reflexivity].
  - intros Hsel. unfold st', deleteSubsidiary. rewrite Hfind. cbn zeta.
    cbn [_selectedEntity set_activityLogs set_parentGroups]. rewrite Hsel.
    split; [exact Hsel|reflexivity].
Qed.

(** C6 on the sample store with three log entries and the subsidiary [s1]
    selected. *)
Lemma deleteSubsidiary_spec_witness :
  _activityLogs (deleteSubsidiary "s1" logged_store) = [other_log] ∧
  _selectedEntity (deleteSubsidiary "s1" logged_store) = Some (selection_of_parent "g1") ∧
  _mapViewMode (deleteSubsidiary "s1" logged_store) = Parent ∧
  Forall (λ s, subsidiary_id s ≠ "s1") (subsidiaries (deleteSubsidiary "s1" logged_store)).
Proof.
  pose proof (deleteSubsidiary_spec logged_store "s1" sample_subsidiary eq_refl)
    as (_ & _ & Hsubs & Hlogs & Hsel & _).
  split; [rewrite Hlogs; reflexivity|].
  destruct (Hsel subsidiary_selection eq_refl (or_introl eq_refl)) as [Hparent _].
  split; [now apply Hparent|]. split; [now apply Hparent|].
  apply Forall_forall. intros s Hs. now apply Hsubs in Hs.
Defined.

(* ===================================================================== *)
(** ** Adding and replacing: the call budget and the closed forms *)
(* ===================================================================== *)

Lemma normalized_idem (s : SubsidiaryCompany) :
  with_metrics (computeMetricsFromFactories (subsidiary_factories (normalized s)))
    (normalized s) = normalized s.
Proof. reflexivity. Qed.

Lemma addSubsidiary_fuel_eq (n : nat) (s : SubsidiaryCompany) (st : Store) :
  addSubsidiary_fuel (S (S n)) s st =
  Some
    match list_find (λ g, group_id g = subsidiary_parentGroupId s) (_parentGroups st) with
    | None => set_parentGroups (_parentGroups st ++ [new_parent s]) st
    | Some (parentIndex, parent) =>
        match findIndex (λ x, subsidiary_id x = subsidiary_id s)
                        (group_subsidiaries parent) with
        | Some existingIndex =>
            write_subsidiaries parentIndex parent
              (<[existingIndex := normalized s]> (group_subsidiaries parent)) st
        | None =>
            write_subsidiaries parentIndex parent
              (group_subsidiaries parent ++ [normalized s]) st
        end
    end.
Proof.
  cbn [addSubsidiary_fuel].
  destruct (list_find _ (_parentGroups st)) as [[parentIndex parent]|] eqn:Hp;
    [|reflexivity].
  destruct (findIndex _ (group_subsidiaries parent)) as [existingIndex|] eqn:Hs;
    [|reflexivity].
  cbn [updateSubsidiary_fuel].
  change (subsidiary_parentGroupId (with_metrics _ s)) with (subsidiary_parentGroupId s).
  change (subsidiary_id (with_metrics _ s)) with (subsidiary_id s).
  rewrite Hp, Hs. reflexivity.
Qed.

Lemma updateSubsidiary_fuel_eq (n : nat) (s : SubsidiaryCompany) (st : Store) :
  updateSubsidiary_fuel (S (S n)) s st =
  Some
    match list_find (λ g, group_id g = subsidiary_parentGroupId s) (_parentGroups st) with
    | None =>
        set_parentGroups (_parentGroups st ++ [new_parent s])
          (console_warn ("Parent group " +:+ subsidiary_parentGroupId s +:+
                         " not found. Adding subsidiary instead.") st)
    | Some (parentIndex, parent) =>
        match findIndex (λ x, subsidiary_id x = subsidiary_id s)
                        (group_subsidiaries parent) with
        | Some subIndex =>
            write_subsidiaries parentIndex parent
              (<[subIndex := normalized s]> (group_subsidiaries parent)) st
        | None =>
            write_subsidiaries parentIndex parent
              (group_subsidiaries parent ++ [normalized s])
              (console_warn ("Subsidiary " +:+ subsidiary_id s +:+
                             " not found. Adding instead.") st)
        end
    end.
Proof.
  cbn [updateSubsidiary_fuel].
  destruct (list_find _ (_parentGroups st)) as [[parentIndex parent]|] eqn:Hp.
  - destruct (findIndex _ (group_subsidiaries parent)) as [subIndex|] eqn:Hs;
      [reflexivity|].
    cbn [addSubsidiary_fuel _parentGroups console_warn]. rewrite Hp, Hs. reflexivity.
  - cbn [addSubsidiary_fuel _parentGroups console_warn]. rewrite Hp. reflexivity.
Qed.

Lemma addFactory_fuel_eq (n : nat) (f : FactoryLocation) (st : Store) :
  addFactory_fuel (S (S n)) f st =
  Some
    match list_find (λ g, group_id g = factory_parentGroupId f) (_parentGroups st) with
    | None =>
        console_warn ("Parent group " +:+ factory_parentGroupId f +:+
                      " not found. Cannot add factory.") st
    | Some (parentIndex, parent) =>
        match list_find (λ x, subsidiary_id x = factory_subsidiaryId f)
                        (group_subsidiaries parent) with
        | None =>
            console_warn ("Subsidiary " +:+ factory_subsidiaryId f +:+
                          " not found. Cannot add factory.") st
        | Some (subIndex, subsidiary) =>
            match findIndex (λ x, factory_id x = factory_id f)
                            (subsidiary_factories subsidiary) with
            | Some factoryIndex =>
                write_factories parentIndex parent subIndex subsidiary
                  (<[factoryIndex := f]> (subsidiary_factories subsidiary))
                  (console_warn ("Factory " +:+ factory_id f +:+
                                 " already exists. Updating instead.") st)
            | None =>
                write_factories parentIndex parent subIndex subsidiary
                  (subsidiary_factories subsidiary ++ [f]) st
            end
        end
    end.
Proof.
  cbn [addFactory_fuel].
  destruct (list_find _ (_parentGroups st)) as [[parentIndex parent]|] eqn:Hp;
    [|reflexivity].
  destruct (list_find _ (group_subsidiaries parent)) as [[subIndex subsidiary]|] eqn:Hs;
    [|reflexivity].
  unfold find, findIndex.
  destruct (list_find _ (subsidiary_factories subsidiary)) as [[factoryIndex g]|] eqn:Hf;
    [|reflexivity].
  cbn [fmap option_fmap option_map snd fst updateFactory_fuel _parentGroups console_warn].
  rewrite Hp, Hs. unfold findIndex. rewrite Hf. reflexivity.
Qed.

Lemma updateFactory_fuel_eq (n : nat) (f : FactoryLocation) (st : Store) :
  updateFactory_fuel (S (S n)) f st =
  Some
    match list_find (λ g, group_id g = factory_parentGroupId f) (_parentGroups st) with
    | None => st
    | Some (parentIndex, parent) =>
        match list_find (λ x, subsidiary_id x = factory_subsidiaryId f)
                        (group_subsidiaries parent) with
        | None => st
        | Some (subIndex, subsidiary) =>
            match findIndex (λ x, factory_id x = factory_id f)
                            (subsidiary_factories subsidiary) with
            | Some factoryIndex =>
                write_factories parentIndex parent subIndex subsidiary
                  (<[factoryIndex := f]> (subsidiary_factories subsidiary)) st
            | None =>
                write_factories parentIndex parent subIndex subsidiary
                  (subsidiary_factories subsidiary ++ [f]) st
            end
        end
    end.
Proof.
  cbn [updateFactory_fuel].
  destruct (list_find _ (_parentGroups st)) as [[parentIndex parent]|] eqn:Hp;
    [|reflexivity].
  destruct (list_find _ (group_subsidiaries parent)) as [[subIndex subsidiary]|] eqn:Hs;
    [|reflexivity].
  unfold findIndex.
  destruct (list_find _ (subsidiary_factories subsidiary)) as [[factoryIndex g]|] eqn:Hf;
    [reflexivity|].
  cbn [fmap option_fmap option_map snd fst addFactory_fuel]. rewrite Hp, Hs.
  unfold find. rewrite Hf. reflexivity.
Qed.

(** Two calls always suffice, and a larger budget changes nothing. *)
Lemma addSubsidiary_fuel_total (n : nat) (s : SubsidiaryCompany) (st : Store) :
  addSubsidiary_fuel (S (S n)) s st = Some (addSubsidiary s st).
Proof.
  unfold addSubsidiary. rewrite (addSubsidiary_fuel_eq 0), (addSubsidiary_fuel_eq n).
  reflexivity.
Qed.

Lemma updateSubsidiary_fuel_total (n : nat) (s : SubsidiaryCompany) (st : Store) :
  updateSubsidiary_fuel (S (S n)) s st = Some (updateSubsidiary s st).
Proof.
  unfold updateSubsidiary.
  rewrite (updateSubsidiary_fuel_eq 0), (updateSubsidiary_fuel_eq n). reflexivity.
Qed.

Lemma addFactory_fuel_total (n : nat) (f : FactoryLocation) (st : Store) :
  addFactory_fuel (S (S n)) f st = Some (addFactory f st).
Proof.
  unfold addFactory. rewrite (addFactory_fuel_eq 0), (addFactory_fuel_eq n). reflexivity.
Qed.

Lemma updateFactory_fuel_total (n : nat) (f : FactoryLocation) (st : Store) :
  updateFactory_fuel (S (S n)) f st = Some (updateFactory f st).
Proof.
  unfold updateFactory. rewrite (updateFactory_fuel_eq 0), (updateFactory_fuel_eq n).
  reflexivity.
Qed.

(* ===================================================================== *)
(** ** Writes whose target is missing *)
(* ===================================================================== *)

Lemma list_find_absent {A} (P : A → Prop) `{∀ x, Decision (P x)} (l : list A) :
  (∀ x, x ∈ l → ¬ P x) → list_find P l = None.
Proof. intros Hno. apply list_find_None, Forall_forall. exact Hno. Qed.

Lemma find_list_find {A} (P : A → Prop) `{∀ x, Decision (P x)} (l : list A) (x : A) :
  find P l = Some x → ∃ i, list_find P l = Some (i, x).
Proof.
  unfold find. destruct (list_find P l) as [[i y]|]; [|discriminate].
  intros [= <-]. eauto.
Qed.

Lemma findIndex_absent {A} (P : A → Prop) `{∀ x, Decision (P x)} (l : list A) :
  (∀ x, x ∈ l → ¬ P x) → findIndex P l = None.
Proof. intros Hno. unfold findIndex. now rewrite list_find_absent. Qed.

Lemma map_accum_unchanged {S A} (f : S → A → S * A) (s : S) (l : list A) :
  (∀ x, x ∈ l → f s x = (s, x)) → map_accum f s l = (s, l).
Proof.
  induction l as [|x l IH]; intros Hf; simpl; [reflexivity|].
  rewrite (Hf x) by (now left). rewrite IH; [reflexivity|].
  intros y Hy. apply Hf. now right.
Qed.

Lemma filter_all {A} (P : A → Prop) `{∀ x, Decision (P x)} (l : list A) :
  (∀ x, x ∈ l → P x) → filter P l = l.
Proof.
  induction l as [|x l IH]; intros Hall; [reflexivity|].
  rewrite filter_cons_True by (apply Hall; now left).
  f_equal. apply IH. intros y Hy. apply Hall. now right.
Qed.

Lemma elem_of_factories (st : Store) (f : FactoryLocation) :
  f ∈ factories st ↔ ∃ s, s ∈ subsidiaries st ∧ f ∈ subsidiary_factories s.
Proof. apply elem_of_flat_map. Qed.

Lemma factory_in_store (st : Store) g s f :
  g ∈ _parentGroups st → s ∈ group_subsidiaries g → f ∈ subsidiary_factories s →
  f ∈ factories st.
Proof.
  intros Hg Hs Hf. apply elem_of_factories. exists s. split; [|exact Hf].
  apply elem_of_subsidiaries. eauto.
Qed.

Lemma deleteFactory_absent (factoryId : string) (st : Store) :
  (∀ f, f ∈ factories st → factory_id f ≠ factoryId) → deleteFactory factoryId st = st.
Proof.
  intros Hno. unfold deleteFactory. cbn zeta.
  rewrite map_accum_unchanged; [reflexivity|].
  intros g Hg. unfold deleteFactory_group.
  rewrite map_accum_unchanged; [reflexivity|].
  intros s Hs. unfold deleteFactory_subsidiary. cbn zeta.
  rewrite filter_all; [now rewrite bool_decide_eq_true_2|].
  intros f Hf. apply Hno. eapply factory_in_store; eassumption.
Qed.

Lemma no_subsidiary_Exists (st : Store) (subsidiaryId : string) :
  (∀ s, s ∈ subsidiaries st → subsidiary_id s ≠ subsidiaryId) →
  ¬ Exists (λ group,
      Exists (λ sub, subsidiary_id sub = subsidiaryId) (group_subsidiaries group))
    (_parentGroups st).
Proof.
  intros Hno (g & Hg & (s & Hs & Hid)%Exists_exists)%Exists_exists.
  apply (Hno s); [|exact Hid]. apply elem_of_subsidiaries. eauto.
Qed.

Lemma no_factory_Exists (st : Store) (factoryId : string) :
  (∀ f, f ∈ factories st → factory_id f ≠ factoryId) →
  ¬ Exists (λ group,
      Exists (λ sub, Exists (λ factory, factory_id factory = factoryId)
                            (subsidiary_factories sub))
             (group_subsidiaries group))
    (_parentGroups st).
Proof.
  intros Hno (g & Hg & (s & Hs & (f & Hf & Hid)%Exists_exists)%Exists_exists)%Exists_exists.
  apply (Hno f); [|exact Hid]. eapply factory_in_store; eassumption.
Qed.

(** C5, amended.  A write whose target is missing leaves the hierarchy as
    it is in these cases: [addFactory] when the factory's parent group, or
    its subsidiary in that group, does not exist (the store is unchanged
    but for one warning); [updateFactory] in the same cases and
    [updateHubStatus] when no group holds the subsidiary or the subsidiary
    has no such hub (the store is unchanged); the detail updates and the
    deletions of a subsidiary or factory that does not exist.  The other
    writes insert what is missing: [addSubsidiary] and [updateSubsidiary]
    create the missing parent group around the subsidiary,
    [updateSubsidiary] appends a missing subsidiary to its parent group, and
    [updateFactory] appends a missing factory to its subsidiary. *)
Theorem missing_target_writes (st : Store) :
  (∀ f, (∀ g, g ∈ _parentGroups st → group_id g ≠ factory_parentGroupId f) →
     addFactory f st =
       console_warn ("Parent group " +:+ factory_parentGroupId f +:+
                     " not found. Cannot add factory.") st ∧
     updateFactory f st = st) ∧
  (∀ f parent,
     find (λ g, group_id g = factory_parentGroupId f) (_parentGroups st) = Some parent →
     (∀ s, s ∈ group_subsidiaries parent → subsidiary_id s ≠ factory_subsidiaryId f) →
     addFactory f st =
       console_warn ("Subsidiary " +:+ factory_subsidiaryId f +:+
                     " not found. Cannot add factory.") st ∧
     updateFactory f st = st) ∧
  (∀ subsidiaryId hubCode updates,
     (∀ s, s ∈ subsidiaries st → subsidiary_id s = subsidiaryId →
           ∀ h, h ∈ subsidiary_hubs s → hub_code h ≠ hubCode) →
     updateHubStatus subsidiaryId hubCode updates st = st) ∧
  (∀ subsidiaryId updates,
     (∀ s, s ∈ subsidiaries st → subsidiary_id s ≠ subsidiaryId) →
     updateSubsidiaryDetails subsidiaryId updates st = st ∧
     deleteSubsidiary subsidiaryId st = st) ∧
  (∀ factoryId updates,
     (∀ f, f ∈ factories st → factory_id f ≠ factoryId) →
     _parentGroups (updateFactoryDetails factoryId updates st) = _parentGroups st ∧
     deleteFactory factoryId st = st) ∧
  (∀ s, (∀ g, g ∈ _parentGroups st → group_id g ≠ subsidiary_parentGroupId s) →
     _parentGroups (addSubsidiary s st) = _parentGroups st ++ [new_parent s] ∧
     _parentGroups (updateSubsidiary s st) = _parentGroups st ++ [new_parent s]) ∧
  (∀ s parentIndex parent,
     list_find (λ g, group_id g = subsidiary_parentGroupId s) (_parentGroups st)
       = Some (parentIndex, parent) →
     (∀ x, x ∈ group_subsidiaries parent → subsidiary_id x ≠ subsidiary_id s) →
     updateSubsidiary s st =
       write_subsidiaries parentIndex parent (group_subsidiaries parent ++ [normalized s])
         (console_warn ("Subsidiary " +:+ subsidiary_id s +:+
                        " not found. Adding instead.") st)) ∧
  (∀ f parentIndex parent subIndex subsidiary,
     list_find (λ g, group_id g = factory_parentGroupId f) (_parentGroups st)
       = Some (parentIndex, parent) →
     list_find (λ x, subsidiary_id x = factory_subsidiaryId f) (group_subsidiaries parent)
       = Some (subIndex, subsidiary) →
     (∀ x, x ∈ subsidiary_factories subsidiary → factory_id x ≠ factory_id f) →
     updateFactory f st =
       write_factories parentIndex parent subIndex subsidiary
         (subsidiary_factories subsidiary ++ [f]) st).
Proof.
  repeat apply conj.
  - intros f Hno. unfold addFactory, updateFactory.
    rewrite (addFactory_fuel_eq 0), (updateFactory_fuel_eq 0).
    rewrite list_find_absent by (intros g Hg; now apply Hno). split; reflexivity.
  - intros f parent Hparent Hno. unfold addFactory, updateFactory.
    rewrite (addFactory_fuel_eq 0), (updateFactory_fuel_eq 0).
    apply find_list_find in Hparent as [i Hparent]. rewrite Hparent.
    rewrite list_find_absent by (intros s Hs; now apply Hno). split; reflexivity.
  - intros subsidiaryId hubCode updates Hno. unfold updateHubStatus.
    destruct (list_find _ (_parentGroups st)) as [[parentIndex parent]|] eqn:Hp;
      [|reflexivity].
    destruct (list_find _ (group_subsidiaries parent)) as [[subIndex sub]|] eqn:Hs;
      [|reflexivity].
    apply list_find_Some in Hp as (Hp & _ & _).
    apply list_find_Some in Hs as (Hs & Hid & _).
    rewrite list_find_absent; [reflexivity|].
    intros h Hh. apply (Hno sub); [|exact Hid|exact Hh].
    apply elem_of_subsidiaries. exists parent.
    split; eapply list_elem_of_lookup_2; eassumption.
  - intros subsidiaryId updates Hno. split.
    + unfold updateSubsidiaryDetails. cbn zeta.
      rewrite bool_decide_eq_false_2 by now apply no_subsidiary_Exists. reflexivity.
    + unfold deleteSubsidiary, find.
      rewrite list_find_absent by (intros s Hs; now apply Hno). reflexivity.
  - intros factoryId updates Hno. split; [|now apply deleteFactory_absent].
    unfold updateFactoryDetails. cbn zeta.
    rewrite (bool_decide_eq_false_2 (Exists _ (_parentGroups st)))
      by now apply no_factory_Exists.
    destruct (_ || _); reflexivity.
  - intros s Hno. unfold addSubsidiary, updateSubsidiary.
    rewrite (addSubsidiary_fuel_eq 0), (updateSubsidiary_fuel_eq 0).
    rewrite list_find_absent by (intros g Hg; now apply Hno). split; reflexivity.
  - intros s parentIndex parent Hparent Hno. unfold updateSubsidiary.
    rewrite (updateSubsidiary_fuel_eq 0), Hparent.
    rewrite findIndex_absent by (intros x Hx; now apply Hno). reflexivity.
  - intros f parentIndex parent subIndex subsidiary Hparent Hsub Hno.
    unfold updateFactory. rewrite (updateFactory_fuel_eq 0), Hparent, Hsub.
    rewrite findIndex_absent by (intros x Hx; now apply Hno). reflexivity.
Qed.

(** C5 on the sample store: a factory of a subsidiary that does not exist,
    and a subsidiary of a parent group that does not exist. *)
Lemma missing_target_writes_witness :
  (addFactory orphan_factory sample_store =
     console_warn "Subsidiary s9 not found. Cannot add factory." sample_store ∧
   updateFactory orphan_factory sample_store = sample_store) ∧
  (_parentGroups (addSubsidiary orphan_subsidiary sample_store) =
     [sample_group; new_parent orphan_subsidiary] ∧
   _parentGroups (updateSubsidiary orphan_subsidiary sample_store) =
     [sample_group; new_parent orphan_subsidiary]).
Proof.
  pose proof (missing_target_writes sample_store)
    as (_ & Hfactory & _ & _ & _ & Hsub & _).
  split.
  - apply (Hfactory orphan_factory sample_group); [reflexivity|].
    intros s Hs. apply list_elem_of_singleton in Hs as ->. discriminate.
  - apply (Hsub orphan_subsidiary).
    intros g Hg. apply list_elem_of_singleton in Hg as ->. discriminate.
Defined.

(** C5 as stated fails: [addSubsidiary] for a subsidiary whose parent group
    [g9] does not exist is not a no-op; it adds a group to the hierarchy. *)
Lemma missing_target_counterexample :
  (∀ g, g ∈ _parentGroups sample_store →
        group_id g ≠ subsidiary_parentGroupId orphan_subsidiary) ∧
  _parentGroups (addSubsidiary orphan_subsidiary sample_store)
    ≠ _parentGroups sample_store.
Proof.
  split.
  - intros g Hg. apply list_elem_of_singleton in Hg as ->. discriminate.
  - intros H. apply (f_equal length) in H. vm_compute in H. discriminate.
Qed.

(* ===================================================================== *)
(** ** Metrics after a structural mutation *)
(* ===================================================================== *)

Section Freshness.
Variable keeps : bool.

Lemma fresh_subs_refl (l : list SubsidiaryCompany) : fresh_subs keeps l l.
Proof. intros s Hs. now left. Qed.

Lemma fresh_subs_insert (l : list SubsidiaryCompany) (i : nat) (s old : SubsidiaryCompany) :
  l !! i = Some old →
  sub_consistent s ∨ (keeps = true ∧ carried s old) →
  fresh_subs keeps l (<[i := s]> l).
Proof.
  intros Hold Hs s' Hin. apply list_elem_of_lookup in Hin as [j Hj].
  apply list_lookup_insert_Some in Hj as [(-> & <- & _)|[_ Hj]].
  - destruct Hs as [Hs|[Hk Hc]]; [now right; left|].
    right. right. split; [exact Hk|]. exists old.
    split; [eapply list_elem_of_lookup_2; exact Hold|exact Hc].
  - left. eapply list_elem_of_lookup_2; exact Hj.
Qed.

Lemma fresh_subs_app (l : list SubsidiaryCompany) (s : SubsidiaryCompany) :
  sub_consistent s → fresh_subs keeps l (l ++ [s]).
Proof.
  intros Hs s' Hin. apply elem_of_app in Hin as [Hin|Hin]; [now left|].
  apply list_elem_of_singleton in Hin as ->. now right; left.
Qed.

Lemma fresh_subs_fmap (h : SubsidiaryCompany → SubsidiaryCompany)
    (l : list SubsidiaryCompany) :
  (∀ s, h s = s ∨ sub_consistent (h s) ∨ (keeps = true ∧ carried (h s) s)) →
  fresh_subs keeps l (h <$> l).
Proof.
  intros Hh s' Hin. apply list_elem_of_fmap in Hin as (s & -> & Hs).
  destruct (Hh s) as [->|[Hc|[Hk Hc]]]; [now left|now right; left|].
  right. right. eauto.
Qed.

Lemma fresh_subs_filter (P : SubsidiaryCompany → Prop) `{∀ x, Decision (P x)}
    (l : list SubsidiaryCompany) :
  fresh_subs keeps l (filter P l).
Proof. intros s' Hin. apply list_elem_of_filter in Hin as [_ Hin]. now left. Qed.

Lemma group_step_refl (g : ParentGroup) : group_step keeps g g.
Proof. split; [now left|apply fresh_subs_refl]. Qed.

Lemma group_step_write (g : ParentGroup) (subs : list SubsidiaryCompany) :
  fresh_subs keeps (group_subsidiaries g) subs →
  group_step keeps g (with_subsidiaries subs (computeMetricsFromSubsidiaries subs) g).
Proof. intros Hsubs. split; [right; reflexivity|exact Hsubs]. Qed.

Lemma Forall2_group_step_refl (l : list ParentGroup) : Forall2 (group_step keeps) l l.
Proof. induction l; constructor; [apply group_step_refl|assumption]. Qed.

Lemma Forall2_group_step_insert (l : list ParentGroup) (i : nat) (g g' : ParentGroup) :
  l !! i = Some g → group_step keeps g g' →
  Forall2 (group_step keeps) l (<[i := g']> l).
Proof.
  revert i. induction l as [|x l IH]; intros [|i]; simpl; try discriminate.
  - intros [= ->] Hstep. constructor; [exact Hstep|apply Forall2_group_step_refl].
  - intros Hi Hstep. constructor; [apply group_step_refl|now apply IH].
Qed.

Lemma Forall2_group_step_fmap (f : ParentGroup → ParentGroup) (l : list ParentGroup) :
  (∀ g, group_step keeps g (f g)) → Forall2 (group_step keeps) l (f <$> l).
Proof. intros Hf. induction l; constructor; [apply Hf|assumption]. Qed.

(** From the groups, place by place, to the two lists the claim is about. *)
Lemma group_steps_fresh (old new : list ParentGroup) :
  Forall2 (group_step keeps) old new →
  fresh_groups old new ∧
  fresh_subs keeps (flat_map group_subsidiaries old) (flat_map group_subsidiaries new).
Proof.
  intros Hall. split.
  - intros i g' Hi.
    destruct (Forall2_lookup_r _ _ _ _ _ Hall Hi) as (g & Hg & [[-> | Hc] _]);
      [now left|now right].
  - intros s' Hin. apply elem_of_flat_map in Hin as (g' & Hg' & Hs').
    apply list_elem_of_lookup in Hg' as [i Hi].
    destruct (Forall2_lookup_r _ _ _ _ _ Hall Hi) as (g & Hg & [_ Hsubs]).
    assert (g ∈ old) as Hgin by (eapply list_elem_of_lookup_2; exact Hg).
    destruct (Hsubs s' Hs') as [Hold|[Hc|[Hk (s & Hs & Hc)]]].
    + left. apply elem_of_flat_map. eauto.
    + now right; left.
    + right. right. split; [exact Hk|]. exists s. split; [|exact Hc].
      apply elem_of_flat_map. eauto.
Qed.

Lemma group_app_fresh (old : list ParentGroup) (g : ParentGroup) :
  group_consistent g →
  (∀ s, s ∈ group_subsidiaries g → sub_consistent s) →
  fresh_groups old (old ++ [g]) ∧
  fresh_subs keeps (flat_map group_subsidiaries old)
                   (flat_map group_subsidiaries (old ++ [g])).
Proof.
  intros Hg Hsubs. split.
  - intros i g' Hi. apply lookup_app_Some in Hi as [Hi|[_ Hi]]; [now left|].
    right. destruct (i - length old)%nat; simpl in Hi; [|discriminate].
    now injection Hi as <-.
  - intros s' Hin. apply elem_of_flat_map in Hin as (g' & Hg' & Hs').
    apply elem_of_app in Hg' as [Hg'|Hg'].
    + left. apply elem_of_flat_map. eauto.
    + apply list_elem_of_singleton in Hg' as ->. right; left. now apply Hsubs.
Qed.
End Freshness.

Lemma map_accum_Forall2 {S A B} (f : S → A → S * B) (Q : A → B → Prop) :
  (∀ s x, Q x (f s x).2) → ∀ s l, Forall2 Q l (map_accum f s l).2.
Proof.
  intros Hf s l. revert s. induction l as [|x l IH]; intros s; simpl; [constructor|].
  specialize (Hf s x). destruct (f s x) as [s1 y]. specialize (IH s1).
  destruct (map_accum f s1 l) as [s2 ys]. simpl in *. now constructor.
Qed.

Lemma map_accum_fmap {S A B} (f : S → A → S * B) (h : A → B) :
  (∀ s x, (f s x).2 = h x) → ∀ s l, (map_accum f s l).2 = h <$> l.
Proof.
  intros Hf s l. revert s. induction l as [|x l IH]; intros s; simpl; [reflexivity|].
  specialize (Hf s x). destruct (f s x) as [s1 y]. specialize (IH s1).
  destruct (map_accum f s1 l) as [s2 ys]. simpl in *. now subst.
Qed.

Lemma list_find_lookup {A} (P : A → Prop) `{∀ x, Decision (P x)} (l : list A) i x :
  list_find P l = Some (i, x) → l !! i = Some x.
Proof. intros Hf. now apply list_find_Some in Hf as (Hi & _). Qed.

Lemma findIndex_lookup {A} (P : A → Prop) `{∀ x, Decision (P x)} (l : list A) i :
  findIndex P l = Some i → ∃ x, l !! i = Some x.
Proof.
  unfold findIndex. destruct (list_find P l) as [[j x]|] eqn:Hf; [|discriminate].
  intros [= <-]. exists x. eapply list_find_lookup; exact Hf.
Qed.

Lemma fresh_refl (keeps : bool) (st st' : Store) :
  _parentGroups st' = _parentGroups st → fresh keeps st st'.
Proof.
  intros Heq. unfold fresh, subsidiaries. rewrite Heq.
  apply group_steps_fresh, Forall2_group_step_refl.
Qed.

Lemma fresh_write_subsidiaries (keeps : bool) (st st0 : Store) parentIndex parent subs :
  _parentGroups st0 = _parentGroups st →
  _parentGroups st !! parentIndex = Some parent →
  fresh_subs keeps (group_subsidiaries parent) subs →
  fresh keeps st (write_subsidiaries parentIndex parent subs st0).
Proof.
  intros Heq Hparent Hsubs. unfold fresh, subsidiaries, write_subsidiaries.
  cbn [_parentGroups set_parentGroups]. rewrite Heq.
  apply group_steps_fresh, (Forall2_group_step_insert _ _ _ parent); [exact Hparent|].
  now apply group_step_write.
Qed.

Lemma fresh_write_factories (keeps : bool) (st st0 : Store)
    parentIndex parent subIndex subsidiary facs :
  _parentGroups st0 = _parentGroups st →
  _parentGroups st !! parentIndex = Some parent →
  group_subsidiaries parent !! subIndex = Some subsidiary →
  fresh keeps st (write_factories parentIndex parent subIndex subsidiary facs st0).
Proof.
  intros Heq Hparent Hsub. apply fresh_write_subsidiaries; [exact Heq|exact Hparent|].
  apply (fresh_subs_insert _ _ _ _ subsidiary); [exact Hsub|]. left. reflexivity.
Qed.

Lemma fresh_append_parent (keeps : bool) (st st0 : Store) (s : SubsidiaryCompany) :
  fresh keeps st (set_parentGroups (_parentGroups st ++ [new_parent s]) st0).
Proof.
  unfold fresh, subsidiaries. cbn [_parentGroups set_parentGroups].
  apply group_app_fresh; [reflexivity|].
  intros s' Hs'. apply list_elem_of_singleton in Hs' as ->. reflexivity.
Qed.

Lemma fresh_addSubsidiary keeps s st : fresh keeps st (addSubsidiary s st).
Proof.
  unfold addSubsidiary. rewrite (addSubsidiary_fuel_eq 0). cbn [default from_option id].
  destruct (list_find _ (_parentGroups st)) as [[parentIndex parent]|] eqn:Hp;
    [|apply fresh_append_parent].
  apply list_find_lookup in Hp.
  destruct (findIndex _ (group_subsidiaries parent)) as [existingIndex|] eqn:Hs.
  - apply findIndex_lookup in Hs as [old Hold].
    apply fresh_write_subsidiaries; [reflexivity|exact Hp|].
    apply (fresh_subs_insert _ _ _ _ old); [exact Hold|]. left. reflexivity.
  - apply fresh_write_subsidiaries; [reflexivity|exact Hp|].
    apply fresh_subs_app. reflexivity.
Qed.

Lemma fresh_updateSubsidiary keeps s st : fresh keeps st (updateSubsidiary s st).
Proof.
  unfold updateSubsidiary. rewrite (updateSubsidiary_fuel_eq 0).
  cbn [default from_option id].
  destruct (list_find _ (_parentGroups st)) as [[parentIndex parent]|] eqn:Hp;
    [|apply fresh_append_parent].
  apply list_find_lookup in Hp.
  destruct (findIndex _ (group_subsidiaries parent)) as [existingIndex|] eqn:Hs.
  - apply findIndex_lookup in Hs as [old Hold].
    apply fresh_write_subsidiaries; [reflexivity|exact Hp|].
    apply (fresh_subs_insert _ _ _ _ old); [exact Hold|]. left. reflexivity.
  - apply fresh_write_subsidiaries; [reflexivity|exact Hp|].
    apply fresh_subs_app. reflexivity.
Qed.

Lemma fresh_addFactory keeps f st : fresh keeps st (addFactory f st).
Proof.
  unfold addFactory. rewrite (addFactory_fuel_eq 0). cbn [default from_option id].
  destruct (list_find _ (_parentGroups st)) as [[parentIndex parent]|] eqn:Hp;
    [|now apply fresh_refl].
  apply list_find_lookup in Hp.
  destruct (list_find _ (group_subsidiaries parent)) as [[subIndex subsidiary]|] eqn:Hs;
    [|now apply fresh_refl].
  apply list_find_lookup in Hs.
  destruct (findIndex _ (subsidiary_factories subsidiary));
    now apply fresh_write_factories.
Qed.

Lemma fresh_updateFactory keeps f st : fresh keeps st (updateFactory f st).
Proof.
  unfold updateFactory. rewrite (updateFactory_fuel_eq 0). cbn [default from_option id].
  destruct (list_find _ (_parentGroups st)) as [[parentIndex parent]|] eqn:Hp;
    [|now apply fresh_refl].
  apply list_find_lookup in Hp.
  destruct (list_find _ (group_subsidiaries parent)) as [[subIndex subsidiary]|] eqn:Hs;
    [|now apply fresh_refl].
  apply list_find_lookup in Hs.
  destruct (findIndex _ (subsidiary_factories subsidiary));
    now apply fresh_write_factories.
Qed.

Lemma fresh_updateSubsidiaryDetails i u st :
  fresh true st (updateSubsidiaryDetails i u st).
Proof.
  unfold updateSubsidiaryDetails. cbn zeta.
  destruct (bool_decide (Exists _ (_parentGroups st))); [|now apply fresh_refl].
  unfold fresh, subsidiaries. cbn [_parentGroups set_parentGroups].
  apply group_steps_fresh, Forall2_group_step_fmap. intros g.
  destruct (bool_decide (Exists _ (group_subsidiaries g))); cbn [negb];
    [|apply group_step_refl].
  apply group_step_write, fresh_subs_fmap. intros s. unfold applySubsidiaryDetails.
  case_bool_decide; [now left|]. right. right. split; [reflexivity|]. split; reflexivity.
Qed.

Lemma fresh_updateFactoryDetails keeps i u st :
  fresh keeps st (updateFactoryDetails i u st).
Proof.
  unfold updateFactoryDetails. cbn zeta.
  match goal with
  | |- fresh _ _ (if ?c then set_activityLogs ?l ?s else ?s) =>
      assert (fresh keeps st s) as Hs;
      [|destruct c; [|exact Hs]; destruct Hs as [H1 H2]; split; [exact H1|exact H2]]
  end.
  destruct (bool_decide (Exists _ (_parentGroups st))); [|now apply fresh_refl].
  unfold fresh, subsidiaries. cbn [_parentGroups set_parentGroups].
  apply group_steps_fresh, Forall2_group_step_fmap. intros g.
  destruct (bool_decide (Exists _ (group_subsidiaries g))); cbn [negb];
    [|apply group_step_refl].
  apply group_step_write, fresh_subs_fmap. intros s. unfold applyFactoryDetails.
  destruct (list_find _ (subsidiary_factories s)) as [[factoryIndex existing]|];
    [|now left]. right. left. reflexivity.
Qed.

Lemma fresh_deleteSubsidiary keeps i st : fresh keeps st (deleteSubsidiary i st).
Proof.
  unfold deleteSubsidiary.
  destruct (find _ (subsidiaries st)) as [removed|]; [|now apply fresh_refl].
  cbn zeta.
  match goal with
  | |- fresh _ _ ?s' =>
      assert (_parentGroups s' =
              (λ group,
                 let remainingSubsidiaries :=
                   filter (λ subsidiary, subsidiary_id subsidiary ≠ i)
                          (group_subsidiaries group) in
                 if bool_decide (length remainingSubsidiaries =
                                 length (group_subsidiaries group))
                 then group
                 else with_subsidiaries remainingSubsidiaries
                        (computeMetricsFromSubsidiaries remainingSubsidiaries) group)
                <$> _parentGroups st) as Hgroups
        by (cbn [_selectedEntity set_activityLogs set_parentGroups];
            repeat case_match; reflexivity)
  end.
  unfold fresh, subsidiaries. rewrite Hgroups.
  apply group_steps_fresh, Forall2_group_step_fmap. intros g. cbn zeta.
  case_bool_decide; [apply group_step_refl|].
  apply group_step_write, fresh_subs_filter.
Qed.

Lemma deleteFactory_subsidiary_snd factoryId group vars subsidiary :
  (deleteFactory_subsidiary factoryId group vars subsidiary).2 =
  without_factory factoryId subsidiary.
Proof.
  unfold deleteFactory_subsidiary, without_factory. cbn zeta.
  case_bool_decide; reflexivity.
Qed.

Lemma deleteFactory_group_step keeps factoryId vars group :
  group_step keeps group (deleteFactory_group factoryId vars group).2.
Proof.
  unfold deleteFactory_group.
  pose proof (map_accum_fmap (deleteFactory_subsidiary factoryId group)
                (without_factory factoryId)
                (deleteFactory_subsidiary_snd factoryId group)) as Hinner.
  match goal with
  | |- context [map_accum _ ?v ?l] =>
      specialize (Hinner v l); destruct (map_accum _ v l) as [vars1 subs']
  end.
  simpl in Hinner. subst subs'.
  destruct (var_groupChanged vars1); cbn [negb snd]; [|apply group_step_refl].
  apply group_step_write, fresh_subs_fmap. intros s. unfold without_factory. cbn zeta.
  case_bool_decide; [now left|]. right. left. reflexivity.
Qed.

Lemma fresh_deleteFactory keeps i st : fresh keeps st (deleteFactory i st).
Proof.
  unfold deleteFactory. cbn zeta.
  pose proof (map_accum_Forall2 (deleteFactory_group i) (group_step keeps)
                (deleteFactory_group_step keeps i)) as Hall.
  match goal with
  | |- context [map_accum _ ?v ?l] =>
      specialize (Hall v l); destruct (map_accum _ v l) as [vars groups']
  end.
  simpl in Hall.
  destruct (var_updated vars); cbn [negb]; [|now apply fresh_refl].
  match goal with
  | |- fresh _ _ ?s' =>
      assert (_parentGroups s' = groups') as Hgroups
        by (cbn [_selectedEntity set_activityLogs set_parentGroups];
            repeat case_match; reflexivity)
  end.
  unfold fresh, subsidiaries. rewrite Hgroups. now apply group_steps_fresh.
Qed.

Lemma fresh_updateHubStatus i c u st : fresh true st (updateHubStatus i c u st).
Proof.
  unfold updateHubStatus.
  destruct (list_find _ (_parentGroups st)) as [[parentIndex parent]|] eqn:Hp;
    [|now apply fresh_refl].
  destruct (list_find _ (group_subsidiaries parent)) as [[subIndex sub]|] eqn:Hs;
    [|now apply fresh_refl].
  destruct (list_find _ (subsidiary_hubs sub)) as [[hubIndex hub]|] eqn:Hh;
    [|now apply fresh_refl].
  apply list_find_lookup in Hp, Hs. cbn zeta.
  apply (fresh_write_subsidiaries true st st); [reflexivity|exact Hp|].
  apply (fresh_subs_insert _ _ _ _ sub); [exact Hs|].
  right. split; [reflexivity|]. split; reflexivity.
Qed.

Lemma fresh_weaken (st st' : Store) : fresh false st st' → fresh true st st'.
Proof.
  intros [Hg Hs]. split; [exact Hg|]. intros s' Hin.
  destruct (Hs s' Hin) as [H|[H|[H _]]]; [now left|now right; left|discriminate].
Qed.

Lemma fresh_mutate (m : Mutation) (st : Store) :
  fresh (keeps_factories m) st (mutate m st).
Proof.
  destruct m; cbn [mutate keeps_factories].
  - apply fresh_addSubsidiary.
  - apply fresh_updateSubsidiary.
  - apply fresh_updateSubsidiaryDetails.
  - apply fresh_deleteSubsidiary.
  - apply fresh_addFactory.
  - apply fresh_updateFactory.
  - apply fresh_updateFactoryDetails.
  - apply fresh_deleteFactory.
  - apply fresh_updateHubStatus.
Qed.

(** C3, amended.  After any structural mutation: every group of the
    hierarchy that differs from the group at its place before has metrics
    equal to the recomputation over its current subsidiaries; every
    subsidiary that was not in the hierarchy before has metrics equal to
    the recomputation over its current factories, except that
    [updateSubsidiaryDetails] and [updateHubStatus] carry the stored
    metrics of the subsidiary they rewrite over unchanged, together with its
    factories.  Hence stored metrics that matched the recomputation
    everywhere before the mutation still do after it.  The recomputation is
    the sum of the assets, the sum of the incidents, and the sync stability
    averaged with the asset weights (1 for a zero or missing count), rounded
    to one decimal, 0 without a positive total weight. *)
Theorem mutation_metrics (m : Mutation) (st : Store) :
  let st' := mutate m st in
  (∀ i g', _parentGroups st' !! i = Some g' →
     _parentGroups st !! i = Some g' ∨ group_consistent g') ∧
  (∀ s', s' ∈ subsidiaries st' →
     s' ∈ subsidiaries st ∨ sub_consistent s' ∨
     (keeps_factories m = true ∧ ∃ s, s ∈ subsidiaries st ∧ carried s' s)) ∧
  ((∀ s, s ∈ subsidiaries st → sub_consistent s) →
   ∀ s', s' ∈ subsidiaries st' → sub_consistent s') ∧
  ((∀ g, g ∈ _parentGroups st → group_consistent g) →
   ∀ g', g' ∈ _parentGroups st' → group_consistent g') ∧
  (∀ l, computeMetricsFromFactories l = metrics_of_factories l) ∧
  (∀ l, computeMetricsFromSubsidiaries l = metrics_of_subsidiaries l).
Proof.
  intros st'. destruct (fresh_mutate m st) as [Hgroups Hsubs]. fold st' in Hgroups, Hsubs.
  split; [exact Hgroups|]. split; [exact Hsubs|]. split; [|split; [|split]].
  - intros Hold s' Hin.
    destruct (Hsubs s' Hin) as [H|[H|[_ (s & Hs & Hm & Hf)]]];
      [now apply Hold|exact H|].
    unfold sub_consistent. rewrite Hm, Hf. now apply Hold.
  - intros Hold g' Hin. apply list_elem_of_lookup in Hin as [i Hi].
    destruct (Hgroups i g' Hi) as [H|H]; [|exact H].
    apply Hold. eapply list_elem_of_lookup_2; exact H.
  - apply computeMetricsFromFactories_aggregate.
  - apply computeMetricsFromSubsidiaries_aggregate.
Qed.

(** C3 on the sample store, whose stored metrics match: they still match
    after a factory is added. *)
Lemma mutation_metrics_witness :
  Forall sub_consistent (subsidiaries (mutate (AddFactory extra_factory) sample_store)) ∧
  Forall group_consistent (_parentGroups (mutate (AddFactory extra_factory) sample_store)).
Proof.
  pose proof (mutation_metrics (AddFactory extra_factory) sample_store)
    as (_ & _ & Hsubs & Hgroups & _).
  split; apply Forall_forall.
  - apply Hsubs. intros s Hs. apply list_elem_of_singleton in Hs as ->. reflexivity.
  - apply Hgroups. intros g Hg. apply list_elem_of_singleton in Hg as ->. reflexivity.
Defined.

(** C3 as stated fails: in a store whose subsidiary [s1] has stored
    metrics that do not match its factories, updating the status of its
    hub rewrites the subsidiary and leaves those metrics as they were. *)
Lemma mutation_metrics_counterexample :
  let st' := mutate (UpdateHubStatus "s1" "H1" hub_offline) stale_store in
  let s' := with_hubs [applyHubUpdates hub_offline sample_hub] stale_subsidiary in
  subsidiaries st' = [s'] ∧
  (s' ∉ subsidiaries stale_store) ∧
  subsidiary_metrics s' ≠ computeMetricsFromFactories (subsidiary_factories s').
Proof.
  cbn zeta. split; [reflexivity|]. split.
  - intros Hin. apply list_elem_of_singleton in Hin. discriminate.
  - intros H. apply (f_equal assetCount) in H. vm_compute in H. discriminate.
Qed.

(* ===================================================================== *)
(** ** Activity log *)
(* ===================================================================== *)

Section SortFacts.
Context {A : Type} (compareFn : A → A → option Z).

Lemma sort_insert_perm (x : A) (l : list A) : sort_insert compareFn x l ≡ₚ x :: l.
Proof.
  induction l as [|y l IH]; simpl; [reflexivity|].
  destruct (sorts_after compareFn x y); [|reflexivity].
  rewrite IH. apply Permutation_swap.
Qed.

Lemma Array_sort_perm (l : list A) : Array_sort compareFn l ≡ₚ l.
Proof.
  induction l as [|x l IH]; simpl; [reflexivity|].
  rewrite sort_insert_perm. now constructor.
Qed.

(** The sort orders by [R] the elements on which the comparator agrees
    with [R]. *)
Variable R : relation A.
Variable ok : A → Prop.
Hypothesis R_trans : ∀ a b c, R a b → R b c → R a c.
Hypothesis after_R : ∀ a b, ok a → ok b → sorts_after compareFn a b = true → R b a.
Hypothesis before_R : ∀ a b, ok a → ok b → sorts_after compareFn a b = false → R a b.

Lemma sort_insert_sorted (x : A) (l : list A) :
  ok x → Forall ok l → StronglySorted R l →
  StronglySorted R (sort_insert compareFn x l).
Proof.
  intros Hx Hok Hsorted. induction l as [|y l IH]; simpl.
  - repeat constructor.
  - apply Forall_cons in Hok as [Hy Hok].
    apply StronglySorted_cons in Hsorted as [Hyl Hsorted].
    destruct (sorts_after compareFn x y) eqn:Hcmp.
    + apply StronglySorted_cons. split; [|now apply IH].
      rewrite sort_insert_perm. constructor; [|exact Hyl].
      now apply after_R.
    + assert (R x y) as Hxy by now apply before_R.
      apply StronglySorted_cons. split.
      * constructor; [exact Hxy|]. eapply Forall_impl; [exact Hyl|].
        intros z Hz. eapply R_trans; eassumption.
      * apply StronglySorted_cons. now split.
Qed.

Lemma Array_sort_sorted (l : list A) :
  Forall ok l → StronglySorted R (Array_sort compareFn l).
Proof.
  induction l as [|x l IH]; intros Hok; simpl; [constructor|].
  apply Forall_cons in Hok as [Hx Hok].
  apply sort_insert_sorted; [exact Hx| |now apply IH].
  rewrite Array_sort_perm. exact Hok.
Qed.
End SortFacts.

Lemma StronglySorted_take {A} (R : relation A) (n : nat) (l : list A) :
  StronglySorted R l → StronglySorted R (take n l).
Proof.
  intros Hs. rewrite <- (take_drop n l) in Hs. eapply StronglySorted_app_1_l; exact Hs.
Qed.

Section LogFacts.
Variable Date_parse : string → option Z.

Lemma newer_or_same_trans (a b c : ActivityLog) :
  newer_or_same Date_parse a b → newer_or_same Date_parse b c →
  newer_or_same Date_parse a c.
Proof.
  intros (ta & tb & Ha & Hb & Hab) (tb' & tc & Hb' & Hc & Hbc).
  rewrite Hb in Hb'. injection Hb' as <-. exists ta, tc. repeat split; [done..|lia].
Qed.

Lemma compareLogs_after (a b : ActivityLog) :
  valid_log Date_parse a → valid_log Date_parse b →
  sorts_after (compareLogs Date_parse) a b = true → newer_or_same Date_parse b a.
Proof.
  intros [ta Ha] [tb Hb]. unfold sorts_after, compareLogs. rewrite Ha, Hb.
  intros Hcmp%bool_decide_eq_true. exists tb, ta. repeat split; [done..|lia].
Qed.

Lemma compareLogs_before (a b : ActivityLog) :
  valid_log Date_parse a → valid_log Date_parse b →
  sorts_after (compareLogs Date_parse) a b = false → newer_or_same Date_parse a b.
Proof.
  intros [ta Ha] [tb Hb]. unfold sorts_after, compareLogs. rewrite Ha, Hb.
  intros Hcmp%bool_decide_eq_false. exists ta, tb. repeat split; [done..|lia].
Qed.
End LogFacts.

(** C2, amended.  After [addActivityLog(log)]: an entry with the factory id
    of [log] can only be [log] itself, and there is at most one; [log] is
    in the list when fewer than 40 entries of other factories were there;
    the list has at most 40 entries; and, when the timestamps of the new
    entry and of the current list are valid dates (strings being parsed to
    dates first), the list is in descending order of time, entries with the
    same time in either order. *)
Theorem addActivityLog_spec (Date_parse : string → option Z)
    (log : ActivityLog) (st : Store) :
  let logs' := _activityLogs (addActivityLog Date_parse log st) in
  (∀ l, l ∈ logs' → log_factoryId l = log_factoryId log → l = log) ∧
  (length (filter (λ l, log_factoryId l = log_factoryId log) logs') ≤ 1)%nat ∧
  ((length (filter (λ l, log_factoryId l ≠ log_factoryId log) (_activityLogs st)) < 40)%nat →
   log ∈ logs') ∧
  (length logs' ≤ 40)%nat ∧
  ((∀ l, l ∈ log :: _activityLogs st →
         is_Some (getTime Date_parse (log_timestamp l))) →
   StronglySorted (newer_or_same Date_parse) logs').
Proof.
  intros logs'. unfold logs', addActivityLog. cbn [_activityLogs set_activityLogs].
  set (filtered := filter (λ l, log_factoryId l ≠ log_factoryId log) (_activityLogs st)).
  set (sorted := Array_sort (compareLogs Date_parse) (log :: filtered)).
  assert (sorted ≡ₚ log :: filtered) as Hperm by apply Array_sort_perm.
  repeat apply conj.
  - intros l Hin Hid.
    assert (l ∈ log :: filtered) as Hl.
    { rewrite <- Hperm. eapply elem_of_sublist; [exact Hin|apply sublist_take]. }
    apply elem_of_cons in Hl as [->|Hl]; [reflexivity|].
    apply list_elem_of_filter in Hl as [Hne _]. contradiction.
  - transitivity (length (filter (λ l, log_factoryId l = log_factoryId log) sorted)).
    + rewrite <- (take_drop 40 sorted) at 2. rewrite filter_app, length_app. lia.
    + rewrite Hperm. rewrite filter_cons_True by reflexivity. simpl.
      assert (filter (λ l, log_factoryId l = log_factoryId log) filtered = []) as ->;
        [|reflexivity].
      apply elem_of_nil_inv. intros l [Hid Hl]%list_elem_of_filter.
      apply list_elem_of_filter in Hl as [Hne _]. contradiction.
  - intros Hfew. rewrite take_ge.
    + rewrite Hperm. now left.
    + rewrite Hperm. simpl. fold filtered in Hfew. lia.
  - rewrite length_take. lia.
  - intros Hvalid. apply StronglySorted_take.
    apply (Array_sort_sorted _ _ (valid_log Date_parse)).
    + apply newer_or_same_trans.
    + apply compareLogs_after.
    + apply compareLogs_before.
    + apply Forall_forall. intros l Hl. apply Hvalid.
      apply elem_of_cons in Hl as [->|Hl]; [now left|right].
      apply list_elem_of_filter in Hl as [_ Hl]. exact Hl.
Qed.

(** C2 on a list of one entry and a new entry of another factory with the
    same timestamp. *)
Lemma addActivityLog_spec_witness :
  StronglySorted (newer_or_same epoch_only)
    (_activityLogs
       (addActivityLog epoch_only second_log
          (set_activityLogs [first_log] sample_store))).
Proof.
  apply (addActivityLog_spec epoch_only second_log
           (set_activityLogs [first_log] sample_store)).
  intros l Hl. apply elem_of_cons in Hl as [->|Hl]; [now eexists|].
  apply list_elem_of_singleton in Hl as ->. now eexists.
Defined.

(** C2 as stated fails: appending a log whose timestamp equals that of the
    entry already in the list, for another factory, leaves two entries of
    which the first is not strictly newer than the second. *)
Lemma addActivityLog_counterexample :
  _activityLogs
    (addActivityLog epoch_only second_log (set_activityLogs [first_log] sample_store))
    = [second_log; first_log] ∧
  ¬ strictly_newer epoch_only second_log first_log.
Proof.
  split; [reflexivity|].
  intros (ta & tb & Ha & Hb & Hlt). cbn in Ha, Hb.
  injection Ha as <-. injection Hb as <-. lia.
Qed.

(* ===================================================================== *)
(** ** Location input *)
(* ===================================================================== *)

Section Scanning.
Variable p : N → bool.

Lemma take_while_app (l1 l2 : text) :
  Forall (λ c, p c = true) l1 → take_while p (l1 ++ l2) = l1 ++ take_while p l2.
Proof. induction 1 as [|c l Hc _ IH]; simpl; [reflexivity|]. now rewrite Hc, IH. Qed.

Lemma drop_while_app (l1 l2 : text) :
  Forall (λ c, p c = true) l1 → drop_while p (l1 ++ l2) = drop_while p l2.
Proof. induction 1 as [|c l Hc _ IH]; simpl; [reflexivity|]. now rewrite Hc, IH. Qed.

Lemma take_while_halts (l : text) : halts p l → take_while p l = [].
Proof. destruct l as [|c l]; simpl; [reflexivity|]. now intros ->. Qed.

Lemma drop_while_halts (l : text) : halts p l → drop_while p l = l.
Proof. destruct l as [|c l]; simpl; [reflexivity|]. now intros ->. Qed.
End Scanning.

Lemma is_digit_range (c : N) : is_digit c = true ↔ (48 ≤ c ≤ 57)%N.
Proof. unfold is_digit. rewrite andb_true_iff, !N.leb_le. reflexivity. Qed.

Lemma space_not_digit (c : N) : is_space c = true → is_digit c = false.
Proof.
  intros Hs. destruct (is_digit c) eqn:Hd; [|reflexivity].
  apply is_digit_range in Hd. unfold is_space in Hs.
  repeat (apply orb_true_iff in Hs as [Hs|Hs]);
    repeat (apply andb_true_iff in Hs as [? Hs]);
    repeat match goal with
           | H : (_ <=? _)%N = true |- _ => apply N.leb_le in H
           | H : (_ =? _)%N = true |- _ => apply N.eqb_eq in H
           end; lia.
Qed.

Lemma digit_not_space (c : N) : is_digit c = true → is_space c = false.
Proof.
  intros Hd. destruct (is_space c) eqn:Hs; [|reflexivity].
  apply space_not_digit in Hs. congruence.
Qed.

Lemma take_unit_other (u : N) (s : text) :
  (∀ r, s ≠ u :: r) → take_unit u s = ([], s).
Proof.
  intros Hno. destruct s as [|c r]; [reflexivity|]. cbn.
  destruct (N.eqb_spec c u) as [->|_]; [|reflexivity]. now destruct (Hno r).
Qed.

Lemma take_unit_same (u : N) (r : text) : take_unit u (u :: r) = ([u], r).
Proof. cbn. now rewrite N.eqb_refl. Qed.

Lemma match_numeral_complete (t rest : text) :
  is_numeral t → ends_numeral rest → match_numeral (t ++ rest) = Some (t, rest).
Proof.
  intros (sign & int & dot & frac & -> & Hsign & Hint & Hdigits & Hdot & Hfrac)
         [Hhalt Hnodot].
  unfold match_numeral.
  assert (take_unit MINUS ((sign ++ int ++ dot ++ frac) ++ rest)
          = (sign, int ++ dot ++ frac ++ rest)) as ->.
  { rewrite <- !app_assoc. destruct Hsign as [-> | ->].
    - apply take_unit_other. intros r.
      destruct int as [|d int']; [contradiction|]. cbn. intros [= -> _].
      apply Forall_cons in Hdigits as [Hd _]. vm_compute in Hd. discriminate.
    - apply take_unit_same. }
  destruct Hdot as [-> | ->].
  - cbn [app].
    rewrite (take_while_app _ int), (drop_while_app _ int) by exact Hdigits.
    rewrite (take_while_app _ frac), (drop_while_app _ frac) by exact Hfrac.
    rewrite (take_while_halts _ rest), (drop_while_halts _ rest) by exact Hhalt.
    rewrite (take_unit_other POINT rest) by exact Hnodot.
    rewrite (take_while_halts _ rest), (drop_while_halts _ rest) by exact Hhalt.
    rewrite !app_nil_r.
    destruct int as [|d int']; [contradiction|]. cbn [app].
    reflexivity.
  - rewrite (take_while_app _ int), (drop_while_app _ int) by exact Hdigits.
    cbn [app]. rewrite (take_while_halts _ (POINT :: _)), (drop_while_halts _ (POINT :: _))
      by reflexivity.
    rewrite take_unit_same.
    rewrite (take_while_app _ frac), (drop_while_app _ frac) by exact Hfrac.
    rewrite (take_while_halts _ rest), (drop_while_halts _ rest) by exact Hhalt.
    rewrite !app_nil_r.
    destruct int as [|d int']; [contradiction|]. cbn [app].
    reflexivity.
Qed.

Lemma numeral_head (t : text) :
  is_numeral t → ∃ c r, t = c :: r ∧ is_space c = false.
Proof.
  intros (sign & int & dot & frac & -> & Hsign & Hint & Hdigits & _).
  destruct Hsign as [-> | ->].
  - destruct int as [|d int']; [contradiction|]. exists d, (int' ++ dot ++ frac).
    split; [reflexivity|]. apply digit_not_space. apply Forall_cons in Hdigits. tauto.
  - eexists _, _. split; [reflexivity|]. reflexivity.
Qed.

Lemma match_coordinates_complete (t lat lng : text) :
  matches_coordinate_pattern t lat lng → match_coordinates t = Some (lat, lng).
Proof.
  intros (ws1 & ws2 & -> & Hlat & Hlng & Hws1 & Hws2). unfold match_coordinates.
  assert (ends_numeral (ws1 ++ [COMMA] ++ ws2 ++ lng)) as Hend1.
  { destruct ws1 as [|c ws1']; cbn.
    - split; [reflexivity|discriminate].
    - apply Forall_cons in Hws1 as [Hc _]. split; [now apply space_not_digit|].
      intros r [= -> _]. vm_compute in Hc. discriminate. }
  rewrite (match_numeral_complete lat _ Hlat Hend1).
  rewrite (drop_while_app _ ws1) by exact Hws1.
  cbn [app drop_while]. change (is_space COMMA) with false. cbn iota.
  rewrite N.eqb_refl.
  destruct (numeral_head lng Hlng) as (c & r & Heq & Hc).
  rewrite (drop_while_app _ ws2) by exact Hws2.
  rewrite (drop_while_halts _ lng) by (rewrite Heq; exact Hc).
  rewrite <- (app_nil_r lng) at 1.
  assert (ends_numeral []) as Hend2 by (split; [exact I|discriminate]).
  rewrite (match_numeral_complete lng [] Hlng Hend2).
  reflexivity.
Qed.

Lemma in_range_checks (lat lng : number) :
  num_geb lat (num_of_Z (-90)) && num_leb lat (num_of_Z 90) &&
  num_geb lng (num_of_Z (-180)) && num_leb lng (num_of_Z 180) = true ↔
  in_range (-90) 90 lat ∧ in_range (-180) 180 lng.
Proof.
  unfold in_range, num_geb. rewrite !andb_true_iff, !num_leb_le. tauto.
Qed.

(** C7.  For an input that, once trimmed, is a numeral, white space, a
    comma, white space and a numeral, [parseLocationInput] settles at once,
    sending no request whatever the network would answer: it resolves to
    the two parsed numbers when the latitude is within -90..90 and the
    longitude within -180..180, and rejects with the range error otherwise.
    The parsed numbers are binary64 values, and the range is checked on
    them.  "45.0, -73.0" resolves to (45, -73); "200, 0" is rejected with
    the range error. *)
Theorem parseLocationInput_coordinates (lowerCase : text → text) (input lat lng : text) :
  matches_coordinate_pattern (trim input) lat lng →
  (in_range (-90) 90 (parseFloat lat) ∧ in_range (-180) 180 (parseFloat lng) →
     parseLocationInput lowerCase input =
       Resolved {| latitude := parseFloat lat; longitude := parseFloat lng |}) ∧
  (¬ (in_range (-90) 90 (parseFloat lat) ∧ in_range (-180) 180 (parseFloat lng)) →
     parseLocationInput lowerCase input = Rejected RANGE_ERROR) ∧
  (∀ network, (run (parseLocationInput lowerCase input) network).2 = []) ∧
  parseLocationInput lowerCase (ascii_text "45.0, -73.0") =
    Resolved {| latitude := num_of_Z 45; longitude := num_of_Z (-73) |} ∧
  parseLocationInput lowerCase (ascii_text "200, 0") = Rejected RANGE_ERROR.
Proof.
  intros Hmatch. apply match_coordinates_complete in Hmatch.
  assert (parseLocationInput lowerCase (ascii_text "45.0, -73.0") =
            Resolved {| latitude := num_of_Z 45; longitude := num_of_Z (-73) |} ∧
          parseLocationInput lowerCase (ascii_text "200, 0") = Rejected RANGE_ERROR)
    as [H45 H200].
  { split; [|vm_compute; reflexivity].
    assert (parseFloat (ascii_text "45.0") = num_of_Z 45) as Hlat
      by (vm_compute; apply (f_equal Fin), Qc_is_canon; reflexivity).
    assert (parseFloat (ascii_text "-73.0") = num_of_Z (-73)) as Hlng
      by (vm_compute; apply (f_equal Fin), Qc_is_canon; reflexivity).
    rewrite <- Hlat, <- Hlng. vm_compute. reflexivity. }
  unfold parseLocationInput. cbn zeta. rewrite Hmatch.
  pose proof (in_range_checks (parseFloat lat) (parseFloat lng)) as Hrange.
  destruct (num_geb (parseFloat lat) (num_of_Z (-90)) && _ && _ && _) eqn:Hb.
  - repeat apply conj; try reflexivity; try assumption.
    intros Hno. exfalso. apply Hno. now apply Hrange.
  - repeat apply conj; try reflexivity; try assumption.
    intros Hyes. apply Hrange in Hyes. discriminate.
Qed.

(** C7 on the input "45.0, -73.0", with a network on which every request
    would fail. *)
Lemma parseLocationInput_coordinates_witness :
  parseLocationInput ascii_lowerCase (ascii_text "45.0, -73.0") =
    Resolved {| latitude := parseFloat (ascii_text "45.0");
                longitude := parseFloat (ascii_text "-73.0") |} ∧
  (run (parseLocationInput ascii_lowerCase (ascii_text "45.0, -73.0")) offline).2 = [].
Proof.
  assert (matches_coordinate_pattern (trim (ascii_text "45.0, -73.0"))
            (ascii_text "45.0") (ascii_text "-73.0")) as Hmatch.
  { exists [], [SPACE]. split; [reflexivity|]. repeat apply conj.
    - exists [], (ascii_text "45"), [POINT], (ascii_text "0").
      repeat apply conj; try reflexivity; try (now right); try (now left);
        try discriminate; repeat constructor.
    - exists [MINUS], (ascii_text "73"), [POINT], (ascii_text "0").
      repeat apply conj; try reflexivity; try (now right); try (now left);
        try discriminate; repeat constructor.
    - constructor.
    - repeat constructor. }
  pose proof (parseLocationInput_coordinates ascii_lowerCase (ascii_text "45.0, -73.0")
                _ _ Hmatch) as (Hin & _ & Hnet & _).
  split; [|exact (Hnet offline)]. apply Hin.
  unfold in_range. rewrite <- !num_leb_le. vm_compute. tauto.
Defined.

(** Two inputs on which rounding and the white space of ECMAScript show:
    a latitude a little above 90 that binary64 reads as 90 is accepted,
    and a no-break space, an em space and a line separator are white
    space. *)
Lemma parseLocationInput_samples (lowerCase : text → text) :
  parseLocationInput lowerCase (ascii_text "90.00000000000000001, 0") =
    Resolved {| latitude := num_of_Z 90; longitude := num_of_Z 0 |} ∧
  parseLocationInput lowerCase [52; 53; 160; 44; 8195; 48; 8232]%N =
    Resolved {| latitude := num_of_Z 45; longitude := num_of_Z 0 |}.
Proof.
  assert (parseFloat (ascii_text "90.00000000000000001") = num_of_Z 90) as H90
    by (vm_compute; apply (f_equal Fin), Qc_is_canon; reflexivity).
  assert (parseFloat (ascii_text "45") = num_of_Z 45) as H45
    by (vm_compute; apply (f_equal Fin), Qc_is_canon; reflexivity).
  assert (parseFloat (ascii_text "0") = num_of_Z 0) as H0
    by (vm_compute; apply (f_equal Fin), Qc_is_canon; reflexivity).
  rewrite <- H90, <- H45, <- H0. split; vm_compute; reflexivity.
Qed.

Lemma digits_value_foldl (acc : Z) (ds : text) :
  foldl (λ acc c, 10 * acc + digit_value c) acc ds =
  acc * 10 ^ Z.of_nat (length ds) + digits_value ds.
Proof.
  unfold digits_value. revert acc. induction ds as [|d ds IH]; intros acc.
  - simpl. lia.
  - cbn [foldl length]. rewrite IH, (IH (10 * 0 + digit_value d)).
    rewrite Nat2Z.inj_succ, Z.pow_succ_r by lia. lia.
Qed.

Lemma digits_value_app (int frac : text) :
  digits_value (int ++ frac) =
  digits_value int * 10 ^ Z.of_nat (length frac) + digits_value frac.
Proof. unfold digits_value at 1. rewrite foldl_app. apply digits_value_foldl. Qed.

Lemma take_while_all (p : N → bool) (l : text) :
  Forall (λ c, p c = true) l → take_while p l = l ∧ drop_while p l = [].
Proof.
  intros Hall. rewrite <- (app_nil_r l) at 1 3.
  rewrite take_while_app, drop_while_app by exact Hall. simpl.
  now rewrite app_nil_r.
Qed.

Lemma Qc_decimal (a b p : Z) :
  p ≠ 0 →
  (Qc_of_Z a + Qc_of_Z b / Qc_of_Z p)%Qc = (Qc_of_Z (a * p + b) / Qc_of_Z p)%Qc.
Proof.
  intros Hp. rewrite Z2Qc_inj_add, Z2Qc_inj_mul.
  assert (Qc_of_Z p ≠ 0%Qc) as Hq.
  { rewrite <- Z2Qc_inj_0. intros H. apply Z2Qc_inj in H. contradiction. }
  field. exact Hq.
Qed.

Lemma decimal_magnitude_point (int frac : text) :
  Forall (λ c, is_digit c = true) int →
  Forall (λ c, is_digit c = true) frac →
  decimal_magnitude (int ++ POINT :: frac) =
    (Qc_of_Z (digits_value (int ++ frac)) / Qc_of_Z (10 ^ Z.of_nat (length frac)))%Qc.
Proof.
  intros Hint Hfrac. unfold decimal_magnitude.
  rewrite (take_while_app _ int), (drop_while_app _ int) by exact Hint.
  cbn [take_while drop_while]. change (is_digit POINT) with false. cbn iota.
  rewrite take_unit_same. cbn [snd].
  rewrite app_nil_r. destruct (take_while_all is_digit frac Hfrac) as [-> _].
  rewrite digits_value_app. apply Qc_decimal. lia.
Qed.

Lemma decimal_magnitude_plain (int : text) :
  Forall (λ c, is_digit c = true) int →
  decimal_magnitude int = (Qc_of_Z (digits_value (int ++ [])) / Qc_of_Z (10 ^ 0))%Qc.
Proof.
  intros Hint. unfold decimal_magnitude.
  destruct (take_while_all is_digit int Hint) as [-> ->]. cbn [take_unit snd take_while].
  rewrite app_nil_r. rewrite <- (Z.mul_1_r (digits_value int)) at 2.
  rewrite <- (Z.add_0_r (digits_value int * 1)).
  apply (Qc_decimal _ 0 1). lia.
Qed.

(** What [parseFloat] makes of a numeral with a point, and of one without:
    the binary64 value of the decimal number it spells. *)
Lemma parseFloat_decimal (sign int frac : text) :
  sign = [] ∨ sign = [MINUS] →
  int ≠ [] →
  Forall (λ c, is_digit c = true) int →
  Forall (λ c, is_digit c = true) frac →
  parseFloat (sign ++ int ++ POINT :: frac) = binary64 (numeral_value sign int frac) ∧
  parseFloat (sign ++ int) = binary64 (numeral_value sign int []).
Proof.
  intros Hsign Hne Hint Hfrac. unfold numeral_value.
  destruct int as [|d int'] eqn:Heq; [contradiction|]. rewrite <- Heq in *.
  assert ((d =? MINUS)%N = false) as Hd.
  { rewrite Heq in Hint. apply Forall_cons in Hint as [Hd _].
    apply is_digit_range in Hd. apply N.eqb_neq. unfold MINUS. lia. }
  destruct Hsign as [-> | ->]; cbn [app length Z.of_nat].
  - split.
    + rewrite Heq at 1. cbn [app parseFloat]. rewrite Hd.
      rewrite app_comm_cons, <- Heq. now rewrite decimal_magnitude_point.
    + rewrite Heq at 1. cbn [parseFloat]. rewrite Hd.
      rewrite <- Heq. now rewrite decimal_magnitude_plain.
  - split; cbn [parseFloat]; rewrite N.eqb_refl.
    + now rewrite decimal_magnitude_point.
    + now rewrite decimal_magnitude_plain.
Qed.

(* ===================================================================== *)
(** ** Slugs and generated identifiers *)
(* ===================================================================== *)

Lemma list_ascii_of_string_map (f : ascii → ascii) (s : string) :
  list_ascii_of_string (string_map f s) = f <$> list_ascii_of_string s.
Proof. induction s as [|c s IH]; simpl; [reflexivity|]. now rewrite IH. Qed.

Lemma list_ascii_of_string_app (a b : string) :
  list_ascii_of_string (a +:+ b) = list_ascii_of_string a ++ list_ascii_of_string b.
Proof. induction a as [|c a IH]; simpl; [reflexivity|]. now rewrite IH. Qed.

Lemma list_ascii_of_string_inj (a b : string) :
  list_ascii_of_string a = list_ascii_of_string b → a = b.
Proof.
  intros H. rewrite <- (string_of_list_ascii_of_string a), H.
  apply string_of_list_ascii_of_string.
Qed.

Lemma single_dashes_cons (c : ascii) (s : chars) :
  (c = "-"%char → head s ≠ Some "-"%char) → single_dashes s → single_dashes (c :: s).
Proof.
  intros Hc Hs [|i]; simpl.
  - intros [= ->]. rewrite <- head_lookup. now apply Hc.
  - apply Hs.
Qed.

Lemma single_dashes_tail (c : ascii) (s : chars) :
  single_dashes (c :: s) → single_dashes s.
Proof. intros H i. apply (H (S i)). Qed.

Lemma single_dashes_drop (k : nat) (s : chars) :
  single_dashes s → single_dashes (drop k s).
Proof.
  intros H i. rewrite !lookup_drop. replace (k + S i)%nat with (S (k + i)) by lia.
  apply H.
Qed.

Lemma single_dashes_take (k : nat) (s : chars) :
  single_dashes s → single_dashes (take k s).
Proof.
  intros H i Hi Hi'. apply lookup_take_Some in Hi as [Hi _].
  apply lookup_take_Some in Hi' as [Hi' _]. exact (H i Hi Hi').
Qed.

Lemma dash_not_slug_char : is_slug_char "-" = false.
Proof. reflexivity. Qed.

Lemma dash_runs_shape (in_run : bool) (s : chars) :
  Forall (λ c, is_slug_char c = true ∨ c = "-"%char) (dash_runs in_run s) ∧
  (in_run = true → head (dash_runs in_run s) ≠ Some "-"%char) ∧
  single_dashes (dash_runs in_run s).
Proof.
  revert in_run. induction s as [|c s IH]; intros in_run; simpl.
  - split; [constructor|]. split; [discriminate|]. intros i. discriminate.
  - destruct (is_slug_char c) eqn:Hc.
    + destruct (IH false) as (Hall & _ & Hsingle). split; [constructor; auto|].
      split.
      * simpl. intros _ [= ->]. discriminate.
      * apply single_dashes_cons; [|exact Hsingle]. intros ->. discriminate.
    + destruct (IH true) as (Hall & Hhead & Hsingle). destruct in_run.
      * split; [exact Hall|]. split; [auto|exact Hsingle].
      * split; [constructor; auto|]. split; [discriminate|].
        apply single_dashes_cons; auto.
Qed.

Lemma drop_dashes_drop (s : chars) : ∃ k, drop_dashes s = drop k s.
Proof.
  induction s as [|c s [k IH]]; [exists 0%nat; reflexivity|].
  simpl. destruct (decide (c = "-"%char)) as [->|Hc].
  - exists (S k). exact IH.
  - exists 0%nat. destruct c as [[] [] [] [] [] [] [] []]; try reflexivity.
    contradiction.
Qed.

Lemma drop_dashes_head (s : chars) : head (drop_dashes s) ≠ Some "-"%char.
Proof.
  induction s as [|c s IH]; [discriminate|].
  simpl. destruct (decide (c = "-"%char)) as [->|Hc]; [exact IH|].
  destruct c as [[] [] [] [] [] [] [] []]; simpl; try congruence.
Qed.

Lemma drop_dashes_id (s : chars) : head s ≠ Some "-"%char → drop_dashes s = s.
Proof.
  destruct s as [|c s]; [reflexivity|]. simpl. intros Hc.
  destruct c as [[] [] [] [] [] [] [] []]; try reflexivity. contradiction.
Qed.

Lemma strip_end_take (s : chars) :
  ∃ k, reverse (drop_dashes (reverse s)) = take k s.
Proof.
  destruct (drop_dashes_drop (reverse s)) as [k ->].
  rewrite reverse_drop, reverse_involutive. eauto.
Qed.

Lemma Forall_drop_dashes (P : ascii → Prop) (s : chars) :
  Forall P s → Forall P (drop_dashes s).
Proof. destruct (drop_dashes_drop s) as [k ->]. apply Forall_drop. Qed.

Lemma slugify_chars (value : string) :
  list_ascii_of_string (slugify value) =
    reverse (drop_dashes (reverse (drop_dashes
      (dash_runs false (lower_ascii <$> list_ascii_of_string value))))).
Proof.
  unfold slugify, toLowerCase.
  now rewrite list_ascii_of_string_of_list_ascii, list_ascii_of_string_map.
Qed.

Lemma slugify_is_slug (value : string) :
  is_slug (list_ascii_of_string (slugify value)).
Proof.
  rewrite slugify_chars.
  set (d := dash_runs false _).
  destruct (dash_runs_shape false (lower_ascii <$> list_ascii_of_string value))
    as (Hall & _ & Hsingle). fold d in Hall, Hsingle.
  pose proof (drop_dashes_head d) as Hhead.
  destruct (drop_dashes_drop d) as [k Hk].
  destruct (strip_end_take (drop_dashes d)) as [j Hj].
  split; [|split; [|split]].
  - rewrite Hj. apply Forall_take, Forall_drop_dashes, Hall.
  - rewrite Hj. destruct j, (drop_dashes d); simpl in *; congruence.
  - rewrite last_reverse. apply drop_dashes_head.
  - rewrite Hj, Hk. apply single_dashes_take, single_dashes_drop, Hsingle.
Qed.

Lemma lower_slug_char (c : ascii) :
  is_slug_char c = true ∨ c = "-"%char → lower_ascii c = c.
Proof.
  intros [Hc| ->]; [|reflexivity].
  unfold is_slug_char in Hc. unfold lower_ascii.
  destruct ((65 <=? N_of_ascii c)%N && (N_of_ascii c <=? 90)%N) eqn:Hup; [|reflexivity].
  exfalso. apply andb_true_iff in Hup as [H1 H2].
  apply N.leb_le in H1, H2.
  apply orb_true_iff in Hc as [Hc|Hc]; apply andb_true_iff in Hc as [H3 H4];
    apply N.leb_le in H3, H4; lia.
Qed.

Lemma dash_runs_slug (in_run : bool) (s : chars) :
  Forall (λ c, is_slug_char c = true ∨ c = "-"%char) s →
  (in_run = true → head s ≠ Some "-"%char) →
  single_dashes s →
  dash_runs in_run s = s.
Proof.
  revert in_run. induction s as [|c s IH]; intros in_run Hall Hhead Hsingle;
    [reflexivity|].
  apply Forall_cons in Hall as [Hc Hall]. simpl.
  destruct (is_slug_char c) eqn:Hslug.
  - f_equal. apply IH; [exact Hall|discriminate|].
    exact (single_dashes_tail _ _ Hsingle).
  - destruct Hc as [Hc| ->]; [congruence|].
    destruct in_run; [exfalso; now apply Hhead|].
    f_equal. apply IH; [exact Hall| |exact (single_dashes_tail _ _ Hsingle)].
    intros _. rewrite head_lookup. now apply (Hsingle 0%nat).
Qed.

Lemma is_slug_fixed (s : chars) :
  is_slug s → list_ascii_of_string (slugify (string_of_list_ascii s)) = s.
Proof.
  intros (Hall & Hhead & Hlast & Hsingle).
  rewrite slugify_chars, list_ascii_of_string_of_list_ascii.
  assert (lower_ascii <$> s = s) as ->.
  { clear -Hall. induction Hall as [|c s Hc _ IH]; [reflexivity|].
    now rewrite fmap_cons, (lower_slug_char c Hc), IH. }
  rewrite dash_runs_slug by (assumption || discriminate).
  rewrite (drop_dashes_id s Hhead).
  rewrite drop_dashes_id by now rewrite head_reverse.
  apply reverse_involutive.
Qed.

(** X1.  A slug consists of lower-case ASCII letters, digits and dashes
    only; it neither starts nor ends with a dash and has no two dashes in a
    row. *)
Theorem slugify_shape (value : string) :
  let slug := list_ascii_of_string (slugify value) in
  Forall (λ c, is_slug_char c = true ∨ c = "-"%char) slug ∧
  head slug ≠ Some "-"%char ∧
  last slug ≠ Some "-"%char ∧
  ∀ i, slug !! i = Some "-"%char → slug !! S i ≠ Some "-"%char.
Proof.
  cbn zeta. destruct (slugify_is_slug value) as (Hchars & Hhead & Hlast & Hsingle).
  split; [exact Hchars|]. split; [exact Hhead|]. split; [exact Hlast|exact Hsingle].
Qed.

(** X2.  Making a slug of a slug changes nothing. *)
Theorem slugify_idempotent (value : string) :
  slugify (slugify value) = slugify value.
Proof.
  apply list_ascii_of_string_inj.
  rewrite <- (string_of_list_ascii_of_string (slugify value)) at 1.
  apply is_slug_fixed, slugify_is_slug.
Qed.

Lemma pretty_N_char_digit (x : N) : is_digit (N_of_ascii (pretty_N_char x)) = true.
Proof. unfold pretty_N_char. repeat case_match; reflexivity. Qed.

Lemma pretty_N_go_digits (x : N) (s : string) :
  Forall (λ c, is_digit (N_of_ascii c) = true) (list_ascii_of_string s) →
  Forall (λ c, is_digit (N_of_ascii c) = true) (list_ascii_of_string (pretty_N_go x s)).
Proof.
  revert s. induction (N.lt_wf_0 x) as [x _ IH]; intros s Hs.
  assert (x = 0 ∨ 0 < x)%N as [->|Hpos] by lia.
  - now rewrite pretty_N_go_0.
  - rewrite pretty_N_go_step by exact Hpos. apply IH; [now apply N.div_lt|].
    simpl. constructor; [apply pretty_N_char_digit|exact Hs].
Qed.

Lemma pretty_N_digits (x : N) :
  Forall (λ c, is_digit (N_of_ascii c) = true) (list_ascii_of_string (pretty x)).
Proof.
  unfold pretty, pretty_N. case_decide; [repeat constructor|].
  apply pretty_N_go_digits. constructor.
Qed.

(** The decimal text of an integer: an optional minus sign and digits. *)
Lemma pretty_Z_digits (z : Z) :
  ∃ sign digits,
    list_ascii_of_string (pretty z) = sign ++ digits ∧
    (sign = [] ∨ sign = ["-"%char]) ∧
    Forall (λ c, is_digit (N_of_ascii c) = true) digits.
Proof.
  destruct z as [|p|p]; unfold pretty, pretty_Z.
  - exists [], ["0"%char]. split; [reflexivity|]. split; [now left|repeat constructor].
  - exists [], (list_ascii_of_string (pretty (N.pos p))).
    split; [reflexivity|]. split; [now left|apply pretty_N_digits].
  - exists ["-"%char], (list_ascii_of_string (pretty (N.pos p))).
    split; [reflexivity|]. split; [now right|apply pretty_N_digits].
Qed.

Lemma split_at_last (sep : ascii) (x y p q : chars) :
  sep ∉ p → sep ∉ q → x ++ sep :: p = y ++ sep :: q → x = y ∧ p = q.
Proof.
  intros Hp Hq. revert y. induction x as [|c x IH]; intros [|d y]; simpl; intros H.
  - now inversion H.
  - inversion H; subst. exfalso. apply Hp, elem_of_app. right. left.
  - inversion H; subst. exfalso. apply Hq, elem_of_app. right. left.
  - inversion H; subst. destruct (IH y) as [-> ->]; auto.
Qed.

Lemma digits_no_dash (digits : chars) :
  Forall (λ c, is_digit (N_of_ascii c) = true) digits → "-"%char ∉ digits.
Proof.
  intros Hall Hin. rewrite Forall_forall in Hall. specialize (Hall _ Hin). discriminate.
Qed.

(** A slug, a dash and the decimal text of an integer determine the slug
    and the integer. *)
Lemma slug_stamp_inj (slug1 slug2 : chars) (t1 t2 : Z) :
  is_slug slug1 → is_slug slug2 →
  slug1 ++ "-"%char :: list_ascii_of_string (pretty t1) =
  slug2 ++ "-"%char :: list_ascii_of_string (pretty t2) →
  slug1 = slug2 ∧ t1 = t2.
Proof.
  intros (_ & _ & Hlast1 & _) (_ & _ & Hlast2 & _) Heq.
  destruct (pretty_Z_digits t1) as (sign1 & digits1 & Ht1 & Hsign1 & Hd1).
  destruct (pretty_Z_digits t2) as (sign2 & digits2 & Ht2 & Hsign2 & Hd2).
  assert (list_ascii_of_string (pretty t1) = list_ascii_of_string (pretty t2) → t1 = t2)
    as Hinj.
  { intros H. apply list_ascii_of_string_inj in H. now apply (inj pretty). }
  pose proof (digits_no_dash _ Hd1) as Hn1. pose proof (digits_no_dash _ Hd2) as Hn2.
  rewrite Ht1, Ht2 in Heq.
  destruct Hsign1 as [->| ->], Hsign2 as [->| ->]; simpl in Heq.
  - apply split_at_last in Heq as [-> ->]; [|assumption..].
    split; [reflexivity|]. apply Hinj. now rewrite Ht1, Ht2.
  - change (slug2 ++ "-"%char :: "-"%char :: digits2)
      with (slug2 ++ ["-"%char] ++ "-"%char :: digits2) in Heq.
    rewrite app_assoc in Heq.
    apply split_at_last in Heq as [-> _]; [|assumption..].
    exfalso. apply Hlast1. now rewrite last_snoc.
  - change (slug1 ++ "-"%char :: "-"%char :: digits1)
      with (slug1 ++ ["-"%char] ++ "-"%char :: digits1) in Heq.
    rewrite app_assoc in Heq.
    apply split_at_last in Heq as [<- _]; [|assumption..].
    exfalso. apply Hlast2. now rewrite last_snoc.
  - change (slug1 ++ "-"%char :: "-"%char :: digits1)
      with (slug1 ++ ["-"%char] ++ "-"%char :: digits1) in Heq.
    change (slug2 ++ "-"%char :: "-"%char :: digits2)
      with (slug2 ++ ["-"%char] ++ "-"%char :: digits2) in Heq.
    rewrite !app_assoc in Heq.
    apply split_at_last in Heq as [Hs ->]; [|assumption..].
    apply app_inj_tail in Hs as [-> _].
    split; [reflexivity|]. apply Hinj. now rewrite Ht1, Ht2.
Qed.

(** X3.  Two generated subsidiary ids, and two generated factory ids, are
    equal exactly when the names have the same slug and the clock readings
    are the same: one name never gets the same id at two different
    milliseconds, and names that differ only outside their slug get the
    same id within one millisecond. *)
Theorem generated_ids_equal (now1 now2 : Z) (name1 name2 : string) :
  (generateSubsidiaryId now1 name1 = generateSubsidiaryId now2 name2 ↔
     slugify name1 = slugify name2 ∧ now1 = now2) ∧
  (generateFactoryId now1 name1 = generateFactoryId now2 name2 ↔
     slugify name1 = slugify name2 ∧ now1 = now2).
Proof.
  assert (∀ head_ : string,
            head_ +:+ slugify name1 +:+ "-" +:+ pretty now1 =
            head_ +:+ slugify name2 +:+ "-" +:+ pretty now2 →
            slugify name1 = slugify name2 ∧ now1 = now2) as Hcore.
  { intros head_ H. apply (f_equal list_ascii_of_string) in H.
    rewrite !list_ascii_of_string_app in H. apply app_inv_head in H.
    apply slug_stamp_inj in H as [Hs Ht]; [|apply slugify_is_slug..].
    split; [now apply list_ascii_of_string_inj|exact Ht]. }
  unfold generateSubsidiaryId, generateFactoryId. split; split.
  - apply (Hcore "").
  - now intros [-> ->].
  - apply (Hcore "factory-").
  - now intros [-> ->].
Qed.

(* ===================================================================== *)
(** ** Selections, computed signals and map nodes *)
(* ===================================================================== *)

Lemma find_refind {A} (P : A → Prop) `{∀ x, Decision (P x)}
    (Q : A → Prop) `{∀ x, Decision (Q x)} (l : list A) (x : A) :
  find P l = Some x → Q x → (∀ y, Q y → P y) → find Q l = Some x.
Proof.
  unfold find. destruct (list_find P l) as [[i y]|] eqn:Hf; [|discriminate].
  intros [= ->] Hx HQP. apply list_find_Some in Hf as (Hi & HP & Hbefore).
  assert (list_find Q l = Some (i, x)) as ->; [|reflexivity].
  apply list_find_Some. split; [exact Hi|]. split; [exact Hx|].
  intros j y Hj Hlt Hy. exact (Hbefore j y Hj Hlt (HQP y Hy)).
Qed.

Lemma setMapViewMode_reads (viewMode : MapViewMode) (st : Store) :
  _parentGroups (setMapViewMode viewMode st) = _parentGroups st ∧
  _mapViewMode (setMapViewMode viewMode st) = viewMode ∧
  _factoryFilterSubsidiaryId (setMapViewMode viewMode st) = None.
Proof.
  unfold setMapViewMode. cbn zeta.
  cbn [_selectedEntity set_factoryFilterSubsidiaryId set_mapViewMode].
  destruct (_selectedEntity st) as [selection|]; [|cbn; tauto].
  repeat (case_match; try (cbn; tauto)).
Qed.

Lemma selectEntity_accepted (st : Store) (sel n : FleetSelection) :
  accepted sel st → normalizeSelection sel st = Some n →
  _selectedEntity (selectEntity (Some sel) st) = Some n ∧
  _parentGroups (selectEntity (Some sel) st) = _parentGroups st ∧
  _factoryFilterSubsidiaryId (selectEntity (Some sel) st) =
    _factoryFilterSubsidiaryId st ∧
  _mapViewMode (selectEntity (Some sel) st) =
    if decide (sel_level n = Factory ∧ _mapViewMode st = Subsidiary)
    then Subsidiary else sel_level n.
Proof.
  intros Hacc Hn. unfold selectEntity.
  destruct (bool_decide (sel_level sel = Subsidiary) &&
            negb (bool_decide (_mapViewMode st = Subsidiary))) eqn:Hguard.
  { exfalso. apply Hacc. apply andb_true_iff in Hguard as [H1 H2].
    apply bool_decide_eq_true in H1. apply negb_true_iff, bool_decide_eq_false in H2.
    tauto. }
  cbn zeta. rewrite Hn. cbn [_mapViewMode set_selectedEntity].
  destruct (decide (sel_level n = Factory ∧ _mapViewMode st = Subsidiary)) as [[H1 H2]|Hno].
  - rewrite !bool_decide_eq_true_2 by assumption. cbn. tauto.
  - destruct (bool_decide (sel_level n = Factory) &&
              bool_decide (_mapViewMode st = Subsidiary)) eqn:Hb.
    + exfalso. apply Hno. apply andb_true_iff in Hb as [H1 H2].
      apply bool_decide_eq_true in H1, H2. tauto.
    + cbn. tauto.
Qed.

Lemma normalizeSelection_id (sel n : FleetSelection) (st : Store) :
  normalizeSelection sel st = Some n → sel_id n = sel_id sel.
Proof.
  unfold normalizeSelection. destruct (sel_level sel).
  - destruct (find _ (_parentGroups st)) as [parent|] eqn:Hfind; [|discriminate].
    intros [= <-]. now apply find_Some_elem in Hfind.
  - destruct (find _ (subsidiaries st)) as [subsidiary|] eqn:Hfind; [|discriminate].
    intros [= <-]. now apply find_Some_elem in Hfind.
  - destruct (find _ (factories st)) as [factory|] eqn:Hfind; [|discriminate].
    intros [= <-]. now apply find_Some_elem in Hfind.
Qed.

Lemma normalizeSelection_again (sel n : FleetSelection) (st : Store) :
  normalizeSelection sel st = Some n → normalizeSelection n st = Some n.
Proof.
  unfold normalizeSelection. destruct (sel_level sel) eqn:Hlevel.
  - destruct (find _ (_parentGroups st)) as [parent|] eqn:Hfind; [|discriminate].
    intros [= <-]. cbn.
    erewrite find_refind; [reflexivity|exact Hfind|reflexivity|].
    intros y. cbn. pose proof (find_Some_elem _ _ _ Hfind) as [_ Hid]. congruence.
  - destruct (find _ (subsidiaries st)) as [subsidiary|] eqn:Hfind; [|discriminate].
    intros [= <-]. cbn.
    erewrite find_refind; [reflexivity|exact Hfind|reflexivity|].
    intros y. cbn. pose proof (find_Some_elem _ _ _ Hfind) as [_ Hid]. congruence.
  - destruct (find _ (factories st)) as [factory|] eqn:Hfind; [|discriminate].
    intros [= <-]. cbn.
    erewrite find_refind; [reflexivity|exact Hfind|reflexivity|].
    intros y. cbn. pose proof (find_Some_elem _ _ _ Hfind) as [_ Hid]. congruence.
Qed.

(** X4.  A selection that normalizes keeps its level and id, and
    normalizing the result again gives the same selection. *)
Theorem normalizeSelection_idempotent (sel n : FleetSelection) (st : Store) :
  normalizeSelection sel st = Some n →
  sel_level n = sel_level sel ∧ sel_id n = sel_id sel ∧
  normalizeSelection n st = Some n.
Proof.
  intros Hn. split; [|split].
  - exact (normalizeSelection_level sel n st Hn).
  - exact (normalizeSelection_id sel n st Hn).
  - exact (normalizeSelection_again sel n st Hn).
Qed.

Lemma normalizeSelection_idempotent_witness :
  sel_level parent_selection = sel_level parent_selection ∧
  sel_id parent_selection = sel_id parent_selection ∧
  normalizeSelection parent_selection sample_store = Some parent_selection.
Proof.
  apply (normalizeSelection_idempotent parent_selection parent_selection sample_store).
  vm_compute. reflexivity.
Defined.

Lemma if_truthy_Some (x : string) : x ≠ "" → if_truthy (Some x) = Some x.
Proof.
  intros Hx. unfold if_truthy, truthy_str. now rewrite bool_decide_eq_false_2.
Qed.

Lemma if_truthy_empty : if_truthy (Some "") = None.
Proof. reflexivity. Qed.

(** X5.  After [selectEntity] has accepted a selection that normalizes,
    the computed signals follow it.  For a parent, [selectedSubsidiary] is
    null and [selectedParentGroup] is the first group with the selected id,
    which exists, but null when that id is the empty text.  For a
    subsidiary, [selectedSubsidiary] is the first subsidiary with the
    selected id, which exists, and [selectedParentGroup] is the first group
    with the id that subsidiary records as its parent.  For a factory, the
    two signals are the first subsidiary and the first group with the ids
    the first factory with the selected id records.  An empty recorded id
    gives null. *)
Theorem selected_signals_follow (st : Store) (sel n : FleetSelection) :
  accepted sel st →
  normalizeSelection sel st = Some n →
  let st' := selectEntity (Some sel) st in
  let group_of (parentGroupId : string) :=
    if decide (parentGroupId = "") then None
    else find (λ group, group_id group = parentGroupId) (_parentGroups st) in
  let subsidiary_of (subsidiaryId : string) :=
    if decide (subsidiaryId = "") then None
    else find (λ sub, subsidiary_id sub = subsidiaryId) (subsidiaries st) in
  match sel_level n with
  | Parent =>
      selectedSubsidiary st' = None ∧
      selectedParentGroup st' = group_of (sel_id n) ∧
      is_Some (find (λ group, group_id group = sel_id n) (_parentGroups st))
  | Subsidiary =>
      ∃ subsidiary,
        find (λ sub, subsidiary_id sub = sel_id n) (subsidiaries st) = Some subsidiary ∧
        selectedSubsidiary st' = Some subsidiary ∧
        selectedParentGroup st' = group_of (subsidiary_parentGroupId subsidiary)
  | Factory =>
      ∃ factory,
        find (λ fac, factory_id fac = sel_id n) (factories st) = Some factory ∧
        selectedSubsidiary st' = subsidiary_of (factory_subsidiaryId factory) ∧
        selectedParentGroup st' = group_of (factory_parentGroupId factory)
  end.
Proof.
  intros Hacc Hn. cbn zeta.
  destruct (selectEntity_accepted st sel n Hacc Hn) as (Hsel & Hgroups & _ & _).
  unfold selectedParentGroup, selectedSubsidiary, subsidiaries.
  rewrite Hsel, Hgroups. fold (subsidiaries st).
  assert (∀ x : string,
            match if_truthy (Some x) with
            | Some parentId => find (λ group, group_id group = parentId) (_parentGroups st)
            | None => None
            end =
            if decide (x = "") then None
            else find (λ group, group_id group = x) (_parentGroups st)) as Hgroup.
  { intros x. destruct (decide (x = "")) as [->|Hx]; [reflexivity|].
    now rewrite if_truthy_Some. }
  revert Hn. unfold normalizeSelection. destruct (sel_level sel) eqn:Hlevel.
  - destruct (find _ (_parentGroups st)) as [parent|] eqn:Hfind; [|discriminate].
    intros [= <-]. cbn [sel_level sel_id sel_parentGroupId sel_subsidiaryId].
    pose proof (find_Some_elem _ _ _ Hfind) as [_ Hid]. cbn in Hid.
    rewrite bool_decide_eq_false_2 by discriminate.
    rewrite bool_decide_eq_true_2 by reflexivity.
    split; [reflexivity|]. split; [apply Hgroup|].
    exists parent. eapply find_refind; [exact Hfind|reflexivity|].
    intros y. cbn. congruence.
  - destruct (find _ (subsidiaries st)) as [subsidiary|] eqn:Hfind; [|discriminate].
    intros [= <-]. cbn [sel_level sel_id sel_parentGroupId sel_subsidiaryId].
    pose proof (find_Some_elem _ _ _ Hfind) as [_ Hid]. cbn in Hid.
    rewrite bool_decide_eq_true_2 by reflexivity.
    rewrite bool_decide_eq_false_2 by discriminate.
    assert (find (λ sub, subsidiary_id sub = subsidiary_id subsidiary) (subsidiaries st)
            = Some subsidiary) as Hagain.
    { eapply find_refind; [exact Hfind|reflexivity|]. intros y. cbn. congruence. }
    exists subsidiary. split; [exact Hagain|]. split; [exact Hagain|]. apply Hgroup.
  - destruct (find _ (factories st)) as [factory|] eqn:Hfind; [|discriminate].
    intros [= <-]. cbn [sel_level sel_id sel_parentGroupId sel_subsidiaryId].
    pose proof (find_Some_elem _ _ _ Hfind) as [_ Hid]. cbn in Hid.
    rewrite !bool_decide_eq_false_2 by discriminate.
    exists factory. split.
    { eapply find_refind; [exact Hfind|reflexivity|]. intros y. cbn. congruence. }
    split; [|apply Hgroup].
    destruct (decide (factory_subsidiaryId factory = "")) as [->|Hx]; [reflexivity|].
    now rewrite if_truthy_Some.
Qed.

Lemma selected_signals_follow_witness :
  selectedSubsidiary (selectEntity (Some parent_selection) sample_store) = None ∧
  selectedParentGroup (selectEntity (Some parent_selection) sample_store) =
    find (λ group, group_id group = "g1") (_parentGroups sample_store) ∧
  is_Some (find (λ group, group_id group = "g1") (_parentGroups sample_store)).
Proof.
  apply (selected_signals_follow sample_store parent_selection parent_selection).
  - intros [H _]. discriminate H.
  - vm_compute. reflexivity.
Defined.

(** The nodes are read off the hierarchy, the view mode and the factory
    filter, and off nothing else. *)
Lemma nodes_reads (st st' : Store) :
  _parentGroups st' = _parentGroups st →
  _mapViewMode st' = _mapViewMode st →
  _factoryFilterSubsidiaryId st' = _factoryFilterSubsidiaryId st →
  nodes st' = nodes st.
Proof.
  intros Hg Hm Hf. unfold nodes, buildMapNodes, factories, subsidiaries.
  now rewrite Hg, Hm, Hf.
Qed.

Lemma factory_nodes (st : Store) (shown : list FactoryLocation) :
  let factoryNode (factory : FactoryLocation) :=
    createFactoryNode factory
      (find (λ sub, subsidiary_id sub = factory_subsidiaryId factory) (subsidiaries st)) in
  Forall (λ node, node_level node = Factory) (factoryNode <$> shown) ∧
  node_id <$> (factoryNode <$> shown) = factory_id <$> shown ∧
  node_coordinates <$> (factoryNode <$> shown) = factory_coordinates <$> shown.
Proof.
  cbn zeta. split; [|split].
  - apply Forall_fmap, Forall_forall. intros f _. reflexivity.
  - rewrite <- list_fmap_compose. reflexivity.
  - rewrite <- list_fmap_compose. reflexivity.
Qed.

(** X6.  After [setMapViewMode], whatever the selection and the earlier
    filter, the nodes are one per entity of the chosen level, in the order
    of the hierarchy: every node has that level, and the node ids are the
    ids of the parent groups, of the subsidiaries, or of the factories. *)
Theorem nodes_after_setMapViewMode (viewMode : MapViewMode) (st : Store) :
  let shown := nodes (setMapViewMode viewMode st) in
  Forall (λ node, node_level node = viewMode) shown ∧
  node_id <$> shown =
    match viewMode with
    | Parent => group_id <$> _parentGroups st
    | Subsidiary => subsidiary_id <$> subsidiaries st
    | Factory => factory_id <$> factories st
    end.
Proof.
  cbn zeta. destruct (setMapViewMode_reads viewMode st) as (Hg & Hm & Hf).
  unfold nodes, buildMapNodes, factories, subsidiaries. rewrite Hg, Hm, Hf.
  fold (subsidiaries st). fold (factories st).
  destruct viewMode; cbn [if_truthy truthy_str].
  - split; [|now rewrite <- list_fmap_compose].
    apply Forall_fmap, Forall_forall. intros g _. reflexivity.
  - split; [|now rewrite <- list_fmap_compose].
    apply Forall_fmap, Forall_forall. intros s _. reflexivity.
  - destruct (factory_nodes st (factories st)) as (Hlevel & Hids & _).
    split; [exact Hlevel|exact Hids].
Qed.

(** X7.  What a factory filter shows.  In the parent view the filter is
    ignored; a null or empty filter is no filter.  Otherwise, in the
    subsidiary view as in the factory view, the nodes are factory nodes,
    one for every factory whose subsidiary id is the filter or 'fleetzero',
    or whose own id is 'fleetzero', in the order of the hierarchy. *)
Theorem nodes_with_factory_filter (filterId : option string) (st : Store) :
  let st' := setFactoryFilterSubsidiaryId filterId st in
  (_mapViewMode st = Parent → nodes st' = createParentNode <$> _parentGroups st) ∧
  (filterId = None ∨ filterId = Some "" →
     nodes st' = nodes (setFactoryFilterSubsidiaryId None st)) ∧
  (∀ subsidiaryId,
     _mapViewMode st ≠ Parent → filterId = Some subsidiaryId → subsidiaryId ≠ "" →
     Forall (λ node, node_level node = Factory) (nodes st') ∧
     node_id <$> nodes st' =
       factory_id <$> filter (passes_filter subsidiaryId) (factories st)).
Proof.
  cbn zeta. unfold setFactoryFilterSubsidiaryId, nodes.
  cbn [_mapViewMode _selectedEntity _factoryFilterSubsidiaryId
       set_factoryFilterSubsidiaryId].
  assert (∀ v sel x, buildMapNodes v sel x (set_factoryFilterSubsidiaryId filterId st)
                     = buildMapNodes v sel x st) as Hsame by reflexivity.
  assert (∀ v sel x, buildMapNodes v sel x (set_factoryFilterSubsidiaryId None st)
                     = buildMapNodes v sel x st) as Hnone by reflexivity.
  rewrite Hsame, Hnone. split; [|split].
  - intros ->. reflexivity.
  - intros [-> | ->]; reflexivity.
  - intros subsidiaryId Hmode -> Hne. unfold buildMapNodes.
    rewrite (if_truthy_Some _ Hne).
    destruct (factory_nodes st (filter (passes_filter subsidiaryId) (factories st)))
      as (Hlevel & Hids & _).
    destruct (_mapViewMode st); [contradiction|split; assumption..].
Qed.

Lemma nodes_with_factory_filter_witness :
  Forall (λ node, node_level node = Factory)
    (nodes (setFactoryFilterSubsidiaryId (Some "s1") subsidiary_view_store)) ∧
  node_id <$> nodes (setFactoryFilterSubsidiaryId (Some "s1") subsidiary_view_store) =
    factory_id <$> filter (passes_filter "s1") (factories subsidiary_view_store).
Proof.
  apply (nodes_with_factory_filter (Some "s1") subsidiary_view_store).
  - discriminate.
  - reflexivity.
  - discriminate.
Defined.

Lemma centre_placed (l : list FactoryLocation) :
  isValidCoordinates (Some (computeCenterOfGravity l)) = true →
  ∃ factory, factory ∈ l ∧ placed factory.
Proof.
  unfold computeCenterOfGravity. cbn zeta.
  destruct (filter _ l) as [|f valid] eqn:Hfilter.
  - rewrite bool_decide_eq_true_2 by reflexivity. discriminate.
  - intros _. exists f.
    assert (f ∈ filter (λ factory, isValidCoordinates (factory_coordinates factory)) l)
      as Hf by (rewrite Hfilter; left).
    apply list_elem_of_filter in Hf as [Hvalid Hin]. split; [exact Hin|].
    unfold placed. now destruct (isValidCoordinates (factory_coordinates f)).
Qed.

(** X8.  The map draws a marker only for nodes with valid coordinates
    ([getNodesWithValidCoordinates]).  Such a node always stems from a
    placed factory: the node of a parent group or of a subsidiary is drawn
    only if one of its own factories has valid coordinates, and a factory
    node is drawn only for a factory with valid coordinates. *)
Theorem drawn_nodes_have_placed_factory (st : Store) (node : Node) :
  node ∈ getNodesWithValidCoordinates (nodes st) →
  match node_level node with
  | Parent =>
      ∃ group subsidiary factory,
        group ∈ _parentGroups st ∧ node = createParentNode group ∧
        subsidiary ∈ group_subsidiaries group ∧
        factory ∈ subsidiary_factories subsidiary ∧ placed factory
  | Subsidiary =>
      ∃ subsidiary factory,
        subsidiary ∈ subsidiaries st ∧ node = createSubsidiaryNode subsidiary ∧
        factory ∈ subsidiary_factories subsidiary ∧ placed factory
  | Factory =>
      ∃ factory,
        factory ∈ factories st ∧ node_id node = factory_id factory ∧
        node_coordinates node = factory_coordinates factory ∧ placed factory
  end.
Proof.
  unfold getNodesWithValidCoordinates. intros [Hvalid Hin]%list_elem_of_filter.
  apply Is_true_true in Hvalid.
  assert (∀ shown : list FactoryLocation,
            (∀ f, f ∈ shown → f ∈ factories st) →
            node ∈ (λ factory,
                      createFactoryNode factory
                        (find (λ sub, subsidiary_id sub = factory_subsidiaryId factory)
                              (subsidiaries st))) <$> shown →
            match node_level node with
            | Factory =>
                ∃ factory,
                  factory ∈ factories st ∧ node_id node = factory_id factory ∧
                  node_coordinates node = factory_coordinates factory ∧ placed factory
            | _ => False
            end) as Hfactory.
  { intros shown Hsub (f & -> & Hf)%list_elem_of_fmap. cbn.
    exists f. split; [auto|]. split; [reflexivity|]. split; [reflexivity|].
    exact Hvalid. }
  assert (∀ P : Prop, match node_level node with Factory => P | _ => False end →
                      node_level node = Factory ∧ P) as Hcase.
  { intros P. destruct (node_level node); tauto. }
  revert Hin. unfold nodes, buildMapNodes. destruct (_mapViewMode st).
  - intros (g & -> & Hg)%list_elem_of_fmap. cbn [node_level createParentNode].
    cbn in Hvalid. apply centre_placed in Hvalid as (f & Hf & Hplaced).
    apply elem_of_flat_map in Hf as (s & Hs & Hf). exists g, s, f. auto.
  - destruct (if_truthy (_factoryFilterSubsidiaryId st)) as [filterId|].
    + intros Hin. apply Hfactory, Hcase in Hin as [-> Hin]; [exact Hin|].
      intros f [_ Hf]%list_elem_of_filter. exact Hf.
    + intros (s & -> & Hs)%list_elem_of_fmap. cbn [node_level createSubsidiaryNode].
      cbn in Hvalid. apply centre_placed in Hvalid as (f & Hf & Hplaced).
      exists s, f. auto.
  - intros Hin. apply Hfactory, Hcase in Hin as [-> Hin]; [exact Hin|].
    destruct (if_truthy (_factoryFilterSubsidiaryId st)); [|auto].
    intros f [_ Hf]%list_elem_of_filter. exact Hf.
Qed.

Lemma drawn_nodes_have_placed_factory_witness :
  ∃ group subsidiary factory,
    group ∈ _parentGroups sample_store ∧
    createParentNode sample_group = createParentNode group ∧
    subsidiary ∈ group_subsidiaries group ∧
    factory ∈ subsidiary_factories subsidiary ∧ placed factory.
Proof.
  apply (drawn_nodes_have_placed_factory sample_store (createParentNode sample_group)).
  unfold getNodesWithValidCoordinates.
  apply list_elem_of_filter. split; [vm_compute; exact I|].
  change (nodes sample_store) with [createParentNode sample_group]. left.
Defined.

Lemma no_filter_falsy (st : Store) :
  no_filter st → if_truthy (_factoryFilterSubsidiaryId st) = None.
Proof. intros [-> | ->]; reflexivity. Qed.

Lemma filter_truthy (st : Store) (subsidiaryId : string) :
  _factoryFilterSubsidiaryId st = Some subsidiaryId → subsidiaryId ≠ "" →
  if_truthy (_factoryFilterSubsidiaryId st) = Some subsidiaryId.
Proof. intros -> Hne. now apply if_truthy_Some. Qed.

(** X9.  Does the selected entity have a node on the map, after
    [selectEntity] has accepted a selection that normalizes?  A parent
    group always has.  A subsidiary has when no factory filter is set.  A
    factory has when no filter is set and the view was not the subsidiary
    view, or when the filter is the subsidiary the factory records; but a
    factory selected in the unfiltered subsidiary view has none, since the
    view stays there and shows subsidiaries. *)
Theorem selected_entity_has_node (st : Store) (sel n : FleetSelection) :
  accepted sel st →
  normalizeSelection sel st = Some n →
  let st' := selectEntity (Some sel) st in
  (sel_level n = Parent → has_node n st') ∧
  (sel_level n = Subsidiary → no_filter st → has_node n st') ∧
  (sel_level n = Factory → no_filter st → _mapViewMode st ≠ Subsidiary →
     has_node n st') ∧
  (sel_level n = Factory →
     ∀ subsidiaryId,
       _factoryFilterSubsidiaryId st = Some subsidiaryId → subsidiaryId ≠ "" →
       sel_subsidiaryId n = Some subsidiaryId → has_node n st') ∧
  (sel_level n = Factory → no_filter st → _mapViewMode st = Subsidiary →
     ¬ has_node n st').
Proof.
  intros Hacc Hn. cbn zeta.
  destruct (selectEntity_accepted st sel n Hacc Hn) as (_ & Hgroups & Hfilter & Hmode).
  unfold has_node, nodes, buildMapNodes, factories, subsidiaries.
  rewrite Hgroups, Hfilter, Hmode. fold (subsidiaries st). fold (factories st).
  clear Hgroups Hfilter Hmode.
  revert Hn. unfold normalizeSelection. destruct (sel_level sel) eqn:Hlevel.
  - destruct (find _ (_parentGroups st)) as [parent|] eqn:Hfind; [|discriminate].
    intros [= <-]. cbn [sel_level sel_id sel_subsidiaryId].
    apply find_Some_elem in Hfind as [Hin _].
    rewrite decide_False by (intros [? _]; discriminate).
    repeat split; try discriminate. intros _.
    exists (createParentNode parent). split; [|split; reflexivity].
    apply list_elem_of_fmap. eauto.
  - destruct (find _ (subsidiaries st)) as [subsidiary|] eqn:Hfind; [|discriminate].
    intros [= <-]. cbn [sel_level sel_id sel_subsidiaryId].
    apply find_Some_elem in Hfind as [Hin _].
    rewrite decide_False by (intros [? _]; discriminate).
    repeat split; try discriminate. intros _ Hno%no_filter_falsy. rewrite Hno.
    exists (createSubsidiaryNode subsidiary). split; [|split; reflexivity].
    apply list_elem_of_fmap. eauto.
  - destruct (find _ (factories st)) as [factory|] eqn:Hfind; [|discriminate].
    intros [= <-]. cbn [sel_level sel_id sel_subsidiaryId].
    apply find_Some_elem in Hfind as [Hin _].
    split; [discriminate|]. split; [discriminate|]. split; [|split].
    + intros _ Hno%no_filter_falsy Hmode.
      rewrite decide_False by (intros [_ ?]; contradiction). rewrite Hno.
      eexists. split; [apply list_elem_of_fmap; eexists; split; [reflexivity|exact Hin]|].
      split; reflexivity.
    + intros _ subsidiaryId Hset Hne [= Hsub].
      rewrite (filter_truthy st subsidiaryId Hset Hne).
      assert (factory ∈ filter (passes_filter subsidiaryId) (factories st)) as Hpass.
      { apply list_elem_of_filter. split; [now left|exact Hin]. }
      destruct (decide _) as [_|_].
      * eexists. split; [apply list_elem_of_fmap; eexists; split; [reflexivity|exact Hpass]|].
        split; reflexivity.
      * eexists. split; [apply list_elem_of_fmap; eexists; split; [reflexivity|exact Hpass]|].
        split; reflexivity.
    + intros _ Hno%no_filter_falsy Hmode.
      rewrite decide_True by (split; [reflexivity|exact Hmode]). rewrite Hno.
      intros (node & (s & -> & _)%list_elem_of_fmap & _ & Hl). discriminate Hl.
Qed.

Lemma selected_entity_has_node_witness :
  has_node parent_selection (selectEntity (Some parent_selection) sample_store).
Proof.
  refine (proj1 (selected_entity_has_node sample_store parent_selection
                   parent_selection _ _) _).
  - intros [H _]. discriminate H.
  - vm_compute. reflexivity.
  - reflexivity.
Defined.

(* ===================================================================== *)
(** ** Deleting a factory *)
(* ===================================================================== *)

Lemma filter_length_has (factoryId : string) (subsidiary : SubsidiaryCompany) :
  length (filter (λ factory, factory_id factory ≠ factoryId)
                 (subsidiary_factories subsidiary)) =
  length (subsidiary_factories subsidiary) ↔ ¬ has_factory factoryId subsidiary.
Proof.
  unfold has_factory. split.
  - intros Hlen%filter_length_eq (f & Hf & Hid)%Exists_exists.
    rewrite <- Hlen in Hf. apply list_elem_of_filter in Hf as [Hne _]. contradiction.
  - intros Hno. f_equal. apply filter_all. intros f Hf Hid. apply Hno, Exists_exists. eauto.
Qed.

Lemma without_factory_factories (factoryId : string) (subsidiary : SubsidiaryCompany) :
  subsidiary_factories (without_factory factoryId subsidiary) =
  filter (λ factory, factory_id factory ≠ factoryId) (subsidiary_factories subsidiary).
Proof.
  unfold without_factory. cbn zeta. case_bool_decide as Hlen; [|reflexivity].
  symmetry. now apply filter_length_eq.
Qed.

Lemma without_factory_id (factoryId : string) (subsidiary : SubsidiaryCompany) :
  subsidiary_id (without_factory factoryId subsidiary) = subsidiary_id subsidiary.
Proof. unfold without_factory. cbn zeta. case_bool_decide; reflexivity. Qed.

Lemma without_factory_absent (factoryId : string) (subsidiary : SubsidiaryCompany) :
  ¬ has_factory factoryId subsidiary → without_factory factoryId subsidiary = subsidiary.
Proof.
  intros Hno. unfold without_factory. cbn zeta.
  now rewrite bool_decide_eq_true_2 by now apply filter_length_has.
Qed.

Lemma without_factory_group_subsidiaries (factoryId : string) (group : ParentGroup) :
  group_subsidiaries (without_factory_group factoryId group) =
  without_factory factoryId <$> group_subsidiaries group.
Proof.
  unfold without_factory_group. cbn zeta. case_decide as Hany; [reflexivity|].
  symmetry. rewrite <- (list_fmap_id (group_subsidiaries group)) at 2.
  apply list_fmap_ext. intros i s Hs. apply without_factory_absent.
  intros Hhas. apply Hany, Exists_exists. exists s. split; [|exact Hhas].
  eapply list_elem_of_lookup_2; exact Hs.
Qed.

Lemma without_factory_group_id (factoryId : string) (group : ParentGroup) :
  group_id (without_factory_group factoryId group) = group_id group.
Proof. unfold without_factory_group. cbn zeta. case_decide; reflexivity. Qed.

(** The variables after the inner loop of [deleteFactory]. *)
Lemma deleteFactory_inner (factoryId : string) (group : ParentGroup)
    (vars : DeleteFactoryVars) (subs : list SubsidiaryCompany) :
  map_accum (deleteFactory_subsidiary factoryId group) vars subs =
  (match last (filter (has_factory factoryId) subs) with
   | None => vars
   | Some subsidiary =>
       {| var_parentGroupId := Some (group_id group);
          var_subsidiaryId := Some (subsidiary_id subsidiary);
          var_groupChanged := true;
          var_updated := var_updated vars |}
   end,
   without_factory factoryId <$> subs).
Proof.
  revert vars. induction subs as [|s subs IH]; intros vars; [reflexivity|].
  cbn [map_accum]. unfold deleteFactory_subsidiary at 1. cbn zeta.
  fold (without_factory factoryId s).
  destruct (decide (has_factory factoryId s)) as [Hhas|Hno].
  - rewrite bool_decide_eq_false_2 by now rewrite filter_length_has; auto.
    rewrite IH. rewrite filter_cons_True by exact Hhas. cbn [var_updated].
    rewrite fmap_cons. unfold without_factory at 2. cbn zeta.
    rewrite bool_decide_eq_false_2 by now rewrite filter_length_has; auto.
    f_equal. rewrite last_cons.
    destruct (last (filter (has_factory factoryId) subs)); reflexivity.
  - rewrite bool_decide_eq_true_2 by now apply filter_length_has.
    rewrite IH. rewrite filter_cons_False by exact Hno.
    rewrite fmap_cons. now rewrite (without_factory_absent _ _ Hno).
Qed.

Lemma last_filter_None {A} (P : A → Prop) `{∀ x, Decision (P x)} (l : list A) :
  last (filter P l) = None ↔ ¬ Exists P l.
Proof.
  rewrite last_None. split.
  - intros Hnil (x & Hx & HP)%Exists_exists.
    assert (x ∈ filter P l) as Hin by (apply list_elem_of_filter; auto).
    rewrite Hnil in Hin. inversion Hin.
  - intros Hno. destruct (filter P l) as [|x l'] eqn:Hl; [reflexivity|].
    exfalso. apply Hno, Exists_exists. exists x.
    assert (x ∈ filter P l) as [HP Hin]%list_elem_of_filter by (rewrite Hl; left).
    auto.
Qed.

Lemma deleteFactory_group_eq (factoryId : string) (vars : DeleteFactoryVars)
    (group : ParentGroup) :
  deleteFactory_group factoryId vars group =
  (match last (filter (has_factory factoryId) (group_subsidiaries group)) with
   | None =>
       {| var_parentGroupId := var_parentGroupId vars;
          var_subsidiaryId := var_subsidiaryId vars;
          var_groupChanged := false;
          var_updated := var_updated vars |}
   | Some subsidiary =>
       {| var_parentGroupId := Some (group_id group);
          var_subsidiaryId := Some (subsidiary_id subsidiary);
          var_groupChanged := true;
          var_updated := true |}
   end,
   without_factory_group factoryId group).
Proof.
  unfold deleteFactory_group. rewrite deleteFactory_inner.
  unfold without_factory_group. cbn zeta.
  destruct (last (filter _ (group_subsidiaries group))) as [s|] eqn:Hlast.
  - cbn. rewrite decide_True; [reflexivity|].
    destruct (decide (Exists (has_factory factoryId) (group_subsidiaries group)))
      as [H|H]; [exact H|].
    apply (proj2 (last_filter_None _ _)) in H. congruence.
  - cbn. apply last_filter_None in Hlast. now rewrite decide_False.
Qed.

Lemma owners_cons (factoryId : string) (group : ParentGroup) (groups : list ParentGroup) :
  last (owners factoryId (group :: groups)) =
  match last (owners factoryId groups) with
  | Some owner => Some owner
  | None => (λ s, (group, s)) <$>
              last (filter (has_factory factoryId) (group_subsidiaries group))
  end.
Proof.
  unfold owners. cbn [flat_map]. fold (owners factoryId groups).
  rewrite last_app. destruct (last (owners factoryId groups)); [reflexivity|].
  apply fmap_last.
Qed.

(** The variables after the outer loop of [deleteFactory]. *)
Lemma deleteFactory_outer (factoryId : string) (vars : DeleteFactoryVars)
    (groups : list ParentGroup) :
  let result := map_accum (deleteFactory_group factoryId) vars groups in
  result.2 = without_factory_group factoryId <$> groups ∧
  match last (owners factoryId groups) with
  | None =>
      var_parentGroupId result.1 = var_parentGroupId vars ∧
      var_subsidiaryId result.1 = var_subsidiaryId vars ∧
      var_updated result.1 = var_updated vars
  | Some (group, subsidiary) =>
      var_parentGroupId result.1 = Some (group_id group) ∧
      var_subsidiaryId result.1 = Some (subsidiary_id subsidiary) ∧
      var_updated result.1 = true
  end.
Proof.
  cbn zeta. revert vars. induction groups as [|g groups IH]; intros vars.
  - cbn. tauto.
  - cbn [map_accum]. rewrite deleteFactory_group_eq.
    match goal with
    | |- context [map_accum _ ?v groups] =>
        specialize (IH v); destruct (map_accum _ v groups) as [vars2 groups2]
    end.
    cbn [fst snd] in *. destruct IH as [-> IH]. split; [reflexivity|].
    rewrite owners_cons.
    destruct (last (owners factoryId groups)) as [[g' s']|]; [exact IH|].
    destruct (last (filter _ (group_subsidiaries g))) as [s|]; cbn in *; exact IH.
Qed.

(** The closed form of [deleteFactory]. *)
Lemma deleteFactory_eq (factoryId : string) (st : Store) :
  deleteFactory factoryId st =
  match last (owners factoryId (_parentGroups st)) with
  | None => st
  | Some (group, subsidiary) =>
      let st2 :=
        set_activityLogs
          (filter (λ log, log_factoryId log ≠ factoryId) (_activityLogs st))
          (set_parentGroups (without_factory_group factoryId <$> _parentGroups st) st) in
      match _selectedEntity st with
      | Some selection =>
          if decide (refers_to_factory factoryId selection) then
            if decide (subsidiary_id subsidiary = "") then
              if decide (group_id group = "") then set_selectedEntity None st2
              else set_mapViewMode Parent
                     (set_selectedEntity (Some (selection_of_parent (group_id group)))
                        st2)
            else set_mapViewMode Subsidiary
                   (set_selectedEntity
                      (Some (selection_of_subsidiary (group_id group)
                               (subsidiary_id subsidiary))) st2)
          else st2
      | None => st2
      end
  end.
Proof.
  unfold deleteFactory. cbn zeta.
  pose proof (deleteFactory_outer factoryId
                {| var_parentGroupId := None; var_subsidiaryId := None;
                   var_groupChanged := false; var_updated := false |}
                (_parentGroups st)) as Houter.
  cbn zeta in Houter.
  destruct (map_accum _ _ (_parentGroups st)) as [vars groups'].
  cbn [fst snd] in Houter. destruct Houter as [-> Hvars].
  destruct (last (owners factoryId (_parentGroups st))) as [[group subsidiary]|].
  - destruct Hvars as (Hp & Hs & ->). cbn [negb]. rewrite Hp, Hs.
    cbn [_selectedEntity _activityLogs set_activityLogs set_parentGroups].
    destruct (_selectedEntity st) as [selection|]; [|reflexivity].
    unfold refers_to_factory.
    destruct (decide (sel_factoryId selection = Some factoryId ∨
                      sel_id selection = factoryId)) as [Hrefers|Hno].
    + assert (bool_decide (sel_factoryId selection = Some factoryId) ||
              bool_decide (sel_id selection = factoryId) = true) as ->.
      { apply orb_true_iff. rewrite !bool_decide_eq_true. exact Hrefers. }
      unfold selection_of_subsidiary.
      destruct (decide (subsidiary_id subsidiary = "")) as [Hes|Hns].
      * rewrite Hes. cbn [if_truthy truthy_str bool_decide negb].
        destruct (decide (group_id group = "")) as [Heg|Hng].
        -- rewrite Heg. reflexivity.
        -- rewrite (if_truthy_Some _ Hng). reflexivity.
      * rewrite (if_truthy_Some _ Hns).
        destruct (decide (group_id group = "")) as [Heg|Hng].
        -- rewrite Heg. reflexivity.
        -- rewrite (if_truthy_Some _ Hng). reflexivity.
    + assert (bool_decide (sel_factoryId selection = Some factoryId) ||
              bool_decide (sel_id selection = factoryId) = false) as ->; [|reflexivity].
      apply orb_false_iff. rewrite !bool_decide_eq_false. tauto.
  - destruct Hvars as (_ & _ & ->). reflexivity.
Qed.

Lemma owners_None (factoryId : string) (groups : list ParentGroup) :
  last (owners factoryId groups) = None →
  ∀ group, group ∈ groups → ¬ Exists (has_factory factoryId) (group_subsidiaries group).
Proof.
  intros Hnil%last_None g Hg (s & Hs & Hhas)%Exists_exists.
  assert ((g, s) ∈ owners factoryId groups) as Hin.
  { apply elem_of_flat_map. exists g. split; [exact Hg|].
    apply list_elem_of_fmap. exists s. split; [reflexivity|].
    apply list_elem_of_filter. auto. }
  rewrite Hnil in Hin. inversion Hin.
Qed.

Lemma owners_absent (factoryId : string) (st : Store) :
  (∀ f, f ∈ factories st → factory_id f ≠ factoryId) →
  last (owners factoryId (_parentGroups st)) = None.
Proof.
  intros Hno. apply last_None. destruct (owners _ _) as [|[g s] l] eqn:Ho; [reflexivity|].
  exfalso. assert ((g, s) ∈ owners factoryId (_parentGroups st)) as Hin
    by (rewrite Ho; left).
  apply elem_of_flat_map in Hin as (g' & Hg & Hin).
  apply list_elem_of_fmap in Hin as (s' & [= -> ->] & Hin).
  apply list_elem_of_filter in Hin as [(f & Hf & Hid)%Exists_exists Hs].
  apply (Hno f); [|exact Hid]. eapply factory_in_store; eassumption.
Qed.

Lemma deleteFactory_groups (factoryId : string) (st : Store) :
  _parentGroups (deleteFactory factoryId st) =
  without_factory_group factoryId <$> _parentGroups st.
Proof.
  rewrite deleteFactory_eq.
  destruct (last (owners factoryId (_parentGroups st))) as [[g s]|] eqn:Hlast.
  - cbn zeta. repeat case_match; reflexivity.
  - rewrite <- (list_fmap_id (_parentGroups st)) at 1.
    apply list_fmap_ext. intros i g Hg. unfold without_factory_group. cbn zeta.
    rewrite decide_False; [reflexivity|].
    apply (owners_None _ _ Hlast). eapply list_elem_of_lookup_2; exact Hg.
Qed.

Lemma flat_map_fmap {A B C} (f : B → list C) (g : A → B) (l : list A) :
  flat_map f (g <$> l) = flat_map (λ x, f (g x)) l.
Proof.
  induction l as [|x l IH]; [reflexivity|].
  rewrite fmap_cons. cbn [flat_map]. now rewrite IH.
Qed.

Lemma flat_map_ext' {A B} (f g : A → list B) (l : list A) :
  (∀ x, f x = g x) → flat_map f l = flat_map g l.
Proof. intros H. induction l as [|x l IH]; simpl; [reflexivity|]. now rewrite H, IH. Qed.

Lemma filter_flat_map {A B} (P : B → Prop) `{∀ x, Decision (P x)}
    (f : A → list B) (l : list A) :
  filter P (flat_map f l) = flat_map (λ x, filter P (f x)) l.
Proof.
  induction l as [|x l IH]; [reflexivity|].
  cbn [flat_map]. now rewrite filter_app, IH.
Qed.

Lemma fmap_flat_map {A B C} (h : B → C) (f : A → list B) (l : list A) :
  h <$> flat_map f l = flat_map (λ x, h <$> f x) l.
Proof.
  induction l as [|x l IH]; [reflexivity|].
  cbn [flat_map]. now rewrite fmap_app, IH.
Qed.

Lemma deleteFactory_factories (factoryId : string) (st : Store) :
  factories (deleteFactory factoryId st) =
  filter (λ factory, factory_id factory ≠ factoryId) (factories st).
Proof.
  unfold factories, subsidiaries. rewrite deleteFactory_groups.
  rewrite flat_map_fmap.
  rewrite (flat_map_ext' _ (λ g, without_factory factoryId <$> group_subsidiaries g))
    by apply without_factory_group_subsidiaries.
  rewrite !filter_flat_map.
  induction (_parentGroups st) as [|g groups IH]; [reflexivity|].
  cbn [flat_map]. rewrite !flat_map_app, IH. f_equal.
  rewrite flat_map_fmap.
  apply flat_map_ext'. apply without_factory_factories.
Qed.

Lemma deleteFactory_subsidiary_ids (factoryId : string) (st : Store) :
  subsidiary_id <$> subsidiaries (deleteFactory factoryId st) =
  subsidiary_id <$> subsidiaries st.
Proof.
  unfold subsidiaries. rewrite deleteFactory_groups.
  rewrite flat_map_fmap, !fmap_flat_map.
  apply flat_map_ext'. intros g. rewrite without_factory_group_subsidiaries.
  rewrite <- list_fmap_compose. apply list_fmap_ext. intros i s _.
  apply without_factory_id.
Qed.

Lemma deleteFactory_group_ids (factoryId : string) (st : Store) :
  group_id <$> _parentGroups (deleteFactory factoryId st) = group_id <$> _parentGroups st.
Proof.
  rewrite deleteFactory_groups.
  rewrite <- list_fmap_compose. apply list_fmap_ext. intros i g _.
  apply without_factory_group_id.
Qed.

(** X10.  [deleteFactory] removes every factory with the given id,
    wherever it is in the hierarchy, and nothing else: the other factories
    stay in their order, and no subsidiary and no group is removed, not
    even one left without factories. *)
Theorem deleteFactory_removes_everywhere (factoryId : string) (st : Store) :
  let st' := deleteFactory factoryId st in
  factories st' = filter (λ factory, factory_id factory ≠ factoryId) (factories st) ∧
  subsidiary_id <$> subsidiaries st' = subsidiary_id <$> subsidiaries st ∧
  group_id <$> _parentGroups st' = group_id <$> _parentGroups st.
Proof.
  cbn zeta. split; [|split].
  - apply deleteFactory_factories.
  - apply deleteFactory_subsidiary_ids.
  - apply deleteFactory_group_ids.
Qed.

(** X11.  When some subsidiary has a factory with the id, [deleteFactory]
    drops exactly the log entries of that factory id, and a selection that
    refers to the id moves to the last subsidiary, in hierarchy order, that
    had such a factory, with the view mode 'subsidiary'; if that subsidiary
    has the empty id, the selection moves to its group with the view mode
    'parent', and is cleared if the group's id is empty too.  A selection
    that does not refer to the id stays, with the view mode. *)
Theorem deleteFactory_logs_selection (factoryId : string) (st : Store)
    (group : ParentGroup) (subsidiary : SubsidiaryCompany) :
  last (owners factoryId (_parentGroups st)) = Some (group, subsidiary) →
  let st' := deleteFactory factoryId st in
  _activityLogs st' =
    filter (λ log, log_factoryId log ≠ factoryId) (_activityLogs st) ∧
  match _selectedEntity st with
  | Some selection =>
      if decide (refers_to_factory factoryId selection) then
        if decide (subsidiary_id subsidiary = "") then
          if decide (group_id group = "") then
            _selectedEntity st' = None ∧ _mapViewMode st' = _mapViewMode st
          else
            _selectedEntity st' = Some (selection_of_parent (group_id group)) ∧
            _mapViewMode st' = Parent
        else
          _selectedEntity st' =
            Some (selection_of_subsidiary (group_id group) (subsidiary_id subsidiary)) ∧
          _mapViewMode st' = Subsidiary
      else _selectedEntity st' = Some selection ∧ _mapViewMode st' = _mapViewMode st
  | None => _selectedEntity st' = None ∧ _mapViewMode st' = _mapViewMode st
  end.
Proof.
  intros Hlast. cbn zeta. rewrite deleteFactory_eq, Hlast. cbn zeta.
  destruct (_selectedEntity st) as [selection|] eqn:Hsel.
  - repeat case_decide; cbn; rewrite ?Hsel; auto.
  - cbn. rewrite Hsel. auto.
Qed.

Lemma deleteFactory_logs_selection_witness :
  _activityLogs (deleteFactory "placed" logged_store) =
    filter (λ log, log_factoryId log ≠ "placed") (_activityLogs logged_store) ∧
  _selectedEntity (deleteFactory "placed" logged_store) = Some subsidiary_selection ∧
  _mapViewMode (deleteFactory "placed" logged_store) = _mapViewMode logged_store.
Proof.
  apply (deleteFactory_logs_selection "placed" logged_store sample_group
           sample_subsidiary).
  vm_compute. reflexivity.
Defined.

(* ===================================================================== *)
(** ** Inserting or replacing subsidiaries and factories *)
(* ===================================================================== *)

Lemma list_find_replaced {A} (P : A → Prop) `{∀ x, Decision (P x)}
    (l : list A) (i : nat) (x y : A) :
  list_find P l = Some (i, x) → P y → list_find P (<[i := y]> l) = Some (i, y).
Proof.
  intros (Hi & _ & Hbefore)%list_find_Some Hy. apply list_find_Some.
  split; [apply list_lookup_insert_eq; eapply lookup_lt_Some; exact Hi|].
  split; [exact Hy|].
  intros j z Hj Hlt. rewrite list_lookup_insert_ne in Hj by lia.
  exact (Hbefore j z Hj Hlt).
Qed.

Lemma list_find_appended {A} (P : A → Prop) `{∀ x, Decision (P x)}
    (l : list A) (y : A) :
  list_find P l = None → P y → list_find P (l ++ [y]) = Some (length l, y).
Proof.
  intros Hnone Hy. rewrite list_find_app_r by exact Hnone.
  cbn [list_find]. rewrite decide_True by exact Hy. reflexivity.
Qed.

Lemma findIndex_list_find {A} (P : A → Prop) `{∀ x, Decision (P x)}
    (l : list A) (i : nat) :
  findIndex P l = Some i → ∃ x, list_find P l = Some (i, x).
Proof.
  unfold findIndex. destruct (list_find P l) as [[j x]|]; [|discriminate].
  intros [= ->]. eauto.
Qed.

Lemma findIndex_None {A} (P : A → Prop) `{∀ x, Decision (P x)} (l : list A) :
  findIndex P l = None → list_find P l = None.
Proof. unfold findIndex. now destruct (list_find P l). Qed.

Lemma upsert_idempotent {A} (P : A → Prop) `{∀ x, Decision (P x)} (y : A) (l : list A) :
  P y → upsert P y (upsert P y l) = upsert P y l.
Proof.
  intros Hy. destruct (findIndex P l) as [i|] eqn:Hfind.
  - assert (upsert P y l = <[i := y]> l) as -> by (unfold upsert; now rewrite Hfind).
    apply findIndex_list_find in Hfind as [x Hfind].
    unfold upsert, findIndex. rewrite (list_find_replaced P l i x y Hfind Hy).
    cbn. apply list_insert_insert_eq.
  - assert (upsert P y l = l ++ [y]) as -> by (unfold upsert; now rewrite Hfind).
    apply findIndex_None in Hfind.
    unfold upsert, findIndex. rewrite (list_find_appended P l y Hfind Hy).
    cbn. apply list_insert_id. rewrite lookup_app_r by lia.
    now rewrite Nat.sub_diag.
Qed.

Lemma upsert_elem {A} (P : A → Prop) `{∀ x, Decision (P x)} (y : A) (l : list A) :
  y ∈ upsert P y l.
Proof.
  unfold upsert. destruct (findIndex P l) as [i|] eqn:Hfind.
  - apply findIndex_lookup in Hfind as [x Hx].
    eapply list_elem_of_lookup_2. apply list_lookup_insert_eq.
    eapply lookup_lt_Some; exact Hx.
  - apply elem_of_app. right. left.
Qed.

Lemma with_factories_self (s : SubsidiaryCompany) (l : list FactoryLocation) (m : Metrics) :
  subsidiary_factories s = l → subsidiary_metrics s = m → with_factories l m s = s.
Proof. destruct s. cbn. intros -> ->. reflexivity. Qed.

Lemma with_subsidiaries_self (g : ParentGroup) (l : list SubsidiaryCompany) (m : Metrics) :
  group_subsidiaries g = l → group_metrics g = m → with_subsidiaries l m g = g.
Proof. destruct g. cbn. intros -> ->. reflexivity. Qed.

(** The hierarchy the four operations write. *)
Lemma addSubsidiary_groups (s : SubsidiaryCompany) (st : Store) :
  _parentGroups (addSubsidiary s st) = upsert_subsidiary s (_parentGroups st).
Proof.
  unfold addSubsidiary. rewrite (addSubsidiary_fuel_eq 0). cbn [default].
  unfold upsert_subsidiary, upsert.
  destruct (list_find _ (_parentGroups st)) as [[parentIndex parent]|]; [|reflexivity].
  cbn zeta. destruct (findIndex _ (group_subsidiaries parent)); reflexivity.
Qed.

Lemma updateSubsidiary_groups (s : SubsidiaryCompany) (st : Store) :
  _parentGroups (updateSubsidiary s st) = upsert_subsidiary s (_parentGroups st).
Proof.
  unfold updateSubsidiary. rewrite (updateSubsidiary_fuel_eq 0). cbn [default].
  unfold upsert_subsidiary, upsert.
  destruct (list_find _ (_parentGroups st)) as [[parentIndex parent]|]; [|reflexivity].
  cbn zeta. destruct (findIndex _ (group_subsidiaries parent)); reflexivity.
Qed.

Lemma addFactory_groups (f : FactoryLocation) (st : Store) :
  _parentGroups (addFactory f st) = upsert_factory f (_parentGroups st).
Proof.
  unfold addFactory. rewrite (addFactory_fuel_eq 0). cbn [default].
  unfold upsert_factory, upsert.
  destruct (list_find _ (_parentGroups st)) as [[parentIndex parent]|]; [|reflexivity].
  destruct (list_find _ (group_subsidiaries parent)) as [[subIndex subsidiary]|];
    [|reflexivity].
  cbn zeta. destruct (findIndex _ (subsidiary_factories subsidiary)); reflexivity.
Qed.

Lemma updateFactory_groups (f : FactoryLocation) (st : Store) :
  _parentGroups (updateFactory f st) = upsert_factory f (_parentGroups st).
Proof.
  unfold updateFactory. rewrite (updateFactory_fuel_eq 0). cbn [default].
  unfold upsert_factory, upsert.
  destruct (list_find _ (_parentGroups st)) as [[parentIndex parent]|]; [|reflexivity].
  destruct (list_find _ (group_subsidiaries parent)) as [[subIndex subsidiary]|];
    [|reflexivity].
  cbn zeta. destruct (findIndex _ (subsidiary_factories subsidiary)); reflexivity.
Qed.

Lemma upsert_subsidiary_idempotent (s : SubsidiaryCompany) (groups : list ParentGroup) :
  upsert_subsidiary s (upsert_subsidiary s groups) = upsert_subsidiary s groups.
Proof.
  destruct (list_find (λ group, group_id group = subsidiary_parentGroupId s) groups)
    as [[parentIndex parent]|] eqn:Hfind.
  - set (subs := upsert (λ sub, subsidiary_id sub = subsidiary_id s) (normalized s)
                   (group_subsidiaries parent)).
    set (parent' := with_subsidiaries subs (computeMetricsFromSubsidiaries subs) parent).
    assert (upsert_subsidiary s groups = <[parentIndex := parent']> groups) as ->
      by (unfold upsert_subsidiary; now rewrite Hfind).
    unfold upsert_subsidiary.
    rewrite (list_find_replaced _ groups parentIndex parent parent' Hfind)
      by (apply list_find_Some in Hfind as (_ & Hid & _); exact Hid).
    cbv beta iota zeta.
    assert (group_subsidiaries parent' = subs) as -> by reflexivity.
    assert (upsert (λ sub, subsidiary_id sub = subsidiary_id s) (normalized s) subs
            = subs) as -> by (apply upsert_idempotent; reflexivity).
    rewrite (with_subsidiaries_self parent' subs (computeMetricsFromSubsidiaries subs)
               eq_refl eq_refl).
    apply list_insert_insert_eq.
  - assert (upsert_subsidiary s groups = groups ++ [new_parent s]) as ->
      by (unfold upsert_subsidiary; now rewrite Hfind).
    unfold upsert_subsidiary.
    rewrite (list_find_appended _ groups (new_parent s) Hfind) by reflexivity.
    cbn zeta. cbn [new_parent group_subsidiaries].
    assert (upsert (λ sub, subsidiary_id sub = subsidiary_id s) (normalized s)
              [normalized s] = [normalized s]) as ->.
    { unfold upsert, findIndex. cbn [list_find].
      rewrite decide_True by reflexivity. reflexivity. }
    apply list_insert_id. rewrite lookup_app_r by lia.
    rewrite Nat.sub_diag. reflexivity.
Qed.

Lemma upsert_factory_idempotent (f : FactoryLocation) (groups : list ParentGroup) :
  upsert_factory f (upsert_factory f groups) = upsert_factory f groups.
Proof.
  destruct (list_find (λ group, group_id group = factory_parentGroupId f) groups)
    as [[parentIndex parent]|] eqn:Hfind.
  2: { assert (upsert_factory f groups = groups) as Hsame
         by (unfold upsert_factory; now rewrite Hfind).
       now rewrite !Hsame. }
  destruct (list_find (λ sub, subsidiary_id sub = factory_subsidiaryId f)
              (group_subsidiaries parent)) as [[subIndex subsidiary]|] eqn:Hsub.
  2: { assert (upsert_factory f groups = groups) as Hsame
         by (unfold upsert_factory; now rewrite Hfind, Hsub).
       now rewrite !Hsame. }
  set (facs := upsert (λ x, factory_id x = factory_id f) f
                 (subsidiary_factories subsidiary)).
  set (subsidiary' := with_factories facs (computeMetricsFromFactories facs) subsidiary).
  set (subs := <[subIndex := subsidiary']> (group_subsidiaries parent)).
  set (parent' := with_subsidiaries subs (computeMetricsFromSubsidiaries subs) parent).
  assert (upsert_factory f groups = <[parentIndex := parent']> groups) as ->
    by (unfold upsert_factory; now rewrite Hfind, Hsub).
  unfold upsert_factory.
  rewrite (list_find_replaced _ groups parentIndex parent parent' Hfind)
    by (apply list_find_Some in Hfind as (_ & Hid & _); exact Hid).
  cbv beta iota zeta.
  assert (group_subsidiaries parent' = subs) as -> by reflexivity.
  assert (list_find (λ sub, subsidiary_id sub = factory_subsidiaryId f) subs =
          Some (subIndex, subsidiary')) as ->.
  { apply (list_find_replaced _ _ _ subsidiary); [exact Hsub|].
    apply list_find_Some in Hsub as (_ & Hid & _). exact Hid. }
  cbv beta iota zeta.
  assert (subsidiary_factories subsidiary' = facs) as -> by reflexivity.
  assert (upsert (λ x, factory_id x = factory_id f) f facs = facs) as ->
    by (apply upsert_idempotent; reflexivity).
  rewrite (with_factories_self subsidiary' facs (computeMetricsFromFactories facs)
             eq_refl eq_refl).
  assert (<[subIndex := subsidiary']> subs = subs) as ->
    by apply list_insert_insert_eq.
  rewrite (with_subsidiaries_self parent' subs (computeMetricsFromSubsidiaries subs)
               eq_refl eq_refl).
  apply list_insert_insert_eq.
Qed.

Lemma silenced_warn (line : string) (st : Store) :
  silenced (console_warn line st) = silenced st.
Proof. reflexivity. Qed.

Lemma silenced_groups (groups : list ParentGroup) (st : Store) :
  silenced (set_parentGroups groups st) = set_parentGroups groups (silenced st).
Proof. reflexivity. Qed.

Lemma set_parentGroups_same (st : Store) : set_parentGroups (_parentGroups st) st = st.
Proof. now destruct st. Qed.

(** X12.  Adding and updating write the same store but for the warnings:
    [addSubsidiary] and [updateSubsidiary] both insert the subsidiary, with
    its metrics recomputed, or replace the first one with its id, in the
    first group with the id it records as its parent or in a new group at
    the end; [addFactory] and [updateFactory] both insert the factory or
    replace the first one with its id, in the first subsidiary and group
    with the ids it records, and write nothing without them.  Nothing else
    in the store changes, and the two of a pair differ in the lines they
    write to the console only. *)
Theorem add_and_update_agree (s : SubsidiaryCompany) (f : FactoryLocation) (st : Store) :
  let with_subsidiary :=
    set_parentGroups (upsert_subsidiary s (_parentGroups st)) (silenced st) in
  let with_factory :=
    set_parentGroups (upsert_factory f (_parentGroups st)) (silenced st) in
  silenced (addSubsidiary s st) = with_subsidiary ∧
  silenced (updateSubsidiary s st) = with_subsidiary ∧
  silenced (addFactory f st) = with_factory ∧
  silenced (updateFactory f st) = with_factory ∧
  _parentGroups (addSubsidiary s st) = _parentGroups (updateSubsidiary s st) ∧
  _parentGroups (addFactory f st) = _parentGroups (updateFactory f st).
Proof.
  cbn zeta. split_and!.
  - unfold addSubsidiary. rewrite (addSubsidiary_fuel_eq 0). cbn [default from_option id]. unfold id.
    unfold upsert_subsidiary, upsert, write_subsidiaries.
    destruct (list_find _ (_parentGroups st)) as [[parentIndex parent]|]; [|reflexivity].
    cbn zeta. destruct (findIndex _ (group_subsidiaries parent)); reflexivity.
  - unfold updateSubsidiary. rewrite (updateSubsidiary_fuel_eq 0). cbn [default from_option id]. unfold id.
    unfold upsert_subsidiary, upsert, write_subsidiaries.
    destruct (list_find _ (_parentGroups st)) as [[parentIndex parent]|]; [|reflexivity].
    cbn zeta. destruct (findIndex _ (group_subsidiaries parent)); reflexivity.
  - unfold addFactory. rewrite (addFactory_fuel_eq 0). cbn [default from_option id]. unfold id.
    unfold upsert_factory, upsert, write_factories, write_subsidiaries.
    destruct (list_find _ (_parentGroups st)) as [[parentIndex parent]|];
      [|now rewrite silenced_warn, <- silenced_groups, set_parentGroups_same].
    destruct (list_find _ (group_subsidiaries parent)) as [[subIndex subsidiary]|];
      [|now rewrite silenced_warn, <- silenced_groups, set_parentGroups_same].
    cbn zeta. destruct (findIndex _ (subsidiary_factories subsidiary)); reflexivity.
  - unfold updateFactory. rewrite (updateFactory_fuel_eq 0). cbn [default from_option id]. unfold id.
    unfold upsert_factory, upsert, write_factories, write_subsidiaries.
    destruct (list_find _ (_parentGroups st)) as [[parentIndex parent]|];
      [|now rewrite <- silenced_groups, set_parentGroups_same].
    destruct (list_find _ (group_subsidiaries parent)) as [[subIndex subsidiary]|];
      [|now rewrite <- silenced_groups, set_parentGroups_same].
    cbn zeta. destruct (findIndex _ (subsidiary_factories subsidiary)); reflexivity.
  - now rewrite addSubsidiary_groups, updateSubsidiary_groups.
  - now rewrite addFactory_groups, updateFactory_groups.
Qed.

(** X13.  Each of the four operations, done twice with the same argument,
    leaves the hierarchy it left the first time. *)
Theorem upserts_idempotent (s : SubsidiaryCompany) (f : FactoryLocation) (st : Store) :
  _parentGroups (addSubsidiary s (addSubsidiary s st)) =
    _parentGroups (addSubsidiary s st) ∧
  _parentGroups (updateSubsidiary s (updateSubsidiary s st)) =
    _parentGroups (updateSubsidiary s st) ∧
  _parentGroups (addFactory f (addFactory f st)) = _parentGroups (addFactory f st) ∧
  _parentGroups (updateFactory f (updateFactory f st)) =
    _parentGroups (updateFactory f st).
Proof.
  rewrite !addSubsidiary_groups, !updateSubsidiary_groups, !addFactory_groups,
    !updateFactory_groups.
  rewrite upsert_subsidiary_idempotent, upsert_factory_idempotent. tauto.
Qed.

Lemma elem_of_upsert {A} (P : A → Prop) `{∀ x, Decision (P x)} (y x : A) (l : list A) :
  x ∈ upsert P y l → x = y ∨ x ∈ l.
Proof.
  unfold upsert. destruct (findIndex P l) as [i|].
  - intros (j & Hj)%list_elem_of_lookup_1.
    apply list_lookup_insert_Some in Hj as [(_ & -> & _)|[_ Hj]]; [now left|].
    right. eapply list_elem_of_lookup_2; exact Hj.
  - intros [Hx|Hx%list_elem_of_singleton]%elem_of_app; auto.
Qed.

Lemma elem_of_insert {A} (l : list A) (i : nat) (y x : A) :
  x ∈ <[i := y]> l → x = y ∨ x ∈ l.
Proof.
  intros (j & Hj)%list_elem_of_lookup_1.
  apply list_lookup_insert_Some in Hj as [(_ & -> & _)|[_ Hj]]; [now left|].
  right. eapply list_elem_of_lookup_2; exact Hj.
Qed.

Lemma elem_of_inserted {A} (l : list A) (i : nat) (x y : A) :
  l !! i = Some x → y ∈ <[i := y]> l.
Proof.
  intros Hi. eapply list_elem_of_lookup_2. apply list_lookup_insert_eq.
  eapply lookup_lt_Some; exact Hi.
Qed.

Lemma find_unique {A} (P : A → Prop) `{∀ x, Decision (P x)} (l : list A) (x : A) :
  x ∈ l → P x → (∀ y, y ∈ l → P y → y = x) → find P l = Some x.
Proof.
  intros Hin HP Huniq. unfold find.
  destruct (list_find P l) as [[i y]|] eqn:Hfind.
  - apply list_find_Some in Hfind as (Hi & Hy & _). cbn. f_equal.
    apply Huniq; [eapply list_elem_of_lookup_2; exact Hi|exact Hy].
  - exfalso. apply list_find_None in Hfind. rewrite Forall_forall in Hfind.
    exact (Hfind x Hin HP).
Qed.

Lemma find_is_Some {A} (P : A → Prop) `{∀ x, Decision (P x)} (l : list A) (x : A) :
  x ∈ l → P x → is_Some (find P l).
Proof.
  intros Hin HP. unfold find. destruct (list_find P l) as [[i y]|] eqn:Hfind.
  - cbn. eauto.
  - exfalso. apply list_find_None in Hfind. rewrite Forall_forall in Hfind.
    exact (Hfind x Hin HP).
Qed.

Lemma upsert_subsidiary_elem (s : SubsidiaryCompany) (groups : list ParentGroup) :
  normalized s ∈ flat_map group_subsidiaries (upsert_subsidiary s groups).
Proof.
  unfold upsert_subsidiary.
  destruct (list_find _ groups) as [[parentIndex parent]|] eqn:Hfind; cbn zeta.
  - apply elem_of_flat_map. eexists. split.
    + eapply elem_of_inserted. eapply list_find_lookup. exact Hfind.
    + cbn [group_subsidiaries with_subsidiaries]. apply upsert_elem.
  - apply elem_of_flat_map. exists (new_parent s). split.
    + apply elem_of_app. right. left.
    + left.
Qed.

Lemma upsert_subsidiary_others (s x : SubsidiaryCompany) (groups : list ParentGroup) :
  x ∈ flat_map group_subsidiaries (upsert_subsidiary s groups) →
  x = normalized s ∨ x ∈ flat_map group_subsidiaries groups.
Proof.
  unfold upsert_subsidiary.
  destruct (list_find _ groups) as [[parentIndex parent]|] eqn:Hfind; cbn zeta.
  - intros (g & [->|Hg]%elem_of_insert & Hx)%elem_of_flat_map.
    + cbn [group_subsidiaries with_subsidiaries] in Hx.
      apply elem_of_upsert in Hx as [->|Hx]; [now left|].
      right. apply elem_of_flat_map. exists parent. split; [|exact Hx].
      eapply list_elem_of_lookup_2, list_find_lookup. exact Hfind.
    + right. apply elem_of_flat_map. eauto.
  - intros (g & [Hg|Hg%list_elem_of_singleton]%elem_of_app & Hx)%elem_of_flat_map.
    + right. apply elem_of_flat_map. eauto.
    + subst g. apply list_elem_of_singleton in Hx. now left.
Qed.

(** X14.  What was inserted is found.  After [addSubsidiary] or
    [updateSubsidiary] the subsidiary, with its metrics recomputed from its
    factories, is in the hierarchy and [getSubsidiaryData] finds a
    subsidiary with its id; it finds this very subsidiary when no subsidiary
    had the id before.  After [addFactory] or [updateFactory] the factory is
    in the hierarchy, provided the group and, in it, the subsidiary it
    records exist. *)
Theorem inserted_is_found (s : SubsidiaryCompany) (f : FactoryLocation) (st : Store) :
  (∀ st', st' = addSubsidiary s st ∨ st' = updateSubsidiary s st →
     normalized s ∈ subsidiaries st' ∧
     is_Some (getSubsidiaryData (subsidiary_id s) st') ∧
     ((∀ x, x ∈ subsidiaries st → subsidiary_id x ≠ subsidiary_id s) →
        getSubsidiaryData (subsidiary_id s) st' = Some (normalized s))) ∧
  (∀ st' parent subsidiary,
     st' = addFactory f st ∨ st' = updateFactory f st →
     find (λ group, group_id group = factory_parentGroupId f) (_parentGroups st)
       = Some parent →
     find (λ sub, subsidiary_id sub = factory_subsidiaryId f) (group_subsidiaries parent)
       = Some subsidiary →
     f ∈ factories st').
Proof.
  split.
  - intros st' Hst'.
    assert (_parentGroups st' = upsert_subsidiary s (_parentGroups st)) as Hgroups.
    { destruct Hst' as [-> | ->];
        [apply addSubsidiary_groups|apply updateSubsidiary_groups]. }
    unfold getSubsidiaryData, subsidiaries. rewrite Hgroups.
    pose proof (upsert_subsidiary_elem s (_parentGroups st)) as Hin.
    split; [exact Hin|]. split.
    + eapply find_is_Some; [exact Hin|reflexivity].
    + intros Hfresh. apply find_unique; [exact Hin|reflexivity|].
      intros y [->|Hy]%upsert_subsidiary_others Hid; [reflexivity|].
      exfalso. exact (Hfresh y Hy Hid).
  - intros st' parent subsidiary Hst' Hparent Hsub.
    assert (_parentGroups st' = upsert_factory f (_parentGroups st)) as Hgroups.
    { destruct Hst' as [-> | ->]; [apply addFactory_groups|apply updateFactory_groups]. }
    apply find_list_find in Hparent as [parentIndex Hparent].
    apply find_list_find in Hsub as [subIndex Hsub].
    unfold factories, subsidiaries. rewrite Hgroups. unfold upsert_factory.
    rewrite Hparent, Hsub. cbn zeta.
    apply elem_of_flat_map. eexists. split.
    + apply elem_of_flat_map. eexists. split.
      * eapply elem_of_inserted, list_find_lookup. exact Hparent.
      * cbn [group_subsidiaries with_subsidiaries].
        eapply elem_of_inserted, list_find_lookup. exact Hsub.
    + cbn [subsidiary_factories with_factories]. apply upsert_elem.
Qed.

Lemma inserted_is_found_witness :
  extra_factory ∈ factories (addFactory extra_factory sample_store).
Proof.
  refine (proj2 (inserted_is_found sample_subsidiary extra_factory sample_store)
            _ sample_group sample_subsidiary _ _ _).
  - left. reflexivity.
  - vm_compute. reflexivity.
  - vm_compute. reflexivity.
Defined.

Lemma without_factory_group_absent (factoryId : string) (group : ParentGroup) :
  ¬ Exists (has_factory factoryId) (group_subsidiaries group) →
  without_factory_group factoryId group = group.
Proof. intros Hno. unfold without_factory_group. cbn zeta. now rewrite decide_False. Qed.

(** X15.  Adding a factory under a new id and deleting it again restores
    the hierarchy, metrics included, when the stored metrics of the groups
    and subsidiaries were those recomputed from their children. *)
Theorem addFactory_deleteFactory (f : FactoryLocation) (st : Store) :
  (∀ x, x ∈ factories st → factory_id x ≠ factory_id f) →
  (∀ g, g ∈ _parentGroups st → group_consistent g) →
  (∀ s, s ∈ subsidiaries st → sub_consistent s) →
  _parentGroups (deleteFactory (factory_id f) (addFactory f st)) = _parentGroups st.
Proof.
  intros Hfresh Hgroups Hsubs.
  rewrite deleteFactory_groups, addFactory_groups.
  assert (∀ s, s ∈ subsidiaries st → ¬ has_factory (factory_id f) s) as Hnone.
  { intros s Hs (x & Hx & Hid)%Exists_exists. apply (Hfresh x); [|exact Hid].
    apply elem_of_factories. eauto. }
  assert (∀ g, g ∈ _parentGroups st →
               without_factory_group (factory_id f) g = g) as Hsame.
  { intros g Hg. apply without_factory_group_absent.
    intros (s & Hs & Hhas)%Exists_exists. apply (Hnone s); [|exact Hhas].
    apply elem_of_subsidiaries. eauto. }
  assert (without_factory_group (factory_id f) <$> _parentGroups st = _parentGroups st)
    as Hall.
  { rewrite <- (list_fmap_id (_parentGroups st)) at 2.
    apply list_fmap_ext. intros i g Hg. apply Hsame.
    eapply list_elem_of_lookup_2; exact Hg. }
  unfold upsert_factory.
  destruct (list_find _ (_parentGroups st)) as [[parentIndex parent]|] eqn:Hparent;
    [|exact Hall].
  destruct (list_find _ (group_subsidiaries parent)) as [[subIndex subsidiary]|] eqn:Hsub;
    [|exact Hall].
  cbn zeta. apply list_find_lookup in Hparent, Hsub.
  assert (parent ∈ _parentGroups st) as Hpin
    by (eapply list_elem_of_lookup_2; exact Hparent).
  assert (subsidiary ∈ group_subsidiaries parent) as Hsin
    by (eapply list_elem_of_lookup_2; exact Hsub).
  assert (subsidiary ∈ subsidiaries st) as Hsin'
    by (apply elem_of_subsidiaries; eauto).
  assert (upsert (λ x, factory_id x = factory_id f) f (subsidiary_factories subsidiary)
          = subsidiary_factories subsidiary ++ [f]) as ->.
  { unfold upsert. rewrite findIndex_absent; [reflexivity|].
    intros x Hx. apply Hfresh, elem_of_factories. eauto. }
  set (facs := subsidiary_factories subsidiary ++ [f]).
  set (subsidiary' := with_factories facs (computeMetricsFromFactories facs) subsidiary).
  set (subs := <[subIndex := subsidiary']> (group_subsidiaries parent)).
  set (parent' := with_subsidiaries subs (computeMetricsFromSubsidiaries subs) parent).
  rewrite list_fmap_insert, Hall.
  assert (without_factory (factory_id f) subsidiary' = subsidiary) as Hback.
  { unfold without_factory. cbn zeta.
    assert (filter (λ factory, factory_id factory ≠ factory_id f)
              (subsidiary_factories subsidiary') = subsidiary_factories subsidiary)
      as ->.
    { change (subsidiary_factories subsidiary') with facs. unfold facs.
      rewrite filter_app, filter_cons_False, filter_nil, app_nil_r by (cbn; tauto).
      apply filter_all. intros x Hx. apply Hfresh, elem_of_factories. eauto. }
    rewrite bool_decide_eq_false_2.
    - change (with_factories ?l ?m subsidiary') with (with_factories l m subsidiary).
      apply with_factories_self; [reflexivity|]. apply (Hsubs _ Hsin').
    - change (subsidiary_factories subsidiary') with facs. unfold facs.
      rewrite length_app. cbn. lia. }
  assert (without_factory_group (factory_id f) parent' = parent) as ->.
  { unfold without_factory_group. cbn zeta.
    rewrite decide_True.
    2: { apply Exists_exists. exists subsidiary'. split.
         - change (group_subsidiaries parent') with subs.
           eapply elem_of_inserted. exact Hsub.
         - apply Exists_exists. exists f. split; [|reflexivity].
           change (subsidiary_factories subsidiary') with facs.
           apply elem_of_app. right. left. }
    assert (without_factory (factory_id f) <$> group_subsidiaries parent' =
            group_subsidiaries parent) as ->.
    { change (group_subsidiaries parent') with subs. unfold subs.
      rewrite list_fmap_insert, Hback.
      assert (without_factory (factory_id f) <$> group_subsidiaries parent =
              group_subsidiaries parent) as ->.
      { rewrite <- (list_fmap_id (group_subsidiaries parent)) at 2.
        apply list_fmap_ext. intros i s Hs. apply without_factory_absent, Hnone.
        apply elem_of_subsidiaries. exists parent. split; [exact Hpin|].
        eapply list_elem_of_lookup_2; exact Hs. }
      now apply list_insert_id. }
    change (with_subsidiaries ?l ?m parent') with (with_subsidiaries l m parent).
    apply with_subsidiaries_self; [reflexivity|]. apply (Hgroups _ Hpin). }
  now apply list_insert_id.
Qed.

Lemma addFactory_deleteFactory_witness :
  _parentGroups (deleteFactory (factory_id extra_factory)
                   (addFactory extra_factory sample_store)) =
  _parentGroups sample_store.
Proof.
  apply (addFactory_deleteFactory extra_factory sample_store).
  - intros x Hx. change (factories sample_store) with [origin_factory; placed_factory] in Hx.
    apply elem_of_cons in Hx as [->|Hx]; [discriminate|].
    apply list_elem_of_singleton in Hx as ->. discriminate.
  - intros g Hg. change (_parentGroups sample_store) with [sample_group] in Hg.
    apply list_elem_of_singleton in Hg as ->. reflexivity.
  - intros s Hs. change (subsidiaries sample_store) with [sample_subsidiary] in Hs.
    apply list_elem_of_singleton in Hs as ->. reflexivity.
Defined.

(* ===================================================================== *)
(** ** Edits in place: hubs, subsidiary details, factory details *)
(* ===================================================================== *)

(** The first match in the flattened hierarchy is the first match of the
    first group that has one. *)
Lemma find_flat_map {A B} (P : B → Prop) `{∀ x, Decision (P x)}
    (f : A → list B) (l : list A) :
  find P (flat_map f l) =
  match list_find (λ a, Exists P (f a)) l with
  | Some (_, a) => find P (f a)
  | None => None
  end.
Proof.
  unfold find. induction l as [|a l IH]; [reflexivity|].
  cbn [flat_map list_find]. destruct (decide (Exists P (f a))) as [Hex|Hno].
  - destruct (list_find P (f a)) as [[j x]|] eqn:Hfind.
    + now rewrite (list_find_app_l _ _ _ _ _ Hfind).
    + exfalso. apply list_find_None in Hfind. apply Exists_exists in Hex as (x & Hx & HP).
      rewrite Forall_forall in Hfind. exact (Hfind x Hx HP).
  - assert (list_find P (f a) = None) as Hnone.
    { apply list_find_None, Forall_forall. intros x Hx HP. apply Hno, Exists_exists. eauto. }
    rewrite (list_find_app_r _ _ _ Hnone).
    destruct (list_find (λ a0, Exists P (f a0)) l) as [[i a']|];
      cbn in *; destruct (list_find P (flat_map f l)) as [[k y]|]; cbn in *;
      try congruence; destruct (list_find P (f a')) as [[k' y']|]; cbn in *; congruence.
Qed.

Lemma getHubStatus_eq (subsidiaryId : string) (st : Store) :
  getHubStatus subsidiaryId st =
  match list_find (λ group,
          Exists (λ sub, subsidiary_id sub = subsidiaryId) (group_subsidiaries group))
        (_parentGroups st) with
  | Some (_, parent) =>
      match list_find (λ sub, subsidiary_id sub = subsidiaryId)
                      (group_subsidiaries parent) with
      | Some (_, subsidiary) => subsidiary_hubs subsidiary
      | None => []
      end
  | None => []
  end.
Proof.
  unfold getHubStatus, subsidiaries. cbn zeta. rewrite find_flat_map.
  destruct (list_find _ (_parentGroups st)) as [[parentIndex parent]|]; [|reflexivity].
  unfold find. now destruct (list_find _ (group_subsidiaries parent)) as [[i s]|].
Qed.

(** X16.  Reading the hubs back after [updateHubStatus]: the hub list of
    the subsidiary is the one before, with the first hub of the given code
    overwritten by the fields the update gives; without such a hub, or such
    a subsidiary, it is the list before. *)
Theorem getHubStatus_after_update (subsidiaryId hubCode : string) (updates : HubUpdates)
    (st : Store) :
  getHubStatus subsidiaryId (updateHubStatus subsidiaryId hubCode updates st) =
  match list_find (λ hub, hub_code hub = hubCode) (getHubStatus subsidiaryId st) with
  | Some (hubIndex, hub) =>
      <[hubIndex := {| hub_code := default (hub_code hub) (upd_hub_code updates);
                       hub_status := default (hub_status hub) (upd_hub_status updates) |}]>
        (getHubStatus subsidiaryId st)
  | None => getHubStatus subsidiaryId st
  end.
Proof.
  rewrite (getHubStatus_eq subsidiaryId st). unfold updateHubStatus. cbn zeta.
  destruct (list_find _ (_parentGroups st)) as [[parentIndex parent]|] eqn:Hparent.
  2: { rewrite getHubStatus_eq, Hparent. reflexivity. }
  destruct (list_find _ (group_subsidiaries parent)) as [[subIndex subsidiary]|] eqn:Hsub.
  2: { rewrite getHubStatus_eq, Hparent, Hsub. reflexivity. }
  destruct (list_find _ (subsidiary_hubs subsidiary)) as [[hubIndex hub]|] eqn:Hhub.
  2: { rewrite getHubStatus_eq, Hparent, Hsub. reflexivity. }
  rewrite getHubStatus_eq. cbn [_parentGroups set_parentGroups].
  pose proof Hsub as (_ & Hid & _)%list_find_Some.
  erewrite list_find_replaced; [|exact Hparent|].
  - cbn [group_subsidiaries with_subsidiaries].
    erewrite list_find_replaced; [|exact Hsub|exact Hid]. reflexivity.
  - cbn [group_subsidiaries with_subsidiaries]. apply Exists_exists.
    eexists. split; [eapply elem_of_inserted, list_find_lookup; exact Hsub|exact Hid].
Qed.

Lemma updateFactoryDetails_logs (factoryId : string) (updates : FactoryUpdates)
    (st : Store) :
  _activityLogs (updateFactoryDetails factoryId updates st) =
  if bool_decide (is_Some (upd_description updates)) ||
     truthy_str (upd_locationLabel updates)
  then applyLogDetails factoryId updates <$> _activityLogs st
  else _activityLogs st.
Proof.
  unfold updateFactoryDetails. cbn zeta.
  destruct (bool_decide (Exists _ (_parentGroups st)));
    destruct (bool_decide (is_Some (upd_description updates)) ||
              truthy_str (upd_locationLabel updates)); reflexivity.
Qed.

(** X17.  [updateFactoryDescription] gives the description to every log
    entry of the factory id and touches no other entry and no other field,
    whether or not a factory with that id exists in the hierarchy. *)
Theorem updateFactoryDescription_logs (factoryId description : string) (st : Store) :
  _activityLogs (updateFactoryDescription factoryId description st) =
  (λ log,
     if decide (log_factoryId log = factoryId) then
       {| log_factoryId := log_factoryId log;
          log_subsidiaryId := log_subsidiaryId log;
          log_timestamp := log_timestamp log;
          log_description := description;
          log_location := log_location log |}
     else log) <$> _activityLogs st.
Proof.
  unfold updateFactoryDescription. rewrite updateFactoryDetails_logs.
  cbn [upd_description upd_locationLabel].
  rewrite bool_decide_eq_true_2 by eauto. cbn [orb].
  apply list_fmap_ext. intros i log _. unfold applyLogDetails.
  cbn [upd_description upd_locationLabel nullish default].
  destruct (decide (log_factoryId log = factoryId)) as [Hid|Hid].
  - rewrite bool_decide_eq_false_2 by tauto.
    rewrite (bool_decide_eq_true_2 (log_location log = log_location log)) by reflexivity.
    rewrite andb_true_r. case_bool_decide as Hsame; [|reflexivity].
    destruct log. cbn in *. now subst.
  - now rewrite bool_decide_eq_true_2.
Qed.

(** The metrics of a list of factories depend on nothing but the asset,
    incident and sync figures. *)
Lemma computeMetricsFromFactories_figures (l l' : list FactoryLocation) :
  Forall2 (λ x y, factory_assets x = factory_assets y ∧
                  factory_incidents x = factory_incidents y ∧
                  factory_syncStability x = factory_syncStability y) l l' →
  computeMetricsFromFactories l = computeMetricsFromFactories l'.
Proof.
  intros Hsame. unfold computeMetricsFromFactories.
  assert (∀ (h : FactoryLocation → number) (acc : number),
            (∀ x y, factory_assets x = factory_assets y →
                    factory_incidents x = factory_incidents y →
                    factory_syncStability x = factory_syncStability y → h x = h y) →
            foldl (λ sum x, num_add sum (h x)) acc l =
            foldl (λ sum x, num_add sum (h x)) acc l') as Hfold.
  { intros h acc Hh. revert acc.
    induction Hsame as [|x y l l' (H1 & H2 & H3) _ IH]; intros acc; [reflexivity|].
    cbn [foldl]. rewrite (Hh x y H1 H2 H3). apply IH. }
  rewrite !(Hfold (λ factory, toNumber (factory_assets factory)))
    by (intros x y -> _ _; reflexivity).
  rewrite !(Hfold (λ factory, factory_incidents factory))
    by (intros x y _ -> _; reflexivity).
  rewrite !(Hfold (λ factory, num_or (factory_assets factory) (num_of_Z 1)))
    by (intros x y -> _ _; reflexivity).
  rewrite !(Hfold (λ factory, num_mul (factory_syncStability factory)
                                (num_or (factory_assets factory) (num_of_Z 1))))
    by (intros x y -> _ ->; reflexivity).
  reflexivity.
Qed.

(** The metrics of a list of subsidiaries depend on nothing but their
    stored metrics. *)
Lemma computeMetricsFromSubsidiaries_figures (l l' : list SubsidiaryCompany) :
  Forall2 (λ x y, subsidiary_metrics x = subsidiary_metrics y) l l' →
  computeMetricsFromSubsidiaries l = computeMetricsFromSubsidiaries l'.
Proof.
  intros Hsame. unfold computeMetricsFromSubsidiaries.
  assert (∀ (h : SubsidiaryCompany → number) (acc : number),
            (∀ x y, subsidiary_metrics x = subsidiary_metrics y → h x = h y) →
            foldl (λ sum x, num_add sum (h x)) acc l =
            foldl (λ sum x, num_add sum (h x)) acc l') as Hfold.
  { intros h acc Hh. revert acc.
    induction Hsame as [|x y l l' H1 _ IH]; intros acc; [reflexivity|].
    cbn [foldl]. rewrite (Hh x y H1). apply IH. }
  rewrite !(Hfold (λ sub, assetCount (subsidiary_metrics sub)))
    by (intros x y ->; reflexivity).
  rewrite !(Hfold (λ sub, incidentCount (subsidiary_metrics sub)))
    by (intros x y ->; reflexivity).
  rewrite !(Hfold (λ sub, num_or (Some (assetCount (subsidiary_metrics sub)))
                            (num_of_Z 1)))
    by (intros x y ->; reflexivity).
  rewrite !(Hfold (λ sub, num_mul (syncStability (subsidiary_metrics sub))
                            (num_or (Some (assetCount (subsidiary_metrics sub)))
                               (num_of_Z 1))))
    by (intros x y ->; reflexivity).
  reflexivity.
Qed.

Lemma edit_step_refl (g : ParentGroup) : edit_step g g.
Proof.
  split; [now left|]. apply Forall_Forall2_diag, Forall_forall. reflexivity.
Qed.

Lemma edit_steps_keep (st st' : Store) :
  (∀ g, g ∈ _parentGroups st → group_consistent g) →
  Forall2 edit_step (_parentGroups st) (_parentGroups st') →
  metrics_kept st st'.
Proof.
  intros Hcons Hsteps. unfold metrics_kept, subsidiaries.
  induction Hsteps as [|g g' groups groups' [Hg Hsubs] _ IH].
  - split; reflexivity.
  - destruct IH as [IH1 IH2]; [intros x Hx; apply Hcons; now right|].
    split.
    + rewrite !fmap_cons, IH1. f_equal. destruct Hg as [->|Hg]; [reflexivity|].
      rewrite Hg, (Hcons g) by now left.
      apply computeMetricsFromSubsidiaries_figures.
      apply Forall2_flip. eapply Forall2_impl; [exact Hsubs|]. cbn. congruence.
    + cbn [flat_map]. rewrite !fmap_app, IH2. f_equal.
      clear -Hsubs. induction Hsubs as [|s s' l l' Hs _ IH]; [reflexivity|].
      now rewrite !fmap_cons, Hs, IH.
Qed.

Lemma Forall2_fmap_self {A} (R : A → A → Prop) (h : A → A) (l : list A) :
  (∀ x, x ∈ l → R x (h x)) → Forall2 R l (h <$> l).
Proof.
  intros Hall. apply Forall2_fmap_r, Forall_Forall2_diag, Forall_forall. exact Hall.
Qed.

Lemma Forall2_insert_self {A} (R : A → A → Prop) (l : list A) (i : nat) (x y : A) :
  (∀ z, R z z) → l !! i = Some x → R x y → Forall2 R l (<[i := y]> l).
Proof.
  intros Hrefl Hi Hxy. rewrite <- (list_insert_id l i x Hi) at 1.
  apply Forall2_insert; [|exact Hxy].
  apply Forall_Forall2_diag, Forall_forall. auto.
Qed.

(** X18.  On a store whose stored metrics are those recomputed from the
    children, the three edits in place ([updateSubsidiaryDetails],
    [updateFactoryDetails], [updateHubStatus]) leave the stored metrics of
    every group and every subsidiary as they were: names, places,
    descriptions, coordinates, statuses and hubs do not enter the metrics. *)
Theorem edits_keep_metrics (st : Store) :
  consistent st →
  (∀ subsidiaryId updates,
     metrics_kept st (updateSubsidiaryDetails subsidiaryId updates st)) ∧
  (∀ factoryId updates, metrics_kept st (updateFactoryDetails factoryId updates st)) ∧
  (∀ subsidiaryId hubCode updates,
     metrics_kept st (updateHubStatus subsidiaryId hubCode updates st)).
Proof.
  intros [Hgroups Hsubs]. split; [|split].
  - intros subsidiaryId updates. apply edit_steps_keep; [exact Hgroups|].
    unfold updateSubsidiaryDetails. cbn zeta.
    destruct (bool_decide (Exists _ (_parentGroups st)));
      [|apply Forall_Forall2_diag, Forall_forall; intros; apply edit_step_refl].
    cbn [_parentGroups set_parentGroups]. apply Forall2_fmap_self. intros g _.
    destruct (bool_decide (Exists _ (group_subsidiaries g))); cbn [negb];
      [|apply edit_step_refl].
    split; [now right|]. cbn [group_subsidiaries with_subsidiaries].
    apply Forall2_fmap_self. intros s _. unfold applySubsidiaryDetails.
    case_bool_decide; reflexivity.
  - intros factoryId updates. apply edit_steps_keep; [exact Hgroups|].
    assert (_parentGroups (updateFactoryDetails factoryId updates st) =
            _parentGroups
              (if bool_decide (Exists (λ group,
                    Exists (λ sub, Exists (λ factory, factory_id factory = factoryId)
                                     (subsidiary_factories sub))
                           (group_subsidiaries group)) (_parentGroups st))
               then set_parentGroups
                      ((λ group,
                          if negb (bool_decide
                                     (Exists (λ sub,
                                        Exists (λ factory, factory_id factory = factoryId)
                                          (subsidiary_factories sub))
                                        (group_subsidiaries group)))
                          then group
                          else with_subsidiaries
                                 (applyFactoryDetails factoryId updates <$>
                                    group_subsidiaries group)
                                 (computeMetricsFromSubsidiaries
                                    (applyFactoryDetails factoryId updates <$>
                                       group_subsidiaries group)) group)
                       <$> _parentGroups st) st
               else st)) as ->.
    { unfold updateFactoryDetails. cbn zeta.
      destruct (bool_decide (is_Some (upd_description updates)) ||
                truthy_str (upd_locationLabel updates)); reflexivity. }
    destruct (bool_decide (Exists _ (_parentGroups st)));
      [|apply Forall_Forall2_diag, Forall_forall; intros; apply edit_step_refl].
    cbn [_parentGroups set_parentGroups]. apply Forall2_fmap_self. intros g Hg.
    destruct (bool_decide (Exists _ (group_subsidiaries g))); cbn [negb];
      [|apply edit_step_refl].
    split; [now right|]. cbn [group_subsidiaries with_subsidiaries].
    apply Forall2_fmap_self. intros s Hs. unfold applyFactoryDetails.
    destruct (list_find _ (subsidiary_factories s)) as [[i x]|] eqn:Hfind; [|reflexivity].
    cbn [subsidiary_metrics with_factories].
    rewrite (Hsubs s) by (apply elem_of_subsidiaries; eauto).
    apply computeMetricsFromFactories_figures.
    apply Forall2_flip, (Forall2_insert_self _ _ _ x).
    + intros z. cbn. tauto.
    + eapply list_find_lookup. exact Hfind.
    + cbn. tauto.
  - intros subsidiaryId hubCode updates. apply edit_steps_keep; [exact Hgroups|].
    unfold updateHubStatus.
    destruct (list_find _ (_parentGroups st)) as [[parentIndex parent]|] eqn:Hparent;
      [|apply Forall_Forall2_diag, Forall_forall; intros; apply edit_step_refl].
    destruct (list_find _ (group_subsidiaries parent)) as [[subIndex sub]|] eqn:Hsub;
      [|apply Forall_Forall2_diag, Forall_forall; intros; apply edit_step_refl].
    destruct (list_find _ (subsidiary_hubs sub)) as [[hubIndex hub]|] eqn:Hhub;
      [|apply Forall_Forall2_diag, Forall_forall; intros; apply edit_step_refl].
    cbn zeta. cbn [_parentGroups set_parentGroups].
    apply (Forall2_insert_self _ _ _ parent); [apply edit_step_refl| |].
    + eapply list_find_lookup. exact Hparent.
    + split; [now right|]. cbn [group_subsidiaries with_subsidiaries].
      apply (Forall2_insert_self _ _ _ sub); [reflexivity| |reflexivity].
      eapply list_find_lookup. exact Hsub.
Qed.

Lemma edits_keep_metrics_witness :
  metrics_kept sample_store (updateHubStatus "s1" "H1" hub_offline sample_store).
Proof.
  refine (proj2 (proj2 (edits_keep_metrics sample_store _)) "s1" "H1" hub_offline).
  split.
  - intros g Hg. change (_parentGroups sample_store) with [sample_group] in Hg.
    apply list_elem_of_singleton in Hg as ->. reflexivity.
  - intros s Hs. change (subsidiaries sample_store) with [sample_subsidiary] in Hs.
    apply list_elem_of_singleton in Hs as ->. reflexivity.
Defined.

Lemma applySubsidiaryDetails_id (subsidiaryId : string) (updates : SubsidiaryUpdates)
    (s : SubsidiaryCompany) :
  subsidiary_id (applySubsidiaryDetails subsidiaryId updates s) = subsidiary_id s.
Proof. unfold applySubsidiaryDetails. case_bool_decide; reflexivity. Qed.

Lemma updateSubsidiaryDetails_subsidiaries (subsidiaryId : string)
    (updates : SubsidiaryUpdates) (st : Store) :
  subsidiaries (updateSubsidiaryDetails subsidiaryId updates st) =
  applySubsidiaryDetails subsidiaryId updates <$> subsidiaries st.
Proof.
  assert (∀ l : list SubsidiaryCompany,
            ¬ Exists (λ sub, subsidiary_id sub = subsidiaryId) l →
            applySubsidiaryDetails subsidiaryId updates <$> l = l) as Hsame.
  { intros l Hno. rewrite <- (list_fmap_id l) at 2. apply list_fmap_ext.
    intros i s Hs. unfold applySubsidiaryDetails.
    rewrite bool_decide_eq_true_2; [reflexivity|].
    intros Hid. apply Hno, Exists_exists. exists s. split; [|exact Hid].
    eapply list_elem_of_lookup_2; exact Hs. }
  unfold updateSubsidiaryDetails, subsidiaries. cbn zeta.
  case_bool_decide as Hany.
  - cbn [_parentGroups set_parentGroups]. rewrite fmap_flat_map, flat_map_fmap.
    apply flat_map_ext'. intros g. case_bool_decide as Hg; cbn [negb]; [reflexivity|].
    symmetry. now apply Hsame.
  - symmetry. apply Hsame.
    intros (s & (g & Hg & Hs)%elem_of_flat_map & Hid)%Exists_exists.
    apply Hany, Exists_exists. exists g. split; [exact Hg|].
    apply Exists_exists. eauto.
Qed.

Lemma find_fmap_stable {A} (P : A → Prop) `{∀ x, Decision (P x)} (h : A → A)
    (l : list A) :
  (∀ x, P (h x) ↔ P x) → find P (h <$> l) = h <$> find P l.
Proof.
  intros Hstable. unfold find. rewrite list_find_fmap.
  rewrite (list_find_ext (P ∘ h) P) by exact Hstable.
  now destruct (list_find P l) as [[i x]|].
Qed.

(** X19.  Reading a subsidiary back after [updateSubsidiaryDetails]: the
    first subsidiary with the edited id has the name, location, description
    and status the update gives (a field the update leaves out keeps its
    value; an empty text is a value and overwrites) and its hubs, factories,
    metrics and logo as before; a subsidiary read by another id is as
    before. *)
Theorem getSubsidiaryData_after_details (subsidiaryId lookupId : string)
    (updates : SubsidiaryUpdates) (st : Store) :
  getSubsidiaryData lookupId (updateSubsidiaryDetails subsidiaryId updates st) =
  (λ s,
     if decide (lookupId = subsidiaryId) then
       {| subsidiary_id := subsidiary_id s;
          subsidiary_parentGroupId := subsidiary_parentGroupId s;
          subsidiary_name := default (subsidiary_name s) (upd_sub_name updates);
          subsidiary_location :=
            match upd_sub_location updates with
            | Some location => Some location
            | None => subsidiary_location s
            end;
          subsidiary_description :=
            match upd_sub_description updates with
            | Some description => Some description
            | None => subsidiary_description s
            end;
          subsidiary_status := default (subsidiary_status s) (upd_sub_status updates);
          subsidiary_hubs := subsidiary_hubs s;
          subsidiary_factories := subsidiary_factories s;
          subsidiary_metrics := subsidiary_metrics s;
          subsidiary_logo := subsidiary_logo s |}
     else s) <$> getSubsidiaryData lookupId st.
Proof.
  unfold getSubsidiaryData. rewrite updateSubsidiaryDetails_subsidiaries.
  rewrite find_fmap_stable by (intros x; now rewrite applySubsidiaryDetails_id).
  destruct (find _ (subsidiaries st)) as [s|] eqn:Hfind; [|reflexivity].
  apply find_Some_elem in Hfind as [_ Hid]. cbn in Hid. cbn [fmap option_fmap option_map].
  f_equal. unfold applySubsidiaryDetails, nullish, nullish_opt.
  destruct (decide (lookupId = subsidiaryId)) as [->|Hne].
  - rewrite bool_decide_eq_false_2 by tauto.
    destruct (upd_sub_location updates), (upd_sub_description updates); reflexivity.
  - rewrite bool_decide_eq_true_2 by congruence. reflexivity.
Qed.

(* ===================================================================== *)
(** ** Loading and exporting a snapshot *)
(* ===================================================================== *)

Lemma normalizeSelection_reads (sel : FleetSelection) (st st' : Store) :
  _parentGroups st' = _parentGroups st →
  normalizeSelection sel st' = normalizeSelection sel st.
Proof.
  intros Hg. unfold normalizeSelection, factories, subsidiaries. now rewrite Hg.
Qed.

Lemma applyState_groups (data : WarRoomState) (st0 : Store) :
  _parentGroups (applyState data st0) = state_parentGroups data.
Proof. unfold applyState. cbn zeta. repeat case_match; reflexivity. Qed.

(** X20.  After a snapshot is loaded, the network metrics, the throughput
    and the heatmap are never null, whatever the snapshot lacks, so
    [getNetworkMetrics] emits a value; as long as the metrics are null, as
    before the first load, [getNetworkMetrics] fails with its error and
    [updateNetworkMetrics] and [updateNetworkThroughput] do nothing. *)
Theorem network_signals_loaded (data : WarRoomState) (st0 : Store) :
  let st := applyState data st0 in
  (is_Some (_networkMetrics st) ∧ is_Some (_networkThroughput st) ∧
   is_Some (_geopoliticalHeatmap st) ∧ ∃ metrics, getNetworkMetrics st = inr metrics) ∧
  (∀ st updates,
     _networkMetrics st = None →
     getNetworkMetrics st = inl "Network metrics not initialized" ∧
     updateNetworkMetrics updates st = st) ∧
  (∀ st updates, _networkThroughput st = None → updateNetworkThroughput updates st = st).
Proof.
  cbn zeta. split; [|split].
  - assert (is_Some (_networkMetrics (applyState data st0)) ∧
            is_Some (_networkThroughput (applyState data st0)) ∧
            is_Some (_geopoliticalHeatmap (applyState data st0))) as (H1 & H2 & H3).
    { unfold applyState. cbn zeta.
      destruct (state_networkMetrics data), (state_networkThroughput data),
        (state_geopoliticalHeatmap data);
        repeat case_match; cbn; eauto. }
    repeat split; try assumption. unfold getNetworkMetrics.
    destruct H1 as [m ->]. eauto.
  - intros st updates Hnone. unfold getNetworkMetrics, updateNetworkMetrics.
    now rewrite Hnone.
  - intros st updates Hnone. unfold updateNetworkThroughput. now rewrite Hnone.
Qed.

(** X21.  A snapshot loaded into a store without selection leaves no
    selection or one that refers to an existing entity: normalizing it
    gives it back.  With neither a selection nor a legacy company id in the
    snapshot, the first parent group is selected. *)
Theorem applyState_selection (data : WarRoomState) (st0 : Store) :
  _selectedEntity st0 = None →
  let st := applyState data st0 in
  match _selectedEntity st with
  | None => True
  | Some sel => normalizeSelection sel st = Some sel
  end ∧
  (state_selectedEntity data = None →
   state_selectedCompanyId data = None ∨ state_selectedCompanyId data = Some "" →
   ∀ first others,
     state_parentGroups data = first :: others →
     _selectedEntity st = Some (selection_of_parent (group_id first))).
Proof.
  intros Hnone. cbn zeta. split.
  - destruct (_selectedEntity (applyState data st0)) as [sel|] eqn:Hsel; [|exact I].
    rewrite (normalizeSelection_reads sel
               (set_parentGroups (state_parentGroups data) st0))
      by now rewrite applyState_groups.
    revert Hsel. unfold applyState. cbn zeta.
    destruct (state_selectedEntity data) as [selection|].
    + cbn [_selectedEntity set_selectedEntity]. intros Hsel.
      erewrite normalizeSelection_reads in Hsel by reflexivity.
      apply normalizeSelection_again in Hsel.
      erewrite normalizeSelection_reads; [exact Hsel|reflexivity].
    + destruct (if_truthy (state_selectedCompanyId data)) as [companyId|].
      * match goal with
        | |- context [find ?P (subsidiaries ?s)] =>
            destruct (find P (subsidiaries s)) as [legacy|] eqn:Hfind
        end.
        -- cbn [_selectedEntity set_selectedEntity set_mapViewMode].
           intros [= <-]. unfold normalizeSelection. cbn [sel_level sel_id].
           erewrite find_refind; [reflexivity|exact Hfind|reflexivity|].
           intros y. cbn. pose proof (find_Some_elem _ _ _ Hfind) as [_ Hid].
           cbn in Hid. congruence.
        -- cbn [_selectedEntity]. congruence.
      * destruct (state_parentGroups data) as [|first others] eqn:Hgroups.
        -- cbn [_selectedEntity]. congruence.
        -- cbn [_selectedEntity set_selectedEntity]. intros [= <-].
           unfold normalizeSelection. cbn [sel_level sel_id _parentGroups set_parentGroups].
           unfold find. cbn [list_find]. rewrite decide_True by reflexivity. reflexivity.
  - intros Hsel Hlegacy first others Hgroups. unfold applyState. cbn zeta.
    rewrite Hsel, Hgroups.
    destruct Hlegacy as [-> | ->]; reflexivity.
Qed.

Lemma applyState_selection_witness :
  match _selectedEntity (applyState (snapshot_of [sample_group]) initial_store) with
  | None => True
  | Some sel =>
      normalizeSelection sel (applyState (snapshot_of [sample_group]) initial_store) =
      Some sel
  end ∧
  (state_selectedEntity (snapshot_of [sample_group]) = None →
   state_selectedCompanyId (snapshot_of [sample_group]) = None ∨
   state_selectedCompanyId (snapshot_of [sample_group]) = Some "" →
   ∀ first others,
     state_parentGroups (snapshot_of [sample_group]) = first :: others →
     _selectedEntity (applyState (snapshot_of [sample_group]) initial_store) =
       Some (selection_of_parent (group_id first))).
Proof.
  apply (applyState_selection (snapshot_of [sample_group]) initial_store). reflexivity.
Defined.

(** X22.  Exporting the store and loading the export gives the store back,
    when the three network signals are set and the selection refers to an
    existing entity (normalizing it changes nothing) or, without a
    selection, when there is no parent group to select. *)
Theorem export_then_load (st : Store) :
  is_Some (_networkMetrics st) → is_Some (_networkThroughput st) →
  is_Some (_geopoliticalHeatmap st) →
  match _selectedEntity st with
  | Some sel => normalizeSelection sel st = Some sel
  | None => _parentGroups st = []
  end →
  applyState (getWarRoomState st).2 st = st.
Proof.
  intros [m Hm] [t Ht] [h Hh] Hsel. destruct st as [groups routes logs nm nt gh sats mode
    selected hovered filterId pan lines].
  cbn [_networkMetrics _networkThroughput _geopoliticalHeatmap _selectedEntity
       _parentGroups] in Hm, Ht, Hh, Hsel. subst nm nt gh.
  unfold applyState, getWarRoomState. cbn zeta.
  cbn [snd state_transitRoutes state_activityLogs state_networkMetrics
       state_networkThroughput state_geopoliticalHeatmap state_satelliteStatuses
       state_parentGroups state_mapViewMode state_selectedEntity
       state_selectedCompanyId nullish_opt from_option
       _parentGroups _transitRoutes _activityLogs _networkMetrics _networkThroughput
       _geopoliticalHeatmap _satelliteStatuses _mapViewMode _selectedEntity
       _hoveredEntity _factoryFilterSubsidiaryId _panToEntity console].
  destruct selected as [sel|].
  - unfold id. rewrite Hsel. reflexivity.
  - cbn [if_truthy truthy_str]. subst groups. reflexivity.
Qed.

Lemma export_then_load_witness :
  applyState (getWarRoomState sample_store).2 sample_store = sample_store.
Proof.
  apply (export_then_load sample_store).
  - vm_compute. eauto.
  - vm_compute. eauto.
  - vm_compute. eauto.
  - vm_compute. reflexivity.
Defined.

(* ===================================================================== *)
(** ** Location input: the pattern, and the way through the network *)
(* ===================================================================== *)

Lemma take_drop_while (p : N → bool) (l : text) :
  take_while p l ++ drop_while p l = l.
Proof.
  induction l as [|c l IH]; [reflexivity|]. cbn [take_while drop_while].
  destruct (p c); [|reflexivity]. cbn [app]. now rewrite IH.
Qed.

Lemma take_while_Forall (p : N → bool) (l : text) :
  Forall (λ c, p c = true) (take_while p l).
Proof.
  induction l as [|c l IH]; [constructor|]. cbn [take_while].
  destruct (p c) eqn:Hc; [|constructor]. now constructor.
Qed.

Lemma take_unit_parts (u : N) (s : text) :
  s = (take_unit u s).1 ++ (take_unit u s).2 ∧
  ((take_unit u s).1 = [] ∨ (take_unit u s).1 = [u]).
Proof.
  destruct s as [|c r]; [auto|]. cbn.
  destruct (N.eqb_spec c u) as [->|_]; auto.
Qed.

Lemma match_numeral_sound (s t rest : text) :
  match_numeral s = Some (t, rest) → is_numeral t ∧ s = t ++ rest.
Proof.
  unfold match_numeral.
  destruct (take_unit_parts MINUS s) as [Hs Hsign].
  destruct (take_unit MINUS s) as [sign s1]. cbn [fst snd] in Hs, Hsign.
  destruct (take_while is_digit s1) as [|d int] eqn:Hint; [discriminate|].
  destruct (take_unit_parts POINT (drop_while is_digit s1)) as [Hd Hdot].
  destruct (take_unit POINT (drop_while is_digit s1)) as [dot s3].
  cbn [fst snd] in Hd, Hdot.
  intros [= <- <-]. split.
  - exists sign, (d :: int), dot, (take_while is_digit s3).
    split; [reflexivity|]. split; [exact Hsign|]. split; [discriminate|].
    split; [rewrite <- Hint; apply take_while_Forall|].
    split; [exact Hdot|apply take_while_Forall].
  - rewrite Hs. rewrite <- (take_drop_while is_digit s1) at 1. rewrite Hint, Hd.
    rewrite <- (take_drop_while is_digit s3) at 1.
    repeat first [rewrite <- app_assoc | progress cbn [app]]. reflexivity.
Qed.

Lemma match_coordinates_sound (t lat lng : text) :
  match_coordinates t = Some (lat, lng) → matches_coordinate_pattern t lat lng.
Proof.
  unfold match_coordinates.
  destruct (match_numeral t) as [[group1 rest1]|] eqn:H1; [|discriminate].
  destruct (drop_while is_space rest1) as [|c rest2] eqn:Hrest1; [discriminate|].
  destruct (N.eqb_spec c COMMA) as [->|Hc]; [|discriminate].
  destruct (match_numeral (drop_while is_space rest2)) as [[group2 rest3]|] eqn:H2;
    [|discriminate].
  destruct rest3; [|discriminate]. intros [= <- <-].
  apply match_numeral_sound in H1 as [Hlat Htext].
  apply match_numeral_sound in H2 as [Hlng Hrest2]. rewrite app_nil_r in Hrest2.
  exists (take_while is_space rest1), (take_while is_space rest2).
  split; [|auto using take_while_Forall].
  rewrite Htext. f_equal. rewrite <- (take_drop_while is_space rest1) at 1.
  rewrite Hrest1. f_equal. cbn [app]. f_equal.
  rewrite <- (take_drop_while is_space rest2) at 1. now rewrite Hrest2.
Qed.

Lemma split_head (sep : N) (s : text) :
  ∃ before rest, split sep s = before :: rest ∧ (sep ∉ before) ∧
                 (s = before ∨ ∃ after, s = before ++ sep :: after).
Proof.
  induction s as [|c s (before & rest & Hsplit & Hnot & Hs)].
  - exists [], []. split; [reflexivity|]. split; [apply not_elem_of_nil|now left].
  - cbn [split]. destruct (N.eqb_spec c sep) as [Hc|Hc].
    + subst c. exists [], (split sep s). split; [reflexivity|].
      split; [apply not_elem_of_nil|]. right. exists s. reflexivity.
    + rewrite Hsplit. exists (c :: before), rest. split; [reflexivity|].
      split; [intros [H|H]%elem_of_cons; congruence|].
      destruct Hs as [->|[after ->]]; [now left|]. right. exists after. reflexivity.
Qed.

Lemma first_part (trimmed : text) :
  COMMA ∈ trimmed →
  ∃ before after,
    trimmed = before ++ COMMA :: after ∧ (COMMA ∉ before) ∧
    default [] (head (split COMMA trimmed)) = before.
Proof.
  intros Hin. destruct (split_head COMMA trimmed) as (before & rest & Hsplit & Hnot & Hs).
  destruct Hs as [->|[after Hs]]; [contradiction|].
  exists before, after. rewrite Hsplit. auto.
Qed.

(** The text before the first comma is determined. *)
Lemma first_comma_unique (before before' after after' : text) :
  before ++ COMMA :: after = before' ++ COMMA :: after' →
  COMMA ∉ before → COMMA ∉ before' → before = before'.
Proof.
  revert before'. induction before as [|c before IH]; intros [|d before']; cbn.
  - reflexivity.
  - intros [= <- _] _ Hnot. exfalso. apply Hnot. left.
  - intros [= -> _] Hnot _. exfalso. apply Hnot. left.
  - intros [= <- Heq] Hnot Hnot'. f_equal. apply (IH before' Heq).
    + intros H. apply Hnot. now right.
    + intros H. apply Hnot'. now right.
Qed.

Lemma fetchGeocodingResult_outcome_Some (response : FetchOutcome) (coords : Coordinates) :
  fetchGeocodingResult_outcome response = Some (Some coords) ↔
  ∃ status first others,
    response = FetchResponse true status (Some (Some (first :: others))) ∧
    coords = {| latitude := geo_latitude first; longitude := geo_longitude first |}.
Proof.
  unfold fetchGeocodingResult_outcome. split.
  - destruct response as [|[] status [[[|first others]|]|]]; try discriminate.
    intros [= <-]. eauto.
  - intros (status & first & others & -> & ->). reflexivity.
Qed.

Section Attempts.
Variable lowerCase : text → text.
Variable network : Request → FetchOutcome.

(** The second attempt never awaits anything after its fetch. *)
Lemma secondAttempt_outcome_settles (context : text) (response : FetchOutcome) :
(∃ coords, secondAttempt_outcome lowerCase context response = Resolved coords) ∨
secondAttempt_outcome lowerCase context response = Rejected NOT_FOUND_ERROR.
Proof.
unfold secondAttempt_outcome.
destruct response as [|[] status [[[|first others]|]|]]; auto.
destruct (List.filter _ _); eauto.
Qed.

Lemma secondAttempt_candidate (context : text) (response : FetchOutcome)
  (coords : Coordinates) :
secondAttempt_outcome lowerCase context response = Resolved coords →
∃ status results candidate,
  response = FetchResponse true status (Some (Some results)) ∧
  candidate ∈ results ∧
  coords = {| latitude := geo_latitude candidate;
              longitude := geo_longitude candidate |}.
Proof.
unfold secondAttempt_outcome.
destruct response as [|[] status [[[|first others]|]|]]; try discriminate.
destruct (List.filter _ _) as [|m matches] eqn:Hfilter; intros [= <-].
- exists status, (first :: others), first. split; [reflexivity|]. split; [left|reflexivity].
- exists status, (first :: others), m. split; [reflexivity|]. split; [|reflexivity].
  assert (In m (List.filter (matches_context lowerCase context) (first :: others))) as Hin
    by (rewrite Hfilter; now left).
  apply filter_In in Hin as [Hin _]. now apply list_elem_of_In.
Qed.

(** How the second attempt runs: without a comma, or with a text before
  the first comma that [encodeURIComponent] refuses, it fails at once;
  otherwise it sends one request and settles on the answer. *)
Lemma secondAttempt_run (trimmed : text) :
let result := run (secondAttempt lowerCase trimmed) network in
(result = (inr NOT_FOUND_ERROR, []) ∧
 (COMMA ∉ trimmed ∨
  ∃ before after, trimmed = before ++ COMMA :: after ∧ (COMMA ∉ before) ∧
                  isWellFormed (trim before) = false)) ∨
(∃ before after,
   trimmed = before ++ COMMA :: after ∧ (COMMA ∉ before) ∧
   isWellFormed (trim before) = true ∧
   result.2 = [GeocodeSearch (trim before)] ∧
   (result.1 = inr NOT_FOUND_ERROR ∨
    ∃ status results candidate,
      network (GeocodeSearch (trim before)) =
        FetchResponse true status (Some (Some results)) ∧
      candidate ∈ results ∧
      result.1 = inl {| latitude := geo_latitude candidate;
                        longitude := geo_longitude candidate |})).
Proof.
cbn zeta. unfold secondAttempt. case_bool_decide as Hcomma; [|left; auto].
destruct (first_part trimmed Hcomma) as (before & after & Htext & Hnot & ->).
cbn zeta. destruct (isWellFormed (trim before)) eqn:Hwell.
- right. exists before, after. split; [exact Htext|]. split; [exact Hnot|].
  split; [exact Hwell|]. cbn [run].
  match goal with
  | |- context [secondAttempt_outcome lowerCase ?c (network ?r)] =>
      destruct (secondAttempt_outcome lowerCase c (network r))
        as [value|message|] eqn:Hsecond;
      [|destruct (secondAttempt_outcome_settles c (network r)) as [[c' Hc]|Hc];
        rewrite Hc in Hsecond
       |destruct (secondAttempt_outcome_settles c (network r)) as [[c' Hc]|Hc];
        rewrite Hc in Hsecond; discriminate]
  end; try discriminate.
  + cbn. split; [reflexivity|]. right.
    apply secondAttempt_candidate in Hsecond
      as (status & results & candidate & Hresponse & Hin & ->). eauto 10.
  + injection Hsecond as <-. cbn. auto.
- left. split; [reflexivity|]. right. eauto 10.
Qed.

End Attempts.

(** X23.  The requests of [parseLocationInput], whatever the network
    answers.  None is sent when the trimmed input has the coordinate
    pattern.  Otherwise one is sent for the trimmed input, unless
    [encodeURIComponent] refuses it, and then at most one more, for the
    trimmed text before the first comma of the input, again unless it is
    refused; so none is sent exactly for the pattern and for a refused
    input without a comma or with a refused first part.  Every text sent is
    one the encoder accepts.  A failure carries the range message or the
    not-found message, never an error of the network or of the encoder. *)
Theorem parseLocationInput_requests (lowerCase : text → text) (input : text)
    (network : Request → FetchOutcome) :
  let trimmed := trim input in
  let result := run (parseLocationInput lowerCase input) network in
  let refused_first_part :=
    ∀ before after, trimmed = before ++ COMMA :: after → COMMA ∉ before →
                    isWellFormed (trim before) = false in
  (result.2 = [] ↔
     (∃ lat lng, matches_coordinate_pattern trimmed lat lng) ∨
     (isWellFormed trimmed = false ∧ refused_first_part)) ∧
  (result.2 = [] ∨ result.2 = [GeocodeSearch trimmed] ∨
   ∃ before after,
     trimmed = before ++ COMMA :: after ∧ (COMMA ∉ before) ∧
     (result.2 = [GeocodeSearch trimmed; GeocodeSearch (trim before)] ∨
      result.2 = [GeocodeSearch (trim before)])) ∧
  (∀ name, GeocodeSearch name ∈ result.2 → isWellFormed name = true) ∧
  (∀ message, result.1 = inr message →
              message = RANGE_ERROR ∨ message = NOT_FOUND_ERROR).
Proof.
  cbn zeta. unfold parseLocationInput. cbn zeta.
  set (trimmed := trim input).
  destruct (match_coordinates trimmed) as [[group1 group2]|] eqn:Hmatch.
  - apply match_coordinates_sound in Hmatch.
    match goal with |- context [if ?b then _ else _] => destruct b end; cbn.
    + split; [split; eauto|]. split; [now left|].
      split; [intros name H; inversion H|discriminate].
    + split; [split; eauto|]. split; [now left|].
      split; [intros name H; inversion H|]. intros message [= <-]. now left.
  - assert (¬ ∃ lat lng, matches_coordinate_pattern trimmed lat lng) as Hnot.
    { intros (lat & lng & Hpattern).
      apply match_coordinates_complete in Hpattern. congruence. }
    pose proof (secondAttempt_run lowerCase network trimmed) as Hsecond.
    cbn zeta in Hsecond.
    destruct (isWellFormed trimmed) eqn:Hwell.
    + cbn [run].
      destruct (fetchGeocodingResult_outcome (network (GeocodeSearch trimmed)))
        as [[result|]|] eqn:Hfirst.
      * cbn. split; [split; [discriminate|intros [H|[H _]]; [tauto|discriminate]]|].
        split; [auto|]. split; [|discriminate].
        intros name [[= ->]|H]%elem_of_cons; [exact Hwell|inversion H].
      * destruct (run (secondAttempt lowerCase trimmed) network) as [outcome sent].
        cbn [fst snd] in *.
        split; [split; [discriminate|intros [H|[H _]]; [tauto|discriminate]]|].
        destruct Hsecond as [[[= -> ->] _]
                            |(before & after & Htext & Hno & Hw & -> & Hout)].
        -- split; [auto|]. split.
           ++ intros name [[= ->]|H]%elem_of_cons; [exact Hwell|inversion H].
           ++ intros message [= <-]. now right.
        -- split; [right; right; eauto 10|]. split.
           ++ intros name [[= ->]|[[= ->]|H]%elem_of_cons]%elem_of_cons;
                [exact Hwell|exact Hw|inversion H].
           ++ intros message ->. destruct Hout as [[= <-]|(? & ? & ? & _ & _ & H)];
                [now right|discriminate].
      * destruct (run (secondAttempt lowerCase trimmed) network) as [outcome sent].
        cbn [fst snd] in *.
        split; [split; [discriminate|intros [H|[H _]]; [tauto|discriminate]]|].
        destruct Hsecond as [[[= -> ->] _]
                            |(before & after & Htext & Hno & Hw & -> & Hout)].
        -- split; [auto|]. split.
           ++ intros name [[= ->]|H]%elem_of_cons; [exact Hwell|inversion H].
           ++ intros message [= <-]. now right.
        -- split; [right; right; eauto 10|]. split.
           ++ intros name [[= ->]|[[= ->]|H]%elem_of_cons]%elem_of_cons;
                [exact Hwell|exact Hw|inversion H].
           ++ intros message ->. destruct Hout as [[= <-]|(? & ? & ? & _ & _ & H)];
                [now right|discriminate].
    + destruct (run (secondAttempt lowerCase trimmed) network) as [outcome sent].
      cbn [fst snd] in *.
      destruct Hsecond as [[[= -> ->] Hwhy]
                          |(before & after & Htext & Hno & Hw & -> & Hout)].
      * split.
        { split; [|reflexivity]. intros _. right. split; [reflexivity|].
          intros before after Htext Hno.
          destruct Hwhy as [Hcomma|(before' & after' & Htext' & Hno' & Hw)].
          - exfalso. apply Hcomma. rewrite Htext. apply elem_of_app. right. left.
          - rewrite Htext in Htext'.
            now rewrite (first_comma_unique _ _ _ _ Htext' Hno Hno'). }
        split; [auto|]. split; [intros name H; inversion H|].
        intros message [= <-]. now right.
      * split.
        { split; [discriminate|]. intros [H|[_ Hrefused]]; [tauto|].
          rewrite (Hrefused before after Htext Hno) in Hw. discriminate. }
        split; [right; right; eauto 10|]. split.
        -- intros name [[= ->]|H]%elem_of_cons; [exact Hw|inversion H].
        -- intros message ->. destruct Hout as [[= <-]|(? & ? & ? & _ & _ & H)];
             [now right|discriminate].
Qed.

(** X24.  What [parseLocationInput] makes of the geocoder's answers, for an
    input that has not the coordinate pattern.  When the trimmed input is
    one [encodeURIComponent] accepts and the first response is successful
    and lists candidates, the result is the first of them and no second
    request is sent.  Whenever the result is a pair of coordinates, it is
    that of a candidate listed in a successful response to one of the
    requests: the function invents no coordinates, and checks no range
    either. *)
Theorem parseLocationInput_geocoded (lowerCase : text → text) (input : text)
    (network : Request → FetchOutcome) :
  let trimmed := trim input in
  let result := run (parseLocationInput lowerCase input) network in
  ¬ (∃ lat lng, matches_coordinate_pattern trimmed lat lng) →
  (∀ status first others,
     isWellFormed trimmed = true →
     network (GeocodeSearch trimmed) =
       FetchResponse true status (Some (Some (first :: others))) →
     result =
       (inl {| latitude := geo_latitude first; longitude := geo_longitude first |},
        [GeocodeSearch trimmed])) ∧
  (∀ coords,
     result.1 = inl coords →
     ∃ request status results candidate,
       request ∈ result.2 ∧
       network request = FetchResponse true status (Some (Some results)) ∧
       candidate ∈ results ∧
       coords = {| latitude := geo_latitude candidate;
                   longitude := geo_longitude candidate |}).
Proof.
  cbn zeta. intros Hnot. unfold parseLocationInput. cbn zeta.
  set (trimmed := trim input) in *.
  destruct (match_coordinates trimmed) as [[group1 group2]|] eqn:Hmatch.
  { exfalso. apply Hnot. apply match_coordinates_sound in Hmatch. eauto. }
  pose proof (secondAttempt_run lowerCase network trimmed) as Hsecond.
  cbn zeta in Hsecond.
  assert (∀ coords,
            (run (secondAttempt lowerCase trimmed) network).1 = inl coords →
            ∃ request status results candidate,
              request ∈ (run (secondAttempt lowerCase trimmed) network).2 ∧
              network request = FetchResponse true status (Some (Some results)) ∧
              candidate ∈ results ∧
              coords = {| latitude := geo_latitude candidate;
                          longitude := geo_longitude candidate |}) as Hfrom.
  { intros coords Hcoords.
    destruct Hsecond as [[Hrun _]|(before & after & _ & _ & _ & Hsent & Hout)].
    - rewrite Hrun in Hcoords. discriminate.
    - rewrite Hsent. destruct Hout as [Hout|(status & results & candidate & Hr & Hin & Hout)];
        rewrite Hout in Hcoords; [discriminate|]. injection Hcoords as <-.
      eexists _, status, results, candidate.
      split; [left|]. split; [exact Hr|]. split; [exact Hin|reflexivity]. }
  split.
  - intros status first others Hwell Hresponse. rewrite Hwell. cbn [run].
    rewrite Hresponse. reflexivity.
  - intros coords. destruct (isWellFormed trimmed); [|apply Hfrom].
    cbn [run].
    destruct (fetchGeocodingResult_outcome (network (GeocodeSearch trimmed)))
      as [[result|]|] eqn:Hfirst.
    + cbn. intros [= <-].
      apply fetchGeocodingResult_outcome_Some in Hfirst
        as (status & first & others & Hresponse & ->).
      exists (GeocodeSearch trimmed), status, (first :: others), first.
      split; [left|]. split; [exact Hresponse|]. split; [left|reflexivity].
    + destruct (run (secondAttempt lowerCase trimmed) network) as [outcome sent].
      cbn [fst snd] in *. intros Hcoords.
      destruct (Hfrom coords Hcoords) as (request & status & results & candidate & Hin & H).
      exists request, status, results, candidate. split; [now right|exact H].
    + destruct (run (secondAttempt lowerCase trimmed) network) as [outcome sent].
      cbn [fst snd] in *. intros Hcoords.
      destruct (Hfrom coords Hcoords) as (request & status & results & candidate & Hin & H).
      exists request, status, results, candidate. split; [now right|exact H].
Qed.

Lemma parseLocationInput_geocoded_witness :
  run (parseLocationInput ascii_lowerCase (ascii_text "Tokyo")) tokyo_network =
  (inl {| latitude := geo_latitude tokyo; longitude := geo_longitude tokyo |},
   [GeocodeSearch (trim (ascii_text "Tokyo"))]).
Proof.
  refine (proj1 (parseLocationInput_geocoded ascii_lowerCase (ascii_text "Tokyo")
                   tokyo_network _) 200 tokyo [] _ _).
  - intros (lat & lng & Hpattern). apply match_coordinates_complete in Hpattern.
    vm_compute in Hpattern. discriminate.
  - reflexivity.
  - reflexivity.
Defined.

(* ===================================================================== *)
(** ** Levels of detail *)
(* ===================================================================== *)

Lemma num_le_trans (x y z : number) : num_le x y → num_le y z → num_le x z.
Proof.
  destruct x, y, z; cbn; try tauto. apply Qcle_trans.
Qed.

Lemma num_lt_or_le (x y : number) : x ≠ NaN → y ≠ NaN → num_lt x y ∨ num_le y x.
Proof.
  destruct x, y; cbn; try tauto. intros _ _.
  destruct (Qclt_le_dec q q0); auto.
Qed.

Lemma Qc_ltb_leb (q t : Qc) : bool_decide (q < t)%Qc = negb (bool_decide (t ≤ q)%Qc).
Proof.
  destruct (Qclt_le_dec q t) as [Hlt|Hle].
  - rewrite bool_decide_eq_true_2 by exact Hlt.
    rewrite bool_decide_eq_false_2; [reflexivity|]. now apply Qclt_not_le.
  - rewrite (bool_decide_eq_true_2 (t ≤ q)%Qc) by exact Hle.
    rewrite bool_decide_eq_false_2; [reflexivity|]. now apply Qcle_not_lt.
Qed.

(** The four comparisons of [getPinLodState], for a zoom factor that is a
    number: below both thresholds, between them, or above both. *)
Lemma lod_cases (z : number) :
  z ≠ NaN →
  let tests (a b c d : bool) :=
    num_ltb z LOD_LOGO_ONLY_THRESHOLD = a ∧ num_geb z LOD_LOGO_ONLY_THRESHOLD = b ∧
    num_ltb z LOD_FULL_DETAIL_THRESHOLD = c ∧ num_geb z LOD_FULL_DETAIL_THRESHOLD = d in
  tests true false true false ∨ tests false true true false ∨
  tests false true false true.
Proof.
  intros Hz. cbn zeta. destruct z as [q| | |]; [|contradiction|cbn; tauto..].
  assert (∃ t1 t2, LOD_LOGO_ONLY_THRESHOLD = Fin t1 ∧ LOD_FULL_DETAIL_THRESHOLD = Fin t2 ∧
                   (t1 ≤ t2)%Qc) as (t1 & t2 & -> & -> & H12).
  { remember LOD_LOGO_ONLY_THRESHOLD as low eqn:Hlow.
    remember LOD_FULL_DETAIL_THRESHOLD as high eqn:Hhigh.
    vm_compute in Hlow, Hhigh. subst low high.
    eexists _, _. split; [reflexivity|]. split; [reflexivity|].
    vm_compute. discriminate. }
  unfold num_geb. cbn [num_ltb num_leb].
  rewrite !Qc_ltb_leb.
  destruct (decide (t2 ≤ q)%Qc) as [H2|H2].
  - rewrite (bool_decide_eq_true_2 _ H2).
    rewrite (bool_decide_eq_true_2 (t1 ≤ q)%Qc) by (eapply Qcle_trans; eassumption).
    cbn. tauto.
  - rewrite (bool_decide_eq_false_2 _ H2).
    destruct (bool_decide (t1 ≤ q)%Qc); cbn; tauto.
Qed.

Lemma lod_rank_eq (z : number) :
  z ≠ NaN →
  lod_rank (lodClass (getPinLodState z false)) =
  if num_geb z LOD_FULL_DETAIL_THRESHOLD then 2%nat
  else if num_geb z LOD_LOGO_ONLY_THRESHOLD then 1%nat else 0%nat.
Proof.
  intros Hz. pose proof (lod_cases z Hz) as Hc. cbn zeta in Hc.
  unfold getPinLodState. cbn [lodClass].
  destruct Hc as [Hc|[Hc|Hc]]; destruct Hc as (H1 & H2 & H3 & H4);
    rewrite ?H1, ?H2, ?H3, ?H4; reflexivity.
Qed.

(** X25.  The level of detail of a marker.  The class is 'lod-high'
    exactly with full detail and 'lod-medium' exactly with the compact logo.
    For a zoom factor that is a number, and for every selected marker,
    exactly one of the three flags is set; for [NaN] and no selection none is
    set, and the class is 'lod-low'.  Without selection the level never
    falls when the zoom factor grows. *)
Theorem getPinLodState_levels (z z' : number) (isSelected : bool) :
  let state := getPinLodState z isSelected in
  let flags := (isLogoOnly state, isCompactLogo state, isFullDetail state) in
  (lodClass state = lod_high ↔ isFullDetail state = true) ∧
  (lodClass state = lod_medium ↔ isCompactLogo state = true) ∧
  (z ≠ NaN ∨ isSelected = true →
     flags = (true, false, false) ∨ flags = (false, true, false) ∨
     flags = (false, false, true)) ∧
  (z = NaN → isSelected = false →
     flags = (false, false, false) ∧ lodClass state = lod_low) ∧
  (num_le z z' →
     (lod_rank (lodClass (getPinLodState z false)) ≤
      lod_rank (lodClass (getPinLodState z' false)))%nat).
Proof.
  cbn zeta.
  assert (num_le z z' →
          (lod_rank (lodClass (getPinLodState z false)) ≤
           lod_rank (lodClass (getPinLodState z' false)))%nat) as Hmono.
  { intros Hle.
    assert (z ≠ NaN ∧ z' ≠ NaN) as [Hz Hz'].
    { destruct z, z'; cbn in Hle; try contradiction; split; discriminate. }
    rewrite (lod_rank_eq z Hz), (lod_rank_eq z' Hz').
    destruct (num_geb z LOD_FULL_DETAIL_THRESHOLD) eqn:Hhigh.
    - assert (num_geb z' LOD_FULL_DETAIL_THRESHOLD = true) as ->; [|lia].
      unfold num_geb in *. apply num_leb_le. apply num_leb_le in Hhigh.
      eapply num_le_trans; eassumption.
    - destruct (num_geb z LOD_LOGO_ONLY_THRESHOLD) eqn:Hmid.
      + assert (num_geb z' LOD_LOGO_ONLY_THRESHOLD = true) as ->.
        { unfold num_geb in *. apply num_leb_le. apply num_leb_le in Hmid.
          eapply num_le_trans; eassumption. }
        destruct (num_geb z' LOD_FULL_DETAIL_THRESHOLD); lia.
      + lia. }
  destruct isSelected.
  { cbn. split; [tauto|]. split; [split; discriminate|]. split; [auto|].
    split; [discriminate|exact Hmono]. }
  unfold getPinLodState. cbn [isLogoOnly isCompactLogo isFullDetail lodClass].
  split; [|split; [|split; [|split; [|exact Hmono]]]].
  - destruct (num_geb z LOD_FULL_DETAIL_THRESHOLD); [tauto|].
    destruct (_ && _); split; discriminate.
  - destruct (num_geb z LOD_FULL_DETAIL_THRESHOLD) eqn:Hhigh.
    + destruct (decide (z = NaN)) as [->|Hz]; [discriminate Hhigh|].
      pose proof (lod_cases z Hz) as Hc. cbn zeta in Hc. rewrite Hhigh in Hc.
      destruct Hc as [Hc|[Hc|Hc]]; destruct Hc as (H1 & H2 & H3 & H4); try congruence.
      rewrite H2, H3. cbn. split; discriminate.
    + destruct (_ && _); split; try discriminate; reflexivity.
  - intros [Hz|H]; [|discriminate].
    pose proof (lod_cases z Hz) as Hc. cbn zeta in Hc.
    destruct Hc as [Hc|[Hc|Hc]]; destruct Hc as (H1 & H2 & H3 & H4);
      rewrite H1, H2, H3, H4; cbn; auto.
  - intros -> _. split; reflexivity.
Qed.

(* ===================================================================== *)
(** ** Doing it twice; what is left alone; what is gone *)
(* ===================================================================== *)

Lemma setMapViewMode_twice (viewMode : MapViewMode) (st : Store) :
  setMapViewMode viewMode (setMapViewMode viewMode st) = setMapViewMode viewMode st.
Proof.
  destruct st as [groups routes logs nm nt gh sats mode selected hovered filterId pan
                  lines].
  destruct selected as [selection|]; [|reflexivity].
  destruct (decide (sel_level selection = viewMode)) as [Hlevel|Hlevel].
  { unfold setMapViewMode. cbn. rewrite !bool_decide_eq_true_2 by exact Hlevel.
    cbn. now rewrite bool_decide_eq_true_2. }
  destruct viewMode.
  - unfold setMapViewMode. cbn. rewrite !bool_decide_eq_false_2 by exact Hlevel.
    destruct (if_truthy _) as [parentId|] eqn:Hp; cbn.
    + reflexivity.
    + rewrite bool_decide_eq_false_2 by exact Hlevel. now rewrite Hp.
  - unfold setMapViewMode. cbn. rewrite !bool_decide_eq_false_2 by exact Hlevel.
    destruct (if_truthy _) as [subsidiaryId|] eqn:Hs; cbn.
    + reflexivity.
    + rewrite !bool_decide_eq_false_2 by exact Hlevel. now rewrite Hs.
  - unfold setMapViewMode. cbn. rewrite !bool_decide_eq_false_2 by exact Hlevel.
    destruct (decide (sel_level selection = Subsidiary)) as [Hsub|Hsub].
    + rewrite !bool_decide_eq_true_2 by exact Hsub. cbn.
      rewrite bool_decide_eq_false_2 by exact Hlevel.
      now rewrite bool_decide_eq_true_2.
    + rewrite !bool_decide_eq_false_2 by exact Hsub.
      destruct (if_truthy (sel_factoryId selection)) as [factoryId|] eqn:Hf; cbn.
      * reflexivity.
      * destruct (getFirstFactoryForSelection _ _) as [fallback|] eqn:Hfirst; cbn.
        -- reflexivity.
        -- rewrite bool_decide_eq_false_2 by exact Hlevel.
           rewrite bool_decide_eq_false_2 by exact Hsub. rewrite Hf.
           unfold getFirstFactoryForSelection, subsidiaries in *. cbn in *.
           now rewrite Hfirst.
Qed.

Lemma selectEntity_twice (selection : option FleetSelection) (st : Store) :
  selectEntity selection (selectEntity selection st) = selectEntity selection st.
Proof.
  destruct selection as [sel|]; [|reflexivity].
  destruct (bool_decide (sel_level sel = Subsidiary) &&
            negb (bool_decide (_mapViewMode st = Subsidiary))) eqn:Hguard.
  { unfold selectEntity. now rewrite !Hguard. }
  assert (∀ st', _parentGroups st' = _parentGroups st →
                 normalizeSelection sel st' = normalizeSelection sel st) as Hreads.
  { intros st'. apply normalizeSelection_reads. }
  destruct (normalizeSelection sel st) as [n|] eqn:Hn.
  - pose proof (normalizeSelection_level _ _ _ Hn) as Hlevel.
    destruct (bool_decide (sel_level n = Factory) &&
              bool_decide (_mapViewMode st = Subsidiary)) eqn:Hstay.
    + assert (selectEntity (Some sel) st = set_selectedEntity (Some n) st) as ->.
      { unfold selectEntity. rewrite Hguard. cbn zeta. rewrite Hn.
        cbn [_mapViewMode set_selectedEntity]. now rewrite Hstay. }
      unfold selectEntity. cbn [_mapViewMode set_selectedEntity]. rewrite Hguard.
      cbn zeta. rewrite Hreads by (now destruct st).
      cbn [_mapViewMode set_selectedEntity]. rewrite Hstay. cbn [negb].
      now destruct st.
    + assert (selectEntity (Some sel) st
              = set_mapViewMode (sel_level n) (set_selectedEntity (Some n) st)) as ->.
      { unfold selectEntity. rewrite Hguard. cbn zeta. rewrite Hn.
        cbn [_mapViewMode set_selectedEntity]. now rewrite Hstay. }
      unfold selectEntity. cbn [_mapViewMode set_selectedEntity set_mapViewMode].
      assert (bool_decide (sel_level sel = Subsidiary) &&
              negb (bool_decide (sel_level n = Subsidiary)) = false) as ->.
      { rewrite Hlevel. now destruct (bool_decide (sel_level sel = Subsidiary)). }
      cbn zeta. rewrite Hreads by (now destruct st).
      cbn [_mapViewMode set_selectedEntity set_mapViewMode].
      destruct (bool_decide (sel_level n = Factory) &&
                bool_decide (sel_level n = Subsidiary)) eqn:Hb.
      * apply andb_true_iff in Hb as [Hf Hs].
        apply bool_decide_eq_true in Hf, Hs. congruence.
      * cbn [negb]. now destruct st.
  - assert (selectEntity (Some sel) st = set_selectedEntity None st) as ->.
    { unfold selectEntity. rewrite Hguard. cbn zeta. now rewrite Hn. }
    unfold selectEntity. cbn [_mapViewMode set_selectedEntity]. rewrite Hguard.
    cbn zeta. rewrite Hreads by (now destruct st). now destruct st.
Qed.

(** X27.  Asking for the same view mode twice, or selecting the same
    entity twice, leaves the store as the first call left it; and after
    [setMapViewMode] the selection is the one before or one at the
    level of the new view mode. *)
Theorem view_and_selection_twice (viewMode : MapViewMode)
    (selection : option FleetSelection) (st : Store) :
  setMapViewMode viewMode (setMapViewMode viewMode st) = setMapViewMode viewMode st ∧
  selectEntity selection (selectEntity selection st) = selectEntity selection st ∧
  (_selectedEntity (setMapViewMode viewMode st) = _selectedEntity st ∨
   sel_level <$> _selectedEntity (setMapViewMode viewMode st) = Some viewMode).
Proof.
  split; [apply setMapViewMode_twice|]. split; [apply selectEntity_twice|].
  unfold setMapViewMode. cbn zeta.
  cbn [_selectedEntity set_factoryFilterSubsidiaryId set_mapViewMode].
  destruct (_selectedEntity st) as [sel|] eqn:Hsel; [|now left].
  repeat case_match; cbn; rewrite ?Hsel; tauto.
Qed.

Lemma hierarchy_only_refl (st : Store) : hierarchy_only st st.
Proof. unfold hierarchy_only. repeat split; reflexivity. Qed.

Lemma hierarchy_only_groups (groups : list ParentGroup) (st0 st : Store) :
  hierarchy_only st0 st → hierarchy_only st0 (set_parentGroups groups st).
Proof. unfold hierarchy_only. destruct st. cbn. tauto. Qed.

Lemma hierarchy_only_warn (line : string) (st0 st : Store) :
  hierarchy_only st0 st → hierarchy_only st0 (console_warn line st).
Proof.
  unfold hierarchy_only. destruct st. cbn. intros H. repeat split; try tauto.
  apply prefix_app_r. tauto.
Qed.

Create HintDb frame.
#[local] Hint Resolve hierarchy_only_refl hierarchy_only_groups hierarchy_only_warn : frame.

(** X29.  Adding or replacing a subsidiary or a factory, updating a hub
    and updating the details of a subsidiary change the hierarchy and
    nothing else in the store: routes, logs, network figures, view mode,
    selection, hover, factory filter and pan request stay as they are (the
    selection is not normalized again), and the console only gets
    warnings appended; the last two operations write no warning. *)
Theorem hierarchy_writes_frame (st : Store) (subsidiary : SubsidiaryCompany)
    (factory : FactoryLocation) (subsidiaryId hubCode : string)
    (hubUpdates : HubUpdates) (details : SubsidiaryUpdates) :
  hierarchy_only st (addSubsidiary subsidiary st) ∧
  hierarchy_only st (updateSubsidiary subsidiary st) ∧
  hierarchy_only st (addFactory factory st) ∧
  hierarchy_only st (updateFactory factory st) ∧
  hierarchy_only st (updateHubStatus subsidiaryId hubCode hubUpdates st) ∧
  hierarchy_only st (updateSubsidiaryDetails subsidiaryId details st) ∧
  console (updateHubStatus subsidiaryId hubCode hubUpdates st) = console st ∧
  console (updateSubsidiaryDetails subsidiaryId details st) = console st.
Proof.
  split_and!.
  - unfold addSubsidiary. rewrite (addSubsidiary_fuel_eq 0). cbn [default from_option id].
    unfold write_subsidiaries. repeat case_match; unfold id; auto with frame.
  - unfold updateSubsidiary. rewrite (updateSubsidiary_fuel_eq 0). cbn [default from_option id].
    unfold write_subsidiaries. repeat case_match; unfold id; auto with frame.
  - unfold addFactory. rewrite (addFactory_fuel_eq 0). cbn [default from_option id].
    unfold write_factories, write_subsidiaries. repeat case_match; unfold id; auto with frame.
  - unfold updateFactory. rewrite (updateFactory_fuel_eq 0). cbn [default from_option id].
    unfold write_factories, write_subsidiaries. repeat case_match; unfold id; auto with frame.
  - unfold updateHubStatus. cbn zeta. repeat case_match; unfold id; auto with frame.
  - unfold updateSubsidiaryDetails. cbn zeta. repeat case_match; unfold id; auto with frame.
  - unfold updateHubStatus. cbn zeta. repeat case_match; now destruct st.
  - unfold updateSubsidiaryDetails. cbn zeta. repeat case_match; now destruct st.
Qed.

(* ===================================================================== *)
(** ** After a delete, the selection still names something *)
(* ===================================================================== *)

Lemma find_is_Some_iff {A} (P : A → Prop) `{∀ x, Decision (P x)} (l : list A) :
  is_Some (find P l) ↔ ∃ x, x ∈ l ∧ P x.
Proof.
  split.
  - intros [x Hx]. apply find_Some_elem in Hx. eauto.
  - intros (x & Hx & HP). eapply find_is_Some; eassumption.
Qed.

Lemma find_key_is_Some {A} (key : A → string) (k : string) (l : list A) :
  is_Some (find (λ x, key x = k) l) ↔ k ∈ key <$> l.
Proof.
  rewrite find_is_Some_iff, list_elem_of_fmap. split.
  - intros (x & Hx & <-). eauto.
  - intros (x & -> & Hx). eauto.
Qed.

Lemma normalizeSelection_is_Some (sel : FleetSelection) (st : Store) :
  is_Some (normalizeSelection sel st) ↔
  sel_id sel ∈ match sel_level sel with
               | Parent => group_id <$> _parentGroups st
               | Subsidiary => subsidiary_id <$> subsidiaries st
               | Factory => factory_id <$> factories st
               end.
Proof.
  unfold normalizeSelection. destruct (sel_level sel).
  - rewrite <- find_key_is_Some.
    destruct (find _ (_parentGroups st)); split; intros [x Hx]; try discriminate; eauto.
  - rewrite <- find_key_is_Some.
    destruct (find _ (subsidiaries st)); split; intros [x Hx]; try discriminate; eauto.
  - rewrite <- find_key_is_Some.
    destruct (find _ (factories st)); split; intros [x Hx]; try discriminate; eauto.
Qed.

Lemma owners_elem (factoryId : string) (groups : list ParentGroup)
    (group : ParentGroup) (subsidiary : SubsidiaryCompany) :
  (group, subsidiary) ∈ owners factoryId groups →
  group ∈ groups ∧ subsidiary ∈ group_subsidiaries group.
Proof.
  unfold owners. rewrite elem_of_flat_map. intros (g & Hg & Hin).
  apply list_elem_of_fmap in Hin as (s & [= -> ->] & Hs).
  apply list_elem_of_filter in Hs. tauto.
Qed.

Lemma deleteFactory_selected (factoryId : string) (st : Store) :
  _selectedEntity (deleteFactory factoryId st) =
  match last (owners factoryId (_parentGroups st)) with
  | None => _selectedEntity st
  | Some (group, subsidiary) =>
      match _selectedEntity st with
      | Some selection =>
          if decide (refers_to_factory factoryId selection) then
            if decide (subsidiary_id subsidiary = "") then
              if decide (group_id group = "") then None
              else Some (selection_of_parent (group_id group))
            else Some (selection_of_subsidiary (group_id group) (subsidiary_id subsidiary))
          else Some selection
      | None => None
      end
  end.
Proof.
  rewrite deleteFactory_eq.
  destruct (last (owners factoryId (_parentGroups st))) as [[group subsidiary]|];
    [|reflexivity].
  cbn zeta. destruct (_selectedEntity st) as [selection|] eqn:Hsel.
  - repeat case_decide; cbn; rewrite ?Hsel; reflexivity.
  - cbn. now rewrite Hsel.
Qed.

Lemma deleteFactory_resolvable (factoryId : string) (st : Store) :
  resolvable st → resolvable (deleteFactory factoryId st).
Proof.
  unfold resolvable. rewrite deleteFactory_selected.
  pose proof (deleteFactory_factories factoryId st) as Hfactories.
  pose proof (deleteFactory_subsidiary_ids factoryId st) as Hsubsidiaries.
  pose proof (deleteFactory_group_ids factoryId st) as Hgroups.
  destruct (last (owners factoryId (_parentGroups st))) as [[group subsidiary]|] eqn:Hlast.
  2: { rewrite deleteFactory_eq, Hlast. tauto. }
  assert (group ∈ _parentGroups st ∧ subsidiary ∈ group_subsidiaries group) as [Hg Hs].
  { apply (owners_elem factoryId). apply last_Some in Hlast as [l' ->].
    apply elem_of_app. right. now left. }
  destruct (_selectedEntity st) as [selection|]; [|tauto].
  rewrite !normalizeSelection_is_Some. intros Hbefore.
  destruct (decide (refers_to_factory factoryId selection)) as [Hrefers|Hno].
  - destruct (decide (subsidiary_id subsidiary = "")) as [Hempty|Hid].
    + destruct (decide (group_id group = "")); [exact I|].
      rewrite normalizeSelection_is_Some. cbn. rewrite Hgroups.
      apply list_elem_of_fmap. eauto.
    + rewrite normalizeSelection_is_Some. cbn. rewrite Hsubsidiaries.
      apply list_elem_of_fmap. exists subsidiary. split; [reflexivity|].
      apply elem_of_subsidiaries. eauto.
  - rewrite normalizeSelection_is_Some. destruct (sel_level selection).
    + now rewrite Hgroups.
    + now rewrite Hsubsidiaries.
    + rewrite Hfactories. apply list_elem_of_fmap in Hbefore as (f & Hid & Hf).
      apply list_elem_of_fmap. exists f. split; [exact Hid|].
      apply list_elem_of_filter. split; [|exact Hf].
      intros Heq. apply Hno. right. congruence.
Qed.

Lemma find_filter {A} (P Q : A → Prop) `{∀ x, Decision (P x)} `{∀ x, Decision (Q x)}
    (l : list A) (x : A) :
  find P l = Some x → Q x → find P (filter Q l) = Some x.
Proof.
  unfold find. induction l as [|y l IH]; [discriminate|].
  cbn [list_find]. rewrite filter_cons.
  destruct (decide (P y)) as [HP|HP].
  - intros [= ->] HQ. rewrite decide_True by exact HQ. cbn [list_find].
    now rewrite decide_True by exact HP.
  - intros Hfind HQ.
    assert (snd <$> list_find P l = Some x) as Hrest.
    { destruct (list_find P l) as [[i z]|]; [|discriminate]. exact Hfind. }
    specialize (IH Hrest HQ).
    destruct (decide (Q y)); [|exact IH].
    cbn [list_find]. rewrite decide_False by exact HP.
    destruct (list_find P (filter Q l)) as [[i z]|]; [|discriminate]. exact IH.
Qed.

Lemma find_flat_map_filter {A B} (P : B → Prop) `{∀ x, Decision (P x)}
    (Q : A → Prop) `{∀ x, Decision (Q x)} (f : A → list B) (l : list A) (y : B) :
  (∀ x, x ∈ l → y ∈ f x → Q x) →
  find P (flat_map f l) = Some y →
  find P (flat_map f (filter Q l)) = Some y.
Proof.
  unfold find. induction l as [|x l IH]; [discriminate|].
  intros Hholders. cbn [flat_map]. rewrite filter_cons.
  destruct (list_find P (f x)) as [[i z]|] eqn:Hfirst.
  - rewrite (list_find_app_l _ _ _ _ _ Hfirst). intros [= ->].
    assert (y ∈ f x) as Hy.
    { apply list_find_Some in Hfirst as (Hi & _). eapply list_elem_of_lookup_2; exact Hi. }
    rewrite decide_True by (apply Hholders; [now left|exact Hy]).
    cbn [flat_map]. now rewrite (list_find_app_l _ _ _ _ _ Hfirst).
  - rewrite (list_find_app_r _ _ _ Hfirst). intros Hrest.
    assert (snd <$> list_find P (flat_map f l) = Some y) as Hrest'.
    { destruct (list_find P (flat_map f l)) as [[i z]|]; [|discriminate]. exact Hrest. }
    assert (∀ x0, x0 ∈ l → y ∈ f x0 → Q x0) as Hholders'.
    { intros x0 Hx0. apply Hholders. now right. }
    specialize (IH Hholders' Hrest').
    destruct (decide (Q x)); [|exact IH].
    cbn [flat_map]. rewrite (list_find_app_r _ _ _ Hfirst).
    destruct (list_find P (flat_map f (filter Q l))) as [[i z]|]; [|discriminate].
    exact IH.
Qed.

Lemma find_by_key {A} (key : A → string) (k : string) (l l' : list A) (x : A) :
  key <$> l' = key <$> l →
  find (λ y, key y = k) l = Some x →
  ∃ x', find (λ y, key y = k) l' = Some x' ∧ key x' = k.
Proof.
  intros Hkeys Hfind.
  assert (is_Some (find (λ y, key y = k) l')) as [x' Hx'].
  { apply find_key_is_Some. rewrite Hkeys. apply find_key_is_Some. eauto. }
  exists x'. split; [exact Hx'|]. apply find_Some_elem in Hx'. tauto.
Qed.

Lemma deleteSubsidiary_lists (subsidiaryId : string) (st : Store) :
  let st' := deleteSubsidiary subsidiaryId st in
  group_id <$> _parentGroups st' = group_id <$> _parentGroups st ∧
  subsidiaries st' =
    filter (λ s, subsidiary_id s ≠ subsidiaryId) (subsidiaries st).
Proof.
  cbn zeta. unfold deleteSubsidiary. cbn zeta.
  destruct (find _ (subsidiaries st)) as [removed|] eqn:Hfind.
  - match goal with
    | |- context [set_parentGroups ?gs st] =>
        assert (∀ st', _parentGroups st' = gs →
                  group_id <$> _parentGroups st' = group_id <$> _parentGroups st ∧
                  subsidiaries st' =
                    filter (λ s, subsidiary_id s ≠ subsidiaryId) (subsidiaries st)) as Hlists
    end.
    { intros st' Hst'. unfold subsidiaries. rewrite Hst'. split.
      - rewrite <- list_fmap_compose. apply list_fmap_ext. intros i g _.
        apply (deleteSubsidiary_groups subsidiaryId g).
      - rewrite flat_map_fmap, filter_flat_map. apply flat_map_ext'. intros g.
        apply (deleteSubsidiary_groups subsidiaryId g). }
    apply Hlists. repeat case_match; reflexivity.
  - split; [reflexivity|]. symmetry.
    assert (Forall (λ s, subsidiary_id s ≠ subsidiaryId) (subsidiaries st)) as Hall.
    { unfold find in Hfind.
      destruct (list_find _ (subsidiaries st)) as [[i s]|] eqn:Hlf; [discriminate|].
      apply list_find_None in Hlf. exact Hlf. }
    revert Hall. generalize (subsidiaries st).
    induction 1 as [|s l Hs _ IH]; [reflexivity|].
    rewrite filter_cons, decide_True by exact Hs. now rewrite IH.
Qed.

Lemma deleteSubsidiary_selected (subsidiaryId : string) (st : Store) :
  _selectedEntity (deleteSubsidiary subsidiaryId st) =
  match find (λ s, subsidiary_id s = subsidiaryId) (subsidiaries st), _selectedEntity st with
  | Some removed, Some selection =>
      if decide (refers_to_subsidiary subsidiaryId selection) then
        if decide (subsidiary_parentGroupId removed = "") then None
        else Some (selection_of_parent (subsidiary_parentGroupId removed))
      else Some selection
  | _, selected => selected
  end.
Proof.
  unfold deleteSubsidiary. cbn zeta.
  destruct (find _ (subsidiaries st)) as [removed|]; [|now destruct (_selectedEntity st)].
  cbn [_selectedEntity set_activityLogs set_parentGroups].
  destruct (_selectedEntity st) as [selection|] eqn:Hsel; [|cbn; now rewrite Hsel].
  unfold refers_to_subsidiary, truthy_str.
  destruct (decide (sel_subsidiaryId selection = Some subsidiaryId ∨
                    sel_id selection = subsidiaryId)) as [Hrefers|Hno].
  - assert (bool_decide (sel_subsidiaryId selection = Some subsidiaryId) ||
            bool_decide (sel_id selection = subsidiaryId) = true) as ->.
    { apply orb_true_iff. rewrite !bool_decide_eq_true. exact Hrefers. }
    destruct (decide (subsidiary_parentGroupId removed = "")) as [Hempty|Hid].
    + rewrite Hempty. reflexivity.
    + cbn. rewrite bool_decide_eq_false_2 by exact Hid. reflexivity.
  - assert (bool_decide (sel_subsidiaryId selection = Some subsidiaryId) ||
            bool_decide (sel_id selection = subsidiaryId) = false) as ->.
    { apply orb_false_iff. rewrite !bool_decide_eq_false. tauto. }
    cbn. now rewrite Hsel.
Qed.

Lemma deleteSubsidiary_well_formed (subsidiaryId : string) (st : Store) :
  well_formed st → well_formed (deleteSubsidiary subsidiaryId st).
Proof.
  intros [Hparents Hholders].
  destruct (deleteSubsidiary_lists subsidiaryId st) as [Hgroups Hsubsidiaries].
  split.
  - intros s Hs. rewrite Hsubsidiaries in Hs. apply list_elem_of_filter in Hs as [_ Hs].
    destruct (Hparents s Hs) as (g & Hg & Hid).
    assert (group_id g ∈ group_id <$> _parentGroups (deleteSubsidiary subsidiaryId st))
      as Hin.
    { rewrite Hgroups. apply list_elem_of_fmap. eauto. }
    apply list_elem_of_fmap in Hin as (g' & Hid' & Hg'). exists g'. split; [exact Hg'|].
    congruence.
  - intros s f Hs. rewrite Hsubsidiaries in Hs. apply list_elem_of_filter in Hs as [_ Hs].
    now apply Hholders.
Qed.

Lemma deleteSubsidiary_settled (subsidiaryId : string) (st : Store) :
  well_formed st → settled st → settled (deleteSubsidiary subsidiaryId st).
Proof.
  intros [Hparents Hholders]. unfold settled. rewrite deleteSubsidiary_selected.
  destruct (deleteSubsidiary_lists subsidiaryId st) as [Hgroups Hsubsidiaries].
  destruct (find _ (subsidiaries st)) as [removed|] eqn:Hfind.
  2: { assert (deleteSubsidiary subsidiaryId st = st) as ->; [|tauto].
       unfold deleteSubsidiary. cbn zeta. now rewrite Hfind. }
  destruct (_selectedEntity st) as [selection|]; [|tauto].
  intros Hsettled.
  destruct (decide (refers_to_subsidiary subsidiaryId selection)) as [Hrefers|Hno].
  - destruct (decide (subsidiary_parentGroupId removed = "")); [exact I|].
    apply find_Some_elem in Hfind as [Hremoved _].
    destruct (Hparents removed Hremoved) as (g & Hg & Hid).
    destruct (find_is_Some (λ x, group_id x = subsidiary_parentGroupId removed)
                (_parentGroups st) g Hg Hid) as [g0 Hg0].
    destruct (find_by_key group_id _ _ _ _ Hgroups Hg0) as (g' & Hg' & Hid').
    unfold normalizeSelection, selection_of_parent. cbn. rewrite Hg', Hid'. reflexivity.
  - assert (sel_subsidiaryId selection ≠ Some subsidiaryId ∧
            sel_id selection ≠ subsidiaryId) as [Hsub Hid].
    { unfold refers_to_subsidiary in Hno. tauto. }
    unfold normalizeSelection in *. destruct (sel_level selection).
    + destruct (find _ (_parentGroups st)) as [parent|] eqn:Hparent; [|discriminate].
      destruct (find_by_key group_id _ _ _ _ Hgroups Hparent) as (g' & Hg' & Hid').
      rewrite Hg', Hid'. rewrite <- Hsettled.
      apply find_Some_elem in Hparent as [_ ->]. reflexivity.
    + destruct (find (λ sub, subsidiary_id sub = sel_id selection) (subsidiaries st))
        as [s|] eqn:Hs; [|discriminate].
      rewrite Hsubsidiaries.
      rewrite (find_filter (λ sub, subsidiary_id sub = sel_id selection)
                 (λ s, subsidiary_id s ≠ subsidiaryId) _ s Hs);
        [exact Hsettled|].
      apply find_Some_elem in Hs as [_ ->]. exact Hid.
    + destruct (find _ (factories st)) as [f|] eqn:Hf; [|discriminate].
      unfold factories in *. rewrite Hsubsidiaries.
      rewrite (find_flat_map_filter (λ fac, factory_id fac = sel_id selection)
                 (λ s, subsidiary_id s ≠ subsidiaryId) subsidiary_factories _ f);
        [exact Hsettled| |exact Hf].
      intros s Hs Hin. rewrite <- (Hholders s f Hs Hin).
      intros Heq. apply Hsub. injection Hsettled as <-. cbn. now rewrite Heq.
Qed.

(** X30.  A delete does not leave the selection pointing at nothing.
    After [deleteFactory], a selection that named an entity of the
    hierarchy still names one.  After [deleteSubsidiary], in a hierarchy
    where every subsidiary records the id of a group of the store and
    every factory the id of the subsidiary that holds it, the hierarchy is
    still of that kind, and a selection stored as [normalizeSelection]
    returns it is still stored so. *)
Theorem deletes_keep_selection (id : string) (st : Store) :
  (resolvable st → resolvable (deleteFactory id st)) ∧
  (well_formed st → settled st →
     well_formed (deleteSubsidiary id st) ∧ settled (deleteSubsidiary id st)).
Proof.
  split; [apply deleteFactory_resolvable|].
  intros Hwf Hsettled. split.
  - now apply deleteSubsidiary_well_formed.
  - now apply deleteSubsidiary_settled.
Qed.

Lemma deletes_keep_selection_witness :
  resolvable (deleteFactory "placed" subsidiary_view_store) ∧
  well_formed (deleteSubsidiary "s1" subsidiary_view_store) ∧
  settled (deleteSubsidiary "s1" subsidiary_view_store).
Proof.
  split.
  - apply (proj1 (deletes_keep_selection "placed" subsidiary_view_store)).
    exists subsidiary_selection. reflexivity.
  - apply (proj2 (deletes_keep_selection "s1" subsidiary_view_store)); [|reflexivity].
    split.
    + intros s Hs. apply list_elem_of_singleton in Hs as ->.
      exists sample_group. split; [now left|reflexivity].
    + intros s f Hs Hf. apply list_elem_of_singleton in Hs as ->.
      apply elem_of_cons in Hf as [->|Hf]; [reflexivity|].
      apply list_elem_of_singleton in Hf as ->. reflexivity.
Defined.
